(** * The update queue and expiration-time scheduling core of the reconciler

    A shallow embedding of
    - [ReactFiberExpirationTime.js]: the expiration clock,
    - [ReactFiberRoot.js]: the pending / suspended / expired ranges of a root,
    - [ReactUpdateQueue.js]: the per-fiber queue of prioritised updates,
    - [SchedulerWithReactIntegration.js]: the synchronous callback queue,
    together with the properties the specification states about them. *)

From Stdlib Require Import ZArith Lia Bool List.
From stdpp Require Import base option list gmap strings.

(** ** ReactFiberExpirationTime.js *)

Module ReactFiberExpirationTime.
Local Open Scope Z_scope.

(** Modelled from the spec: the module [maxSigned31BitInt] that exports this
    constant is missing from the sources.  The spec calls [Sync] the maximum
    expiration time; the comment next to the definition of [Sync] records the
    value, 1073741823 = 2^30 - 1. *)
Definition MAX_SIGNED_31_BIT_INT : Z := 1073741823.

Definition NoWork : Z := 0.
Definition Never : Z := 1.
Definition Idle : Z := 2.
Definition ContinuousHydration : Z := 3.
Definition Sync : Z := MAX_SIGNED_31_BIT_INT.
Definition Batched : Z := Sync - 1.

Definition UNIT_SIZE : Z := 10.
Definition MAGIC_NUMBER_OFFSET : Z := Batched - 1.

(** JavaScript's [x | 0] on a number that is already an integer: ToInt32, the
    value reduced modulo 2^32 into the signed 32-bit range. *)
Definition toInt32 (x : Z) : Z := (x + 2 ^ 31) mod 2 ^ 32 - 2 ^ 31.

(** [(a / b) | 0] for integral [a] and [b]: the quotient is truncated toward
    zero ([Z.quot]) and then wrapped.  A fractional part of [a] would be
    discarded by the truncation as well, so integral arguments lose nothing.
    The source divides doubles: for operands of magnitude below 2^53 the
    rounded quotient truncates to the integer quotient, beyond that it need
    not, and the statements below keep their arguments in that range. *)
Definition truncatingDiv (a b : Z) : Z := toInt32 (a ÷ b).

Definition msToExpirationTime (ms : Z) : Z :=
  MAGIC_NUMBER_OFFSET - truncatingDiv ms UNIT_SIZE.

Definition expirationTimeToMs (expirationTime : Z) : Z :=
  (MAGIC_NUMBER_OFFSET - expirationTime) * UNIT_SIZE.

Definition ceiling (num precision : Z) : Z :=
  (truncatingDiv num precision + 1) * precision.

(** The two quotients by [UNIT_SIZE] are plain (untruncated) divisions in the
    source; they are exact for every window and bucket size this module
    passes (150, 500, 5000, 100 and 250 ms). *)
Definition computeExpirationBucket
    (currentTime expirationInMs bucketSizeMs : Z) : Z :=
  MAGIC_NUMBER_OFFSET -
  ceiling (MAGIC_NUMBER_OFFSET - currentTime + expirationInMs / UNIT_SIZE)
          (bucketSizeMs / UNIT_SIZE).

Definition LOW_PRIORITY_EXPIRATION : Z := 5000.
Definition LOW_PRIORITY_BATCH_SIZE : Z := 250.

Definition computeAsyncExpiration (currentTime : Z) : Z :=
  computeExpirationBucket currentTime LOW_PRIORITY_EXPIRATION
                          LOW_PRIORITY_BATCH_SIZE.

Definition computeSuspenseExpiration (currentTime timeoutMs : Z) : Z :=
  computeExpirationBucket currentTime timeoutMs LOW_PRIORITY_BATCH_SIZE.

(** [__DEV__] is a build-time constant; it is a parameter here. *)
Definition HIGH_PRIORITY_EXPIRATION (__DEV__ : bool) : Z :=
  if __DEV__ then 500 else 150.
Definition HIGH_PRIORITY_BATCH_SIZE : Z := 100.

Definition computeInteractiveExpiration (__DEV__ : bool) (currentTime : Z) : Z :=
  computeExpirationBucket currentTime (HIGH_PRIORITY_EXPIRATION __DEV__)
                          HIGH_PRIORITY_BATCH_SIZE.

(** The bucket of the specification: the deadline [currentTime + window],
    measured in milliseconds, falls into the bucket of width
    [HIGH_PRIORITY_BATCH_SIZE] with this index. *)
Definition interactiveBucket (__DEV__ : bool) (currentTime : Z) : Z :=
  (expirationTimeToMs currentTime + HIGH_PRIORITY_EXPIRATION __DEV__)
    / HIGH_PRIORITY_BATCH_SIZE.

(** An expiration time proper lies between [NoWork] and [Sync]. *)
Definition isExpirationTime (t : Z) : Prop := NoWork <= t <= Sync.

(** The first timestamp whose tenth no longer fits a signed 32-bit integer. *)
Definition msOverflow : Z := UNIT_SIZE * 2 ^ 31.

End ReactFiberExpirationTime.

(** ** ReactFiberRoot.js *)

Module ReactFiberRoot.
Import ReactFiberExpirationTime.
Local Open Scope Z_scope.

(** The scheduling fields of a [FiberRoot].  The remaining fields (container,
    fibers, timer handle, contexts) are not read or written by the range
    operations below. *)
Record FiberRoot : Type := mkFiberRoot {
  finishedExpirationTime : Z;
  callbackExpirationTime : Z;
  firstPendingTime : Z;
  firstSuspendedTime : Z;
  lastSuspendedTime : Z;
  nextKnownPendingLevel : Z;
  lastPingedTime : Z;
  lastExpiredTime : Z
}.

Definition set_firstPendingTime (v : Z) (r : FiberRoot) : FiberRoot :=
  mkFiberRoot (finishedExpirationTime r) (callbackExpirationTime r) v
    (firstSuspendedTime r) (lastSuspendedTime r) (nextKnownPendingLevel r)
    (lastPingedTime r) (lastExpiredTime r).
Definition set_firstSuspendedTime (v : Z) (r : FiberRoot) : FiberRoot :=
  mkFiberRoot (finishedExpirationTime r) (callbackExpirationTime r)
    (firstPendingTime r) v (lastSuspendedTime r) (nextKnownPendingLevel r)
    (lastPingedTime r) (lastExpiredTime r).
Definition set_lastSuspendedTime (v : Z) (r : FiberRoot) : FiberRoot :=
  mkFiberRoot (finishedExpirationTime r) (callbackExpirationTime r)
    (firstPendingTime r) (firstSuspendedTime r) v (nextKnownPendingLevel r)
    (lastPingedTime r) (lastExpiredTime r).
Definition set_nextKnownPendingLevel (v : Z) (r : FiberRoot) : FiberRoot :=
  mkFiberRoot (finishedExpirationTime r) (callbackExpirationTime r)
    (firstPendingTime r) (firstSuspendedTime r) (lastSuspendedTime r) v
    (lastPingedTime r) (lastExpiredTime r).
Definition set_lastPingedTime (v : Z) (r : FiberRoot) : FiberRoot :=
  mkFiberRoot (finishedExpirationTime r) (callbackExpirationTime r)
    (firstPendingTime r) (firstSuspendedTime r) (lastSuspendedTime r)
    (nextKnownPendingLevel r) v (lastExpiredTime r).
Definition set_lastExpiredTime (v : Z) (r : FiberRoot) : FiberRoot :=
  mkFiberRoot (finishedExpirationTime r) (callbackExpirationTime r)
    (firstPendingTime r) (firstSuspendedTime r) (lastSuspendedTime r)
    (nextKnownPendingLevel r) (lastPingedTime r) v.

(** The time fields as [FiberRootNode] initialises them. *)
Definition FiberRootNode : FiberRoot :=
  mkFiberRoot NoWork NoWork NoWork NoWork NoWork NoWork NoWork NoWork.

Definition isRootSuspendedAtTime (root : FiberRoot) (expirationTime : Z) : bool :=
  let firstSuspendedTime := firstSuspendedTime root in
  let lastSuspendedTime := lastSuspendedTime root in
  negb (firstSuspendedTime =? NoWork)
  && (firstSuspendedTime >=? expirationTime)
  && (lastSuspendedTime <=? expirationTime).

Definition markRootSuspendedAtTime (root : FiberRoot) (expirationTime : Z)
    : FiberRoot :=
  let firstSuspendedTime := firstSuspendedTime root in
  let lastSuspendedTime := lastSuspendedTime root in
  let root :=
    if firstSuspendedTime <? expirationTime
    then set_firstSuspendedTime expirationTime root else root in
  let root :=
    if (lastSuspendedTime >? expirationTime) || (firstSuspendedTime =? NoWork)
    then set_lastSuspendedTime expirationTime root else root in
  let root :=
    if expirationTime <=? lastPingedTime root
    then set_lastPingedTime NoWork root else root in
  if expirationTime <=? lastExpiredTime root
  then set_lastExpiredTime NoWork root else root.

Definition markRootUpdatedAtTime (root : FiberRoot) (expirationTime : Z)
    : FiberRoot :=
  (* Update the range of pending times *)
  let firstPendingTime := firstPendingTime root in
  let root :=
    if expirationTime >? firstPendingTime
    then set_firstPendingTime expirationTime root else root in
  (* Update the range of suspended times *)
  let firstSuspendedTime := firstSuspendedTime root in
  if negb (firstSuspendedTime =? NoWork) then
    let root :=
      if expirationTime >=? firstSuspendedTime then
        (* chained assignment, evaluated right to left *)
        set_firstSuspendedTime NoWork
          (set_lastSuspendedTime NoWork
             (set_nextKnownPendingLevel NoWork root))
      else if expirationTime >=? lastSuspendedTime root then
        set_lastSuspendedTime (expirationTime + 1) root
      else root in
    (* This is a pending level. *)
    if expirationTime >? nextKnownPendingLevel root
    then set_nextKnownPendingLevel expirationTime root else root
  else root.

Definition markRootFinishedAtTime
    (root : FiberRoot) (finishedExpirationTime remainingExpirationTime : Z)
    : FiberRoot :=
  let root := set_firstPendingTime remainingExpirationTime root in
  let root :=
    if finishedExpirationTime <=? lastSuspendedTime root then
      set_firstSuspendedTime NoWork
        (set_lastSuspendedTime NoWork
           (set_nextKnownPendingLevel NoWork root))
    else if finishedExpirationTime <=? firstSuspendedTime root then
      set_firstSuspendedTime (finishedExpirationTime - 1) root
    else root in
  let root :=
    if finishedExpirationTime <=? lastPingedTime root
    then set_lastPingedTime NoWork root else root in
  if finishedExpirationTime <=? lastExpiredTime root
  then set_lastExpiredTime NoWork root else root.

Definition markRootExpiredAtTime (root : FiberRoot) (expirationTime : Z)
    : FiberRoot :=
  let lastExpiredTime := lastExpiredTime root in
  if (lastExpiredTime =? NoWork) || (lastExpiredTime >? expirationTime)
  then set_lastExpiredTime expirationTime root else root.

(** A root with the pending level 100, the levels 80 to 90 suspended, a
    ping at 88 and an expiry at 86. *)
Definition exampleSuspendedRoot : FiberRoot :=
  mkFiberRoot NoWork NoWork 100 90 80 NoWork 88 86.

(** The suspended range of a root is in order: it is empty, both ends being
    [NoWork], or its ends are expiration times with
    [lastSuspendedTime <= firstSuspendedTime]. *)
Definition suspendedRangeInOrder (root : FiberRoot) : Prop :=
  (firstSuspendedTime root = NoWork /\ lastSuspendedTime root = NoWork)
  \/ NoWork < lastSuspendedTime root <= firstSuspendedTime root.

End ReactFiberRoot.

(** ** ReactSideEffectTags.js and ReactTypeOfMode.js *)

Module ReactSideEffectTags.
Local Open Scope Z_scope.
Definition NoEffect : Z := 0.
Definition PerformedWork : Z := 1.
Definition Callback : Z := 32.
Definition DidCapture : Z := 64.
Definition Incomplete : Z := 2048.
Definition ShouldCapture : Z := 4096.
End ReactSideEffectTags.

Module ReactTypeOfMode.
Local Open Scope Z_scope.
Definition NoMode : Z := 0.
Definition StrictMode : Z := 1.
End ReactTypeOfMode.

(** ** ReactUpdateQueue.js *)

Module ReactUpdateQueue.
Import ReactFiberExpirationTime.

(** *** Values

    The states, props and instances the queue handles are JavaScript values.
    The model has the primitives without own enumerable properties and plain
    objects; strings, arrays and accessor properties are left out. *)

#[warnings="-register-all"]
Inductive value : Type :=
| VUndefined
| VNull
| VBool (b : bool)
| VNum (n : Z)
| VObj (fields : gmap string value).

(** The own enumerable properties [Object.assign] copies from a source:
    those of an object, none for [null], [undefined] and primitives. *)
Definition ownProperties (v : value) : gmap string value :=
  match v with
  | VObj fields => fields
  | _ => ∅
  end.

(** One step of [Object.assign]: every property of [source] is written onto
    [target], replacing a property of the same name. *)
Definition assignFrom (source : value) (target : gmap string value)
    : gmap string value :=
  ownProperties source ∪ target.

(** [Object.assign({}, a, b)]. *)
Definition Object_assign (a b : value) : value :=
  VObj (assignFrom b (assignFrom a ∅)).

(** The field [k] of a value as the specification reads it: an object has
    the fields it holds, [null], [undefined] and the primitives have none. *)
Definition fieldOf (v : value) (k : string) : option value :=
  match v with
  | VObj fields => fields !! k
  | VUndefined | VNull | VBool _ | VNum _ => None
  end.

(** The object literal [{...a, ...b}] of the specification, property by
    property: a field of [b] wins, any other field comes from [a]. *)
Definition spreadLookup (a b : value) (k : string) : option value :=
  match fieldOf b k with
  | Some v => Some v
  | None => fieldOf a k
  end.

(** *** Heap objects *)

(** References are indices into the arenas of the store. *)
Abbreviation loc := nat (only parsing).

Record SuspenseConfig : Type := mkSuspenseConfig {
  timeoutMs : Z;
  busyDelayMs : option Z;
  busyMinDurationMs : option Z
}.

Inductive UpdateTag : Type :=
| UpdateState      (* 0 *)
| ReplaceState     (* 1 *)
| ForceUpdate      (* 2 *)
| CaptureUpdate.   (* 3 *)

(** [payload: any]: a value, or an updater function, which is called as
    [payload.call(instance, prevState, nextProps)].  Updater functions are
    pure. *)
Inductive Payload : Type :=
| PayloadValue (v : value)
| PayloadFunction (f : value -> value -> value -> value).

(** [callback: (() => mixed) | null].  A function is known by an identifier
    and by whether calling it throws; anything else that is not [null] fails
    the check of [callCallback]. *)
Inductive CallbackValue : Type :=
| CallbackFunction (id : nat) (throws : bool)
| CallbackNotFunction (v : value).

Module Update.
Record t : Type := mk {
  expirationTime : Z;
  suspenseConfig : option SuspenseConfig;
  tag : UpdateTag;
  payload : Payload;
  callback : option CallbackValue;
  next : option loc;
  priority : option Z   (* DEV only *)
}.
Definition with_next (n : option loc) (u : t) : t :=
  mk (expirationTime u) (suspenseConfig u) (tag u) (payload u) (callback u)
     n (priority u).
Definition with_callback (c : option CallbackValue) (u : t) : t :=
  mk (expirationTime u) (suspenseConfig u) (tag u) (payload u) c
     (next u) (priority u).
Definition with_priority (p : option Z) (u : t) : t :=
  mk (expirationTime u) (suspenseConfig u) (tag u) (payload u) (callback u)
     (next u) p.
End Update.

Module SharedQueue.
Record t : Type := mk { pending : option loc }.
End SharedQueue.

Module UpdateQueue.
Record t : Type := mk {
  baseState : value;
  baseQueue : option loc;
  shared : loc;
  effects : option loc
}.
Definition with_baseState (s : value) (q : t) : t :=
  mk s (baseQueue q) (shared q) (effects q).
Definition with_baseQueue (b : option loc) (q : t) : t :=
  mk (baseState q) b (shared q) (effects q).
Definition with_effects (e : option loc) (q : t) : t :=
  mk (baseState q) (baseQueue q) (shared q) e.
End UpdateQueue.

(** The fields of a [Fiber] that the update queue reads or writes. *)
Module Fiber.
Record t : Type := mk {
  updateQueue : option loc;
  alternate : option loc;
  memoizedState : value;
  expirationTime : Z;
  effectTag : Z;
  mode : Z
}.
Definition with_updateQueue (q : option loc) (f : t) : t :=
  mk q (alternate f) (memoizedState f) (expirationTime f) (effectTag f)
     (mode f).
Definition with_memoizedState (s : value) (f : t) : t :=
  mk (updateQueue f) (alternate f) s (expirationTime f) (effectTag f)
     (mode f).
Definition with_expirationTime (e : Z) (f : t) : t :=
  mk (updateQueue f) (alternate f) (memoizedState f) e (effectTag f)
     (mode f).
Definition with_effectTag (e : Z) (f : t) : t :=
  mk (updateQueue f) (alternate f) (memoizedState f) (expirationTime f) e
     (mode f).
End Fiber.

(** Modelled from the spec: [ReactFiberWorkLoop] is missing from the sources;
    the spec describes [markRenderEventTimeAndConfig] and
    [markUnprocessedUpdateTime] as setters without a return value.  Their
    calls are recorded in the order they are made. *)
Inductive WorkLoopCall : Type :=
| MarkRenderEventTimeAndConfig (expirationTime : Z)
                               (suspenseConfig : option SuspenseConfig)
| MarkUnprocessedUpdateTime (expirationTime : Z).

(** A callback that has been called: the update object it was taken from, the
    callback and the [this] it was called with. *)
Record Invocation : Type := mkInvocation {
  invokedEffect : loc;
  invokedCallback : CallbackValue;
  invokedContext : value
}.

(** *** The store

    Objects live in arenas and are referred to by their index, so that two
    references to one object see each other's writes.  The module-level
    variables of the source are fields of the store as well. *)
Record Store : Type := mkStore {
  fibers : list Fiber.t;
  queues : list UpdateQueue.t;
  sharedQueues : list SharedQueue.t;
  updates : list Update.t;
  arrays : list (list loc);
  hasForceUpdate : bool;
  didWarnUpdateInsideUpdate : bool;          (* DEV only *)
  currentlyProcessingQueue : option loc;     (* DEV only *)
  consoleErrors : nat;
  workLoopCalls : list WorkLoopCall;
  invocations : list Invocation
}.

Definition emptyStore : Store :=
  mkStore [] [] [] [] [] false false None 0 [] [].

Definition map_fibers (f : list Fiber.t -> list Fiber.t) (σ : Store) : Store :=
  mkStore (f (fibers σ)) (queues σ) (sharedQueues σ) (updates σ) (arrays σ)
    (hasForceUpdate σ) (didWarnUpdateInsideUpdate σ)
    (currentlyProcessingQueue σ) (consoleErrors σ) (workLoopCalls σ)
    (invocations σ).
Definition map_queues (f : list UpdateQueue.t -> list UpdateQueue.t)
    (σ : Store) : Store :=
  mkStore (fibers σ) (f (queues σ)) (sharedQueues σ) (updates σ) (arrays σ)
    (hasForceUpdate σ) (didWarnUpdateInsideUpdate σ)
    (currentlyProcessingQueue σ) (consoleErrors σ) (workLoopCalls σ)
    (invocations σ).
Definition map_sharedQueues (f : list SharedQueue.t -> list SharedQueue.t)
    (σ : Store) : Store :=
  mkStore (fibers σ) (queues σ) (f (sharedQueues σ)) (updates σ) (arrays σ)
    (hasForceUpdate σ) (didWarnUpdateInsideUpdate σ)
    (currentlyProcessingQueue σ) (consoleErrors σ) (workLoopCalls σ)
    (invocations σ).
Definition map_updates (f : list Update.t -> list Update.t) (σ : Store)
    : Store :=
  mkStore (fibers σ) (queues σ) (sharedQueues σ) (f (updates σ)) (arrays σ)
    (hasForceUpdate σ) (didWarnUpdateInsideUpdate σ)
    (currentlyProcessingQueue σ) (consoleErrors σ) (workLoopCalls σ)
    (invocations σ).
Definition map_arrays (f : list (list loc) -> list (list loc)) (σ : Store)
    : Store :=
  mkStore (fibers σ) (queues σ) (sharedQueues σ) (updates σ) (f (arrays σ))
    (hasForceUpdate σ) (didWarnUpdateInsideUpdate σ)
    (currentlyProcessingQueue σ) (consoleErrors σ) (workLoopCalls σ)
    (invocations σ).
Definition set_hasForceUpdate (b : bool) (σ : Store) : Store :=
  mkStore (fibers σ) (queues σ) (sharedQueues σ) (updates σ) (arrays σ)
    b (didWarnUpdateInsideUpdate σ)
    (currentlyProcessingQueue σ) (consoleErrors σ) (workLoopCalls σ)
    (invocations σ).
Definition set_didWarnUpdateInsideUpdate (b : bool) (σ : Store) : Store :=
  mkStore (fibers σ) (queues σ) (sharedQueues σ) (updates σ) (arrays σ)
    (hasForceUpdate σ) b
    (currentlyProcessingQueue σ) (consoleErrors σ) (workLoopCalls σ)
    (invocations σ).
Definition set_currentlyProcessingQueue (q : option loc) (σ : Store) : Store :=
  mkStore (fibers σ) (queues σ) (sharedQueues σ) (updates σ) (arrays σ)
    (hasForceUpdate σ) (didWarnUpdateInsideUpdate σ)
    q (consoleErrors σ) (workLoopCalls σ)
    (invocations σ).
Definition set_consoleErrors (n : nat) (σ : Store) : Store :=
  mkStore (fibers σ) (queues σ) (sharedQueues σ) (updates σ) (arrays σ)
    (hasForceUpdate σ) (didWarnUpdateInsideUpdate σ)
    (currentlyProcessingQueue σ) n (workLoopCalls σ)
    (invocations σ).
Definition map_workLoopCalls (f : list WorkLoopCall -> list WorkLoopCall)
    (σ : Store) : Store :=
  mkStore (fibers σ) (queues σ) (sharedQueues σ) (updates σ) (arrays σ)
    (hasForceUpdate σ) (didWarnUpdateInsideUpdate σ)
    (currentlyProcessingQueue σ) (consoleErrors σ) (f (workLoopCalls σ))
    (invocations σ).
Definition map_invocations (f : list Invocation -> list Invocation)
    (σ : Store) : Store :=
  mkStore (fibers σ) (queues σ) (sharedQueues σ) (updates σ) (arrays σ)
    (hasForceUpdate σ) (didWarnUpdateInsideUpdate σ)
    (currentlyProcessingQueue σ) (consoleErrors σ) (workLoopCalls σ)
    (f (invocations σ)).

(** *** Computations

    A call returns, throws, or (for the loops, which follow pointers) runs
    out of the steps it was given. *)

Inductive Error : Type :=
| TypeError                              (* a property of null was accessed *)
| InvariantViolation (message : string)
| CallbackError (id : nat).              (* thrown by the callback [id] *)

Inductive Result (A : Type) : Type :=
| Returned (a : A) (σ : Store)
| Thrown (e : Error) (σ : Store)
| OutOfFuel.
Arguments Returned {A} a σ.
Arguments Thrown {A} e σ.
Arguments OutOfFuel {A}.

Definition M (A : Type) : Type := Store -> Result A.

Definition ret {A : Type} (a : A) : M A := fun σ => Returned a σ.

Definition bind {A B : Type} (m : M A) (k : A -> M B) : M B :=
  fun σ =>
    match m σ with
    | Returned a σ' => k a σ'
    | Thrown e σ' => Thrown e σ'
    | OutOfFuel => OutOfFuel
    end.

Definition throw {A : Type} (e : Error) : M A := fun σ => Thrown e σ.

Definition modify (f : Store -> Store) : M unit := fun σ => Returned tt (f σ).

Notation "'let!' x ':=' m 'in' k" := (bind m (fun x => k))
  (at level 10, x pattern, m at level 100, k at level 200,
   format "'[v' 'let!'  x  ':='  m  'in' '/' k ']'").
Notation "m ';;' k" := (bind m (fun _ => k))
  (at level 100, k at level 200, right associativity).

Section Arena.
Context {A : Type}.
Variable get : Store -> list A.
Variable map : (list A -> list A) -> Store -> Store.

(** Reading through a reference; [null] has no properties. *)
Definition load (p : option loc) : M A :=
  fun σ =>
    match p with
    | Some l =>
        match get σ !! l with
        | Some x => Returned x σ
        | None => Thrown TypeError σ
        end
    | None => Thrown TypeError σ
    end.

(** Writing the fields of the referenced object. *)
Definition mutate (p : option loc) (f : A -> A) : M unit :=
  fun σ =>
    match p with
    | Some l =>
        match get σ !! l with
        | Some x => Returned tt (map (fun xs => <[l := f x]> xs) σ)
        | None => Thrown TypeError σ
        end
    | None => Thrown TypeError σ
    end.

(** A new object, with a reference no older object has. *)
Definition alloc (x : A) : M loc :=
  fun σ => Returned (length (get σ)) (map (fun xs => xs ++ [x]) σ).
End Arena.

Definition loadFiber := load fibers.
Definition mutateFiber := mutate fibers map_fibers.
Definition loadQueue := load queues.
Definition mutateQueue := mutate queues map_queues.
Definition allocQueue := alloc queues map_queues.
Definition loadShared := load sharedQueues.
Definition mutateShared := mutate sharedQueues map_sharedQueues.
Definition allocShared := alloc sharedQueues map_sharedQueues.
Definition loadUpdate := load updates.
Definition mutateUpdate := mutate updates map_updates.
Definition allocUpdate := alloc updates map_updates.
Definition loadArray := load arrays.
Definition mutateArray := mutate arrays map_arrays.
Definition allocArray := alloc arrays map_arrays.

Definition markRenderEventTimeAndConfig
    (expirationTime : Z) (suspenseConfig : option SuspenseConfig) : M unit :=
  modify (map_workLoopCalls
            (fun t => t ++ [MarkRenderEventTimeAndConfig expirationTime
                                                         suspenseConfig])).

Definition markUnprocessedUpdateTime (expirationTime : Z) : M unit :=
  modify (map_workLoopCalls
            (fun t => t ++ [MarkUnprocessedUpdateTime expirationTime])).

(** *** The operations of the module *)

Section Operations.

(** [__DEV__] is a build-time constant; it is a parameter of the model. *)
Variable __DEV__ : bool.

Definition initializeUpdateQueue (fiber : loc) : M unit :=
  let! f := loadFiber (Some fiber) in
  let! sharedQueue := allocShared (SharedQueue.mk None) in
  let! queue :=
    allocQueue (UpdateQueue.mk (Fiber.memoizedState f) None sharedQueue None) in
  mutateFiber (Some fiber) (Fiber.with_updateQueue (Some queue)).

Definition cloneUpdateQueue (current workInProgress : loc) : M unit :=
  let! wip := loadFiber (Some workInProgress) in
  let queue := Fiber.updateQueue wip in
  let! cur := loadFiber (Some current) in
  let currentQueue := Fiber.updateQueue cur in
  if decide (queue = currentQueue) then
    let! cq := loadQueue currentQueue in
    let! clone :=
      allocQueue (UpdateQueue.mk (UpdateQueue.baseState cq)
                                 (UpdateQueue.baseQueue cq)
                                 (UpdateQueue.shared cq)
                                 (UpdateQueue.effects cq)) in
    mutateFiber (Some workInProgress) (Fiber.with_updateQueue (Some clone))
  else ret tt.

(** In a development build the new update records
    [getCurrentPriorityLevel()]; [priorityLevel] is the value that call
    returns. *)
Definition createUpdate (priorityLevel : Z) (expirationTime : Z)
    (suspenseConfig : option SuspenseConfig) : M loc :=
  let! update :=
    allocUpdate (Update.mk expirationTime suspenseConfig UpdateState
                           (PayloadValue VNull) None None None) in
  mutateUpdate (Some update) (Update.with_next (Some update));;
  (if __DEV__
   then mutateUpdate (Some update) (Update.with_priority (Some priorityLevel))
   else ret tt);;
  ret update.

Definition enqueueUpdate (fiber : loc) (update : loc) : M unit :=
  let! f := loadFiber (Some fiber) in
  match Fiber.updateQueue f with
  | None =>
      (* Only occurs if the fiber has been unmounted. *)
      ret tt
  | Some updateQueue =>
      let! q := loadQueue (Some updateQueue) in
      let sharedQueue := UpdateQueue.shared q in
      let! s := loadShared (Some sharedQueue) in
      let pending := SharedQueue.pending s in
      (match pending with
       | None =>
           (* This is the first update. Create a circular list. *)
           mutateUpdate (Some update) (Update.with_next (Some update))
       | Some _ =>
           let! p := loadUpdate pending in
           mutateUpdate (Some update) (Update.with_next (Update.next p));;
           mutateUpdate pending (Update.with_next (Some update))
       end);;
      mutateShared (Some sharedQueue) (fun _ => SharedQueue.mk (Some update));;
      if __DEV__ then
        fun σ =>
          if bool_decide (currentlyProcessingQueue σ = Some sharedQueue)
             && negb (didWarnUpdateInsideUpdate σ)
          then Returned tt
                 (set_didWarnUpdateInsideUpdate true
                    (set_consoleErrors (S (consoleErrors σ)) σ))
          else Returned tt σ
      else ret tt
  end.

Definition enqueueCapturedUpdate (workInProgress : loc) (update : loc)
    : M unit :=
  let! wip := loadFiber (Some workInProgress) in
  let current := Fiber.alternate wip in
  (match current with
   | Some c => cloneUpdateQueue c workInProgress
   | None => ret tt
   end);;
  let! wip := loadFiber (Some workInProgress) in
  let queue := Fiber.updateQueue wip in
  let! q := loadQueue queue in
  let last := UpdateQueue.baseQueue q in
  match last with
  | None =>
      (* queue.baseQueue = update.next = update; update.next = update; *)
      mutateUpdate (Some update) (Update.with_next (Some update));;
      mutateQueue queue (UpdateQueue.with_baseQueue (Some update));;
      mutateUpdate (Some update) (Update.with_next (Some update))
  | Some _ =>
      let! l := loadUpdate last in
      mutateUpdate (Some update) (Update.with_next (Update.next l));;
      mutateUpdate last (Update.with_next (Some update))
  end.

(** The state an update produces, apart from its effects on the fiber and on
    [hasForceUpdate]: the [return] values of [getStateFromUpdate]. *)
Definition partialStateOf (update : Update.t) (prevState nextProps instance : value)
    : value :=
  match Update.payload update with
  | PayloadFunction f => f instance prevState nextProps
  | PayloadValue v => v
  end.

Definition mergePartialState (prevState partialState : value) : value :=
  match partialState with
  | VNull | VUndefined =>
      (* Null and undefined are treated as no-ops. *)
      prevState
  | _ => Object_assign prevState partialState
  end.

(** [getStateFromUpdate].  The update is passed by its fields, which the
    function only reads.  In a development build the updater function is
    called a second time under [StrictMode] and the calls are bracketed by
    [enterDisallowedContextReadInDEV] / [exitDisallowedContextReadInDEV];
    updater functions being pure, neither changes the store or the result. *)
Definition getStateFromUpdate (workInProgress : loc) (queue : option loc)
    (update : Update.t) (prevState nextProps instance : value) : M value :=
  let updateStateCase :=
    ret (mergePartialState prevState
           (partialStateOf update prevState nextProps instance)) in
  match Update.tag update with
  | ReplaceState =>
      ret (partialStateOf update prevState nextProps instance)
  | CaptureUpdate =>
      mutateFiber (Some workInProgress)
        (fun f =>
           Fiber.with_effectTag
             (Z.lor (Z.land (Fiber.effectTag f)
                            (Z.lnot ReactSideEffectTags.ShouldCapture))
                    ReactSideEffectTags.DidCapture) f);;
      (* Intentional fallthrough *)
      updateStateCase
  | UpdateState => updateStateCase
  | ForceUpdate =>
      modify (set_hasForceUpdate true);;
      ret prevState
  end.

(** The local variables of [processUpdateQueue] that its loop assigns. *)
Record Locals : Type := mkLocals {
  update : option loc;
  newState : value;
  newExpirationTime : Z;
  newBaseState : value;
  newBaseQueueFirst : option loc;
  newBaseQueueLast : option loc;
  baseQueue : option loc;
  pendingQueue : option loc
}.

Definition with_update (u : option loc) (v : Locals) : Locals :=
  mkLocals u (newState v) (newExpirationTime v) (newBaseState v)
    (newBaseQueueFirst v) (newBaseQueueLast v) (baseQueue v) (pendingQueue v).
Definition with_newState (s : value) (v : Locals) : Locals :=
  mkLocals (update v) s (newExpirationTime v) (newBaseState v)
    (newBaseQueueFirst v) (newBaseQueueLast v) (baseQueue v) (pendingQueue v).
Definition with_newExpirationTime (e : Z) (v : Locals) : Locals :=
  mkLocals (update v) (newState v) e (newBaseState v)
    (newBaseQueueFirst v) (newBaseQueueLast v) (baseQueue v) (pendingQueue v).
Definition with_newBaseState (s : value) (v : Locals) : Locals :=
  mkLocals (update v) (newState v) (newExpirationTime v) s
    (newBaseQueueFirst v) (newBaseQueueLast v) (baseQueue v) (pendingQueue v).
Definition with_newBaseQueueFirst (p : option loc) (v : Locals) : Locals :=
  mkLocals (update v) (newState v) (newExpirationTime v) (newBaseState v)
    p (newBaseQueueLast v) (baseQueue v) (pendingQueue v).
Definition with_newBaseQueueLast (p : option loc) (v : Locals) : Locals :=
  mkLocals (update v) (newState v) (newExpirationTime v) (newBaseState v)
    (newBaseQueueFirst v) p (baseQueue v) (pendingQueue v).
Definition with_baseQueue (p : option loc) (v : Locals) : Locals :=
  mkLocals (update v) (newState v) (newExpirationTime v) (newBaseState v)
    (newBaseQueueFirst v) (newBaseQueueLast v) p (pendingQueue v).
Definition with_pendingQueue (p : option loc) (v : Locals) : Locals :=
  mkLocals (update v) (newState v) (newExpirationTime v) (newBaseState v)
    (newBaseQueueFirst v) (newBaseQueueLast v) (baseQueue v) p.

(** The object literal that copies an update, with [next: null]. *)
Definition cloneOf (expirationTime : Z) (u : Update.t) : Update.t :=
  Update.mk expirationTime (Update.suspenseConfig u) (Update.tag u)
            (Update.payload u) (Update.callback u) None None.

Section ProcessUpdateQueue.
Variable workInProgress : loc.
Variable queue : option loc.
Variables props instance : value.
Variable renderExpirationTime : Z.
Variable first : option loc.

(** [newBaseQueueLast = newBaseQueueLast.next = clone]. *)
Definition linkClone (clone : loc) (v : Locals) : M Locals :=
  mutateUpdate (newBaseQueueLast v) (Update.with_next (Some clone));;
  ret (with_newBaseQueueLast (Some clone) v).

(** The branch for an update of insufficient priority. *)
Definition skipUpdate (u : Update.t) (v : Locals) : M Locals :=
  let updateExpirationTime := Update.expirationTime u in
  let! clone := allocUpdate (cloneOf (Update.expirationTime u) u) in
  let! v :=
    match newBaseQueueLast v with
    | None =>
        ret (with_newBaseState (newState v)
               (with_newBaseQueueLast (Some clone)
                  (with_newBaseQueueFirst (Some clone) v)))
    | Some _ => linkClone clone v
    end in
  (* Update the remaining priority in the queue. *)
  if (updateExpirationTime >? newExpirationTime v)%Z
  then ret (with_newExpirationTime updateExpirationTime v)
  else ret v.

(** The statements run for an applied update that has a callback: the
    fiber is flagged and the update is added to [queue.effects]. *)
Definition pushEffect (update : option loc) : M unit :=
  mutateFiber (Some workInProgress)
    (fun f => Fiber.with_effectTag
                (Z.lor (Fiber.effectTag f) ReactSideEffectTags.Callback)
                f);;
  let! q := loadQueue queue in
  let effects := UpdateQueue.effects q in
  match effects with
  | None =>
      let! a :=
        match update with
        | Some l => allocArray [l]
        | None => throw TypeError
        end in
      mutateQueue queue (UpdateQueue.with_effects (Some a))
  | Some _ =>
      match update with
      | Some l => mutateArray effects (fun es => es ++ [l])
      | None => throw TypeError
      end
  end.

(** The branch for an update of sufficient priority. *)
Definition applyUpdate (u : Update.t) (v : Locals) : M Locals :=
  let updateExpirationTime := Update.expirationTime u in
  let! v :=
    match newBaseQueueLast v with
    | Some _ =>
        let! clone := allocUpdate (cloneOf Sync u) in
        linkClone clone v
    | None => ret v
    end in
  markRenderEventTimeAndConfig updateExpirationTime
                               (Update.suspenseConfig u);;
  (* Process this update. *)
  let! s := getStateFromUpdate workInProgress queue u (newState v) props
                               instance in
  let v := with_newState s v in
  let callback := Update.callback u in
  match callback with
  | Some _ => pushEffect (update v);; ret v
  | None => ret v
  end.

(** The [do ... while (true)] loop.  Each turn reads the update once: no
    statement of the body writes to the update it is looking at. *)
Fixpoint processLoop (fuel : nat) (v : Locals) : M Locals :=
  match fuel with
  | O => fun _ => OutOfFuel
  | S fuel =>
      let! u := loadUpdate (update v) in
      let updateExpirationTime := Update.expirationTime u in
      let! v :=
        if (updateExpirationTime <? renderExpirationTime)%Z
        then skipUpdate u v
        else applyUpdate u v in
      let v := with_update (Update.next u) v in
      if bool_decide (update v = None) || bool_decide (update v = first)
      then
        let! q := loadQueue queue in
        let! s := loadShared (Some (UpdateQueue.shared q)) in
        let v := with_pendingQueue (SharedQueue.pending s) v in
        match pendingQueue v with
        | None => ret v
        | Some _ =>
            (* An update was scheduled from inside a reducer. *)
            let! p := loadUpdate (pendingQueue v) in
            mutateUpdate (baseQueue v) (Update.with_next (Update.next p));;
            let v := with_update (Update.next p) v in
            mutateUpdate (pendingQueue v) (Update.with_next first);;
            mutateQueue queue (UpdateQueue.with_baseQueue (pendingQueue v));;
            let v := with_baseQueue (pendingQueue v) v in
            mutateShared (Some (UpdateQueue.shared q))
                         (fun _ => SharedQueue.mk None);;
            processLoop fuel v
        end
      else processLoop fuel v
  end.
End ProcessUpdateQueue.

(** The first part of [processUpdateQueue]: the pending updates are moved
    behind the base queue.  It yields the local variables [baseQueue] and
    [pendingQueue]. *)
Definition mergePendingQueue (wip : Fiber.t) (queue : option loc)
    : M (option loc * option loc) :=
  (* The last rebase update that is NOT part of the base state. *)
  let! q := loadQueue queue in
  let baseQueue := UpdateQueue.baseQueue q in
  (* The last pending update that hasn't been processed yet. *)
  let! s := loadShared (Some (UpdateQueue.shared q)) in
  let pendingQueue := SharedQueue.pending s in
  match pendingQueue with
  | Some _ =>
      (match baseQueue with
       | Some _ =>
           (* Merge the pending queue and the base queue. *)
           let! b := loadUpdate baseQueue in
           let baseFirst := Update.next b in
           let! p := loadUpdate pendingQueue in
           let pendingFirst := Update.next p in
           mutateUpdate baseQueue (Update.with_next pendingFirst);;
           mutateUpdate pendingQueue (Update.with_next baseFirst)
       | None => ret tt
       end);;
      mutateShared (Some (UpdateQueue.shared q))
                   (fun _ => SharedQueue.mk None);;
      let current := Fiber.alternate wip in
      (match current with
       | Some _ =>
           let! c := loadFiber current in
           let currentQueue := Fiber.updateQueue c in
           match currentQueue with
           | Some _ =>
               mutateQueue currentQueue
                           (UpdateQueue.with_baseQueue pendingQueue)
           | None => ret tt
           end
       | None => ret tt
       end);;
      ret (pendingQueue, pendingQueue)
  | None => ret (baseQueue, pendingQueue)
  end.

(** The second part of [processUpdateQueue]: the walk over the base queue
    and the assignments that follow it. *)
Definition processBaseQueue (fuel : nat) (workInProgress : loc)
    (queue : option loc) (props instance : value)
    (renderExpirationTime : Z) (baseQueue pendingQueue : option loc)
    : M unit :=
  (* These values may change as we process the queue. *)
  match baseQueue with
  | Some _ =>
      let! b := loadUpdate baseQueue in
      let first := Update.next b in
      (* Iterate through the list of updates to compute the result. *)
      let! q := loadQueue queue in
      let v :=
        mkLocals first (UpdateQueue.baseState q) NoWork VNull None None
                 baseQueue pendingQueue in
      let! v :=
        match first with
        | Some _ =>
            processLoop workInProgress queue props instance
                        renderExpirationTime first fuel v
        | None => ret v
        end in
      let! v :=
        match newBaseQueueLast v with
        | None => ret (with_newBaseState (newState v) v)
        | Some _ =>
            mutateUpdate (newBaseQueueLast v)
                         (Update.with_next (newBaseQueueFirst v));;
            ret v
        end in
      mutateQueue queue (UpdateQueue.with_baseState (newBaseState v));;
      mutateQueue queue (UpdateQueue.with_baseQueue (newBaseQueueLast v));;
      (* Set the remaining expiration time to be whatever is remaining in
         the queue. *)
      markUnprocessedUpdateTime (newExpirationTime v);;
      mutateFiber (Some workInProgress)
                  (Fiber.with_expirationTime (newExpirationTime v));;
      mutateFiber (Some workInProgress)
                  (Fiber.with_memoizedState (newState v))
  | None => ret tt
  end.

Definition processUpdateQueue (fuel : nat) (workInProgress : loc)
    (props instance : value) (renderExpirationTime : Z) : M unit :=
  let! wip := loadFiber (Some workInProgress) in
  (* This is always non-null on a ClassComponent or HostRoot *)
  let queue := Fiber.updateQueue wip in
  modify (set_hasForceUpdate false);;
  (if __DEV__
   then let! q := loadQueue queue in
        modify (set_currentlyProcessingQueue (Some (UpdateQueue.shared q)))
   else ret tt);;
  let! (baseQueue, pendingQueue) := mergePendingQueue wip queue in
  processBaseQueue fuel workInProgress queue props instance
                   renderExpirationTime baseQueue pendingQueue;;
  if __DEV__ then modify (set_currentlyProcessingQueue None) else ret tt.

(** [callCallback].  [effect] is the update the callback was read from; it
    only labels the entry in the list of invocations. *)
Definition callCallback (effect : loc) (callback : CallbackValue)
    (context : value) : M unit :=
  match callback with
  | CallbackFunction id throws =>
      modify (map_invocations
                (fun t => t ++ [mkInvocation effect callback context]));;
      if throws then throw (CallbackError id) else ret tt
  | CallbackNotFunction _ =>
      throw (InvariantViolation
               "Invalid argument passed as callback. Expected a function.")
  end.

Definition resetHasForceUpdateBeforeProcessing : M unit :=
  modify (set_hasForceUpdate false).

Definition checkHasForceUpdateAfterProcessing : M bool :=
  fun σ => Returned (hasForceUpdate σ) σ.

(** The [for] loop of [commitUpdateQueue] over the elements of [effects].
    A callback of the model has no reference to the array, so the elements
    the loop sees are those the array has when the loop starts. *)
Fixpoint commitEffects (effects : list loc) (instance : value) : M unit :=
  match effects with
  | [] => ret tt
  | effect :: rest =>
      let! e := loadUpdate (Some effect) in
      let callback := Update.callback e in
      (match callback with
       | Some c =>
           mutateUpdate (Some effect) (Update.with_callback None);;
           callCallback effect c instance
       | None => ret tt
       end);;
      commitEffects rest instance
  end.

Definition commitUpdateQueue (finishedWork : loc) (finishedQueue : loc)
    (instance : value) : M unit :=
  (* Commit the effects *)
  let! q := loadQueue (Some finishedQueue) in
  let effects := UpdateQueue.effects q in
  mutateQueue (Some finishedQueue) (UpdateQueue.with_effects None);;
  match effects with
  | Some _ =>
      let! es := loadArray effects in
      commitEffects es instance
  | None => ret tt
  end.

End Operations.

(** *** Reading the store *)

Definition fiberAt (σ : Store) (fiber : loc) : option Fiber.t :=
  fibers σ !! fiber.

Definition queueOfFiber (σ : Store) (fiber : loc) : option UpdateQueue.t :=
  match fibers σ !! fiber with
  | Some f =>
      match Fiber.updateQueue f with
      | Some q => queues σ !! q
      | None => None
      end
  | None => None
  end.

Definition memoizedStateOf (σ : Store) (fiber : loc) : option value :=
  Fiber.memoizedState <$> fibers σ !! fiber.

(** *** Linked lists in the store *)

Definition nextOf (us : list Update.t) (l : loc) : option loc :=
  match us !! l with
  | Some u => Update.next u
  | None => None
  end.

(** Following [next] from [a] visits the updates [l], all of them allocated,
    and then arrives at [z]. *)
Fixpoint chain (us : list Update.t) (a : option loc) (l : list loc)
    (z : option loc) : Prop :=
  match l with
  | [] => a = z
  | x :: l' => a = Some x /\ x < length us /\ chain us (nextOf us x) l' z
  end.

(** [tail] points at the last update of a circular list whose updates are,
    oldest first, [l]; a [null] pointer stands for the empty list. *)
Definition circular (us : list Update.t) (tail : option loc) (l : list loc)
    : Prop :=
  match tail with
  | None => l = []
  | Some t => NoDup l /\ last l = Some t /\ chain us (head l) l (head l)
  end.

(** The fields of an update other than its link (and the development-only
    [priority]), in the shape of a clone. *)
Definition fieldsOf (u : Update.t) : Update.t :=
  cloneOf (Update.expirationTime u) u.

Definition recordsAt (us : list Update.t) (l : list loc) : list Update.t :=
  omap (fun x => fieldsOf <$> us !! x) l.

(** The queue of [workInProgress] is in order: its base queue holds the
    updates [lb] and the pending list it shares holds [lp], the two being
    disjoint circular lists; the [effects] array and the alternate fiber's
    queue, if any, exist. *)
Definition wellFormedQueue (σ : Store) (workInProgress : loc)
    (lb lp : list loc) : Prop :=
  exists f q Q S,
    fibers σ !! workInProgress = Some f
    /\ Fiber.updateQueue f = Some q
    /\ queues σ !! q = Some Q
    /\ sharedQueues σ !! UpdateQueue.shared Q = Some S
    /\ circular (updates σ) (UpdateQueue.baseQueue Q) lb
    /\ circular (updates σ) (SharedQueue.pending S) lp
    /\ NoDup (lb ++ lp)
    /\ (forall a, UpdateQueue.effects Q = Some a -> a < length (arrays σ))
    /\ (forall c, Fiber.alternate f = Some c ->
        exists fc, fibers σ !! c = Some fc
        /\ forall qc, Fiber.updateQueue fc = Some qc ->
           qc < length (queues σ)).

(** *** The walk over the queue, on lists

    One turn of the loop of [processUpdateQueue] as a function of the update
    it looks at, and the walk as a fold over the updates of the queue. *)

Definition nextState (u : Update.t) (prevState nextProps instance : value)
    : value :=
  match Update.tag u with
  | ReplaceState => partialStateOf u prevState nextProps instance
  | CaptureUpdate | UpdateState =>
      mergePartialState prevState
        (partialStateOf u prevState nextProps instance)
  | ForceUpdate => prevState
  end.

Record Pass : Type := mkPass {
  passState : value;              (* newState *)
  passBaseState : value;          (* newBaseState *)
  passBaseQueue : list Update.t;  (* the clones from newBaseQueueFirst on *)
  passExpirationTime : Z          (* newExpirationTime *)
}.

Definition passStep (renderExpirationTime : Z) (props instance : value)
    (a : Pass) (u : Update.t) : Pass :=
  if (Update.expirationTime u <? renderExpirationTime)%Z then
    mkPass (passState a)
           (match passBaseQueue a with
            | [] => passState a
            | _ => passBaseState a
            end)
           (passBaseQueue a ++ [cloneOf (Update.expirationTime u) u])
           (if (Update.expirationTime u >? passExpirationTime a)%Z
            then Update.expirationTime u else passExpirationTime a)
  else
    mkPass (nextState u (passState a) props instance)
           (passBaseState a)
           (match passBaseQueue a with
            | [] => []
            | _ => passBaseQueue a ++ [cloneOf Sync u]
            end)
           (passExpirationTime a).

Definition pass (renderExpirationTime : Z) (props instance : value)
    (baseState : value) (us : list Update.t) : Pass :=
  foldl (passStep renderExpirationTime props instance)
        (mkPass baseState VNull [] NoWork) us.

(** What [processUpdateQueue] leaves in the queue and on the fiber. *)
Definition passResultBaseState (a : Pass) : value :=
  match passBaseQueue a with
  | [] => passState a
  | _ => passBaseState a
  end.

(** *** The walk, in the words of the specification *)

Definition isSkipped (renderExpirationTime : Z) (u : Update.t) : bool :=
  (Update.expirationTime u <? renderExpirationTime)%Z.

(** Every update applied in order, whatever its priority. *)
Definition applyAll (props instance : value) (s : value)
    (us : list Update.t) : value :=
  foldl (fun s u => nextState u s props instance) s us.

(** The final computed state: the updates of sufficient priority applied in
    order. *)
Definition computedState (renderExpirationTime : Z) (props instance : value)
    (s : value) (us : list Update.t) : value :=
  applyAll props instance s
    (filter (fun u => isSkipped renderExpirationTime u = false) us).

(** The state computed just before the first skipped update. *)
Fixpoint stateBeforeFirstSkip (renderExpirationTime : Z)
    (props instance : value) (s : value) (us : list Update.t) : value :=
  match us with
  | [] => s
  | u :: us' =>
      if isSkipped renderExpirationTime u then s
      else stateBeforeFirstSkip renderExpirationTime props instance
             (nextState u s props instance) us'
  end.

(** From the first skipped update on, in the original order: a clone of each
    skipped update at its own expiration time and a clone of each applied
    update at [Sync]. *)
Fixpoint rebasedQueue (renderExpirationTime : Z) (us : list Update.t)
    : list Update.t :=
  match us with
  | [] => []
  | u :: us' =>
      if isSkipped renderExpirationTime u then
        (fun u => cloneOf (if isSkipped renderExpirationTime u
                           then Update.expirationTime u else Sync) u) <$> us
      else rebasedQueue renderExpirationTime us'
  end.





Definition skippedExpirationTimes (renderExpirationTime : Z)
    (us : list Update.t) : list Z :=
  Update.expirationTime
    <$> filter (fun u => isSkipped renderExpirationTime u = true) us.


(** *** Drivers for the statements *)

(** [processUpdateQueue] called once per threshold, in the given order, with
    the same props and instance. *)
Fixpoint processPasses (__DEV__ : bool) (fuel : nat) (workInProgress : loc)
    (props instance : value) (thresholds : list Z) : M unit :=
  match thresholds with
  | [] => ret tt
  | r :: rest =>
      processUpdateQueue __DEV__ fuel workInProgress props instance r;;
      processPasses __DEV__ fuel workInProgress props instance rest
  end.

(** A call of [commitUpdateQueue]: the finished fiber, the queue and the
    instance. *)
Definition CommitCall : Type := loc * loc * value.

(** A sequence of commits; a caller that catches what a callback throws goes
    on with the next one. *)
Fixpoint commitAll (calls : list CommitCall) (σ : Store) : Store :=
  match calls with
  | [] => σ
  | (finishedWork, finishedQueue, instance) :: rest =>
      match commitUpdateQueue finishedWork finishedQueue instance σ with
      | Returned _ σ' => commitAll rest σ'
      | Thrown _ σ' => commitAll rest σ'
      | OutOfFuel => σ
      end
  end.

(** *** Support for the statements about [enqueueUpdate] and
    [commitUpdateQueue] *)

(** The development-only warning at the end of [enqueueUpdate], as a
    function of the store. *)
Definition warnUpdateInsideUpdate (__DEV__ : bool) (sharedQueue : loc)
    (σ : Store) : Store :=
  if __DEV__ && bool_decide (currentlyProcessingQueue σ = Some sharedQueue)
     && negb (didWarnUpdateInsideUpdate σ)
  then set_didWarnUpdateInsideUpdate true
         (set_consoleErrors (S (consoleErrors σ)) σ)
  else σ.

(** The callback an update holds, if any. *)
Definition callbackAt (σ : Store) (x : loc) : option CallbackValue :=
  match updates σ !! x with
  | Some u => Update.callback u
  | None => None
  end.

(** [σ'] comes from [σ] by calling the callbacks [new]: each was the callback
    its update held in [σ], no update was called twice, the updates called
    hold no callback any more, and no update holds a callback it did not
    hold before. *)
Definition calledBetween (σ σ' : Store) (new : list Invocation) : Prop :=
  invocations σ' = invocations σ ++ new
  /\ NoDup (invokedEffect <$> new)
  /\ (forall i, i ∈ new ->
      callbackAt σ (invokedEffect i) = Some (invokedCallback i)
      /\ callbackAt σ' (invokedEffect i) = None)
  /\ (forall x, callbackAt σ' x = None \/ callbackAt σ' x = callbackAt σ x).

(** The call ended, by returning or by throwing, in the store [σ']. *)
Definition finished {A : Type} (r : Result A) (σ' : Store) : Prop :=
  (exists a, r = Returned a σ') \/ (exists e, r = Thrown e σ').

(** *** Support for the statements about [processUpdateQueue] *)

(** The references a fiber holds. *)
Definition fiberLinks (σ : Store) : list (option loc * option loc) :=
  (fun f => (Fiber.updateQueue f, Fiber.alternate f)) <$> fibers σ.

(** What a queue holds apart from its effects. *)
Definition queueLinks (σ : Store) : list (value * option loc * loc) :=
  (fun q => (UpdateQueue.baseState q, UpdateQueue.baseQueue q,
             UpdateQueue.shared q)) <$> queues σ.

(** The [effects] array of the queue [q], if there is one, is allocated. *)
Definition effectsAllocated (σ : Store) (q : loc) : Prop :=
  forall Q a,
    queues σ !! q = Some Q -> UpdateQueue.effects Q = Some a ->
    a < length (arrays σ).

(** The clones [bq] made so far during a walk that started from the updates
    [us1]: in the store [us] the updates of [us1] are as they were, the
    clones follow them and are linked in order from [first] to [tail], and
    the last one is linked to [null]. *)
Definition clonesLinked (us1 us : list Update.t) (first tail : option loc)
    (bq : list Update.t) : Prop :=
  let n0 := length us1 in
  let cl := seq n0 (length bq) in
  (forall x, x < n0 -> us !! x = us1 !! x)
  /\ length us = n0 + length bq
  /\ recordsAt us cl = bq
  /\ chain us first cl None
  /\ tail = last cl.

(** The state of the walk after the updates folded into [a]: the clones are
    linked, the local variables hold the values of [a], and nothing else in
    the store has changed its shape since the walk began in [σ1]. *)
Definition loopInvariant (σ1 : Store) (q : loc) (σ : Store) (v : Locals)
    (a : Pass) : Prop :=
  clonesLinked (updates σ1) (updates σ) (newBaseQueueFirst v)
               (newBaseQueueLast v) (passBaseQueue a)
  /\ newState v = passState a
  /\ newExpirationTime v = passExpirationTime a
  /\ newBaseState v = passBaseState a
  /\ fiberLinks σ = fiberLinks σ1
  /\ queueLinks σ = queueLinks σ1
  /\ sharedQueues σ = sharedQueues σ1
  /\ effectsAllocated σ q.

(** *** A store for the examples *)

Definition exampleUpdate (expirationTime : Z) (state : Z) (next : loc)
    : Update.t :=
  Update.mk expirationTime None ReplaceState (PayloadValue (VNum state)) None
            (Some next) None.

(** A fiber whose queue has the base state 0, an empty base queue and two
    pending updates: the first, of priority 1, sets the state to 10 and the
    second, of priority 2, sets it to 20. *)
Definition exampleStore : Store :=
  mkStore [Fiber.mk (Some 0) None (VNum 0) 0 0 0]
          [UpdateQueue.mk (VNum 0) None 0 None]
          [SharedQueue.mk (Some 1)]
          [exampleUpdate 1 10 1; exampleUpdate 2 20 0]
          [] false false None 0 [] [].

(** The store a computation ends in. *)
Definition storeAfter {A : Type} (m : M A) (σ : Store) : Store :=
  match m σ with
  | Returned _ σ' => σ'
  | Thrown _ σ' => σ'
  | OutOfFuel => σ
  end.

(** A third update, not yet enqueued: of priority 3, it merges [{a: 1}] into
    the state and has a callback. *)
Definition exampleMerge : Update.t :=
  Update.mk 3 None UpdateState
            (PayloadValue (VObj {[ "a"%string := VNum 1 ]}))
            (Some (CallbackFunction 7 false)) None None.

Definition exampleStoreWithUpdate : Store :=
  map_updates (fun us => us ++ [exampleMerge]) exampleStore.

(** The third update has been enqueued and the queue processed at the
    threshold 2: the first update was skipped, the two others applied. *)
Definition exampleProcessedStore : Store :=
  storeAfter (enqueueUpdate false 0 2;;
              processUpdateQueue false 3 0 VNull VNull 2)
             exampleStoreWithUpdate.

(** The calls that a commit makes for the updates [es], read off the store
    before the commit: one for each update that holds a callback, in the
    order of [es], with [instance] as [this]. *)
Definition callsOf (σ : Store) (instance : value) (es : list loc)
    : list Invocation :=
  omap (fun x => (fun c => mkInvocation x c instance) <$> callbackAt σ x) es.

(** How a call of a callback ends when it does not return. *)
Definition failureOf (c : CallbackValue) : option Error :=
  match c with
  | CallbackFunction id true => Some (CallbackError id)
  | CallbackFunction _ false => None
  | CallbackNotFunction _ =>
      Some (InvariantViolation
              "Invalid argument passed as callback. Expected a function.")
  end.

(** The updates in the [effects] array of a queue. *)
Definition effectsOf (σ : Store) (q : loc) : list loc :=
  match queues σ !! q with
  | Some Q =>
      match UpdateQueue.effects Q with
      | Some a => default [] (arrays σ !! a)
      | None => []
      end
  | None => []
  end.

(** The updates of [σ] are still there in [σ'], with the fields they had
    (their links apart); [σ'] may hold more updates. *)
Definition fieldsKept (σ σ' : Store) : Prop :=
  exists more,
    fieldsOf <$> updates σ' = (fieldsOf <$> updates σ) ++ more.

(** [callback !== null] *)
Definition hasCallback (u : Update.t) : bool :=
  match Update.callback u with
  | Some _ => true
  | None => false
  end.

Definition isForceUpdate (u : Update.t) : bool :=
  match Update.tag u with
  | ForceUpdate => true
  | _ => false
  end.

(** A pass at the threshold [r] applies the update and the update has a
    callback. *)
Definition appliedWithCallback (r : Z) (σ : Store) (x : loc) : bool :=
  match updates σ !! x with
  | Some u => negb (isSkipped r u) && hasCallback u
  | None => false
  end.

(** A pass at the threshold [r] applies the update and the update is a
    [ForceUpdate]. *)
Definition appliedForceUpdate (r : Z) (σ : Store) (x : loc) : bool :=
  match updates σ !! x with
  | Some u => negb (isSkipped r u) && isForceUpdate u
  | None => false
  end.

(** Between [σ] and [σ'] the flag [hasForceUpdate] and the effects of the
    queue [q] are the same and the updates have kept their fields. *)
Definition sameObserved (q : loc) (σ σ' : Store) : Prop :=
  hasForceUpdate σ' = hasForceUpdate σ
  /\ effectsOf σ' q = effectsOf σ q
  /\ fieldsKept σ σ'.

(** A computation that calls no callback: when it returns, the list of
    invocations is as it was. *)
Definition callsNothing {A : Type} (m : M A) : Prop :=
  forall σ a σ', m σ = Returned a σ' -> invocations σ' = invocations σ.

(** The updates in the [effects] array of the queue of a fiber. *)
Definition effectsOfFiber (σ : Store) (fiber : loc) : list loc :=
  match fibers σ !! fiber with
  | Some f =>
      match Fiber.updateQueue f with
      | Some q => effectsOf σ q
      | None => []
      end
  | None => []
  end.

(** The third update has been enqueued behind the two pending ones. *)
Definition exampleQueuedStore : Store :=
  storeAfter (enqueueUpdate false 0 2) exampleStoreWithUpdate.

(** A second fiber, the work in progress of the first, shares its queue. *)
Definition exampleAlternateStore : Store :=
  map_fibers (fun fs => fs ++ [Fiber.mk (Some 0) (Some 0) (VNum 0) 0 0 0])
             exampleStore.

(** A finished queue with three effects; the callback of the second one
    throws. *)
Definition exampleFailingStore : Store :=
  mkStore [Fiber.mk (Some 0) None (VNum 0) 0 0 0]
          [UpdateQueue.mk (VNum 0) None 0 (Some 0)]
          [SharedQueue.mk None]
          [Update.mk 3 None UpdateState (PayloadValue VNull)
                     (Some (CallbackFunction 1 false)) (Some 0) None;
           Update.mk 3 None UpdateState (PayloadValue VNull)
                     (Some (CallbackFunction 2 true)) (Some 1) None;
           Update.mk 3 None UpdateState (PayloadValue VNull)
                     (Some (CallbackFunction 3 false)) (Some 2) None]
          [[0; 1; 2]] false false None 0 [] [].

End ReactUpdateQueue.

(** ** SchedulerWithReactIntegration.js *)

Module SchedulerWithReactIntegration.
Local Open Scope Z_scope.

(** Modelled from the spec: the [scheduler] package is missing from the
    sources.  The spec treats it as a black box: [scheduleCallback] takes a
    priority and a function and returns a handle, [cancelCallback] takes the
    handle, and [runWithPriority] overrides the ambient priority for the
    duration of a synchronous call.  The model keeps what was scheduled and
    what was cancelled. *)
Inductive SchedulerPriority : Type :=
| Scheduler_ImmediatePriority
| Scheduler_UserBlockingPriority
| Scheduler_NormalPriority
| Scheduler_LowPriority
| Scheduler_IdlePriority.

Definition ImmediatePriority : Z := 99.
Definition UserBlockingPriority : Z := 98.
Definition NormalPriority : Z := 97.
Definition LowPriority : Z := 96.
Definition IdlePriority : Z := 95.
Definition NoPriority : Z := 90.

(** [SchedulerCallback = (isSync: boolean) => SchedulerCallback | null].  A
    callback is described by what its body does, step by step: work that
    can be observed, calls back into this module, and the way it ends. *)
Inductive SchedulerCallback : Type :=
| DoWork (label : nat) (rest : SchedulerCallback)
| DoScheduleSyncCallback (callback : SchedulerCallback)
                         (rest : SchedulerCallback)
| DoFlushSyncCallbackQueue (rest : SchedulerCallback)
| ReturnNull
| ReturnContinuation (continuation : SchedulerCallback)
| ThrowError (error : nat).

(** The functions of this module that are handed to the scheduler, and
    callbacks of the callers. *)
Inductive ScheduledFunction : Type :=
| The_flushSyncCallbackQueueImpl
| The_flushSyncCallbackQueue
| TheCallback (callback : SchedulerCallback).

Inductive CallbackNode : Type :=
| fakeCallbackNode
| SchedulerNode (node : nat).

Inductive Error : Type :=
| Thrown (error : nat)                   (* thrown by a callback *)
| TypeError
| InvariantViolation (message : string).

(** The module-level variables, the arrays they refer to, and the state of
    the scheduler. *)
Record State : Type := mkState {
  syncQueue : option nat;                    (* a reference into [arrays] *)
  immediateQueueCallbackNode : option nat;
  isFlushingSyncQueue : bool;
  arrays : list (list SchedulerCallback);
  scheduled : list (SchedulerPriority * ScheduledFunction);
  cancelled : list nat;
  currentPriorityLevel : SchedulerPriority;
  workDone : list nat
}.

Definition initialState : State :=
  mkState None None false [] [] [] Scheduler_NormalPriority [].

Definition set_syncQueue (q : option nat) (s : State) : State :=
  mkState q (immediateQueueCallbackNode s) (isFlushingSyncQueue s) (arrays s)
    (scheduled s) (cancelled s) (currentPriorityLevel s) (workDone s).
Definition set_immediateQueueCallbackNode (n : option nat) (s : State)
    : State :=
  mkState (syncQueue s) n (isFlushingSyncQueue s) (arrays s)
    (scheduled s) (cancelled s) (currentPriorityLevel s) (workDone s).
Definition set_isFlushingSyncQueue (b : bool) (s : State) : State :=
  mkState (syncQueue s) (immediateQueueCallbackNode s) b (arrays s)
    (scheduled s) (cancelled s) (currentPriorityLevel s) (workDone s).
Definition set_arrays (a : list (list SchedulerCallback)) (s : State)
    : State :=
  mkState (syncQueue s) (immediateQueueCallbackNode s) (isFlushingSyncQueue s)
    a (scheduled s) (cancelled s) (currentPriorityLevel s) (workDone s).
Definition set_scheduled (l : list (SchedulerPriority * ScheduledFunction))
    (s : State) : State :=
  mkState (syncQueue s) (immediateQueueCallbackNode s) (isFlushingSyncQueue s)
    (arrays s) l (cancelled s) (currentPriorityLevel s) (workDone s).
Definition set_cancelled (l : list nat) (s : State) : State :=
  mkState (syncQueue s) (immediateQueueCallbackNode s) (isFlushingSyncQueue s)
    (arrays s) (scheduled s) l (currentPriorityLevel s) (workDone s).
Definition set_currentPriorityLevel (p : SchedulerPriority) (s : State)
    : State :=
  mkState (syncQueue s) (immediateQueueCallbackNode s) (isFlushingSyncQueue s)
    (arrays s) (scheduled s) (cancelled s) p (workDone s).
Definition set_workDone (l : list nat) (s : State) : State :=
  mkState (syncQueue s) (immediateQueueCallbackNode s) (isFlushingSyncQueue s)
    (arrays s) (scheduled s) (cancelled s) (currentPriorityLevel s) l.

Inductive Outcome (A : Type) : Type :=
| Done (a : A) (s : State)
| Threw (e : Error) (s : State)
| NoFuel.
Arguments Done {A} a s.
Arguments Threw {A} e s.
Arguments NoFuel {A}.

(** How the [for] loop of the flush ends: past the last entry, or with an
    exception while [i] was the index of the entry being run. *)
Inductive LoopOutcome : Type :=
| LoopDone (s : State)
| LoopThrew (i : nat) (e : Error) (s : State)
| LoopNoFuel.

Definition mapLoopState (f : State -> State) (o : LoopOutcome) : LoopOutcome :=
  match o with
  | LoopDone s => LoopDone (f s)
  | LoopThrew i e s => LoopThrew i e (f s)
  | LoopNoFuel => LoopNoFuel
  end.

(** [Scheduler_scheduleCallback]: the handle is the position in the list of
    what has been scheduled. *)
Definition Scheduler_scheduleCallback (priorityLevel : SchedulerPriority)
    (callback : ScheduledFunction) (s : State) : nat * State :=
  (length (scheduled s),
   set_scheduled (scheduled s ++ [(priorityLevel, callback)]) s).

Definition Scheduler_cancelCallback (node : nat) (s : State) : State :=
  set_cancelled (cancelled s ++ [node]) s.

(** [Scheduler_runWithPriority], for a handler that ends as a loop does:
    the previous priority is restored however the handler ends. *)
Definition Scheduler_runWithPriority (priorityLevel : SchedulerPriority)
    (eventHandler : State -> LoopOutcome) (s : State) : LoopOutcome :=
  let previousPriorityLevel := currentPriorityLevel s in
  mapLoopState (set_currentPriorityLevel previousPriorityLevel)
               (eventHandler (set_currentPriorityLevel priorityLevel s)).

Definition reactPriorityToSchedulerPriority (reactPriorityLevel : Z)
    : option SchedulerPriority :=
  if reactPriorityLevel =? ImmediatePriority
  then Some Scheduler_ImmediatePriority
  else if reactPriorityLevel =? UserBlockingPriority
  then Some Scheduler_UserBlockingPriority
  else if reactPriorityLevel =? NormalPriority
  then Some Scheduler_NormalPriority
  else if reactPriorityLevel =? LowPriority
  then Some Scheduler_LowPriority
  else if reactPriorityLevel =? IdlePriority
  then Some Scheduler_IdlePriority
  else None.   (* invariant(false, 'Unknown priority level.') *)

Definition runWithPriority (reactPriorityLevel : Z)
    (fn : State -> LoopOutcome) (s : State) : LoopOutcome :=
  match reactPriorityToSchedulerPriority reactPriorityLevel with
  | Some priorityLevel => Scheduler_runWithPriority priorityLevel fn s
  | None => LoopThrew 0 (InvariantViolation "Unknown priority level.") s
  end.

Definition scheduleSyncCallback (callback : SchedulerCallback) (s : State)
    : CallbackNode * State :=
  match syncQueue s with
  | None =>
      (* syncQueue = [callback] *)
      let s := set_syncQueue (Some (length (arrays s)))
                 (set_arrays (arrays s ++ [[callback]]) s) in
      (* Flush the queue in the next tick, at the earliest. *)
      let (node, s) :=
        Scheduler_scheduleCallback Scheduler_ImmediatePriority
                                   The_flushSyncCallbackQueueImpl s in
      (fakeCallbackNode, set_immediateQueueCallbackNode (Some node) s)
  | Some q =>
      (* Push onto existing queue. *)
      (fakeCallbackNode,
       set_arrays (alter (fun entries => entries ++ [callback]) q (arrays s))
                  s)
  end.

Definition cancelCallback (callbackNode : CallbackNode) (s : State) : State :=
  match callbackNode with
  | fakeCallbackNode => s
  | SchedulerNode node => Scheduler_cancelCallback node s
  end.

(** The first statement of [flushSyncCallbackQueue]. *)
Definition cancelImmediateQueueCallback (s : State) : State :=
  match immediateQueueCallbackNode s with
  | Some node =>
      Scheduler_cancelCallback node (set_immediateQueueCallbackNode None s)
  | None => s
  end.

(** The [catch] and [finally] blocks of [flushSyncCallbackQueueImpl], after
    an exception at the index [i]. *)
Definition afterThrow (i : nat) (s : State) : State :=
  (* If something throws, leave the remaining callbacks on the queue. *)
  let s :=
    match syncQueue s with
    | Some q =>
        match arrays s !! q with
        | Some entries =>
            (* syncQueue = syncQueue.slice(i + 1) *)
            set_syncQueue (Some (length (arrays s)))
              (set_arrays (arrays s ++ [drop (i + 1) entries]) s)
        | None => s
        end
    | None => s
    end in
  (* Resume flushing in the next tick *)
  let s :=
    snd (Scheduler_scheduleCallback Scheduler_ImmediatePriority
                                    The_flushSyncCallbackQueue s) in
  set_isFlushingSyncQueue false s.

(** Calling a callback, the [do ... while] loop around it, the [for] loop
    over the queue, and the two flush functions, which a callback can call
    in turn. *)
Fixpoint call (fuel : nat) (callback : SchedulerCallback) (s : State)
    {struct fuel} : Outcome (option SchedulerCallback) :=
  match fuel with
  | O => NoFuel
  | S fuel =>
      match callback with
      | DoWork label rest =>
          call fuel rest (set_workDone (workDone s ++ [label]) s)
      | DoScheduleSyncCallback callback rest =>
          call fuel rest (snd (scheduleSyncCallback callback s))
      | DoFlushSyncCallbackQueue rest =>
          match flushSyncCallbackQueue fuel s with
          | Done _ s => call fuel rest s
          | Threw e s => Threw e s
          | NoFuel => NoFuel
          end
      | ReturnNull => Done None s
      | ReturnContinuation continuation => Done (Some continuation) s
      | ThrowError error => Threw (Thrown error) s
      end
  end

with callUntilNull (fuel : nat) (callback : SchedulerCallback) (s : State)
    {struct fuel} : Outcome unit :=
  match fuel with
  | O => NoFuel
  | S fuel =>
      (* do { callback = callback(isSync); } while (callback !== null); *)
      match call fuel callback s with
      | Done (Some callback) s => callUntilNull fuel callback s
      | Done None s => Done tt s
      | Threw e s => Threw e s
      | NoFuel => NoFuel
      end
  end

with flushLoop (fuel : nat) (queue : nat) (i : nat) (s : State)
    {struct fuel} : LoopOutcome :=
  match fuel with
  | O => LoopNoFuel
  | S fuel =>
      (* for (; i < queue.length; i++) *)
      match arrays s !! queue with
      | Some entries =>
          match entries !! i with
          | Some callback =>
              match callUntilNull fuel callback s with
              | Done _ s => flushLoop fuel queue (S i) s
              | Threw e s => LoopThrew i e s
              | NoFuel => LoopNoFuel
              end
          | None => LoopDone s
          end
      | None => LoopThrew i TypeError s
      end
  end

with flushSyncCallbackQueueImpl (fuel : nat) (s : State) {struct fuel}
    : Outcome unit :=
  match fuel with
  | O => NoFuel
  | S fuel =>
      match isFlushingSyncQueue s, syncQueue s with
      | false, Some queue =>
          (* Prevent re-entrancy. *)
          let s := set_isFlushingSyncQueue true s in
          match runWithPriority ImmediatePriority (flushLoop fuel queue 0) s
          with
          | LoopDone s =>
              Done tt (set_isFlushingSyncQueue false (set_syncQueue None s))
          | LoopThrew i e s => Threw e (afterThrow i s)
          | LoopNoFuel => NoFuel
          end
      | _, _ => Done tt s
      end
  end

with flushSyncCallbackQueue (fuel : nat) (s : State) {struct fuel}
    : Outcome unit :=
  match fuel with
  | O => NoFuel
  | S fuel => flushSyncCallbackQueueImpl fuel (cancelImmediateQueueCallback s)
  end.

(** The entries of the synchronous queue, if there is one. *)
Definition syncQueueEntries (s : State) : option (list SchedulerCallback) :=
  match syncQueue s with
  | Some q => arrays s !! q
  | None => None
  end.

(** The state in which an outcome leaves the module, if it is one. *)
Definition outcomeState {A : Type} (o : Outcome A) : option State :=
  match o with
  | Done _ s => Some s
  | Threw _ s => Some s
  | NoFuel => None
  end.

Definition loopOutcomeState (o : LoopOutcome) : option State :=
  match o with
  | LoopDone s => Some s
  | LoopThrew _ _ s => Some s
  | LoopNoFuel => None
  end.

(** A flush of the array [queue] is under way in [s]. *)
Definition flushing (queue : nat) (s : State) : Prop :=
  isFlushingSyncQueue s = true
  /\ syncQueue s = Some queue
  /\ is_Some (arrays s !! queue).

(** What running callbacks during a flush leaves as it was: the lock, the
    queue variable, the priority and what is scheduled; the array [queue]
    itself can only have grown at its end. *)
Definition duringFlush (queue : nat) (s s' : State) : Prop :=
  isFlushingSyncQueue s' = true
  /\ syncQueue s' = Some queue
  /\ currentPriorityLevel s' = currentPriorityLevel s
  /\ scheduled s' = scheduled s
  /\ (forall entries, arrays s !! queue = Some entries ->
      exists more, arrays s' !! queue = Some (entries ++ more)).

(** The state in which the loop of a flush starts: the lock is taken and the
    priority is the scheduler's immediate priority. *)
Definition startFlush (s : State) : State :=
  set_currentPriorityLevel Scheduler_ImmediatePriority
                           (set_isFlushingSyncQueue true s).

(** *** Fuel

    The number of steps a callback takes, with those of the callbacks it
    schedules and of the calls that run them. *)
Fixpoint callbackSize (c : SchedulerCallback) : nat :=
  match c with
  | DoWork _ rest => S (callbackSize rest)
  | DoScheduleSyncCallback callback rest =>
      (S (S (callbackSize callback)) + callbackSize rest)%nat
  | DoFlushSyncCallbackQueue rest => (3 + callbackSize rest)%nat
  | ReturnNull => 1%nat
  | ReturnContinuation continuation => (2 + callbackSize continuation)%nat
  | ThrowError _ => 1%nat
  end.

(** The steps the loop takes for the entries of a queue. *)
Definition queueSize (entries : list SchedulerCallback) : nat :=
  sum_list_with (fun c => (2 + callbackSize c)%nat) entries.

(** The steps still to come for what a call returned. *)
Definition continuationSize (r : option SchedulerCallback) : nat :=
  match r with
  | Some c => (2 + callbackSize c)%nat
  | None => 0%nat
  end.

(** *** What a callback does, read off its script

    During a flush the calls back into this module decide neither how a
    callback ends nor what it works: [scheduleSyncCallback] pushes onto the
    queue, and a flush attempted by the callback runs nothing. *)

(** How the calls of a callback end: with [null], or with an exception. *)
Fixpoint thrownBy (c : SchedulerCallback) : option nat :=
  match c with
  | DoWork _ rest => thrownBy rest
  | DoScheduleSyncCallback _ rest => thrownBy rest
  | DoFlushSyncCallbackQueue rest => thrownBy rest
  | ReturnNull => None
  | ReturnContinuation continuation => thrownBy continuation
  | ThrowError error => Some error
  end.

(** The work of a callback and of its continuations, in order. *)
Fixpoint workBy (c : SchedulerCallback) : list nat :=
  match c with
  | DoWork label rest => label :: workBy rest
  | DoScheduleSyncCallback _ rest => workBy rest
  | DoFlushSyncCallbackQueue rest => workBy rest
  | ReturnNull => []
  | ReturnContinuation continuation => workBy continuation
  | ThrowError _ => []
  end.

(** The callbacks that a callback and its continuations schedule, in
    order. *)
Fixpoint scheduledBy (c : SchedulerCallback) : list SchedulerCallback :=
  match c with
  | DoWork _ rest => scheduledBy rest
  | DoScheduleSyncCallback callback rest => callback :: scheduledBy rest
  | DoFlushSyncCallbackQueue rest => scheduledBy rest
  | ReturnNull => []
  | ReturnContinuation continuation => scheduledBy continuation
  | ThrowError _ => []
  end.

(** What the calls of callbacks during a flush of the array [queue] make of
    the state [s]: the work [work] is done, the callbacks [pushed] are at
    the end of the array, and the lock, the queue variable, the priority and
    what is scheduled are as they were. *)
Definition ranDuringFlush (queue : nat) (work : list nat)
    (pushed : list SchedulerCallback) (s s' : State) : Prop :=
  isFlushingSyncQueue s' = true
  /\ syncQueue s' = Some queue
  /\ currentPriorityLevel s' = currentPriorityLevel s
  /\ scheduled s' = scheduled s
  /\ workDone s' = workDone s ++ work
  /\ (forall entries, arrays s !! queue = Some entries ->
      arrays s' !! queue = Some (entries ++ pushed)).

(** *** A queue for the examples *)

Definition exampleFirst : SchedulerCallback :=
  DoWork 1 (DoFlushSyncCallbackQueue (DoWork 2 ReturnNull)).
Definition exampleSecond : SchedulerCallback :=
  DoWork 3 (DoScheduleSyncCallback (DoWork 9 ReturnNull) (ThrowError 7)).
Definition exampleThird : SchedulerCallback :=
  DoWork 4 (ReturnContinuation (DoWork 5 ReturnNull)).

(** Three callbacks have been scheduled: the first flushes again while it
    runs, the second schedules a fourth callback and then throws, the third
    returns a continuation. *)
Definition exampleState : State :=
  snd (scheduleSyncCallback exampleThird
         (snd (scheduleSyncCallback exampleSecond
                 (snd (scheduleSyncCallback exampleFirst initialState))))).

(** The state when the second callback has thrown, before the [catch]. *)
Definition exampleStateAtThrow : State :=
  mkState (Some 0%nat) None true
    [[exampleFirst; exampleSecond; exampleThird; DoWork 9 ReturnNull]]
    [(Scheduler_ImmediatePriority, The_flushSyncCallbackQueueImpl)]
    [0%nat] Scheduler_ImmediatePriority [1%nat; 2%nat; 3%nat].

(** [getCurrentPriorityLevel].  The scheduler's level is one of the five
    of [SchedulerPriority], so the [default] branch is not reached. *)
Definition getCurrentPriorityLevel (s : State) : Z :=
  match currentPriorityLevel s with
  | Scheduler_ImmediatePriority => ImmediatePriority
  | Scheduler_UserBlockingPriority => UserBlockingPriority
  | Scheduler_NormalPriority => NormalPriority
  | Scheduler_LowPriority => LowPriority
  | Scheduler_IdlePriority => IdlePriority
  end.

(** Several calls of [scheduleSyncCallback] in a row. *)
Definition scheduleAll (callbacks : list SchedulerCallback) (s : State)
    : State :=
  foldl (fun s callback => snd (scheduleSyncCallback callback s)) s callbacks.

(** A callback that only works: it calls nothing of this module and does not
    throw; it may return continuations of the same kind. *)
Fixpoint onlyWorks (c : SchedulerCallback) : bool :=
  match c with
  | DoWork _ rest => onlyWorks rest
  | ReturnNull => true
  | ReturnContinuation continuation => onlyWorks continuation
  | _ => false
  end.

(** The work of such a callback and of its continuations, in order. *)
Fixpoint workOf (c : SchedulerCallback) : list nat :=
  match c with
  | DoWork label rest => label :: workOf rest
  | ReturnContinuation continuation => workOf continuation
  | _ => []
  end.

(** Two callbacks that only work have been scheduled. *)
Definition exampleWorkState : State :=
  scheduleAll [exampleThird; DoWork 9 ReturnNull] initialState.

End SchedulerWithReactIntegration.

(** ** ReactFiberExpirationTime.js, the priority of an expiration time

    [inferPriorityFromExpirationTime] answers with the priority levels of
    SchedulerWithReactIntegration.js. *)

Module ReactFiberExpirationTimePriority.
Import ReactFiberExpirationTime SchedulerWithReactIntegration.
Local Open Scope Z_scope.

Definition inferPriorityFromExpirationTime (__DEV__ : bool)
    (currentTime expirationTime : Z) : Z :=
  if expirationTime =? Sync then ImmediatePriority
  else if (expirationTime =? Never) || (expirationTime =? Idle)
  then IdlePriority
  else
    let msUntil :=
      expirationTimeToMs expirationTime - expirationTimeToMs currentTime in
    if msUntil <=? 0 then ImmediatePriority
    else if msUntil <=? HIGH_PRIORITY_EXPIRATION __DEV__
                        + HIGH_PRIORITY_BATCH_SIZE
    then UserBlockingPriority
    else if msUntil <=? LOW_PRIORITY_EXPIRATION + LOW_PRIORITY_BATCH_SIZE
    then NormalPriority
    else
      (* Assume anything lower has idle priority *)
      IdlePriority.

End ReactFiberExpirationTimePriority.


(** * Properties *)

(** ** The expiration clock *)

Module ExpirationTimeProperties.
Import ReactFiberExpirationTime.
Local Open Scope Z_scope.

Lemma toInt32_small (x : Z) : - 2 ^ 31 <= x < 2 ^ 31 -> toInt32 x = x.
Proof.
  intros Hx. unfold toInt32.
  rewrite Z.mod_small by lia. lia.
Qed.

Lemma truncatingDiv_nonneg (a b : Z) :
  0 <= a -> 0 < b -> a / b < 2 ^ 31 -> truncatingDiv a b = a / b.
Proof.
  intros Ha Hb Hq. unfold truncatingDiv.
  rewrite Z.quot_div_nonneg by lia.
  apply toInt32_small. split; [|lia].
  pose proof (Z.div_pos a b Ha Hb). lia.
Qed.

Lemma msToExpirationTime_in_range (ms : Z) :
  0 <= ms < msOverflow ->
  msToExpirationTime ms = MAGIC_NUMBER_OFFSET - ms / UNIT_SIZE.
Proof.
  intros [Hlo Hhi]. unfold msToExpirationTime.
  rewrite truncatingDiv_nonneg; [reflexivity | lia | reflexivity |].
  apply Z.div_lt_upper_bound; [reflexivity|]. exact Hhi.
Qed.

(** Two timestamps within the same 10 ms unit get the same expiration time:
    the function is not strictly decreasing. *)
Lemma msToExpirationTime_not_strictly_decreasing :
  0 < 5 /\ ~ (msToExpirationTime 0 > msToExpirationTime 5).
Proof. split; [lia|]. vm_compute. intros H. discriminate H. Qed.

(** Past [msOverflow] the 32-bit truncation wraps around and the result
    leaves the range below [Batched]. *)
Lemma msToExpirationTime_wraps :
  msToExpirationTime msOverflow > Sync.
Proof. vm_compute. reflexivity. Qed.

(** C8 (amended).  For timestamps [0 <= ms1 <= ms2] whose tenth fits a signed
    32-bit integer, [msToExpirationTime] is decreasing, strictly so exactly
    when the two timestamps lie in different 10 ms units, and each result is
    at most [MAGIC_NUMBER_OFFSET], hence strictly below [Batched] and
    [Sync]. *)
Theorem msToExpirationTime_decreasing_below_band (ms1 ms2 : Z) :
  0 <= ms1 -> ms1 <= ms2 -> ms2 < msOverflow ->
  msToExpirationTime ms2 <= msToExpirationTime ms1
  /\ (msToExpirationTime ms2 < msToExpirationTime ms1
      <-> ms1 / UNIT_SIZE < ms2 / UNIT_SIZE)
  /\ msToExpirationTime ms1 < Batched
  /\ msToExpirationTime ms2 < Batched
  /\ Batched < Sync.
Proof.
  intros H0 H12 Hov.
  rewrite !msToExpirationTime_in_range by lia.
  assert (ms1 / UNIT_SIZE <= ms2 / UNIT_SIZE)
    by (apply Z.div_le_mono; [reflexivity | lia]).
  assert (0 <= ms1 / UNIT_SIZE) by (apply Z.div_pos; [lia | reflexivity]).
  unfold MAGIC_NUMBER_OFFSET, Batched. repeat split; lia.
Qed.

Lemma msToExpirationTime_decreasing_below_band_witness :
  msToExpirationTime 25 <= msToExpirationTime 7
  /\ (msToExpirationTime 25 < msToExpirationTime 7
      <-> 7 / UNIT_SIZE < 25 / UNIT_SIZE)
  /\ msToExpirationTime 7 < Batched
  /\ msToExpirationTime 25 < Batched
  /\ Batched < Sync.
Proof.
  apply (msToExpirationTime_decreasing_below_band 7 25);
    [lia | lia | reflexivity].
Defined.

(** Within the range of expiration times the computation of [ceiling] does
    not wrap, and the result is the offset minus ten times the successor of
    the bucket index. *)
Lemma computeInteractiveExpiration_bucket (dev : bool) (currentTime : Z) :
  isExpirationTime currentTime ->
  computeInteractiveExpiration dev currentTime =
  MAGIC_NUMBER_OFFSET - (interactiveBucket dev currentTime + 1) * 10.
Proof.
  unfold isExpirationTime, NoWork, Sync, MAX_SIGNED_31_BIT_INT.
  intros [Hlo Hhi].
  unfold computeInteractiveExpiration, computeExpirationBucket, ceiling,
    interactiveBucket, expirationTimeToMs, HIGH_PRIORITY_BATCH_SIZE, UNIT_SIZE.
  change (100 / 10) with 10.
  set (w := HIGH_PRIORITY_EXPIRATION dev).
  assert (Hw : w = (w / 10) * 10 /\ 15 <= w / 10 <= 50)
    by (subst w; unfold HIGH_PRIORITY_EXPIRATION; destruct dev;
        change (500 / 10) with 50; change (150 / 10) with 15; lia).
  destruct Hw as [Hw1 Hw2].
  set (off := MAGIC_NUMBER_OFFSET) in *.
  assert (Hoff : off = 1073741821) by reflexivity.
  rewrite truncatingDiv_nonneg; [| lia | lia |].
  - f_equal. f_equal. f_equal.
    rewrite Hw1 at 2.
    replace ((off - currentTime) * 10 + w / 10 * 10)
      with ((off - currentTime + w / 10) * 10) by ring.
    change 100 with (10 * 10).
    rewrite Z.div_mul_cancel_r by lia. reflexivity.
  - apply Z.div_lt_upper_bound; lia.
Qed.

(** C9.  Two calls of [computeInteractiveExpiration] (with current times
    5 ms apart, or at any other distance) return the same expiration time
    when the two deadlines fall into the same 100 ms bucket, and different
    expiration times when they fall into different buckets. *)
Theorem computeInteractiveExpiration_same_bucket (dev : bool) (t1 t2 : Z) :
  isExpirationTime t1 -> isExpirationTime t2 ->
  (computeInteractiveExpiration dev t1 = computeInteractiveExpiration dev t2
   <-> interactiveBucket dev t1 = interactiveBucket dev t2).
Proof.
  intros H1 H2.
  rewrite !computeInteractiveExpiration_bucket by assumption.
  split; intros H; [lia | rewrite H; reflexivity].
Qed.

Lemma computeInteractiveExpiration_same_bucket_witness :
  computeInteractiveExpiration false (msToExpirationTime 40)
  = computeInteractiveExpiration false (msToExpirationTime 45)
  <-> interactiveBucket false (msToExpirationTime 40)
      = interactiveBucket false (msToExpirationTime 45).
Proof.
  apply (computeInteractiveExpiration_same_bucket false
           (msToExpirationTime 40) (msToExpirationTime 45));
    vm_compute; split; discriminate.
Defined.

(** Timestamps 5 ms apart: 40 and 45 share a bucket, 45 and 50 do not. *)
Example computeInteractiveExpiration_5ms_same :
  computeInteractiveExpiration false (msToExpirationTime 40)
  = computeInteractiveExpiration false (msToExpirationTime 45).
Proof. reflexivity. Qed.

Example computeInteractiveExpiration_5ms_straddle :
  computeInteractiveExpiration false (msToExpirationTime 45)
  <> computeInteractiveExpiration false (msToExpirationTime 50).
Proof. vm_compute. discriminate. Qed.

End ExpirationTimeProperties.

(** ** The ranges of a root *)

Module FiberRootProperties.
Import ReactFiberExpirationTime ReactFiberRoot.
Local Open Scope Z_scope.

Ltac case_compare :=
  match goal with
  | |- context [Z.eqb ?a ?b] => destruct (Z.eqb_spec a b)
  | |- context [Z.ltb ?a ?b] => destruct (Z.ltb_spec a b)
  | |- context [Z.leb ?a ?b] => destruct (Z.leb_spec a b)
  | |- context [Z.gtb ?a ?b] => destruct (Z.gtb_spec a b)
  | |- context [Z.geb ?a ?b] => destruct (Z.geb_spec a b)
  end.

(** After the suspended range is cleared, the level of the update is stored
    as the next known pending level. *)
Lemma markRootUpdatedAtTime_keeps_pending_level :
  let root := mkFiberRoot 0 0 0 5 3 2 0 0 in
  firstSuspendedTime root <> NoWork
  /\ 7 >= firstSuspendedTime root
  /\ nextKnownPendingLevel (markRootUpdatedAtTime root 7) <> NoWork.
Proof. vm_compute. repeat split; discriminate. Qed.

(** C6 (amended).  When the suspended range is not empty and
    [t >= firstSuspendedTime], [markRootUpdatedAtTime root t] raises
    [firstPendingTime] to [t] if [t] exceeds it, clears
    [firstSuspendedTime] and [lastSuspendedTime] to [NoWork], and leaves
    [nextKnownPendingLevel] at [t] when [t > NoWork] (at [NoWork]
    otherwise).  The other fields keep their values. *)
Theorem markRootUpdatedAtTime_unsuspends (root : FiberRoot) (t : Z) :
  firstSuspendedTime root <> NoWork ->
  t >= firstSuspendedTime root ->
  let root' := markRootUpdatedAtTime root t in
  firstPendingTime root' = Z.max t (firstPendingTime root)
  /\ firstSuspendedTime root' = NoWork
  /\ lastSuspendedTime root' = NoWork
  /\ nextKnownPendingLevel root' = Z.max t NoWork
  /\ lastPingedTime root' = lastPingedTime root
  /\ lastExpiredTime root' = lastExpiredTime root.
Proof.
  intros Hne Hge. unfold markRootUpdatedAtTime, NoWork in *.
  destruct root as [fe ce fp fs ls nk lp le]; simpl in *.
  repeat (case_compare; simpl in * ); repeat split; lia.
Qed.

Lemma markRootUpdatedAtTime_unsuspends_witness :
  let root' := markRootUpdatedAtTime (mkFiberRoot 0 0 4 5 3 2 6 1) 7 in
  firstPendingTime root' = Z.max 7 4
  /\ firstSuspendedTime root' = NoWork
  /\ lastSuspendedTime root' = NoWork
  /\ nextKnownPendingLevel root' = Z.max 7 NoWork
  /\ lastPingedTime root' = 6
  /\ lastExpiredTime root' = 1.
Proof.
  apply (markRootUpdatedAtTime_unsuspends (mkFiberRoot 0 0 4 5 3 2 6 1) 7);
    vm_compute; discriminate.
Defined.

(** An expiry is tracked at 5 and the root expires at 3: the field takes the
    smaller value, not the larger one. *)
Lemma markRootExpiredAtTime_not_largest :
  let root := mkFiberRoot 0 0 0 0 0 0 0 5 in
  lastExpiredTime root <> NoWork
  /\ lastExpiredTime (markRootExpiredAtTime root 3)
     <> Z.max (lastExpiredTime root) 3.
Proof. vm_compute. split; discriminate. Qed.

(** C7 (amended).  After [markRootExpiredAtTime root t], [lastExpiredTime]
    is [t] if it was [NoWork]; otherwise it is the numerically smallest (the
    least urgent) of its previous value and [t].  No other field changes. *)
Theorem markRootExpiredAtTime_smallest (root : FiberRoot) (t : Z) :
  markRootExpiredAtTime root t =
  set_lastExpiredTime
    (if lastExpiredTime root =? NoWork then t
     else Z.min (lastExpiredTime root) t)
    root.
Proof.
  unfold markRootExpiredAtTime, NoWork.
  destruct root as [fe ce fp fs ls nk lp le]; simpl.
  repeat (case_compare; simpl in * ); unfold set_lastExpiredTime; simpl;
    f_equal; lia.
Qed.

End FiberRootProperties.

(** ** The update queue *)

Module UpdateQueueProperties.
Import ReactFiberExpirationTime ReactUpdateQueue.

Section ArenaFacts.
Context {A : Type}.
Variable get : Store -> list A.
Variable map : (list A -> list A) -> Store -> Store.

Lemma load_Some (l : loc) (x : A) (σ : Store) :
  get σ !! l = Some x -> load get (Some l) σ = Returned x σ.
Proof. intros H. unfold load. rewrite H. reflexivity. Qed.

Lemma mutate_Some (l : loc) (f : A -> A) (x : A) (σ : Store) :
  get σ !! l = Some x ->
  mutate get map (Some l) f σ
  = Returned tt (map (fun xs => <[l := f x]> xs) σ).
Proof. intros H. unfold mutate. rewrite H. reflexivity. Qed.
End ArenaFacts.

Lemma bind_Returned {A B : Type} (m : M A) (k : A -> M B) (σ σ' : Store) (a : A) :
  m σ = Returned a σ' -> bind m k σ = k a σ'.
Proof. intros H. unfold bind. rewrite H. reflexivity. Qed.

Lemma mergePartialState_spread (prev partial : value) :
  partial <> VNull -> partial <> VUndefined ->
  exists fields,
    mergePartialState prev partial = VObj fields
    /\ forall k, fields !! k = spreadLookup prev partial k.
Proof.
  intros Hn Hu.
  exists (assignFrom partial (assignFrom prev ∅)). split.
  - destruct partial; try reflexivity; congruence.
  - intros k. unfold assignFrom, spreadLookup.
    rewrite !lookup_union, lookup_empty.
    assert (Hown : forall v, ownProperties v !! k = fieldOf v k)
      by (intros v; destruct v; cbn; try apply lookup_empty; reflexivity).
    rewrite !Hown.
    destruct (fieldOf partial k), (fieldOf prev k); reflexivity.
Qed.

(** C3.  For an [UpdateState] update [getStateFromUpdate] returns, with the
    store as it was.  The partial state is the payload itself when the
    payload is a value, and what the payload returns, called on the instance
    with the previous state and the props, when it is a function.  The
    result is the previous state when the partial state is [null] or
    [undefined]; otherwise it is an object that has, for every key, the
    field of the partial state when it has one and the field of the previous
    state when not. *)
Theorem getStateFromUpdate_UpdateState
    (workInProgress : loc) (queue : option loc) (u : Update.t)
    (prev props instance : value) (σ : Store) :
  Update.tag u = UpdateState ->
  let partial :=
    match Update.payload u with
    | PayloadValue v => v
    | PayloadFunction f => f instance prev props
    end in
  exists result,
    getStateFromUpdate workInProgress queue u prev props instance σ
    = Returned result σ
    /\ (partial = VNull \/ partial = VUndefined -> result = prev)
    /\ (partial <> VNull -> partial <> VUndefined ->
        exists fields,
          result = VObj fields
          /\ forall k, fields !! k = spreadLookup prev partial k).
Proof.
  intros Htag partial.
  exists (mergePartialState prev partial). split; [|split].
  - unfold getStateFromUpdate. rewrite Htag. unfold partialStateOf.
    subst partial. destruct (Update.payload u); reflexivity.
  - intros [H|H]; rewrite H; reflexivity.
  - apply mergePartialState_spread.
Qed.

Lemma getStateFromUpdate_UpdateState_witness :
  let prev := VObj {[ "b"%string := VNum 2 ]} in
  let partial := VObj {[ "a"%string := VNum 1 ]} in
  exists result,
    getStateFromUpdate 0 None exampleMerge prev VNull VNull emptyStore
    = Returned result emptyStore
    /\ (partial = VNull \/ partial = VUndefined -> result = prev)
    /\ (partial <> VNull -> partial <> VUndefined ->
        exists fields,
          result = VObj fields
          /\ forall k, fields !! k = spreadLookup prev partial k).
Proof.
  intros prev.
  apply (getStateFromUpdate_UpdateState 0 None exampleMerge prev VNull VNull
           emptyStore).
  reflexivity.
Defined.

Example getStateFromUpdate_merges :
  getStateFromUpdate 0 None exampleMerge
    (VObj {[ "a"%string := VNum 0; "b"%string := VNum 2 ]}) VNull VNull
    emptyStore
  = Returned (VObj {[ "a"%string := VNum 1; "b"%string := VNum 2 ]})
             emptyStore.
Proof. vm_compute. reflexivity. Qed.

(** Links *)

Lemma nextOf_insert (us : list Update.t) (i j : loc) (u : Update.t) :
  nextOf (<[i := u]> us) j
  = if decide (i = j /\ i < length us) then Update.next u else nextOf us j.
Proof.
  unfold nextOf. destruct (decide (i = j /\ i < length us)) as [[-> Hlt]|Hn].
  - rewrite list_lookup_insert_eq by assumption. reflexivity.
  - destruct (decide (i = j)) as [->|Hij].
    + rewrite list_insert_ge by lia. reflexivity.
    + rewrite list_lookup_insert_ne by assumption. reflexivity.
Qed.

Lemma nextOf_insert_ne (us : list Update.t) (i j : loc) (u : Update.t) :
  i <> j -> nextOf (<[i := u]> us) j = nextOf us j.
Proof.
  intros Hij. rewrite nextOf_insert.
  destruct (decide _) as [[? _]|_]; [contradiction | reflexivity].
Qed.

Lemma nextOf_insert_eq (us : list Update.t) (i : loc) (u : Update.t) :
  i < length us -> nextOf (<[i := u]> us) i = Update.next u.
Proof.
  intros Hi. rewrite nextOf_insert.
  destruct (decide _) as [_|Hn]; [reflexivity | exfalso; apply Hn; auto].
Qed.

Lemma nextOf_app_l (us vs : list Update.t) (i : loc) :
  i < length us -> nextOf (us ++ vs) i = nextOf us i.
Proof. intros Hi. unfold nextOf. rewrite lookup_app_l by assumption. reflexivity. Qed.

Lemma nextOf_Some_lt (us : list Update.t) (i : loc) (n : loc) :
  nextOf us i = Some n -> i < length us.
Proof.
  unfold nextOf. destruct (us !! i) eqn:E; [|discriminate].
  intros _. eapply lookup_lt_Some; eassumption.
Qed.

Lemma chain_lt (us : list Update.t) (a z : option loc) (l : list loc) :
  chain us a l z -> forall x, x ∈ l -> x < length us.
Proof.
  revert a. induction l as [|y l IH]; simpl; intros a H x Hx.
  - inversion Hx.
  - destruct H as (_ & Hy & H). apply elem_of_cons in Hx as [->|Hx]; eauto.
Qed.

(** A chain only depends on the links of the updates it visits. *)
Lemma chain_frame (us us' : list Update.t) (a z : option loc) (l : list loc) :
  length us <= length us' ->
  (forall x, x ∈ l -> nextOf us' x = nextOf us x) ->
  chain us a l z -> chain us' a l z.
Proof.
  intros Hlen. revert a. induction l as [|y l IH]; simpl; intros a Hn H.
  - assumption.
  - destruct H as (Ha & Hy & H). split; [assumption|]. split; [lia|].
    rewrite Hn by (apply elem_of_cons; auto).
    apply IH; [|assumption]. intros x Hx. apply Hn, elem_of_cons; auto.
Qed.

Lemma chain_snoc (us : list Update.t) (a z : option loc) (l : list loc) (y : loc) :
  chain us a l (Some y) -> y < length us -> nextOf us y = z ->
  chain us a (l ++ [y]) z.
Proof.
  revert a. induction l as [|x l IH]; simpl; intros a H Hy Hz.
  - auto.
  - destruct H as (Ha & Hx & H). auto.
Qed.

Lemma chain_snoc_inv (us : list Update.t) (a z : option loc) (l : list loc) (y : loc) :
  chain us a (l ++ [y]) z ->
  chain us a l (Some y) /\ y < length us /\ nextOf us y = z.
Proof.
  revert a. induction l as [|x l IH]; simpl; intros a H.
  - destruct H as (Ha & Hy & H). auto.
  - destruct H as (Ha & Hx & H). apply IH in H as (H & Hy & Hz). auto.
Qed.

Lemma chain_app (us : list Update.t) (a b z : option loc) (l1 l2 : list loc) :
  chain us a l1 b -> chain us b l2 z -> chain us a (l1 ++ l2) z.
Proof.
  revert a. induction l1 as [|x l1 IH]; simpl; intros a H1 H2.
  - subst. assumption.
  - destruct H1 as (Ha & Hx & H1). eauto.
Qed.

Lemma chain_app_inv (us : list Update.t) (a z : option loc) (l1 l2 : list loc) :
  chain us a (l1 ++ l2) z ->
  exists b, chain us a l1 b /\ chain us b l2 z.
Proof.
  revert a. induction l1 as [|x l1 IH]; simpl; intros a H.
  - eauto.
  - destruct H as (Ha & Hx & H). apply IH in H as (b & H1 & H2). eauto.
Qed.

Lemma chain_head (us : list Update.t) (a z : option loc) (l : list loc) :
  chain us a l z -> l <> [] -> a = head l.
Proof. destruct l; simpl; [congruence|]. intros (H & _) _. assumption. Qed.

Lemma last_snoc_inv {A : Type} (l : list A) (t : A) :
  last l = Some t -> exists l0, l = l0 ++ [t].
Proof.
  intros H. destruct l as [|x l _] using rev_ind; [discriminate|].
  rewrite last_snoc in H. injection H as ->. eauto.
Qed.

(** The two shapes of a circular list. *)
Lemma circular_None_inv (us : list Update.t) (l : list loc) :
  circular us None l -> l = [].
Proof. auto. Qed.

Lemma circular_Some_inv (us : list Update.t) (t : loc) (l : list loc) :
  circular us (Some t) l ->
  exists h l0,
    l = l0 ++ [t] /\ head l = Some h /\ NoDup l
    /\ chain us (Some h) l0 (Some t) /\ t < length us
    /\ nextOf us t = Some h.
Proof.
  intros (Hnd & Hlast & Hch).
  destruct (last_snoc_inv _ _ Hlast) as [l0 ->].
  destruct (head (l0 ++ [t])) as [h|] eqn:Hh.
  - exists h, l0. apply chain_snoc_inv in Hch as (H1 & H2 & H3). auto 10.
  - destruct l0; discriminate.
Qed.

Lemma circular_intro (us : list Update.t) (t h : loc) (l0 : list loc) :
  NoDup (l0 ++ [t]) -> head (l0 ++ [t]) = Some h ->
  chain us (Some h) l0 (Some t) -> t < length us -> nextOf us t = Some h ->
  circular us (Some t) (l0 ++ [t]).
Proof.
  intros Hnd Hh Hch Ht Hn. split; [assumption|]. split; [apply last_snoc|].
  rewrite Hh. apply chain_snoc; assumption.
Qed.

Lemma circular_lt (us : list Update.t) (tail : option loc) (l : list loc) :
  circular us tail l -> forall x, x ∈ l -> x < length us.
Proof.
  destruct tail as [t|]; simpl.
  - intros (_ & _ & H). eapply chain_lt; eassumption.
  - intros -> x Hx. inversion Hx.
Qed.

Lemma circular_nil_inv (us : list Update.t) (tail : option loc) :
  circular us tail [] -> tail = None.
Proof. destruct tail; simpl; [|reflexivity]. intros (_ & H & _). discriminate. Qed.

(** Records *)

Lemma fieldsOf_with_next (n : option loc) (u : Update.t) :
  fieldsOf (Update.with_next n u) = fieldsOf u.
Proof. reflexivity. Qed.

Lemma recordsAt_frame (us us' : list Update.t) (l : list loc) :
  (forall x, x ∈ l -> fieldsOf <$> us' !! x = fieldsOf <$> us !! x) ->
  recordsAt us' l = recordsAt us l.
Proof.
  induction l as [|y l IH]; simpl; intros H; [reflexivity|].
  unfold recordsAt in *. simpl.
  rewrite H by (apply elem_of_cons; auto).
  rewrite IH; [reflexivity|]. intros x Hx. apply H, elem_of_cons; auto.
Qed.

Lemma recordsAt_app (us : list Update.t) (l1 l2 : list loc) :
  recordsAt us (l1 ++ l2) = recordsAt us l1 ++ recordsAt us l2.
Proof. unfold recordsAt. apply omap_app. Qed.

Lemma lookup_insert_fieldsOf (us : list Update.t) (i x : loc) (n : option loc) (u : Update.t) :
  us !! i = Some u ->
  fieldsOf <$> <[i := Update.with_next n u]> us !! x = fieldsOf <$> us !! x.
Proof.
  intros Hi. destruct (decide (i = x)) as [->|Hne].
  - rewrite list_lookup_insert_eq by (eapply lookup_lt_Some; eassumption).
    rewrite Hi. reflexivity.
  - rewrite list_lookup_insert_ne by assumption. reflexivity.
Qed.

Ltac exec :=
  unfold bind, ret, modify, throw,
    loadFiber, mutateFiber, loadQueue, mutateQueue, allocQueue,
    loadShared, mutateShared, allocShared, loadUpdate, mutateUpdate,
    allocUpdate, loadArray, mutateArray, allocArray, load, mutate, alloc;
  cbn.

(** C4.  On a fiber whose [updateQueue] is [null], [enqueueUpdate] returns
    and leaves the store as it was.  On a fiber with a queue whose pending
    list is circular and holds the updates [l], oldest first, and for an
    allocated update that is not in the list, it returns; afterwards the
    pending list is circular, [shared.pending] is the new update, its [next]
    is the oldest update, and the list holds the updates of [l], unchanged
    and in their order, followed by the new one. *)
Theorem enqueueUpdate_appends
    (dev : bool) (σ : Store) (fiber update : loc) (f : Fiber.t) :
  fibers σ !! fiber = Some f ->
  match Fiber.updateQueue f with
  | None => enqueueUpdate dev fiber update σ = Returned tt σ
  | Some q =>
      forall Q S l,
        queues σ !! q = Some Q ->
        sharedQueues σ !! UpdateQueue.shared Q = Some S ->
        circular (updates σ) (SharedQueue.pending S) l ->
        update < length (updates σ) ->
        update ∉ l ->
        exists σ',
          enqueueUpdate dev fiber update σ = Returned tt σ'
          /\ sharedQueues σ' !! UpdateQueue.shared Q
             = Some (SharedQueue.mk (Some update))
          /\ circular (updates σ') (Some update) (l ++ [update])
          /\ nextOf (updates σ') update = head (l ++ [update])
          /\ recordsAt (updates σ') (l ++ [update])
             = recordsAt (updates σ) (l ++ [update])
          /\ fibers σ' = fibers σ /\ queues σ' = queues σ
          /\ arrays σ' = arrays σ
          /\ length (updates σ') = length (updates σ)
  end.
Proof.
  intros Hf. unfold enqueueUpdate.
  rewrite (bind_Returned _ _ _ _ _ (load_Some fibers fiber f σ Hf)).
  destruct (Fiber.updateQueue f) as [q|]; [|reflexivity].
  intros Q S l HQ HS Hcirc Hu Hnotin.
  rewrite (bind_Returned _ _ _ _ _ (load_Some queues q Q σ HQ)).
  cbv zeta.
  rewrite (bind_Returned _ _ _ _ _ (load_Some sharedQueues _ S σ HS)).
  destruct (lookup_lt_is_Some_2 (updates σ) update Hu) as [U HU].
  destruct (SharedQueue.pending S) as [t|] eqn:Hp.
  - (* the list has a last update [t] *)
    destruct (circular_Some_inv _ _ _ Hcirc)
      as (h & l0 & -> & Hh & Hnd & Hch & Ht & Hnt).
    destruct (lookup_lt_is_Some_2 (updates σ) t Ht) as [P HP].
    assert (Hnext : Update.next P = Some h)
      by (unfold nextOf in Hnt; rewrite HP in Hnt; exact Hnt).
    assert (Htu : t <> update)
      by (intros ->; apply Hnotin, elem_of_app; right; apply list_elem_of_singleton; reflexivity).
    set (us1 := <[update := Update.with_next (Some h) U]> (updates σ)).
    set (us2 := <[t := Update.with_next (Some update) P]> us1).
    assert (HP1 : us1 !! t = Some P)
      by (subst us1; rewrite list_lookup_insert_ne by congruence; exact HP).
    exists (warnUpdateInsideUpdate dev (UpdateQueue.shared Q)
              (map_sharedQueues
                 (fun xs => <[UpdateQueue.shared Q := SharedQueue.mk (Some update)]> xs)
                 (map_updates (fun _ => us2) σ))).
    split.
    { exec. rewrite HP; cbn. rewrite HU; cbn. rewrite Hnext.
      rewrite list_lookup_insert_ne by congruence. rewrite HP; cbn.
      rewrite HS; cbn.
      unfold warnUpdateInsideUpdate. destruct dev; cbn; [|reflexivity].
      destruct (_ && _); reflexivity. }
    assert (Hlen2 : length us2 = length (updates σ))
      by (subst us2 us1; rewrite !length_insert; reflexivity).
    assert (Hs : forall σ0, updates (warnUpdateInsideUpdate dev (UpdateQueue.shared Q) σ0) = updates σ0
                      /\ sharedQueues (warnUpdateInsideUpdate dev (UpdateQueue.shared Q) σ0) = sharedQueues σ0
                      /\ fibers (warnUpdateInsideUpdate dev (UpdateQueue.shared Q) σ0) = fibers σ0
                      /\ queues (warnUpdateInsideUpdate dev (UpdateQueue.shared Q) σ0) = queues σ0
                      /\ arrays (warnUpdateInsideUpdate dev (UpdateQueue.shared Q) σ0) = arrays σ0)
      by (intros σ0; unfold warnUpdateInsideUpdate; destruct (_ && _); auto).
    destruct (Hs (map_sharedQueues
                 (fun xs => <[UpdateQueue.shared Q := SharedQueue.mk (Some update)]> xs)
                 (map_updates (fun _ => us2) σ))) as (-> & -> & -> & -> & ->).
    simpl.
    assert (Hn_upd : nextOf us2 update = Some h).
    { subst us2. rewrite nextOf_insert_ne by assumption.
      subst us1. apply nextOf_insert_eq. assumption. }
    assert (Hn_t : nextOf us2 t = Some update).
    { subst us2. rewrite nextOf_insert_eq; [reflexivity|].
      subst us1. rewrite length_insert. assumption. }
    assert (Hl0 : forall x, x ∈ l0 -> x <> t /\ x <> update).
    { intros x Hx. split.
      - intros ->. apply NoDup_app in Hnd as (_ & Hd & _).
        apply (Hd t Hx), list_elem_of_singleton. reflexivity.
      - intros ->. apply Hnotin, elem_of_app. auto. }
    split; [|split; [|split; [|split]]].
    + apply list_lookup_insert_eq. eapply lookup_lt_Some; eassumption.
    + apply (circular_intro _ update h (l0 ++ [t])).
      * apply NoDup_app. split; [assumption|]. split; [|apply NoDup_singleton].
        intros x Hx Hx'. apply list_elem_of_singleton in Hx' as ->. contradiction.
      * destruct l0; simpl in *; assumption.
      * apply chain_snoc; [| lia | assumption].
        apply (chain_frame (updates σ)); [lia| |assumption].
        intros x Hx. destruct (Hl0 x Hx) as [H1 H2].
        subst us2 us1. rewrite !nextOf_insert_ne by congruence. reflexivity.
      * lia.
      * assumption.
    + rewrite Hn_upd. symmetry. destruct l0; simpl in *; assumption.
    + apply recordsAt_frame. intros x _. subst us2.
      rewrite lookup_insert_fieldsOf by exact HP1.
      subst us1. apply lookup_insert_fieldsOf. exact HU.
    + auto.
  - (* This is the first update. *)
    simpl in Hcirc. subst l.
    set (us1 := <[update := Update.with_next (Some update) U]> (updates σ)).
    exists (warnUpdateInsideUpdate dev (UpdateQueue.shared Q)
              (map_sharedQueues
                 (fun xs => <[UpdateQueue.shared Q := SharedQueue.mk (Some update)]> xs)
                 (map_updates (fun _ => us1) σ))).
    split.
    { exec. rewrite HU; cbn. rewrite HS; cbn.
      unfold warnUpdateInsideUpdate. destruct dev; cbn; [|reflexivity].
      destruct (_ && _); reflexivity. }
    assert (Hs : forall σ0, updates (warnUpdateInsideUpdate dev (UpdateQueue.shared Q) σ0) = updates σ0
                      /\ sharedQueues (warnUpdateInsideUpdate dev (UpdateQueue.shared Q) σ0) = sharedQueues σ0
                      /\ fibers (warnUpdateInsideUpdate dev (UpdateQueue.shared Q) σ0) = fibers σ0
                      /\ queues (warnUpdateInsideUpdate dev (UpdateQueue.shared Q) σ0) = queues σ0
                      /\ arrays (warnUpdateInsideUpdate dev (UpdateQueue.shared Q) σ0) = arrays σ0)
      by (intros σ0; unfold warnUpdateInsideUpdate; destruct (_ && _); auto).
    destruct (Hs (map_sharedQueues
                 (fun xs => <[UpdateQueue.shared Q := SharedQueue.mk (Some update)]> xs)
                 (map_updates (fun _ => us1) σ))) as (-> & -> & -> & -> & ->).
    simpl.
    assert (Hn : nextOf us1 update = Some update)
      by (subst us1; apply nextOf_insert_eq; assumption).
    assert (Hlen : length us1 = length (updates σ))
      by (subst us1; apply length_insert).
    split; [|split; [|split; [|split]]].
    + apply list_lookup_insert_eq. eapply lookup_lt_Some; eassumption.
    + split; [apply NoDup_singleton|]. split; [reflexivity|].
      simpl. split; [reflexivity|]. split; [lia|]. assumption.
    + assumption.
    + apply (recordsAt_frame (updates σ) us1 [update]). intros x _.
      subst us1. apply lookup_insert_fieldsOf. exact HU.
    + auto.
Qed.

Lemma enqueueUpdate_appends_witness :
  exists σ',
    enqueueUpdate false 0 2 exampleStoreWithUpdate = Returned tt σ'
    /\ sharedQueues σ' !! 0 = Some (SharedQueue.mk (Some 2))
    /\ circular (updates σ') (Some 2) ([0; 1] ++ [2])
    /\ nextOf (updates σ') 2 = head ([0; 1] ++ [2])
    /\ recordsAt (updates σ') ([0; 1] ++ [2])
       = recordsAt (updates exampleStoreWithUpdate) ([0; 1] ++ [2])
    /\ fibers σ' = fibers exampleStoreWithUpdate
    /\ queues σ' = queues exampleStoreWithUpdate
    /\ arrays σ' = arrays exampleStoreWithUpdate
    /\ length (updates σ') = length (updates exampleStoreWithUpdate).
Proof.
  apply (enqueueUpdate_appends false exampleStoreWithUpdate 0 2
           (Fiber.mk (Some 0) None (VNum 0) 0 0 0) eq_refl
           (UpdateQueue.mk (VNum 0) None 0 None) (SharedQueue.mk (Some 1))
           [0; 1]).
  - reflexivity.
  - reflexivity.
  - split; [apply (bool_decide_unpack _); reflexivity|].
    split; [reflexivity|]. cbn. repeat split; lia.
  - cbn. lia.
  - apply (bool_decide_unpack _). reflexivity.
Defined.


Lemma calledBetween_refl (σ : Store) : calledBetween σ σ [].
Proof.
  split; [symmetry; apply app_nil_r|]. split; [constructor|].
  split; [intros i Hi; inversion Hi | auto].
Qed.

Lemma calledBetween_trans (σ1 σ2 σ3 : Store) (n1 n2 : list Invocation) :
  calledBetween σ1 σ2 n1 -> calledBetween σ2 σ3 n2 ->
  calledBetween σ1 σ3 (n1 ++ n2).
Proof.
  intros (Hi1 & Hnd1 & Hc1 & Hm1) (Hi2 & Hnd2 & Hc2 & Hm2).
  split; [rewrite Hi2, Hi1, (assoc_L app); reflexivity|].
  split; [|split].
  - rewrite fmap_app. apply NoDup_app. split; [assumption|]. split; [|assumption].
    intros x Hx1 Hx2.
    apply list_elem_of_fmap in Hx1 as (i & -> & Hi).
    apply list_elem_of_fmap in Hx2 as (j & Hij & Hj).
    destruct (Hc1 i Hi) as [_ Hnone]. destruct (Hc2 j Hj) as [Hsome _].
    rewrite <- Hij, Hnone in Hsome. discriminate.
  - intros i Hi. apply elem_of_app in Hi as [Hi|Hi].
    + destruct (Hc1 i Hi) as [Ha Hb]. split; [assumption|].
      destruct (Hm2 (invokedEffect i)) as [H|H]; [assumption | congruence].
    + destruct (Hc2 i Hi) as [Ha Hb]. split; [|assumption].
      destruct (Hm1 (invokedEffect i)) as [H|H]; congruence.
  - intros x. destruct (Hm2 x) as [H|H]; [auto|].
    destruct (Hm1 x) as [H'|H']; [left|right]; congruence.
Qed.

Lemma callbackAt_insert (σ : Store) (x y : loc) (u : Update.t) (c : option CallbackValue) :
  updates σ !! x = Some u ->
  callbackAt (map_updates (fun xs => <[x := Update.with_callback c u]> xs) σ) y
  = if decide (x = y) then c else callbackAt σ y.
Proof.
  intros Hx. unfold callbackAt. cbn.
  destruct (decide (x = y)) as [->|Hne].
  - rewrite list_lookup_insert_eq by (eapply lookup_lt_Some; eassumption). reflexivity.
  - rewrite list_lookup_insert_ne by assumption. reflexivity.
Qed.

Lemma commitEffects_spec (es : list loc) (instance : value) (σ : Store) :
  exists σ' new,
    finished (commitEffects es instance σ) σ'
    /\ calledBetween σ σ' new
    /\ queues σ' = queues σ /\ arrays σ' = arrays σ
    /\ (commitEffects es instance σ = Returned tt σ' ->
        forall x, x ∈ es -> callbackAt σ' x = None).
Proof.
  revert σ. induction es as [|x es IH]; intros σ.
  - exists σ, []. split; [left; eexists; reflexivity|].
    split; [apply calledBetween_refl|]. repeat split.
    intros _ y Hy. inversion Hy.
  - cbn [commitEffects]. exec.
    destruct (updates σ !! x) as [u|] eqn:Hx; cbn.
    2: { exists σ, []. split; [right; eexists; reflexivity|].
         split; [apply calledBetween_refl|]. repeat split. discriminate. }
    destruct (Update.callback u) as [c|] eqn:Hc; cbn.
    + rewrite Hx; cbn. unfold callCallback.
      set (σ1 := map_updates (fun xs => <[x := Update.with_callback None u]> xs) σ).
      assert (Hcb1 : forall y, callbackAt σ1 y = if decide (x = y) then None else callbackAt σ y)
        by (intros y; apply callbackAt_insert; assumption).
      assert (Hstep1 : calledBetween σ σ1 []).
      { split; [symmetry; apply app_nil_r|]. split; [constructor|].
        split; [intros i Hi; inversion Hi|].
        intros y. rewrite Hcb1. destruct (decide (x = y)); auto. }
      destruct c as [id throws|v]; exec.
      * set (σ2 := map_invocations _ σ1).
        assert (Hstep2 : calledBetween σ σ2
                  [mkInvocation x (CallbackFunction id throws) instance]).
        { split; [reflexivity|]. split; [apply NoDup_singleton|]. split.
          - intros i Hi. apply list_elem_of_singleton in Hi as ->. cbn.
            split; [unfold callbackAt; rewrite Hx; assumption|].
            change (callbackAt σ2 x) with (callbackAt σ1 x).
            rewrite Hcb1. destruct (decide (x = x)); congruence.
          - intros y. change (callbackAt σ2 y) with (callbackAt σ1 y).
            rewrite Hcb1. destruct (decide (x = y)); auto. }
        destruct throws; cbn.
        -- exists σ2, [mkInvocation x (CallbackFunction id true) instance].
           split; [right; eexists; reflexivity|]. split; [assumption|].
           repeat split. discriminate.
        -- destruct (IH σ2) as (σ' & new & Hfin & Hcalled & Hq & Ha & Hnone).
           exists σ', ([mkInvocation x (CallbackFunction id false) instance] ++ new).
           split; [assumption|].
           split; [eapply calledBetween_trans; eassumption|].
           split; [assumption|]. split; [assumption|].
           intros Hret y Hy. apply elem_of_cons in Hy as [->|Hy]; [|auto].
           destruct Hcalled as (_ & _ & _ & Hm). destruct (Hm x) as [H|H]; [assumption|].
           rewrite H. change (callbackAt σ2 x) with (callbackAt σ1 x).
           rewrite Hcb1. destruct (decide (x = x)); congruence.
      * exists σ1, []. split; [right; eexists; reflexivity|].
        split; [assumption|]. repeat split. discriminate.
    + destruct (IH σ) as (σ' & new & Hfin & Hcalled & Hq & Ha & Hnone).
      exists σ', new. split; [assumption|]. split; [assumption|].
      split; [assumption|]. split; [assumption|].
      intros Hret y Hy. apply elem_of_cons in Hy as [->|Hy]; [|auto].
      destruct Hcalled as (_ & _ & _ & Hm). destruct (Hm x) as [H|H]; [assumption|].
      rewrite H. unfold callbackAt. rewrite Hx. assumption.
Qed.

Lemma map_queues_id (σ : Store) (q : loc) (Q : UpdateQueue.t) :
  queues σ !! q = Some Q ->
  map_queues (fun xs => <[q := Q]> xs) σ = σ.
Proof.
  intros H. destruct σ. unfold map_queues. cbn in *.
  rewrite list_insert_id by assumption. reflexivity.
Qed.

Lemma calledBetween_same (σ σ' : Store) :
  updates σ' = updates σ -> invocations σ' = invocations σ ->
  calledBetween σ σ' [].
Proof.
  intros Hu Hi. split; [rewrite Hi; symmetry; apply app_nil_r|].
  split; [constructor|]. split; [intros i H; inversion H|].
  intros x. right. unfold callbackAt. rewrite Hu. reflexivity.
Qed.

Lemma commitUpdateQueue_spec (finishedWork q : loc) (instance : value)
    (σ : Store) (Q : UpdateQueue.t) :
  queues σ !! q = Some Q ->
  exists σ' new,
    finished (commitUpdateQueue finishedWork q instance σ) σ'
    /\ calledBetween σ σ' new
    /\ queues σ' = <[q := UpdateQueue.with_effects None Q]> (queues σ)
    /\ (commitUpdateQueue finishedWork q instance σ = Returned tt σ' ->
        forall a es x,
          UpdateQueue.effects Q = Some a -> arrays σ !! a = Some es ->
          x ∈ es -> callbackAt σ' x = None).
Proof.
  intros HQ. unfold commitUpdateQueue. exec. rewrite HQ; cbn. rewrite HQ; cbn.
  set (σ1 := map_queues (fun xs => <[q := UpdateQueue.with_effects None Q]> xs) σ).
  assert (H1 : calledBetween σ σ1 [])
    by (apply calledBetween_same; reflexivity).
  destruct (UpdateQueue.effects Q) as [a|] eqn:He; cbn.
  - destruct (arrays σ !! a) as [es|] eqn:Ha; cbn.
    + destruct (commitEffects_spec es instance σ1)
        as (σ' & new & Hfin & Hcalled & Hq & Har & Hnone).
      exists σ', new. split; [assumption|].
      split; [exact (calledBetween_trans _ _ _ [] new H1 Hcalled)|].
      split; [assumption|].
      intros Hret a' es' x [= <-] Hes Hx. rewrite Ha in Hes.
      injection Hes as <-. auto.
    + exists σ1, []. split; [right; eexists; reflexivity|].
      split; [assumption|]. split; [reflexivity|]. discriminate.
  - exists σ1, []. split; [left; eexists; reflexivity|].
    split; [assumption|]. split; [reflexivity|]. discriminate.
Qed.

Lemma commitUpdateQueue_again (finishedWork q : loc) (instance : value)
    (σ : Store) (Q : UpdateQueue.t) :
  queues σ !! q = Some Q -> UpdateQueue.effects Q = None ->
  commitUpdateQueue finishedWork q instance σ = Returned tt σ.
Proof.
  intros HQ He. unfold commitUpdateQueue. exec. rewrite HQ; cbn. rewrite HQ; cbn.
  rewrite He. destruct Q as [bs bq sh ef]. cbn in *. subst ef.
  change (UpdateQueue.with_effects None (UpdateQueue.mk bs bq sh None))
    with (UpdateQueue.mk bs bq sh None).
  rewrite map_queues_id by assumption. reflexivity.
Qed.

Lemma commitUpdateQueue_called (finishedWork q : loc) (instance : value)
    (σ : Store) :
  exists σ' new,
    finished (commitUpdateQueue finishedWork q instance σ) σ'
    /\ calledBetween σ σ' new.
Proof.
  destruct (queues σ !! q) as [Q|] eqn:HQ.
  - destruct (commitUpdateQueue_spec finishedWork q instance σ Q HQ)
      as (σ' & new & H1 & H2 & _). eauto.
  - exists σ, []. split; [|apply calledBetween_refl].
    right. exists TypeError. unfold commitUpdateQueue. exec. rewrite HQ. reflexivity.
Qed.

Lemma commitAll_called (calls : list CommitCall) (σ : Store) :
  exists new, calledBetween σ (commitAll calls σ) new.
Proof.
  revert σ. induction calls as [|[[fw q] inst] calls IH]; intros σ; cbn.
  - exists []. apply calledBetween_refl.
  - destruct (commitUpdateQueue_called fw q inst σ) as (σ' & n1 & Hfin & H1).
    destruct (IH σ') as (n2 & H2).
    exists (n1 ++ n2).
    destruct Hfin as [[[] ->]|[e ->]]; eapply calledBetween_trans; eassumption.
Qed.

(** C10.  [commitUpdateQueue] ends with the [effects] of the queue set to
    [null]; the callbacks it called were held by pairwise different updates,
    none of which holds a callback afterwards, and when it returns no update
    of the effects array holds a callback.  A second call on the same queue
    returns and changes nothing, and whatever commits follow, on this queue
    or on others, no update has its callback called a second time. *)
Theorem commitUpdateQueue_calls_once
    (finishedWork q : loc) (instance : value) (σ : Store) (Q : UpdateQueue.t) :
  queues σ !! q = Some Q ->
  exists σ' new,
    finished (commitUpdateQueue finishedWork q instance σ) σ'
    /\ calledBetween σ σ' new
    /\ UpdateQueue.effects <$> queues σ' !! q = Some None
    /\ (commitUpdateQueue finishedWork q instance σ = Returned tt σ' ->
        forall a es x,
          UpdateQueue.effects Q = Some a -> arrays σ !! a = Some es ->
          x ∈ es -> callbackAt σ' x = None)
    /\ (forall finishedWork' instance',
          commitUpdateQueue finishedWork' q instance' σ' = Returned tt σ')
    /\ (forall calls, exists later,
          calledBetween σ (commitAll calls σ') (new ++ later)).
Proof.
  intros HQ.
  destruct (commitUpdateQueue_spec finishedWork q instance σ Q HQ)
    as (σ' & new & Hfin & Hcalled & Hq & Hnone).
  assert (HQ' : queues σ' !! q = Some (UpdateQueue.with_effects None Q)).
  { rewrite Hq. apply list_lookup_insert_eq. eapply lookup_lt_Some; eassumption. }
  exists σ', new. split; [assumption|]. split; [assumption|].
  split; [rewrite HQ'; reflexivity|]. split; [assumption|]. split.
  - intros fw' inst'. eapply commitUpdateQueue_again; [eassumption | reflexivity].
  - intros calls. destruct (commitAll_called calls σ') as [later Hl].
    exists later. eapply calledBetween_trans; eassumption.
Qed.

Lemma commitUpdateQueue_calls_once_witness :
  exists σ' new,
    finished (commitUpdateQueue 0 0 VNull exampleProcessedStore) σ'
    /\ calledBetween exampleProcessedStore σ' new
    /\ UpdateQueue.effects <$> queues σ' !! 0 = Some None
    /\ (commitUpdateQueue 0 0 VNull exampleProcessedStore = Returned tt σ' ->
        forall a es x,
          UpdateQueue.effects (UpdateQueue.mk (VNum 0) (Some 5) 0 (Some 0))
          = Some a ->
          arrays exampleProcessedStore !! a = Some es ->
          x ∈ es -> callbackAt σ' x = None)
    /\ (forall finishedWork' instance',
          commitUpdateQueue finishedWork' 0 instance' σ' = Returned tt σ')
    /\ (forall calls, exists later,
          calledBetween exampleProcessedStore (commitAll calls σ')
                        (new ++ later)).
Proof.
  apply (commitUpdateQueue_calls_once 0 0 VNull exampleProcessedStore
           (UpdateQueue.mk (VNum 0) (Some 5) 0 (Some 0))).
  vm_compute. reflexivity.
Defined.

(** The callback of the third update is called when the pass at the threshold
    2 is committed. *)
Example commitUpdateQueue_calls_callback :
  invocations (storeAfter (commitUpdateQueue 0 0 VNull) exampleProcessedStore)
  = [mkInvocation 2 (CallbackFunction 7 false) VNull].
Proof. vm_compute. reflexivity. Qed.

(** The clone that [processUpdateQueue] made of the third update, which was
    applied after a skipped one, is another object and holds the same
    callback: the commit of the next pass calls that function again, from the
    clone. *)
Example commitUpdateQueue_calls_callback_of_clone :
  invocations
    (storeAfter (commitUpdateQueue 0 0 VNull;;
                 processUpdateQueue false 3 0 VNull VNull 1;;
                 commitUpdateQueue 0 0 VNull)
                exampleProcessedStore)
  = [mkInvocation 2 (CallbackFunction 7 false) VNull;
     mkInvocation 5 (CallbackFunction 7 false) VNull].
Proof. vm_compute. reflexivity. Qed.

Section PassFacts.
Variable r : Z.
Variables props instance : value.

Local Abbreviation step := (passStep r props instance).
Local Abbreviation cloneAs :=
  (fun u => cloneOf (if isSkipped r u then Update.expirationTime u else Sync) u).

Lemma nextState_cloneOf (e : Z) (u : Update.t) (s : value) :
  nextState (cloneOf e u) s props instance = nextState u s props instance.
Proof. reflexivity. Qed.

Lemma passStep_fieldsOf (a : Pass) (u : Update.t) :
  step a (fieldsOf u) = step a u.
Proof. reflexivity. Qed.

Lemma pass_snoc (s : value) (us : list Update.t) (u : Update.t) :
  pass r props instance s (us ++ [u]) = step (pass r props instance s us) u.
Proof. unfold pass. rewrite foldl_app. reflexivity. Qed.

Lemma applyAll_snoc (s : value) (us : list Update.t) (u : Update.t) :
  applyAll props instance s (us ++ [u])
  = nextState u (applyAll props instance s us) props instance.
Proof. unfold applyAll. rewrite foldl_app. reflexivity. Qed.

(** Applying the whole of the new base queue to the new base state gives
    the state that applying every update would give. *)
Lemma passStep_full (a : Pass) (u : Update.t) :
  applyAll props instance (passResultBaseState (step a u))
           (passBaseQueue (step a u))
  = nextState u
      (applyAll props instance (passResultBaseState a) (passBaseQueue a))
      props instance.
Proof.
  unfold passStep, passResultBaseState.
  destruct (Update.expirationTime u <? r)%Z; cbn [passBaseQueue passState passBaseState].
  - destruct (passBaseQueue a) as [|c bq] eqn:E.
    + reflexivity.
    + change ((c :: bq) ++ [cloneOf (Update.expirationTime u) u])
        with (c :: (bq ++ [cloneOf (Update.expirationTime u) u])).
      cbv iota. rewrite app_comm_cons, applyAll_snoc, nextState_cloneOf.
      reflexivity.
  - destruct (passBaseQueue a) as [|c bq] eqn:E; [reflexivity|].
    change ((c :: bq) ++ [cloneOf Sync u])
      with (c :: (bq ++ [cloneOf Sync u])).
    cbv iota. rewrite app_comm_cons, applyAll_snoc, nextState_cloneOf.
    reflexivity.
Qed.

Lemma pass_full (s : value) (us : list Update.t) :
  let a := pass r props instance s us in
  applyAll props instance (passResultBaseState a) (passBaseQueue a)
  = applyAll props instance s us.
Proof.
  induction us as [|u us IH] using rev_ind; [reflexivity|].
  cbn zeta in *. rewrite pass_snoc, passStep_full, IH, applyAll_snoc.
  reflexivity.
Qed.

Lemma pass_baseQueue_bounds (s : value) (us : list Update.t) (lo : Z) :
  (lo <= Sync)%Z ->
  (forall u, u ∈ us -> (lo <= Update.expirationTime u)%Z) ->
  forall c, c ∈ passBaseQueue (pass r props instance s us) ->
            (lo <= Update.expirationTime c)%Z.
Proof.
  intros Hlo. induction us as [|u us IH] using rev_ind; intros Hus c Hc.
  - inversion Hc.
  - rewrite pass_snoc in Hc.
    assert (IH' := IH (fun v Hv => Hus v (proj2 (elem_of_app _ _ _) (or_introl Hv)))).
    assert (Hu := Hus u (proj2 (elem_of_app _ _ _)
                           (or_intror (proj2 (list_elem_of_singleton _ _) eq_refl)))).
    unfold passStep in Hc.
    destruct (Update.expirationTime u <? r)%Z; cbn in Hc.
    + apply elem_of_app in Hc as [Hc|Hc]; [auto|].
      apply list_elem_of_singleton in Hc as ->. exact Hu.
    + destruct (passBaseQueue (pass r props instance s us)) as [|c0 bq] eqn:E;
        [inversion Hc|].
      apply elem_of_app in Hc as [Hc|Hc]; [auto|].
      apply list_elem_of_singleton in Hc as ->. exact Hlo.
Qed.

Lemma pass_baseQueue_length (s : value) (us : list Update.t) :
  length (passBaseQueue (pass r props instance s us)) <= length us.
Proof.
  induction us as [|u us IH] using rev_ind; [reflexivity|].
  rewrite pass_snoc, length_app. cbn. unfold passStep.
  destruct (Update.expirationTime u <? r)%Z; cbn.
  - rewrite length_app. cbn. lia.
  - destruct (passBaseQueue _); cbn in *; [lia|].
    rewrite length_app. cbn. lia.
Qed.

Lemma pass_all_sufficient (s : value) (us : list Update.t) :
  (forall u, u ∈ us -> (r <= Update.expirationTime u)%Z) ->
  pass r props instance s us
  = mkPass (applyAll props instance s us) VNull [] NoWork.
Proof.
  induction us as [|u us IH] using rev_ind; intros Hus; [reflexivity|].
  rewrite pass_snoc, IH, applyAll_snoc.
  2: { intros v Hv. apply Hus, elem_of_app. auto. }
  unfold passStep.
  assert (Hu : (r <= Update.expirationTime u)%Z).
  { apply Hus, elem_of_app. right. apply list_elem_of_singleton. reflexivity. }
  destruct (Z.ltb_spec (Update.expirationTime u) r); [lia|]. reflexivity.
Qed.

(** The fold and the words of the specification *)

Lemma foldl_passState (a : Pass) (us : list Update.t) :
  passState (foldl step a us)
  = applyAll props instance (passState a)
      (filter (fun u => isSkipped r u = false) us).
Proof.
  revert a. induction us as [|u us IH]; intros a; [reflexivity|].
  cbn [foldl]. rewrite IH. unfold passStep, isSkipped.
  rewrite filter_cons.
  destruct (Update.expirationTime u <? r)%Z eqn:E; cbn.
  - destruct (decide _) as [H|H]; [discriminate|]. reflexivity.
  - destruct (decide _) as [H|H]; [|contradiction]. reflexivity.
Qed.

Lemma foldl_passBaseQueue (a : Pass) (us : list Update.t) :
  passBaseQueue (foldl step a us)
  = match passBaseQueue a with
    | [] => rebasedQueue r us
    | bq => bq ++ (cloneAs <$> us)
    end.
Proof.
  revert a. induction us as [|u us IH]; intros a.
  - cbn. destruct (passBaseQueue a); [reflexivity|].
    rewrite app_nil_r. reflexivity.
  - cbn [foldl]. rewrite IH. unfold passStep. cbn [rebasedQueue].
    change (Update.expirationTime u <? r)%Z with (isSkipped r u).
    destruct (isSkipped r u) eqn:E; cbn [passBaseQueue].
    + destruct (passBaseQueue a) as [|c bq].
      * cbn. rewrite E. reflexivity.
      * cbn. rewrite <- (assoc_L app). cbn. rewrite E. reflexivity.
    + destruct (passBaseQueue a) as [|c bq].
      * reflexivity.
      * cbn. rewrite <- (assoc_L app). cbn. rewrite E. reflexivity.
Qed.

Lemma foldl_passResultBaseState (a : Pass) (us : list Update.t) :
  passResultBaseState (foldl step a us)
  = match passBaseQueue a with
    | [] => stateBeforeFirstSkip r props instance (passState a) us
    | _ => passBaseState a
    end.
Proof.
  revert a. induction us as [|u us IH]; intros a; [reflexivity|].
  cbn [foldl]. rewrite IH. unfold passStep, isSkipped. cbn [stateBeforeFirstSkip].
  unfold isSkipped.
  destruct (Update.expirationTime u <? r)%Z eqn:E; cbn.
  - destruct (passBaseQueue a) as [|c bq]; reflexivity.
  - destruct (passBaseQueue a) as [|c bq]; reflexivity.
Qed.

Lemma foldr_max_shift (e c : Z) (l : list Z) :
  foldr Z.max (Z.max e c) l = Z.max e (foldr Z.max c l).
Proof. induction l as [|x l IH]; cbn; [reflexivity|]. rewrite IH. lia. Qed.

Lemma foldl_passExpirationTime (a : Pass) (us : list Update.t) :
  passExpirationTime (foldl step a us)
  = foldr Z.max (passExpirationTime a) (skippedExpirationTimes r us).
Proof.
  revert a. induction us as [|u us IH]; intros a; [reflexivity|].
  cbn [foldl]. rewrite IH. unfold passStep, skippedExpirationTimes, isSkipped.
  rewrite filter_cons.
  destruct (Update.expirationTime u <? r)%Z eqn:E; cbn.
  - destruct (decide _) as [H|H]; [|contradiction]. cbn.
    rewrite <- foldr_max_shift. f_equal.
    destruct (Z.gtb_spec (Update.expirationTime u) (passExpirationTime a)); lia.
  - destruct (decide _) as [H|H]; [discriminate|]. reflexivity.
Qed.

End PassFacts.

(** Skeleton of the store *)

Lemma fiberLinks_lookup (σ σ1 : Store) (i : loc) (f1 : Fiber.t) :
  fiberLinks σ = fiberLinks σ1 -> fibers σ1 !! i = Some f1 ->
  exists f, fibers σ !! i = Some f
            /\ Fiber.updateQueue f = Fiber.updateQueue f1
            /\ Fiber.alternate f = Fiber.alternate f1.
Proof.
  intros H Hf1. apply (f_equal (fun l => l !! i)) in H.
  unfold fiberLinks in H. rewrite !list_lookup_fmap, Hf1 in H.
  destruct (fibers σ !! i) as [f|]; [|discriminate].
  cbn in H. injection H as H1 H2. eauto.
Qed.

Lemma fiberLinks_insert (σ : Store) (i : loc) (f f' : Fiber.t) :
  fibers σ !! i = Some f ->
  Fiber.updateQueue f' = Fiber.updateQueue f ->
  Fiber.alternate f' = Fiber.alternate f ->
  fiberLinks (map_fibers (fun xs => <[i := f']> xs) σ) = fiberLinks σ.
Proof.
  intros Hf H1 H2. unfold fiberLinks. cbn.
  rewrite list_fmap_insert, H1, H2. apply list_insert_id.
  rewrite list_lookup_fmap, Hf. reflexivity.
Qed.

Lemma queueLinks_lookup (σ σ1 : Store) (i : loc) (Q1 : UpdateQueue.t) :
  queueLinks σ = queueLinks σ1 -> queues σ1 !! i = Some Q1 ->
  exists Q, queues σ !! i = Some Q
            /\ UpdateQueue.baseState Q = UpdateQueue.baseState Q1
            /\ UpdateQueue.baseQueue Q = UpdateQueue.baseQueue Q1
            /\ UpdateQueue.shared Q = UpdateQueue.shared Q1.
Proof.
  intros H HQ1. apply (f_equal (fun l => l !! i)) in H.
  unfold queueLinks in H. rewrite !list_lookup_fmap, HQ1 in H.
  destruct (queues σ !! i) as [Q|]; [|discriminate].
  cbn in H. injection H as H1 H2 H3. eauto.
Qed.

Lemma queueLinks_insert (σ : Store) (i : loc) (Q Q' : UpdateQueue.t) :
  queues σ !! i = Some Q ->
  UpdateQueue.baseState Q' = UpdateQueue.baseState Q ->
  UpdateQueue.baseQueue Q' = UpdateQueue.baseQueue Q ->
  UpdateQueue.shared Q' = UpdateQueue.shared Q ->
  queueLinks (map_queues (fun xs => <[i := Q']> xs) σ) = queueLinks σ.
Proof.
  intros HQ H1 H2 H3. unfold queueLinks. cbn.
  rewrite list_fmap_insert, H1, H2, H3. apply list_insert_id.
  rewrite list_lookup_fmap, HQ. reflexivity.
Qed.

(** Clones *)

Lemma fieldsOf_cloneOf (e : Z) (u : Update.t) : fieldsOf (cloneOf e u) = cloneOf e u.
Proof. reflexivity. Qed.

Lemma last_seq_S (n k : nat) : last (seq n (S k)) = Some (n + k).
Proof. rewrite seq_S. apply last_snoc. Qed.

Lemma clonesLinked_nil_inv (us1 us : list Update.t) (first tail : option loc) :
  clonesLinked us1 us first tail [] -> first = None /\ tail = None.
Proof. intros (_ & _ & _ & Hch & Ht). cbn in *. auto. Qed.

Lemma clonesLinked_tail_None (us1 us : list Update.t) (first : option loc)
    (bq : list Update.t) :
  clonesLinked us1 us first None bq -> bq = [].
Proof.
  intros (_ & _ & _ & _ & Ht). destruct bq as [|c bq]; [reflexivity|].
  cbn [length] in Ht. rewrite last_seq_S in Ht. discriminate.
Qed.

Lemma clonesLinked_tail_Some (us1 us : list Update.t) (first : option loc)
    (t : loc) (bq : list Update.t) :
  clonesLinked us1 us first (Some t) bq ->
  bq <> [] /\ length us1 <= t < length us.
Proof.
  intros (_ & Hlen & _ & _ & Ht). destruct bq as [|c bq _] using rev_ind.
  - discriminate.
  - split; [intros H; destruct bq; discriminate|].
    rewrite length_app in Ht, Hlen. cbn in Ht, Hlen.
    rewrite Nat.add_1_r, last_seq_S in Ht. injection Ht as ->. lia.
Qed.

Lemma clonesLinked_first (us1 us : list Update.t) (c : Update.t) :
  clonesLinked us1 us None None [] ->
  Update.next c = None -> fieldsOf c = c ->
  clonesLinked us1 (us ++ [c]) (Some (length us)) (Some (length us)) [c].
Proof.
  intros (Hold & Hlen & _ & _ & _) Hn Hf. cbn in Hlen.
  assert (Hc : (us ++ [c]) !! length us = Some c)
    by (rewrite lookup_app_r, Nat.sub_diag by lia; reflexivity).
  split; [|split; [|split; [|split]]].
  - intros x Hx. rewrite lookup_app_l by lia. auto.
  - rewrite length_app. cbn. lia.
  - cbn. replace (length us1) with (length us) by lia.
    unfold recordsAt. cbn. rewrite Hc. cbn. rewrite Hf. reflexivity.
  - cbn. replace (length us1) with (length us) by lia.
    split; [reflexivity|]. split; [rewrite length_app; cbn; lia|].
    unfold nextOf. rewrite Hc. assumption.
  - cbn. f_equal. lia.
Qed.

Lemma clonesLinked_snoc (us1 us : list Update.t) (first : option loc)
    (t : loc) (bq : list Update.t) (c : Update.t) :
  clonesLinked us1 us first (Some t) bq ->
  Update.next c = None -> fieldsOf c = c ->
  exists ut,
    us !! t = Some ut
    /\ clonesLinked us1
         (<[t := Update.with_next (Some (length us)) ut]> (us ++ [c]))
         first (Some (length us)) (bq ++ [c]).
Proof.
  intros H Hn Hf.
  destruct (clonesLinked_tail_Some _ _ _ _ _ H) as [Hne [Ht1 Ht2]].
  destruct H as (Hold & Hlen & Hrec & Hch & Ht).
  destruct (lookup_lt_is_Some_2 us t Ht2) as [ut Hut].
  exists ut. split; [assumption|].
  unfold clonesLinked. cbv zeta.
  set (n0 := length us1) in *. set (k := length bq) in *.
  set (us' := <[t := Update.with_next (Some (length us)) ut]> (us ++ [c])).
  assert (Hlen' : length us' = S (length us))
    by (subst us'; rewrite length_insert, length_app; cbn; lia).
  assert (Hseq : seq n0 (length (bq ++ [c])) = seq n0 k ++ [length us]).
  { rewrite length_app. cbn. fold k. rewrite Nat.add_1_r, seq_S.
    do 2 f_equal. lia. }
  assert (Hlast : seq n0 k = removelast (seq n0 k) ++ [t]).
  { destruct (last_snoc_inv _ _ (eq_sym Ht)) as [l0 Hl0].
    rewrite Hl0, removelast_last. reflexivity. }
  assert (Hc : us' !! length us = Some c).
  { subst us'. rewrite list_lookup_insert_ne by lia.
    rewrite lookup_app_r, Nat.sub_diag by lia. reflexivity. }
  assert (Hfields : forall x, x < length us ->
            fieldsOf <$> us' !! x = fieldsOf <$> us !! x).
  { intros x Hx. subst us'.
    rewrite lookup_insert_fieldsOf by (rewrite lookup_app_l by lia; exact Hut).
    rewrite lookup_app_l by lia. reflexivity. }
  assert (Hnext : forall x, x < length us -> x <> t -> nextOf us' x = nextOf us x).
  { intros x Hx Hxt. subst us'. rewrite nextOf_insert_ne by congruence.
    apply nextOf_app_l. assumption. }
  split; [|split; [|split; [|split]]].
  - intros x Hx. subst us'. rewrite list_lookup_insert_ne by lia.
    rewrite lookup_app_l by lia. auto.
  - rewrite Hlen', length_app. cbn. lia.
  - rewrite Hseq, recordsAt_app. f_equal.
    + rewrite <- Hrec. apply recordsAt_frame. intros x Hx.
      apply Hfields. apply elem_of_seq in Hx. lia.
    + unfold recordsAt. cbn. rewrite Hc. cbn. rewrite Hf. reflexivity.
  - rewrite Hseq. rewrite Hlast in Hch |- *.
    apply chain_snoc_inv in Hch as (Hch & _ & Hnt).
    assert (Hnd : NoDup (removelast (seq n0 k) ++ [t]))
      by (rewrite <- Hlast; apply NoDup_seq).
    apply chain_snoc; [apply chain_snoc| |].
    + apply (chain_frame us); [lia| |assumption].
      intros x Hx. apply Hnext.
      * eapply chain_lt; eassumption.
      * intros ->. apply NoDup_app in Hnd as (_ & Hd & _).
        apply (Hd t Hx), list_elem_of_singleton. reflexivity.
    + lia.
    + subst us'. rewrite nextOf_insert_eq; [reflexivity|].
      rewrite length_app. cbn. lia.
    + lia.
    + unfold nextOf. rewrite Hc. assumption.
  - rewrite Hseq, last_snoc. reflexivity.
Qed.

(** Closing the list of clones into a circle. *)
Lemma clonesLinked_circular (us1 us : list Update.t) (first : option loc)
    (t : loc) (bq : list Update.t) :
  clonesLinked us1 us first (Some t) bq ->
  exists ut,
    us !! t = Some ut
    /\ let us' := <[t := Update.with_next first ut]> us in
       circular us' (Some t) (seq (length us1) (length bq))
       /\ recordsAt us' (seq (length us1) (length bq)) = bq
       /\ length us' = length us
       /\ (forall x, x < length us1 -> us' !! x = us1 !! x).
Proof.
  intros H.
  destruct (clonesLinked_tail_Some _ _ _ _ _ H) as [Hne [Ht1 Ht2]].
  destruct H as (Hold & Hlen & Hrec & Hch & Ht).
  destruct (lookup_lt_is_Some_2 us t Ht2) as [ut Hut].
  exists ut. split; [assumption|]. cbv zeta.
  set (cl := seq (length us1) (length bq)) in *.
  set (us' := <[t := Update.with_next first ut]> us).
  destruct (last_snoc_inv _ _ (eq_sym Ht)) as [l0 Hl0].
  assert (Hfirst : first = head cl).
  { apply (chain_head us _ None); [assumption|].
    rewrite Hl0. destruct l0; discriminate. }
  assert (Hnd : NoDup cl) by apply NoDup_seq.
  split; [|split; [|split]].
  - split; [assumption|]. split; [symmetry; assumption|].
    rewrite <- Hfirst. rewrite Hl0 in Hch, Hnd |- *.
    apply chain_snoc_inv in Hch as (Hch & _ & _).
    apply chain_snoc.
    + apply (chain_frame us); [subst us'; rewrite length_insert; lia| |assumption].
      intros x Hx. subst us'. apply nextOf_insert_ne. intros ->.
      apply NoDup_app in Hnd as (_ & Hd & _).
      apply (Hd x Hx), list_elem_of_singleton. reflexivity.
    + subst us'. rewrite length_insert. assumption.
    + subst us'. apply nextOf_insert_eq. assumption.
  - rewrite <- Hrec. apply recordsAt_frame. intros x _. subst us'.
    apply lookup_insert_fieldsOf. assumption.
  - apply length_insert.
  - intros x Hx. subst us'. rewrite list_lookup_insert_ne by lia. auto.
Qed.

Section Walk.
Variables workInProgress q : loc.
Variables props instance : value.
Variable r : Z.
Variable σ1 : Store.

Local Abbreviation step := (passStep r props instance).

Lemma skipUpdate_spec (σ : Store) (v : Locals) (a : Pass) (u : Update.t) :
  loopInvariant σ1 q σ v a ->
  isSkipped r u = true ->
  exists v' σ',
    skipUpdate u v σ = Returned v' σ'
    /\ loopInvariant σ1 q σ' v' (step a u)
    /\ update v' = update v /\ baseQueue v' = baseQueue v.
Proof.
  intros (Hcl & Hs & He & Hb & Hfl & Hql & Hsh & Hea) Hskip.
  unfold isSkipped in Hskip. unfold passStep. rewrite Hskip.
  unfold skipUpdate. exec.
  destruct (newBaseQueueLast v) as [t|] eqn:Hlast.
  - destruct (clonesLinked_snoc _ _ _ _ _
                (cloneOf (Update.expirationTime u) u) Hcl eq_refl eq_refl)
      as (ut & Hut & Hcl').
    unfold linkClone. exec. rewrite Hlast.
    rewrite lookup_app_l by (eapply lookup_lt_Some; eassumption).
    rewrite Hut. cbn. rewrite He.
    destruct (clonesLinked_tail_Some _ _ _ _ _ Hcl) as [Hne _].
    destruct (Update.expirationTime u >? passExpirationTime a)%Z;
      (eexists; eexists; split; [reflexivity|]);
      (split; [|split; reflexivity]);
      (split; [cbn; destruct (passBaseQueue a); [congruence|]; exact Hcl'|]);
      cbn; destruct (passBaseQueue a); try congruence; auto 10.
  - assert (Hnil := clonesLinked_tail_None _ _ _ _ Hcl).
    rewrite Hnil in Hcl.
    destruct (clonesLinked_nil_inv _ _ _ _ Hcl) as [Hfirst _].
    rewrite Hfirst in Hcl.
    assert (Hcl' := clonesLinked_first _ _
                      (cloneOf (Update.expirationTime u) u) Hcl eq_refl eq_refl).
    cbn. rewrite He, Hnil.
    destruct (Update.expirationTime u >? passExpirationTime a)%Z;
      (eexists; eexists; split; [reflexivity|]);
      (split; [|split; reflexivity]);
      (split; [exact Hcl'|]); cbn; auto 10.
Qed.

Lemma effectsAllocated_same (σ σ' : Store) :
  queues σ' = queues σ -> length (arrays σ) <= length (arrays σ') ->
  effectsAllocated σ q -> effectsAllocated σ' q.
Proof.
  intros Hq Ha H Q a HQ He. rewrite Hq in HQ.
  specialize (H Q a HQ He). lia.
Qed.

Lemma getStateFromUpdate_spec (queue : option loc) (u : Update.t)
    (s : value) (σ : Store) (f : Fiber.t) :
  fibers σ !! workInProgress = Some f ->
  exists σ',
    getStateFromUpdate workInProgress queue u s props instance σ
    = Returned (nextState u s props instance) σ'
    /\ updates σ' = updates σ /\ queues σ' = queues σ
    /\ sharedQueues σ' = sharedQueues σ /\ arrays σ' = arrays σ
    /\ fiberLinks σ' = fiberLinks σ.
Proof.
  intros Hf. unfold getStateFromUpdate, nextState.
  destruct (Update.tag u); exec.
  - eexists; split; [reflexivity|]. auto 10.
  - eexists; split; [reflexivity|]. auto 10.
  - eexists; split; [reflexivity|]. auto 10.
  - rewrite Hf. cbn. eexists; split; [reflexivity|].
    cbn. repeat split. eapply fiberLinks_insert; [eassumption| |]; reflexivity.
Qed.

Lemma pushEffect_spec (x : loc) (σ : Store) (f : Fiber.t) (Q : UpdateQueue.t) :
  fibers σ !! workInProgress = Some f ->
  queues σ !! q = Some Q ->
  effectsAllocated σ q ->
  exists σ',
    pushEffect workInProgress (Some q) (Some x) σ = Returned tt σ'
    /\ updates σ' = updates σ /\ sharedQueues σ' = sharedQueues σ
    /\ fiberLinks σ' = fiberLinks σ /\ queueLinks σ' = queueLinks σ
    /\ effectsAllocated σ' q.
Proof.
  intros Hf HQ Hea. unfold pushEffect. exec. rewrite Hf. cbn. rewrite HQ. cbn.
  destruct (UpdateQueue.effects Q) as [a|] eqn:He; cbn.
  - destruct (lookup_lt_is_Some_2 (arrays σ) a (Hea Q a HQ He)) as [es Hes].
    rewrite Hes. cbn. eexists; split; [reflexivity|]. cbn.
    split; [reflexivity|]. split; [reflexivity|].
    split; [eapply fiberLinks_insert; [eassumption| |]; reflexivity|].
    split; [reflexivity|].
    intros Q' a' HQ' He'. cbn in *. rewrite length_insert. eapply Hea; eassumption.
  - rewrite HQ. cbn. eexists; split; [reflexivity|]. cbn.
    split; [reflexivity|]. split; [reflexivity|].
    split; [eapply fiberLinks_insert; [eassumption| |]; reflexivity|].
    split; [eapply queueLinks_insert; [eassumption| | |]; reflexivity|].
    intros Q' a' HQ' He'. cbn in *.
    rewrite list_lookup_insert_eq in HQ' by (eapply lookup_lt_Some; eassumption).
    injection HQ' as <-. cbn in He'. injection He' as <-.
    rewrite length_app. cbn. lia.
Qed.

Lemma applyUpdate_spec (σ : Store) (v : Locals) (a : Pass) (u : Update.t)
    (x : loc) (f1 : Fiber.t) (Q1 : UpdateQueue.t) :
  fibers σ1 !! workInProgress = Some f1 ->
  queues σ1 !! q = Some Q1 ->
  loopInvariant σ1 q σ v a ->
  isSkipped r u = false ->
  update v = Some x ->
  exists v' σ',
    applyUpdate workInProgress (Some q) props instance u v σ
    = Returned v' σ'
    /\ loopInvariant σ1 q σ' v' (step a u)
    /\ update v' = update v /\ baseQueue v' = baseQueue v.
Proof.
  intros Hf1 HQ1 (Hcl & Hs & He & Hb & Hfl & Hql & Hsh & Hea) Hskip Hx.
  unfold isSkipped in Hskip. unfold passStep. rewrite Hskip.
  (* the clone of an update applied after a skip *)
  assert (Hclone : exists va σa,
    (match newBaseQueueLast v with
     | Some _ =>
         let! clone := allocUpdate (cloneOf Sync u) in
         linkClone clone v
     | None => ret v
     end) σ = Returned va σa
    /\ clonesLinked (updates σ1) (updates σa) (newBaseQueueFirst va)
         (newBaseQueueLast va)
         (match passBaseQueue a with
          | [] => []
          | _ => passBaseQueue a ++ [cloneOf Sync u]
          end)
    /\ newState va = newState v
    /\ newExpirationTime va = newExpirationTime v
    /\ newBaseState va = newBaseState v
    /\ update va = update v /\ baseQueue va = baseQueue v
    /\ fibers σa = fibers σ /\ queues σa = queues σ
    /\ sharedQueues σa = sharedQueues σ /\ arrays σa = arrays σ).
  { destruct (newBaseQueueLast v) as [t|] eqn:Hlast.
    - destruct (clonesLinked_snoc _ _ _ _ _ (cloneOf Sync u) Hcl eq_refl eq_refl)
        as (ut & Hut & Hcl').
      destruct (clonesLinked_tail_Some _ _ _ _ _ Hcl) as [Hne _].
      unfold linkClone. exec. rewrite Hlast.
      rewrite lookup_app_l by (eapply lookup_lt_Some; eassumption).
      rewrite Hut. cbn. eexists; eexists; split; [reflexivity|]. cbn.
      split; [destruct (passBaseQueue a); [congruence|]; exact Hcl'|].
      auto 12.
    - assert (Hnil := clonesLinked_tail_None _ _ _ _ Hcl).
      exists v, σ. split; [reflexivity|]. rewrite Hlast, Hnil.
      rewrite Hnil in Hcl. auto 12. }
  destruct Hclone as (va & σa & Hrun & Hcl' & Hs' & He' & Hb' & Hu' & Hbq'
                      & Hfa & Hqa & Hsa & Haa).
  unfold applyUpdate. rewrite (bind_Returned _ _ _ _ _ Hrun).
  set (σb := map_workLoopCalls
               (fun t => t ++ [MarkRenderEventTimeAndConfig
                                 (Update.expirationTime u)
                                 (Update.suspenseConfig u)]) σa).
  rewrite (bind_Returned (markRenderEventTimeAndConfig _ _) _ σa σb tt eq_refl).
  destruct (fiberLinks_lookup σ σ1 workInProgress f1 Hfl Hf1) as (f & Hf & _).
  destruct (queueLinks_lookup σ σ1 q Q1 Hql HQ1) as (Q & HQ & _).
  assert (Hfb : fibers σb !! workInProgress = Some f) by (cbn; rewrite Hfa; exact Hf).
  destruct (getStateFromUpdate_spec (Some q) u (newState va) σb f Hfb)
    as (σc & Hget & Huc & Hqc & Hsc & Hac & Hflc).
  rewrite (bind_Returned _ _ _ _ _ Hget). cbv zeta.
  assert (Hinv : forall σd,
    updates σd = updates σc -> sharedQueues σd = sharedQueues σc ->
    fiberLinks σd = fiberLinks σc -> queueLinks σd = queueLinks σc ->
    effectsAllocated σd q ->
    loopInvariant σ1 q σd
      (with_newState (nextState u (newState va) props instance) va)
      (mkPass (nextState u (passState a) props instance) (passBaseState a)
         (match passBaseQueue a with
          | [] => []
          | _ => passBaseQueue a ++ [cloneOf Sync u]
          end) (passExpirationTime a))).
  { intros σd Hud Hsd Hfd Hqd Hed. split; [|split; [|split; [|split; [|split; [|split; [|split]]]]]]; cbn.
    - rewrite Hud, Huc. exact Hcl'.
    - rewrite Hs', Hs. reflexivity.
    - congruence.
    - congruence.
    - rewrite Hfd, Hflc. unfold fiberLinks. cbn. rewrite Hfa. exact Hfl.
    - rewrite Hqd. unfold queueLinks. rewrite Hqc. cbn. rewrite Hqa. exact Hql.
    - rewrite Hsd, Hsc. cbn. rewrite Hsa. exact Hsh.
    - exact Hed. }
  assert (Heac : effectsAllocated σc q).
  { apply (effectsAllocated_same σ); [rewrite Hqc; cbn; exact Hqa | | exact Hea].
    rewrite Hac. cbn. rewrite Haa. lia. }
  destruct (Update.callback u) as [c|].
  - assert (Hfc : exists fc, fibers σc !! workInProgress = Some fc).
    { apply (f_equal (fun l => l !! workInProgress)) in Hflc.
      unfold fiberLinks in Hflc. rewrite !list_lookup_fmap, Hfb in Hflc.
      destruct (fibers σc !! workInProgress); [eauto | discriminate]. }
    destruct Hfc as [fc Hfc].
    assert (HQc : queues σc !! q = Some Q) by (rewrite Hqc; cbn; rewrite Hqa; exact HQ).
    destruct (pushEffect_spec x σc fc Q Hfc HQc Heac)
      as (σd & Hpush & Hud & Hsd & Hfd & Hqd & Hed).
    cbn [update with_newState]. rewrite Hu', Hx.
    rewrite (bind_Returned _ _ _ _ _ Hpush).
    eexists; eexists; split; [reflexivity|].
    split; [apply Hinv; assumption|]. cbn. split; congruence.
  - eexists; eexists; split; [reflexivity|].
    split; [apply Hinv; auto|]. cbn. auto.
Qed.
End Walk.

Section Loop.
Variables workInProgress q : loc.
Variables props instance : value.
Variable r : Z.
Variable σ1 : Store.
Variable first : loc.
Variable f1 : Fiber.t.
Variable Q1 : UpdateQueue.t.
Hypothesis Hf1 : fibers σ1 !! workInProgress = Some f1.
Hypothesis HQ1 : queues σ1 !! q = Some Q1.
Hypothesis HS1 :
  sharedQueues σ1 !! UpdateQueue.shared Q1 = Some (SharedQueue.mk None).

Local Abbreviation step := (passStep r props instance).

Lemma loopInvariant_locals (σ : Store) (v v' : Locals) (a : Pass) :
  newBaseQueueFirst v' = newBaseQueueFirst v ->
  newBaseQueueLast v' = newBaseQueueLast v ->
  newState v' = newState v ->
  newExpirationTime v' = newExpirationTime v ->
  newBaseState v' = newBaseState v ->
  loopInvariant σ1 q σ v a -> loopInvariant σ1 q σ v' a.
Proof.
  intros H1 H2 H3 H4 H5. unfold loopInvariant.
  rewrite H1, H2, H3, H4, H5. auto.
Qed.

Lemma processLoop_spec (rest : list loc) :
  forall (x : loc) (v : Locals) (σ : Store) (a : Pass) (fuel : nat),
    loopInvariant σ1 q σ v a ->
    update v = Some x ->
    chain (updates σ1) (Some x) (x :: rest) (Some first) ->
    first ∉ rest ->
    length (x :: rest) <= fuel ->
    exists v' σ',
      processLoop workInProgress (Some q) props instance r (Some first)
                  fuel v σ
      = Returned v' σ'
      /\ loopInvariant σ1 q σ' v'
           (foldl step a (recordsAt (updates σ1) (x :: rest))).
Proof.
  induction rest as [|y rest IH]; intros x v σ a fuel Hinv Hx Hch Hnotin Hfuel.
  all: destruct fuel as [|fuel]; [cbn in Hfuel; lia|].
  all: destruct Hch as (_ & Hxlt & Hch).
  all: destruct (lookup_lt_is_Some_2 _ _ Hxlt) as [u Hu1].
  all: assert (Hu : updates σ !! x = Some u)
         by (destruct Hinv as ((Hold & _) & _); rewrite Hold by assumption; exact Hu1).
  all: assert (Hrec : forall l, recordsAt (updates σ1) (x :: l)
                                = fieldsOf u :: recordsAt (updates σ1) l)
         by (intros l; unfold recordsAt; cbn; rewrite Hu1; reflexivity).
  all: assert (Hbody : exists v' σ',
         (if (Update.expirationTime u <? r)%Z
          then skipUpdate u v
          else applyUpdate workInProgress (Some q) props instance u v) σ
         = Returned v' σ'
         /\ loopInvariant σ1 q σ' v' (step a u)
         /\ update v' = update v /\ baseQueue v' = baseQueue v)
         by (destruct (Update.expirationTime u <? r)%Z eqn:E;
             [apply skipUpdate_spec; assumption
             |eapply applyUpdate_spec; eassumption]).
  all: destruct Hbody as (v' & σ' & Hbody & Hinv' & Hupd & _).
  all: cbn [processLoop]; unfold loadUpdate at 1; rewrite Hx;
       rewrite (bind_Returned _ _ _ _ _ (load_Some updates x u σ Hu));
       rewrite (bind_Returned _ _ _ _ _ Hbody); cbv zeta.
  all: cbn [update with_update].
  all: assert (Hnext : Update.next u = nextOf (updates σ1) x)
         by (unfold nextOf; rewrite Hu1; reflexivity).
  all: rewrite Hnext, Hrec; cbn [foldl].
  - (* the walk is back at the first update *)
    cbn in Hch. rewrite Hch.
    rewrite (bool_decide_eq_true_2 (Some first = Some first) eq_refl).
    rewrite orb_true_r.
    destruct Hinv' as (Hcl & Hs & He & Hb & Hfl & Hql & Hsh & Hea).
    destruct (queueLinks_lookup σ' σ1 q Q1 Hql HQ1) as (Q & HQ & _ & _ & HQs).
    unfold loadQueue at 1.
    rewrite (bind_Returned _ _ _ _ _ (load_Some queues q Q σ' HQ)).
    unfold loadShared at 1.
    assert (HS : sharedQueues σ' !! UpdateQueue.shared Q
                 = Some (SharedQueue.mk None))
      by (rewrite Hsh, HQs; exact HS1).
    rewrite (bind_Returned _ _ _ _ _ (load_Some sharedQueues _ _ σ' HS)).
    cbn. eexists; eexists; split; [reflexivity|].
    split; [exact Hcl|]. auto 10.
  - (* the walk goes on with the next update *)
    destruct Hch as (Hy & Hylt & Hch).
    rewrite Hy.
    rewrite (bool_decide_eq_false_2 (Some y = None)) by discriminate.
    rewrite (bool_decide_eq_false_2 (Some y = Some first)).
    2: { intros [= ->]. apply Hnotin. left. }
    cbn [orb].
    apply IH.
    + eapply loopInvariant_locals; [| | | | |exact Hinv']; reflexivity.
    + reflexivity.
    + split; [reflexivity|]. split; assumption.
    + intros H. apply Hnotin. right. exact H.
    + cbn in Hfuel |- *. lia.
Qed.
End Loop.

(** Membership in a list built with [++] and [::]. *)
Ltac in_list :=
  repeat rewrite ?elem_of_app, ?elem_of_cons, ?list_elem_of_singleton in *;
  intuition congruence.

Lemma circular_app_nil_l (us : list Update.t) (tail : option loc) (l : list loc) :
  circular us tail l -> circular us tail ([] ++ l).
Proof. auto. Qed.

(** Two disjoint circular lists become one when the links of their last
    updates are exchanged. *)
Lemma circular_merge (us : list Update.t) (tb tp : loc) (lb lp : list loc)
    (B P : Update.t) :
  circular us (Some tb) lb -> circular us (Some tp) lp ->
  NoDup (lb ++ lp) ->
  us !! tb = Some B -> us !! tp = Some P ->
  let us1 := <[tb := Update.with_next (Update.next P) B]> us in
  let us2 := <[tp := Update.with_next (Update.next B) P]> us1 in
  us1 !! tp = Some P
  /\ circular us2 (Some tp) (lb ++ lp)
  /\ recordsAt us2 (lb ++ lp) = recordsAt us (lb ++ lp)
  /\ length us2 = length us.
Proof.
  intros Hb Hp Hnd HB HP us1 us2.
  destruct (circular_Some_inv _ _ _ Hb) as (hb & lb0 & -> & Hhb & _ & Hchb & Htb & Hnb).
  destruct (circular_Some_inv _ _ _ Hp) as (hp & lp0 & -> & Hhp & _ & Hchp & Htp & Hnp).
  assert (HnB : Update.next B = Some hb)
    by (unfold nextOf in Hnb; rewrite HB in Hnb; exact Hnb).
  assert (HnP : Update.next P = Some hp)
    by (unfold nextOf in Hnp; rewrite HP in Hnp; exact Hnp).
  assert (Hne : tb <> tp).
  { intros ->. apply NoDup_app in Hnd as (_ & Hd & _).
    apply (Hd tp); apply elem_of_app; right; apply list_elem_of_singleton; reflexivity. }
  assert (HP1 : us1 !! tp = Some P)
    by (subst us1; rewrite list_lookup_insert_ne by assumption; exact HP).
  assert (Hlen : length us2 = length us)
    by (subst us2 us1; rewrite !length_insert; reflexivity).
  assert (Hin : forall x, x ∈ lb0 ++ lp0 -> x <> tb /\ x <> tp).
  { intros x Hx.
    rewrite <- (assoc_L app) in Hnd.
    apply NoDup_app in Hnd as (Hnd1 & Hd1 & Hnd2).
    apply NoDup_app in Hnd2 as (_ & Hd2 & Hnd3).
    apply NoDup_app in Hnd3 as (_ & Hd3 & _).
    apply elem_of_app in Hx as [Hx|Hx].
    - split; intros ->; apply (Hd1 _ Hx); in_list.
    - split; intros ->.
      + apply (Hd2 tb); in_list.
      + apply (Hd3 tp Hx); in_list. }
  assert (Hnext : forall x, x ∈ lb0 ++ lp0 -> nextOf us2 x = nextOf us x).
  { intros x Hx. destruct (Hin x Hx) as [H1 H2]. subst us2 us1.
    rewrite !nextOf_insert_ne by congruence. reflexivity. }
  assert (Hntb : nextOf us2 tb = Some hp).
  { subst us2. rewrite nextOf_insert_ne by congruence. subst us1.
    rewrite nextOf_insert_eq by assumption. exact HnP. }
  assert (Hntp : nextOf us2 tp = Some hb).
  { subst us2. rewrite nextOf_insert_eq; [exact HnB|].
    subst us1. rewrite length_insert. assumption. }
  split; [assumption|]. split; [|split; [|assumption]].
  - split; [assumption|]. split.
    + rewrite (assoc_L app). apply last_snoc.
    + assert (Hhd : head ((lb0 ++ [tb]) ++ lp0 ++ [tp]) = Some hb)
        by (destruct lb0; cbn in *; assumption).
      rewrite Hhd. apply (chain_app _ _ (Some hp)).
      * apply chain_snoc; [|lia|assumption].
        apply (chain_frame us); [lia| |assumption].
        intros x Hx. apply Hnext. in_list.
      * apply chain_snoc; [|lia|assumption].
        apply (chain_frame us); [lia| |assumption].
        intros x Hx. apply Hnext. in_list.
  - apply recordsAt_frame. intros x _. subst us2.
    rewrite lookup_insert_fieldsOf by exact HP1.
    subst us1. apply lookup_insert_fieldsOf. exact HB.
Qed.

(** The assignment to the queue of the alternate fiber. *)
Lemma assignCurrentBaseQueue_spec (alt pendingQueue : option loc) (σ : Store) :
  (forall c, alt = Some c ->
     exists fc, fibers σ !! c = Some fc
     /\ forall qc, Fiber.updateQueue fc = Some qc -> qc < length (queues σ)) ->
  exists σ',
    (match alt with
     | Some _ =>
         let! c := loadFiber alt in
         let currentQueue := Fiber.updateQueue c in
         match currentQueue with
         | Some _ =>
             mutateQueue currentQueue (UpdateQueue.with_baseQueue pendingQueue)
         | None => ret tt
         end
     | None => ret tt
     end) σ = Returned tt σ'
    /\ updates σ' = updates σ /\ fibers σ' = fibers σ
    /\ sharedQueues σ' = sharedQueues σ /\ arrays σ' = arrays σ
    /\ length (queues σ') = length (queues σ)
    /\ (forall i Qi, queues σ !! i = Some Qi ->
        exists Qi', queues σ' !! i = Some Qi'
        /\ UpdateQueue.baseState Qi' = UpdateQueue.baseState Qi
        /\ UpdateQueue.shared Qi' = UpdateQueue.shared Qi
        /\ UpdateQueue.effects Qi' = UpdateQueue.effects Qi).
Proof.
  intros Halt. destruct alt as [c|].
  2: { exists σ. split; [reflexivity|]. repeat split; eauto 10. }
  destruct (Halt c eq_refl) as (fc & Hfc & Hqc).
  exec. rewrite Hfc. cbn.
  destruct (Fiber.updateQueue fc) as [qc|]; cbn.
  2: { exists σ. split; [reflexivity|]. repeat split; eauto 10. }
  destruct (lookup_lt_is_Some_2 _ _ (Hqc qc eq_refl)) as [Qc HQc].
  rewrite HQc. cbn. eexists. split; [reflexivity|]. cbn.
  repeat split; [apply length_insert|].
  intros i Qi HQi. destruct (decide (qc = i)) as [->|Hne].
  - rewrite list_lookup_insert_eq by (eapply lookup_lt_Some; eassumption).
    rewrite HQi in HQc. injection HQc as ->. eexists. split; [reflexivity|]. auto.
  - rewrite list_lookup_insert_ne by assumption. eauto.
Qed.

Lemma mergePendingQueue_spec (σ : Store) (f : Fiber.t) (q : loc)
    (Q : UpdateQueue.t) (S : SharedQueue.t) (lb lp : list loc) :
  queues σ !! q = Some Q ->
  sharedQueues σ !! UpdateQueue.shared Q = Some S ->
  circular (updates σ) (UpdateQueue.baseQueue Q) lb ->
  circular (updates σ) (SharedQueue.pending S) lp ->
  NoDup (lb ++ lp) ->
  (forall c, Fiber.alternate f = Some c ->
     exists fc, fibers σ !! c = Some fc
     /\ forall qc, Fiber.updateQueue fc = Some qc -> qc < length (queues σ)) ->
  exists σ1 bq pq Q1,
    mergePendingQueue f (Some q) σ = Returned (bq, pq) σ1
    /\ circular (updates σ1) bq (lb ++ lp)
    /\ recordsAt (updates σ1) (lb ++ lp) = recordsAt (updates σ) (lb ++ lp)
    /\ length (updates σ1) = length (updates σ)
    /\ fibers σ1 = fibers σ /\ arrays σ1 = arrays σ
    /\ length (queues σ1) = length (queues σ)
    /\ queues σ1 !! q = Some Q1
    /\ UpdateQueue.baseState Q1 = UpdateQueue.baseState Q
    /\ UpdateQueue.shared Q1 = UpdateQueue.shared Q
    /\ UpdateQueue.effects Q1 = UpdateQueue.effects Q
    /\ sharedQueues σ1 !! UpdateQueue.shared Q = Some (SharedQueue.mk None).
Proof.
  intros HQ HS Hb Hp Hnd Halt.
  unfold mergePendingQueue.
  unfold loadQueue at 1. rewrite (bind_Returned _ _ _ _ _ (load_Some queues q Q σ HQ)).
  unfold loadShared at 1.
  rewrite (bind_Returned _ _ _ _ _ (load_Some sharedQueues _ S σ HS)).
  cbv zeta.
  destruct (SharedQueue.pending S) as [tp|] eqn:Hpend.
  - (* there are pending updates *)
    assert (Hmerge : exists σa,
      (match UpdateQueue.baseQueue Q with
       | Some _ =>
           let! b := loadUpdate (UpdateQueue.baseQueue Q) in
           let! p := loadUpdate (Some tp) in
           mutateUpdate (UpdateQueue.baseQueue Q)
             (Update.with_next (Update.next p));;
           mutateUpdate (Some tp) (Update.with_next (Update.next b))
       | None => ret tt
       end) σ = Returned tt σa
      /\ circular (updates σa) (Some tp) (lb ++ lp)
      /\ recordsAt (updates σa) (lb ++ lp) = recordsAt (updates σ) (lb ++ lp)
      /\ length (updates σa) = length (updates σ)
      /\ fibers σa = fibers σ /\ queues σa = queues σ
      /\ sharedQueues σa = sharedQueues σ /\ arrays σa = arrays σ).
    { destruct (UpdateQueue.baseQueue Q) as [tb|] eqn:Hbase.
      - assert (Htb : tb < length (updates σ)).
        { eapply circular_lt; [exact Hb|]. destruct Hb as (_ & Hl & _).
          destruct (last_snoc_inv _ _ Hl) as [l0 ->]. in_list. }
        assert (Htp : tp < length (updates σ)).
        { eapply circular_lt; [exact Hp|]. destruct Hp as (_ & Hl & _).
          destruct (last_snoc_inv _ _ Hl) as [l0 ->]. in_list. }
        destruct (lookup_lt_is_Some_2 _ _ Htb) as [B HB].
        destruct (lookup_lt_is_Some_2 _ _ Htp) as [P HP].
        destruct (circular_merge _ _ _ _ _ B P Hb Hp Hnd HB HP)
          as (HP1 & Hcirc & Hrec & Hlen).
        exec. rewrite HB. cbn. rewrite HP. cbn. rewrite HB. cbn.
        rewrite HP1. cbn. eexists. split; [reflexivity|]. cbn. auto 10.
      - cbn in Hb. subst lb. exists σ. split; [reflexivity|]. auto 10. }
    destruct Hmerge as (σa & Hrun & Hcirc & Hrec & Hlen & Hfa & Hqa & Hsa & Haa).
    rewrite (bind_Returned _ _ _ _ _ Hrun).
    assert (HSa : sharedQueues σa !! UpdateQueue.shared Q = Some S)
      by (rewrite Hsa; exact HS).
    unfold mutateShared at 1.
    rewrite (bind_Returned _ _ _ _ _
               (mutate_Some sharedQueues map_sharedQueues _ _ S σa HSa)).
    set (σb := map_sharedQueues _ σa).
    destruct (assignCurrentBaseQueue_spec (Fiber.alternate f) (Some tp) σb)
      as (σc & Hrunc & Huc & Hfc & Hsc & Hac & Hlc & Hqc).
    { intros c Hc. destruct (Halt c Hc) as (fc & H1 & H2).
      exists fc. cbn. rewrite Hfa, Hqa. auto. }
    cbv zeta in Hrunc. rewrite (bind_Returned _ _ _ _ _ Hrunc).
    destruct (Hqc q Q) as (Q1 & HQ1 & Hbs & Hsh & Hef);
      [cbn; rewrite Hqa; exact HQ|].
    exists σc, (Some tp), (Some tp), Q1. split; [reflexivity|].
    rewrite Huc, Hfc, Hsc, Hac, Hlc. cbn. rewrite Hqa, Hfa, Haa.
    split; [exact Hcirc|]. split; [exact Hrec|]. split; [exact Hlen|].
    split; [reflexivity|]. split; [reflexivity|]. split; [reflexivity|].
    split; [exact HQ1|]. split; [exact Hbs|]. split; [exact Hsh|].
    split; [exact Hef|].
    apply list_lookup_insert_eq. rewrite Hsa. eapply lookup_lt_Some; eassumption.
  - (* nothing is pending *)
    cbn in Hp. subst lp. rewrite app_nil_r.
    exists σ, (UpdateQueue.baseQueue Q), None, Q. split; [reflexivity|].
    split; [exact Hb|]. do 9 (split; [reflexivity || assumption|]).
    rewrite HS. destruct S as [p]. cbn in Hpend. subst p. reflexivity.
Qed.

Lemma loopInvariant_start (σ1 : Store) (q : loc) (v : Locals) (s : value) :
  newBaseQueueFirst v = None -> newBaseQueueLast v = None ->
  newState v = s -> newExpirationTime v = NoWork -> newBaseState v = VNull ->
  effectsAllocated σ1 q ->
  loopInvariant σ1 q σ1 v (mkPass s VNull [] NoWork).
Proof.
  intros H1 H2 H3 H4 H5 H6. unfold loopInvariant, clonesLinked. cbn.
  rewrite H1, H2, H3, H4, H5. repeat split; auto.
Qed.

Section ProcessBaseQueue.
Variables workInProgress q : loc.
Variables props instance : value.
Variable r : Z.

Lemma processBaseQueue_spec (fuel : nat) (σ1 : Store) (f1 : Fiber.t)
    (Q1 : UpdateQueue.t) (t : loc) (pq : option loc) (l : list loc) :
  fibers σ1 !! workInProgress = Some f1 ->
  queues σ1 !! q = Some Q1 ->
  sharedQueues σ1 !! UpdateQueue.shared Q1 = Some (SharedQueue.mk None) ->
  effectsAllocated σ1 q ->
  circular (updates σ1) (Some t) l ->
  length l <= fuel ->
  let a := pass r props instance (UpdateQueue.baseState Q1)
                (recordsAt (updates σ1) l) in
  let cl := seq (length (updates σ1)) (length (passBaseQueue a)) in
  exists σ' f' Q',
    processBaseQueue fuel workInProgress (Some q) props instance r
                     (Some t) pq σ1 = Returned tt σ'
    /\ fiberLinks σ' = fiberLinks σ1
    /\ length (queues σ') = length (queues σ1)
    /\ sharedQueues σ' = sharedQueues σ1
    /\ fibers σ' !! workInProgress = Some f'
    /\ queues σ' !! q = Some Q'
    /\ UpdateQueue.shared Q' = UpdateQueue.shared Q1
    /\ UpdateQueue.baseState Q' = passResultBaseState a
    /\ circular (updates σ') (UpdateQueue.baseQueue Q') cl
    /\ recordsAt (updates σ') cl = passBaseQueue a
    /\ effectsAllocated σ' q
    /\ Fiber.memoizedState f' = passState a
    /\ Fiber.expirationTime f' = passExpirationTime a.
Proof.
  intros Hf1 HQ1 HS1 Hea1 Hcirc Hfuel a cl.
  destruct Hcirc as (Hnd & Hlast & Hch).
  destruct l as [|h rest]; [discriminate|]. cbn [head] in Hch.
  assert (Ht : t < length (updates σ1)).
  { eapply chain_lt; [exact Hch|]. destruct (last_snoc_inv _ _ Hlast) as [l0 ->].
    apply elem_of_app. right. apply list_elem_of_singleton. reflexivity. }
  destruct (lookup_lt_is_Some_2 _ _ Ht) as [b Hb].
  assert (Hnb : Update.next b = Some h).
  { destruct (last_snoc_inv _ _ Hlast) as [l0 Hl0]. rewrite Hl0 in Hch.
    apply chain_snoc_inv in Hch as (_ & _ & Hn).
    unfold nextOf in Hn. rewrite Hb in Hn. exact Hn. }
  unfold processBaseQueue.
  unfold loadUpdate at 1.
  rewrite (bind_Returned _ _ _ _ _ (load_Some updates t b σ1 Hb)).
  unfold loadQueue at 1.
  rewrite (bind_Returned _ _ _ _ _ (load_Some queues q Q1 σ1 HQ1)).
  cbv zeta. rewrite Hnb.
  set (v0 := mkLocals (Some h) (UpdateQueue.baseState Q1) NoWork VNull None
                      None (Some t) pq).
  destruct (processLoop_spec workInProgress q props instance r σ1 h f1 Q1
              Hf1 HQ1 HS1 rest h v0 σ1
              (mkPass (UpdateQueue.baseState Q1) VNull [] NoWork) fuel)
    as (v' & σ' & Hloop & Hinv).
  { apply loopInvariant_start; auto. }
  { reflexivity. }
  { exact Hch. }
  { apply NoDup_cons in Hnd as [Hnotin _]. exact Hnotin. }
  { exact Hfuel. }
  rewrite (bind_Returned _ _ _ _ _ Hloop).
  fold (pass r props instance (UpdateQueue.baseState Q1)
             (recordsAt (updates σ1) (h :: rest))) in Hinv.
  fold a in Hinv. clearbody a.
  destruct Hinv as (Hcl & Hs & He & Hbs & Hfl & Hql & Hsh & Hea).
  (* the list of clones is closed *)
  assert (Hclose : exists v'' σa,
    (match newBaseQueueLast v' with
     | None => ret (with_newBaseState (newState v') v')
     | Some _ =>
         mutateUpdate (newBaseQueueLast v')
                      (Update.with_next (newBaseQueueFirst v'));;
         ret v'
     end) σ' = Returned v'' σa
    /\ newBaseState v'' = passResultBaseState a
    /\ newState v'' = passState a
    /\ newExpirationTime v'' = passExpirationTime a
    /\ circular (updates σa) (newBaseQueueLast v'') cl
    /\ recordsAt (updates σa) cl = passBaseQueue a
    /\ fibers σa = fibers σ' /\ queues σa = queues σ'
    /\ sharedQueues σa = sharedQueues σ' /\ arrays σa = arrays σ').
  { destruct (newBaseQueueLast v') as [t'|] eqn:Hl.
    - destruct (clonesLinked_circular _ _ _ _ _ Hcl)
        as (ut & Hut & Hc & Hr & _ & _).
      destruct (clonesLinked_tail_Some _ _ _ _ _ Hcl) as [Hne _].
      exec. rewrite Hut. cbn. eexists; eexists; split; [reflexivity|].
      cbn. rewrite Hl.
      split; [unfold passResultBaseState; destruct (passBaseQueue a);
              [congruence | exact Hbs]|].
      auto 10.
    - assert (Hnil := clonesLinked_tail_None _ _ _ _ Hcl).
      exists (with_newBaseState (newState v') v'), σ'. split; [reflexivity|].
      cbn. rewrite Hl. subst cl. rewrite Hnil. cbn.
      split; [unfold passResultBaseState; rewrite Hnil; exact Hs|].
      auto 10. }
  destruct Hclose as (v'' & σa & Hrun & Hbs'' & Hs'' & He'' & Hcirc'' & Hrec''
                      & Hfa & Hqa & Hsa & Haa).
  rewrite (bind_Returned _ _ _ _ _ Hrun).
  destruct (queueLinks_lookup σ' σ1 q Q1 Hql HQ1) as (Q & HQ & _ & _ & HQsh).
  destruct (fiberLinks_lookup σ' σ1 workInProgress f1 Hfl Hf1) as (f & Hf & Hfq & Hfalt).
  exec. rewrite Hqa, HQ. cbn.
  rewrite list_lookup_insert_eq by (rewrite Hqa; eapply lookup_lt_Some; eassumption).
  cbn. rewrite Hfa, Hf. cbn.
  rewrite list_lookup_insert_eq by (rewrite Hfa; eapply lookup_lt_Some; eassumption).
  cbn.
  eexists; eexists; eexists. split; [reflexivity|]. cbn.
  rewrite Hfa, Hqa, Hsa.
  split.
  { rewrite <- Hfl. unfold fiberLinks. rewrite !list_fmap_insert. cbn.
    rewrite list_insert_insert_eq. apply list_insert_id.
    rewrite list_lookup_fmap, Hf. reflexivity. }
  split.
  { pose proof (f_equal length Hql) as Hlq. unfold queueLinks in Hlq.
    rewrite !length_fmap in Hlq. rewrite !length_insert. exact Hlq. }
  split; [exact Hsh|].
  split.
  { rewrite list_insert_insert_eq. apply list_lookup_insert_eq.
    eapply lookup_lt_Some; eassumption. }
  split.
  { rewrite list_insert_insert_eq. apply list_lookup_insert_eq.
    eapply lookup_lt_Some; eassumption. }
  cbn. split; [exact HQsh|]. split; [exact Hbs''|].
  split; [exact Hcirc''|]. split; [exact Hrec''|].
  split.
  { intros Q0 a0 HQ0 Ha0. cbn in HQ0 |- *. rewrite ?Hqa in HQ0.
    rewrite list_insert_insert_eq in HQ0.
    rewrite list_lookup_insert_eq in HQ0 by (eapply lookup_lt_Some; eassumption).
    injection HQ0 as <-. cbn in Ha0. rewrite Haa. eapply Hea; eassumption. }
  split; [exact Hs''|exact He''].
Qed.
End ProcessBaseQueue.

Lemma fiberLinks_of_fibers (σ σ' : Store) :
  fibers σ' = fibers σ -> fiberLinks σ' = fiberLinks σ.
Proof. intros H. unfold fiberLinks. rewrite H. reflexivity. Qed.

Lemma fiberLinks_length (σ σ' : Store) :
  fiberLinks σ' = fiberLinks σ -> length (fibers σ') = length (fibers σ).
Proof.
  intros H. apply (f_equal length) in H. unfold fiberLinks in H.
  rewrite !length_fmap in H. exact H.
Qed.

Section ProcessUpdateQueue.
Variable dev : bool.
Variables workInProgress : loc.
Variables props instance : value.
Variable r : Z.

(** One call of [processUpdateQueue] on a queue that is in order. *)
Lemma processUpdateQueue_spec (fuel : nat) (σ : Store) (lb lp : list loc)
    (f : Fiber.t) (q : loc) (Q : UpdateQueue.t) (S : SharedQueue.t) :
  fibers σ !! workInProgress = Some f ->
  Fiber.updateQueue f = Some q ->
  queues σ !! q = Some Q ->
  sharedQueues σ !! UpdateQueue.shared Q = Some S ->
  circular (updates σ) (UpdateQueue.baseQueue Q) lb ->
  circular (updates σ) (SharedQueue.pending S) lp ->
  NoDup (lb ++ lp) ->
  (forall a, UpdateQueue.effects Q = Some a -> a < length (arrays σ)) ->
  (forall c, Fiber.alternate f = Some c ->
     exists fc, fibers σ !! c = Some fc
     /\ forall qc, Fiber.updateQueue fc = Some qc -> qc < length (queues σ)) ->
  length (lb ++ lp) <= fuel ->
  let a := pass r props instance (UpdateQueue.baseState Q)
                (recordsAt (updates σ) (lb ++ lp)) in
  exists σ' lc f' Q',
    processUpdateQueue dev fuel workInProgress props instance r σ
    = Returned tt σ'
    /\ wellFormedQueue σ' workInProgress lc []
    /\ fibers σ' !! workInProgress = Some f'
    /\ Fiber.updateQueue f' = Some q
    /\ queues σ' !! q = Some Q'
    /\ recordsAt (updates σ') lc = passBaseQueue a
    /\ UpdateQueue.baseState Q' = passResultBaseState a
    /\ circular (updates σ') (UpdateQueue.baseQueue Q') lc
    /\ (lb ++ lp <> [] ->
        Fiber.memoizedState f' = passState a
        /\ Fiber.expirationTime f' = passExpirationTime a)
    /\ (lb ++ lp = [] ->
        Fiber.memoizedState f' = Fiber.memoizedState f
        /\ Fiber.expirationTime f' = Fiber.expirationTime f).
Proof.
  intros Hf Hfq HQ HS Hb Hp Hnd Hea Halt Hfuel a.
  unfold processUpdateQueue.
  unfold loadFiber at 1.
  rewrite (bind_Returned _ _ _ _ _ (load_Some fibers _ f σ Hf)).
  cbv zeta. rewrite Hfq.
  rewrite (bind_Returned (modify (set_hasForceUpdate false)) _ σ
             (set_hasForceUpdate false σ) tt eq_refl).
  (* the development-only bookkeeping leaves the objects alone *)
  assert (Hdev : exists σ0,
    (if dev
     then let! q0 := loadQueue (Some q) in
          modify (set_currentlyProcessingQueue
                    (Some (UpdateQueue.shared q0)))
     else ret tt) (set_hasForceUpdate false σ) = Returned tt σ0
    /\ fibers σ0 = fibers σ /\ queues σ0 = queues σ
    /\ sharedQueues σ0 = sharedQueues σ /\ updates σ0 = updates σ
    /\ arrays σ0 = arrays σ).
  { destruct dev.
    - exec. rewrite HQ. cbn. eexists. split; [reflexivity|]. auto.
    - eexists. split; [reflexivity|]. auto. }
  destruct Hdev as (σ0 & Hrun0 & Hf0 & Hq0 & Hs0 & Hu0 & Ha0).
  rewrite (bind_Returned _ _ _ _ _ Hrun0).
  destruct (mergePendingQueue_spec σ0 f q Q S lb lp)
    as (σ1 & bq & pq & Q1 & Hrun1 & Hcirc1 & Hrec1 & Hlen1 & Hf1 & Ha1 & Hlq1
        & HQ1 & Hbs1 & Hsh1 & Hef1 & HS1).
  { rewrite Hq0. exact HQ. }
  { rewrite Hs0. exact HS. }
  { rewrite Hu0. exact Hb. }
  { rewrite Hu0. exact Hp. }
  { exact Hnd. }
  { intros c Hc. rewrite Hf0, Hq0. auto. }
  rewrite (bind_Returned _ _ _ _ _ Hrun1).
  rewrite Hu0 in Hrec1, Hlen1. rewrite Hf0 in Hf1. rewrite Ha0 in Ha1.
  rewrite Hq0 in Hlq1.
  assert (Hfw1 : fibers σ1 !! workInProgress = Some f) by (rewrite Hf1; exact Hf).
  assert (Hea1 : effectsAllocated σ1 q).
  { intros Q0 a0 HQ0 He0. rewrite HQ1 in HQ0. injection HQ0 as <-.
    rewrite Hef1 in He0. rewrite Ha1. auto. }
  assert (Hfinish : forall σ2,
    exists σ', (if dev then modify (set_currentlyProcessingQueue None)
                else ret tt) σ2 = Returned tt σ'
               /\ fibers σ' = fibers σ2 /\ queues σ' = queues σ2
               /\ sharedQueues σ' = sharedQueues σ2
               /\ updates σ' = updates σ2 /\ arrays σ' = arrays σ2).
  { intros σ2. destruct dev; eexists; (split; [reflexivity|]); auto. }
  assert (Hwf : forall σ' lc f' Q',
    fiberLinks σ' = fiberLinks σ1 -> length (queues σ') = length (queues σ1) ->
    sharedQueues σ' = sharedQueues σ1 ->
    fibers σ' !! workInProgress = Some f' -> queues σ' !! q = Some Q' ->
    UpdateQueue.shared Q' = UpdateQueue.shared Q1 ->
    circular (updates σ') (UpdateQueue.baseQueue Q') lc ->
    NoDup lc -> effectsAllocated σ' q ->
    wellFormedQueue σ' workInProgress lc [] /\ Fiber.updateQueue f' = Some q).
  { intros σ' lc f' Q' Hfl Hlq Hsq Hf' HQ' Hsh' Hc' Hnd' Hea'.
    destruct (fiberLinks_lookup σ' σ1 _ f Hfl Hfw1) as (f'' & Hf'' & Hq'' & Halt'').
    rewrite Hf' in Hf''. injection Hf'' as <-.
    split; [|congruence].
    exists f', q, Q', (SharedQueue.mk None).
    split; [assumption|]. split; [congruence|]. split; [assumption|].
    split; [rewrite Hsq, Hsh', Hsh1; exact HS1|].
    split; [assumption|]. split; [reflexivity|].
    split; [rewrite app_nil_r; assumption|].
    split; [intros a0 Ha0'; eapply Hea'; eassumption|].
    intros c Hc. rewrite Halt'' in Hc.
    destruct (Halt c Hc) as (fc & Hfc & Hqc).
    rewrite <- Hf1 in Hfc.
    destruct (fiberLinks_lookup σ' σ1 c fc Hfl Hfc) as (fc' & Hfc' & Hqc' & _).
    exists fc'. split; [assumption|]. intros qc Hqc''.
    rewrite Hlq, Hlq1. apply Hqc. congruence. }
  destruct bq as [t|].
  - (* the queue is not empty *)
    destruct (processBaseQueue_spec workInProgress q props instance r fuel σ1
                f Q1 t pq (lb ++ lp) Hfw1 HQ1)
      as (σ2 & f2 & Q2 & Hrun2 & Hfl2 & Hlq2 & Hs2 & Hf2 & HQ2 & Hsh2 & Hbs2
          & Hcirc2 & Hrec2 & Hea2 & Hms2 & Het2).
    { rewrite Hsh1. exact HS1. }
    { exact Hea1. }
    { exact Hcirc1. }
    { exact Hfuel. }
    rewrite (bind_Returned _ _ _ _ _ Hrun2).
    destruct (Hfinish σ2) as (σ' & Hrun' & Hf' & Hq' & Hs' & Hu' & Ha').
    rewrite Hrun'.
    rewrite Hbs1, Hrec1 in *. fold a in Hbs2, Hcirc2, Hrec2, Hms2, Het2.
    set (lc := seq (length (updates σ1)) (length (passBaseQueue a))) in *.
    exists σ', lc, f2, Q2. split; [reflexivity|].
    destruct (Hwf σ' lc f2 Q2) as [Hw Hfq2].
    { rewrite (fiberLinks_of_fibers _ _ Hf'). exact Hfl2. }
    { rewrite Hq'. exact Hlq2. }
    { rewrite Hs'. exact Hs2. }
    { rewrite Hf'. exact Hf2. }
    { rewrite Hq'. exact HQ2. }
    { exact Hsh2. }
    { rewrite Hu'. exact Hcirc2. }
    { apply NoDup_seq. }
    { eapply effectsAllocated_same; [exact Hq' | rewrite Ha'; lia | exact Hea2]. }
    split; [exact Hw|]. rewrite Hf', Hq', Hu'.
    split; [exact Hf2|]. split; [exact Hfq2|]. split; [exact HQ2|].
    split; [exact Hrec2|]. split; [exact Hbs2|]. split; [exact Hcirc2|].
    split; [auto|].
    intros Hnil. rewrite Hnil in Hcirc1. destruct Hcirc1 as (_ & Hl & _).
    discriminate.
  - (* the queue is empty *)
    cbn in Hcirc1. apply app_eq_nil in Hcirc1 as [-> ->].
    apply circular_nil_inv in Hb, Hp.
    unfold processBaseQueue.
    rewrite (bind_Returned (ret tt) _ σ1 σ1 tt eq_refl).
    destruct (Hfinish σ1) as (σ' & Hrun' & Hf' & Hq' & Hs' & Hu' & Ha').
    rewrite Hrun'.
    assert (HQeq : Q1 = Q).
    { unfold mergePendingQueue in Hrun1. revert Hrun1. exec.
      rewrite Hq0, HQ. cbn. rewrite Hs0, HS. cbn. rewrite Hp.
      intros [= _ _ <-]. rewrite Hq0, HQ in HQ1. congruence. }
    subst Q1.
    exists σ', [], f, Q. split; [reflexivity|].
    destruct (Hwf σ' [] f Q) as [Hw Hfq2].
    { rewrite (fiberLinks_of_fibers _ _ Hf'). reflexivity. }
    { rewrite Hq'. reflexivity. }
    { exact Hs'. }
    { rewrite Hf'. exact Hfw1. }
    { rewrite Hq'. exact HQ1. }
    { reflexivity. }
    { rewrite Hb. reflexivity. }
    { constructor. }
    { eapply effectsAllocated_same; [exact Hq' | rewrite Ha'; lia | exact Hea1]. }
    split; [exact Hw|]. rewrite Hf', Hq'.
    split; [exact Hfw1|]. split; [exact Hfq|]. split; [exact HQ1|].
    split; [reflexivity|]. split; [reflexivity|].
    split; [rewrite Hb; reflexivity|].
    split; [intros H; contradiction|]. auto.
Qed.
End ProcessUpdateQueue.

Lemma recordsAt_length (us : list Update.t) (l : list loc) :
  (forall x, x ∈ l -> x < length us) -> length (recordsAt us l) = length l.
Proof.
  induction l as [|x l IH]; intros H; [reflexivity|].
  unfold recordsAt in *. cbn.
  destruct (lookup_lt_is_Some_2 us x (H x ltac:(left))) as [u ->]. cbn.
  rewrite IH; [reflexivity|]. intros y Hy. apply H. right. exact Hy.
Qed.

Lemma recordsAt_nil_inv (us : list Update.t) (l : list loc) :
  (forall x, x ∈ l -> x < length us) -> recordsAt us l = [] -> l = [].
Proof.
  intros H Hnil. apply (f_equal length) in Hnil.
  rewrite recordsAt_length in Hnil by assumption.
  destruct l; [reflexivity | discriminate].
Qed.

Lemma wellFormedQueue_lt (σ : Store) (wip : loc) (lb lp : list loc) :
  wellFormedQueue σ wip lb lp ->
  forall x, x ∈ lb ++ lp -> x < length (updates σ).
Proof.
  intros (f & q & Q & S & _ & _ & _ & _ & Hb & Hp & _) x Hx.
  apply elem_of_app in Hx as [Hx|Hx].
  - exact (circular_lt _ _ _ Hb x Hx).
  - exact (circular_lt _ _ _ Hp x Hx).
Qed.

Section Passes.
Variable dev : bool.
Variables workInProgress : loc.
Variables props instance : value.

(** One call, stated on the queue and the fiber as the store holds them. *)
Lemma processUpdateQueue_pass (r : Z) (fuel : nat) (σ : Store)
    (lb lp : list loc) :
  wellFormedQueue σ workInProgress lb lp ->
  length (lb ++ lp) <= fuel ->
  exists Q f,
    queueOfFiber σ workInProgress = Some Q
    /\ fibers σ !! workInProgress = Some f
    /\ let a := pass r props instance (UpdateQueue.baseState Q)
                     (recordsAt (updates σ) (lb ++ lp)) in
       exists σ' lc Q' f',
         processUpdateQueue dev fuel workInProgress props instance r σ
         = Returned tt σ'
         /\ wellFormedQueue σ' workInProgress lc []
         /\ queueOfFiber σ' workInProgress = Some Q'
         /\ fibers σ' !! workInProgress = Some f'
         /\ circular (updates σ') (UpdateQueue.baseQueue Q') lc
         /\ recordsAt (updates σ') lc = passBaseQueue a
         /\ UpdateQueue.baseState Q' = passResultBaseState a
         /\ (lb ++ lp <> [] ->
             Fiber.memoizedState f' = passState a
             /\ Fiber.expirationTime f' = passExpirationTime a)
         /\ (lb ++ lp = [] ->
             Fiber.memoizedState f' = Fiber.memoizedState f
             /\ Fiber.expirationTime f' = Fiber.expirationTime f).
Proof.
  intros (f & q & Q & S & Hf & Hfq & HQ & HS & Hb & Hp & Hnd & Hea & Halt) Hfuel.
  exists Q, f. split; [unfold queueOfFiber; rewrite Hf, Hfq; exact HQ|].
  split; [exact Hf|]. intros a.
  destruct (processUpdateQueue_spec dev workInProgress props instance r fuel
              σ lb lp f q Q S Hf Hfq HQ HS Hb Hp Hnd Hea Halt Hfuel)
    as (σ' & lc & f' & Q' & Hrun & Hwf & Hf' & Hfq' & HQ' & Hrec & Hbs & Hc
        & Hne & Hnil).
  exists σ', lc, Q', f'. split; [exact Hrun|]. split; [exact Hwf|].
  split; [unfold queueOfFiber; rewrite Hf', Hfq'; exact HQ'|].
  auto 10.
Qed.

(** Several calls in a row, the last one at a threshold that no update
    of the queue falls below. *)
Lemma processPasses_spec (r : Z) (fuel : nat) (rs : list Z) :
  forall (σ : Store) (lb lp : list loc) (Q : UpdateQueue.t) (f : Fiber.t),
    wellFormedQueue σ workInProgress lb lp ->
    queueOfFiber σ workInProgress = Some Q ->
    fibers σ !! workInProgress = Some f ->
    (forall u, u ∈ recordsAt (updates σ) (lb ++ lp) ->
               (r <= Update.expirationTime u)%Z) ->
    (lb ++ lp <> [] -> (r <= Sync)%Z) ->
    length (lb ++ lp) <= fuel ->
    exists σ2 f2,
      processPasses dev fuel workInProgress props instance (rs ++ [r]) σ
      = Returned tt σ2
      /\ fibers σ2 !! workInProgress = Some f2
      /\ Fiber.memoizedState f2
         = if decide (lb ++ lp = []) then Fiber.memoizedState f
           else applyAll props instance (UpdateQueue.baseState Q)
                         (recordsAt (updates σ) (lb ++ lp)).
Proof.
  induction rs as [|r0 rs IH]; intros σ lb lp Q f Hwf HQ Hf Hlo Hsync Hfuel.
  - (* the last call *)
    destruct (processUpdateQueue_pass r fuel σ lb lp Hwf Hfuel)
      as (Q0 & f0 & HQ0 & Hf0 & σ' & lc & Q' & f' & Hrun & _ & _ & Hf' & _ & _
          & _ & Hne & Hnil).
    rewrite HQ in HQ0. injection HQ0 as <-.
    rewrite Hf in Hf0. injection Hf0 as <-.
    exists σ', f'. cbn [app processPasses].
    rewrite (bind_Returned _ _ _ _ _ Hrun). split; [reflexivity|].
    split; [exact Hf'|].
    destruct (decide (lb ++ lp = [])) as [He|He]; [apply Hnil; exact He|].
    destruct (Hne He) as [-> _].
    rewrite pass_all_sufficient by exact Hlo. reflexivity.
  - (* an earlier call, at any threshold *)
    destruct (processUpdateQueue_pass r0 fuel σ lb lp Hwf Hfuel)
      as (Q0 & f0 & HQ0 & Hf0 & σ' & lc & Q' & f' & Hrun & Hwf' & HQ' & Hf'
          & Hcirc & Hrec & Hbs & Hne & Hnil).
    rewrite HQ in HQ0. injection HQ0 as <-.
    rewrite Hf in Hf0. injection Hf0 as <-.
    set (us := recordsAt (updates σ) (lb ++ lp)) in *.
    set (a := pass r0 props instance (UpdateQueue.baseState Q) us) in *.
    assert (Hlen : length lc <= length (lb ++ lp)).
    { rewrite <- (recordsAt_length (updates σ') lc).
      - rewrite Hrec.
        etransitivity; [apply pass_baseQueue_length|]. subst us.
        rewrite recordsAt_length; [reflexivity|].
        eapply wellFormedQueue_lt; eassumption.
      - intros x Hx. eapply (wellFormedQueue_lt σ' workInProgress lc []); [eassumption|].
        rewrite app_nil_r. exact Hx. }
    destruct (IH σ' lc [] Q' f') as (σ2 & f2 & Hrun2 & Hf2 & Hms2).
    { exact Hwf'. }
    { exact HQ'. }
    { exact Hf'. }
    { rewrite app_nil_r, Hrec. intros u Hu.
      destruct (decide (lb ++ lp = [])) as [He|He].
      - subst a us. rewrite He in Hu. inversion Hu.
      - eapply pass_baseQueue_bounds; [apply Hsync; exact He | exact Hlo | exact Hu]. }
    { intros Hlc. destruct (decide (lb ++ lp = [])) as [He|He]; [|auto].
      exfalso. apply Hlc. rewrite app_nil_r.
      apply (recordsAt_nil_inv (updates σ')).
      - intros x Hx. eapply (wellFormedQueue_lt σ' workInProgress lc []); [eassumption|].
        rewrite app_nil_r. exact Hx.
      - rewrite Hrec. subst a us. rewrite He. reflexivity. }
    { rewrite app_nil_r. lia. }
    exists σ2, f2. cbn [app processPasses].
    rewrite (bind_Returned _ _ _ _ _ Hrun). split; [exact Hrun2|].
    split; [exact Hf2|]. rewrite Hms2, app_nil_r.
    assert (Hfull := pass_full r0 props instance (UpdateQueue.baseState Q) us).
    cbv zeta in Hfull. fold a in Hfull.
    destruct (decide (lc = [])) as [Hlc|Hlc].
    + destruct (decide (lb ++ lp = [])) as [He|He]; [apply Hnil; exact He|].
      destruct (Hne He) as [-> _]. rewrite <- Hfull.
      rewrite <- Hrec, Hlc. unfold passResultBaseState.
      rewrite <- Hrec, Hlc. reflexivity.
    + destruct (decide (lb ++ lp = [])) as [He|He].
      * exfalso. apply Hlc. apply (recordsAt_nil_inv (updates σ')).
        -- intros x Hx. eapply (wellFormedQueue_lt σ' workInProgress lc []); [eassumption|].
           rewrite app_nil_r. exact Hx.
        -- rewrite Hrec. subst a us. rewrite He. reflexivity.
      * rewrite Hrec, Hbs. exact Hfull.
Qed.
End Passes.



Lemma exampleStore_wellFormed : wellFormedQueue exampleStore 0 [] [0; 1].
Proof.
  assert (Hnd : NoDup [0; 1]) by (apply (bool_decide_unpack _); reflexivity).
  exists (Fiber.mk (Some 0) None (VNum 0) 0 0 0),
         0, (UpdateQueue.mk (VNum 0) None 0 None), (SharedQueue.mk (Some 1)).
  split; [reflexivity|]. split; [reflexivity|]. split; [reflexivity|].
  split; [reflexivity|]. split; [reflexivity|].
  split; [split; [exact Hnd|]; split; [reflexivity|]; cbn; repeat split; lia|].
  split; [exact Hnd|].
  split; [intros a H; discriminate H | intros c H; discriminate H].
Qed.

Lemma pass_spec_words (r : Z) (props instance : value) (s : value)
    (us : list Update.t) :
  let a := pass r props instance s us in
  passState a = computedState r props instance s us
  /\ passBaseQueue a = rebasedQueue r us
  /\ passResultBaseState a = stateBeforeFirstSkip r props instance s us
  /\ passExpirationTime a = foldr Z.max NoWork (skippedExpirationTimes r us).
Proof.
  cbv zeta. unfold pass.
  rewrite foldl_passState, foldl_passBaseQueue, foldl_passResultBaseState,
    foldl_passExpirationTime.
  auto.
Qed.







(** C1.  On a queue in order whose updates have expiration times in the range
    of the type (at most [Sync]), one pass of [processUpdateQueue] at a
    threshold [once] that no update is below, and any number of passes at the
    thresholds [thresholds] followed by a pass at a threshold [final] that no
    update is below, all return and leave the same memoized state; when the
    queue holds an update, that state is the result of applying every update,
    in insertion order, to the base state. *)
Theorem processUpdateQueue_order_independent (dev : bool)
    (workInProgress : loc) (props instance : value) (thresholds : list Z)
    (once final : Z) (fuel : nat) (σ : Store) (lb lp : list loc) :
  wellFormedQueue σ workInProgress lb lp ->
  (forall u, u ∈ recordsAt (updates σ) (lb ++ lp) ->
             (once <= Update.expirationTime u
              /\ final <= Update.expirationTime u
              /\ Update.expirationTime u <= Sync)%Z) ->
  length (lb ++ lp) <= fuel ->
  exists σ1 σ2 s,
    processUpdateQueue dev fuel workInProgress props instance once σ
    = Returned tt σ1
    /\ processPasses dev fuel workInProgress props instance
                     (thresholds ++ [final]) σ
       = Returned tt σ2
    /\ memoizedStateOf σ1 workInProgress = Some s
    /\ memoizedStateOf σ2 workInProgress = Some s
    /\ (lb ++ lp <> [] ->
        forall Q, queueOfFiber σ workInProgress = Some Q ->
                  s = applyAll props instance (UpdateQueue.baseState Q)
                               (recordsAt (updates σ) (lb ++ lp))).
Proof.
  intros Hwf Hexp Hfuel.
  destruct (processUpdateQueue_pass dev workInProgress props instance once fuel
              σ lb lp Hwf Hfuel)
    as (Q & f & HQ & Hf & σ1 & lc & Q' & f' & Hrun1 & _ & _ & Hf1 & _ & _ & _
        & Hne & Hnil).
  destruct (processPasses_spec dev workInProgress props instance final fuel
              thresholds σ lb lp Q f Hwf HQ Hf)
    as (σ2 & f2 & Hrun2 & Hf2 & Hms2).
  { intros u Hu. apply Hexp. exact Hu. }
  { intros He.
    destruct (recordsAt (updates σ) (lb ++ lp)) as [|u us] eqn:Hrec.
    - exfalso. apply He. eapply recordsAt_nil_inv; [|exact Hrec].
      eapply wellFormedQueue_lt; eassumption.
    - destruct (Hexp u) as (_ & H1 & H2); [left|]. lia. }
  { exact Hfuel. }
  exists σ1, σ2, (Fiber.memoizedState f2).
  split; [exact Hrun1|]. split; [exact Hrun2|].
  unfold memoizedStateOf. rewrite Hf1, Hf2. cbn.
  split; [|split; [reflexivity|]].
  - f_equal. rewrite Hms2.
    destruct (decide (lb ++ lp = [])) as [He|He]; [apply Hnil; exact He|].
    destruct (Hne He) as [-> _].
    rewrite pass_all_sufficient; [reflexivity|].
    intros u Hu. apply Hexp. exact Hu.
  - intros He Q0 HQ0. rewrite HQ in HQ0. injection HQ0 as <-.
    rewrite Hms2. destruct (decide (lb ++ lp = [])); [contradiction|reflexivity].
Qed.

Lemma processUpdateQueue_order_independent_witness :
  exists σ1 σ2 s,
    processUpdateQueue false 2 0 VNull VNull 1 exampleStore = Returned tt σ1
    /\ processPasses false 2 0 VNull VNull ([2%Z] ++ [1%Z]) exampleStore
       = Returned tt σ2
    /\ memoizedStateOf σ1 0 = Some s
    /\ memoizedStateOf σ2 0 = Some s
    /\ ([] ++ [0; 1] <> [] ->
        forall Q, queueOfFiber exampleStore 0 = Some Q ->
                  s = applyAll VNull VNull (UpdateQueue.baseState Q)
                               (recordsAt (updates exampleStore) ([] ++ [0; 1]))).
Proof.
  apply (processUpdateQueue_order_independent false 0 VNull VNull [2%Z] 1 1 2
           exampleStore [] [0; 1]).
  - exact exampleStore_wellFormed.
  - intros u Hu. cbn in Hu.
    apply elem_of_cons in Hu as [->|Hu];
      [|apply list_elem_of_singleton in Hu as ->]; vm_compute;
      repeat split; discriminate.
  - cbn. lia.
Defined.


End UpdateQueueProperties.

(** ** The synchronous callback queue *)

Module SyncQueueProperties.
Import SchedulerWithReactIntegration.

Lemma duringFlush_refl (queue : nat) (s : State) :
  flushing queue s -> duringFlush queue s s.
Proof.
  intros (H1 & H2 & H3). split; [assumption|]. split; [assumption|].
  split; [reflexivity|]. split; [reflexivity|].
  intros entries He. exists []. rewrite app_nil_r. exact He.
Qed.

Lemma duringFlush_trans (queue : nat) (s1 s2 s3 : State) :
  duringFlush queue s1 s2 -> duringFlush queue s2 s3 ->
  duringFlush queue s1 s3.
Proof.
  intros (_ & _ & Hp1 & Hs1 & Ha1) (Hl & Hq & Hp2 & Hs2 & Ha2).
  split; [assumption|]. split; [assumption|].
  split; [congruence|]. split; [congruence|].
  intros entries He. destruct (Ha1 entries He) as [m1 H1].
  destruct (Ha2 _ H1) as [m2 H2]. exists (m1 ++ m2).
  rewrite H2, (assoc_L app). reflexivity.
Qed.

Lemma duringFlush_flushing (queue : nat) (s s' : State) :
  flushing queue s -> duringFlush queue s s' -> flushing queue s'.
Proof.
  intros (_ & _ & [entries He]) (Hl & Hq & _ & _ & Ha).
  destruct (Ha entries He) as [more Hm].
  split; [assumption|]. split; [assumption|]. eauto.
Qed.

Lemma scheduleSyncCallback_duringFlush (queue : nat)
    (callback : SchedulerCallback) (s : State) :
  flushing queue s ->
  duringFlush queue s (snd (scheduleSyncCallback callback s)).
Proof.
  intros (Hl & Hq & [entries He]). unfold scheduleSyncCallback. rewrite Hq.
  cbn -[alter]. split; [assumption|]. split; [assumption|].
  split; [reflexivity|]. split; [reflexivity|].
  intros entries' He'. exists [callback]. cbn [arrays set_arrays].
  rewrite list_lookup_alter_eq, He'. reflexivity.
Qed.

Lemma cancelImmediateQueueCallback_duringFlush (queue : nat) (s : State) :
  flushing queue s -> duringFlush queue s (cancelImmediateQueueCallback s).
Proof.
  intros (Hl & Hq & Ha). unfold cancelImmediateQueueCallback.
  destruct (immediateQueueCallbackNode s); cbn.
  - split; [assumption|]. split; [assumption|].
    split; [reflexivity|]. split; [reflexivity|].
    intros entries He. exists []. rewrite app_nil_r. exact He.
  - apply duringFlush_refl. split; auto.
Qed.

(** A flush attempted while a flush is under way does nothing. *)
Lemma flushSyncCallbackQueueImpl_nested (fuel : nat) (s : State) :
  isFlushingSyncQueue s = true ->
  flushSyncCallbackQueueImpl (S fuel) s = Done tt s.
Proof. intros H. cbn. rewrite H. reflexivity. Qed.

(** Whatever runs during a flush keeps the flush as it is. *)
Lemma running_duringFlush (queue : nat) (fuel : nat) :
  (forall callback s s',
     flushing queue s ->
     outcomeState (call fuel callback s) = Some s' ->
     duringFlush queue s s')
  /\ (forall callback s s',
        flushing queue s ->
        outcomeState (callUntilNull fuel callback s) = Some s' ->
        duringFlush queue s s')
  /\ (forall i s s',
        flushing queue s ->
        loopOutcomeState (flushLoop fuel queue i s) = Some s' ->
        duringFlush queue s s')
  /\ (forall s s',
        flushing queue s ->
        outcomeState (flushSyncCallbackQueue fuel s) = Some s' ->
        duringFlush queue s s').
Proof.
  induction fuel as [|fuel (IHcall & IHuntil & IHloop & IHflush)].
  { repeat split; intros; discriminate. }
  split; [|split; [|split]].
  - intros callback s s' Hf Hout. cbn in Hout.
    destruct callback as [label rest|cb rest|rest| |k|err].
    + eapply duringFlush_trans; [|eapply IHcall; [|exact Hout]].
      * destruct Hf as (H1 & H2 & H3). split; [assumption|]. split; [assumption|].
        split; [reflexivity|]. split; [reflexivity|].
        intros entries He. exists []. rewrite app_nil_r. exact He.
      * destruct Hf as (H1 & H2 & H3). split; auto.
    + pose proof (scheduleSyncCallback_duringFlush queue cb s Hf) as Hd.
      eapply duringFlush_trans; [exact Hd|].
      eapply IHcall; [|exact Hout]. eapply duringFlush_flushing; eassumption.
    + destruct (flushSyncCallbackQueue fuel s) as [[] s1|e s1|] eqn:E.
      * assert (Hd : duringFlush queue s s1) by (eapply IHflush; [exact Hf | rewrite E; reflexivity]).
        eapply duringFlush_trans; [exact Hd|].
        eapply IHcall; [|exact Hout]. eapply duringFlush_flushing; eassumption.
      * injection Hout as <-. eapply IHflush; [exact Hf | rewrite E; reflexivity].
      * discriminate.
    + injection Hout as <-. apply duringFlush_refl. exact Hf.
    + injection Hout as <-. apply duringFlush_refl. exact Hf.
    + injection Hout as <-. apply duringFlush_refl. exact Hf.
  - intros callback s s' Hf Hout. cbn in Hout.
    destruct (call fuel callback s) as [[k|] s1|e s1|] eqn:E.
    + assert (Hd : duringFlush queue s s1) by (eapply IHcall; [exact Hf | rewrite E; reflexivity]).
      eapply duringFlush_trans; [exact Hd|].
      eapply IHuntil; [|exact Hout]. eapply duringFlush_flushing; eassumption.
    + injection Hout as <-. eapply IHcall; [exact Hf | rewrite E; reflexivity].
    + injection Hout as <-. eapply IHcall; [exact Hf | rewrite E; reflexivity].
    + discriminate.
  - intros i s s' Hf Hout. cbn in Hout.
    destruct (arrays s !! queue) as [entries|] eqn:Ha.
    2: { injection Hout as <-. apply duringFlush_refl. exact Hf. }
    destruct (entries !! i) as [cb|] eqn:Hi.
    2: { injection Hout as <-. apply duringFlush_refl. exact Hf. }
    destruct (callUntilNull fuel cb s) as [[] s1|e s1|] eqn:E.
    + assert (Hd : duringFlush queue s s1) by (eapply IHuntil; [exact Hf | rewrite E; reflexivity]).
      eapply duringFlush_trans; [exact Hd|].
      eapply IHloop; [|exact Hout]. eapply duringFlush_flushing; eassumption.
    + injection Hout as <-. eapply IHuntil; [exact Hf | rewrite E; reflexivity].
    + discriminate.
  - intros s s' Hf Hout. cbn in Hout.
    pose proof (cancelImmediateQueueCallback_duringFlush queue s Hf) as Hd.
    destruct fuel as [|fuel']; [discriminate|].
    rewrite flushSyncCallbackQueueImpl_nested in Hout by (apply Hd).
    injection Hout as <-. exact Hd.
Qed.

(** A nested call of [flushSyncCallbackQueue] only cancels the scheduled
    flush, if one is recorded. *)
Lemma flushSyncCallbackQueue_nested (fuel : nat) (s : State) :
  isFlushingSyncQueue s = true ->
  flushSyncCallbackQueue (S (S fuel)) s
  = Done tt (cancelImmediateQueueCallback s).
Proof.
  intros H. cbn [flushSyncCallbackQueue].
  apply flushSyncCallbackQueueImpl_nested.
  unfold cancelImmediateQueueCallback.
  destruct (immediateQueueCallbackNode s); exact H.
Qed.

(** The loop on the example queue stops at the second entry, with the
    fourth callback pushed and the scheduled flush cancelled by the first
    entry. *)
Example exampleState_loop_throws :
  flushLoop 19 0 0 (startFlush exampleState)
  = LoopThrew 1 (Thrown 7) exampleStateAtThrow.
Proof. reflexivity. Qed.

(** *** The flush ends *)

Lemma queueSize_app (l1 l2 : list SchedulerCallback) :
  queueSize (l1 ++ l2) = queueSize l1 + queueSize l2.
Proof. apply sum_list_with_app. Qed.

Lemma queueSize_cons (c : SchedulerCallback) (l : list SchedulerCallback) :
  queueSize (c :: l) = 2 + callbackSize c + queueSize l.
Proof. reflexivity. Qed.

Lemma call_enough_fuel (queue : nat) (callback : SchedulerCallback) :
  forall fuel s entries,
    flushing queue s -> arrays s !! queue = Some entries ->
    callbackSize callback <= fuel ->
    (exists r s' more,
        call fuel callback s = Done r s'
        /\ flushing queue s'
        /\ arrays s' !! queue = Some (entries ++ more)
        /\ queueSize more + continuationSize r <= callbackSize callback)
    \/ (exists e s', call fuel callback s = Threw e s').
Proof.
  induction callback as [label rest IH|cb _ rest IH|rest IH| |k _|err];
    intros fuel s entries Hf Ha Hfuel;
    (destruct fuel as [|fuel]; [cbn in Hfuel; lia|]); cbn [call callbackSize] in *.
  - destruct (IH fuel (set_workDone (workDone s ++ [label]) s) entries)
      as [(r & s' & more & H1 & H2 & H3 & H4)|H]; [| exact Ha | lia | | right; exact H].
    { destruct Hf as (F1 & F2 & F3). split; [exact F1|]. split; [exact F2|exact F3]. }
    left. exists r, s', more. repeat (split; [assumption|]). lia.
  - pose proof (scheduleSyncCallback_duringFlush queue cb s Hf) as Hd.
    assert (Ha' : arrays (snd (scheduleSyncCallback cb s)) !! queue
                  = Some (entries ++ [cb])).
    { destruct Hf as (F1 & F2 & F3). unfold scheduleSyncCallback. rewrite F2.
      cbn -[alter]. cbn [arrays set_arrays].
      rewrite list_lookup_alter_eq, Ha. reflexivity. }
    destruct (IH fuel (snd (scheduleSyncCallback cb s)) (entries ++ [cb]))
      as [(r & s' & more & H1 & H2 & H3 & H4)|H];
      [eapply duringFlush_flushing; eassumption | exact Ha' | lia | | right; exact H].
    left. exists r, s', ([cb] ++ more). split; [exact H1|]. split; [exact H2|].
    split; [rewrite (assoc_L app); exact H3|].
    rewrite queueSize_app, queueSize_cons. cbn. lia.
  - destruct fuel as [|[|fuel]]; [lia | lia |].
    rewrite flushSyncCallbackQueue_nested by apply Hf.
    pose proof (cancelImmediateQueueCallback_duringFlush queue s Hf) as Hd.
    assert (Ha' : arrays (cancelImmediateQueueCallback s) !! queue = Some entries).
    { unfold cancelImmediateQueueCallback.
      destruct (immediateQueueCallbackNode s); exact Ha. }
    destruct (IH (S (S fuel)) (cancelImmediateQueueCallback s) entries)
      as [(r & s' & more & H1 & H2 & H3 & H4)|H];
      [eapply duringFlush_flushing; eassumption | exact Ha' | lia | | right; exact H].
    left. exists r, s', more. repeat (split; [assumption|]). lia.
  - left. exists None, s, []. split; [reflexivity|]. split; [exact Hf|].
    split; [rewrite app_nil_r; exact Ha|]. cbn. lia.
  - left. exists (Some k), s, []. split; [reflexivity|]. split; [exact Hf|].
    split; [rewrite app_nil_r; exact Ha|]. cbn. lia.
  - right. eauto.
Qed.

Lemma callUntilNull_enough_fuel (queue : nat) (n : nat) :
  forall callback fuel s entries,
    callbackSize callback <= n ->
    flushing queue s -> arrays s !! queue = Some entries ->
    S (callbackSize callback) <= fuel ->
    (exists s' more,
        callUntilNull fuel callback s = Done tt s'
        /\ flushing queue s'
        /\ arrays s' !! queue = Some (entries ++ more)
        /\ queueSize more <= callbackSize callback)
    \/ (exists e s', callUntilNull fuel callback s = Threw e s').
Proof.
  induction n as [|n IH]; intros callback fuel s entries Hn Hf Ha Hfuel.
  { destruct callback; cbn in Hn; lia. }
  destruct fuel as [|fuel]; [lia|]. cbn [callUntilNull].
  destruct (call_enough_fuel queue callback fuel s entries Hf Ha)
    as [(r & s1 & more1 & H1 & H2 & H3 & H4)|(e & s1 & H)]; [lia| |].
  - rewrite H1. destruct r as [c|]; cbn in H4.
    + destruct (IH c fuel s1 (entries ++ more1))
        as [(s' & more2 & G1 & G2 & G3 & G4)|G]; [lia | exact H2 | exact H3 | lia | |].
      * left. exists s', (more1 ++ more2). split; [exact G1|]. split; [exact G2|].
        split; [rewrite (assoc_L app); exact G3|]. rewrite queueSize_app. lia.
      * right. exact G.
    + left. exists s1, more1. split; [reflexivity|]. split; [exact H2|].
      split; [exact H3|]. lia.
  - rewrite H. right. eauto.
Qed.

Lemma flushLoop_enough_fuel (queue : nat) (fuel : nat) :
  forall i s entries,
    flushing queue s -> arrays s !! queue = Some entries ->
    i <= length entries ->
    S (queueSize (drop i entries)) <= fuel ->
    flushLoop fuel queue i s <> LoopNoFuel.
Proof.
  induction fuel as [|fuel IH]; intros i s entries Hf Ha Hi Hfuel; [lia|].
  cbn [flushLoop]. rewrite Ha.
  destruct (entries !! i) as [cb|] eqn:Hcb; [|discriminate].
  assert (Hdrop : drop i entries = cb :: drop (S i) entries)
    by (apply drop_S; exact Hcb).
  rewrite Hdrop, queueSize_cons in Hfuel.
  destruct (callUntilNull_enough_fuel queue (callbackSize cb) cb fuel s entries)
    as [(s' & more & H1 & H2 & H3 & H4)|(e & s' & H)];
    [lia | exact Hf | exact Ha | lia | |].
  - rewrite H1. apply (IH (S i) s' (entries ++ more) H2 H3).
    + rewrite length_app. apply lookup_lt_Some in Hcb. lia.
    + rewrite drop_app_le by (apply lookup_lt_Some in Hcb; lia).
      rewrite queueSize_app. lia.
  - rewrite H. discriminate.
Qed.

(** The flush ends, by returning or by throwing, when it has fuel for the
    entries of the queue. *)
Theorem flushSyncCallbackQueueImpl_ends (s : State) :
  exists fuel, forall fuel',
    fuel <= fuel' -> flushSyncCallbackQueueImpl fuel' s <> NoFuel.
Proof.
  exists (2 + match syncQueueEntries s with
              | Some entries => queueSize entries
              | None => 0
              end).
  intros fuel' Hfuel. destruct fuel' as [|fuel]; [lia|].
  cbn [flushSyncCallbackQueueImpl].
  destruct (isFlushingSyncQueue s) eqn:Hlock; [discriminate|].
  unfold syncQueueEntries in Hfuel.
  destruct (syncQueue s) as [queue|] eqn:Hq; [|discriminate].
  unfold runWithPriority.
  change (reactPriorityToSchedulerPriority ImmediatePriority)
    with (Some Scheduler_ImmediatePriority).
  unfold Scheduler_runWithPriority.
  change (set_currentPriorityLevel Scheduler_ImmediatePriority
            (set_isFlushingSyncQueue true s)) with (startFlush s).
  destruct (arrays s !! queue) as [entries|] eqn:Ha.
  - pose proof (flushLoop_enough_fuel queue fuel 0 (startFlush s) entries) as H.
    destruct (flushLoop fuel queue 0 (startFlush s)); cbn; try discriminate.
    cbv iota beta in Hfuel.
    exfalso. apply H.
    + split; [reflexivity|]. split; [exact Hq|]. cbn. eauto.
    + exact Ha.
    + lia.
    + rewrite drop_0. lia.
    + reflexivity.
  - destruct fuel as [|fuel]; [lia|]. cbn [flushLoop].
    change (arrays (startFlush s)) with (arrays s). rewrite Ha. cbn. discriminate.
Qed.

(** *** The outcome of a flush, from the scripts of its entries *)

Lemma ranDuringFlush_refl (queue : nat) (s : State) :
  flushing queue s -> ranDuringFlush queue [] [] s s.
Proof.
  intros (H1 & H2 & _). split; [exact H1|]. split; [exact H2|].
  split; [reflexivity|]. split; [reflexivity|].
  split; [symmetry; apply app_nil_r|].
  intros entries He. rewrite app_nil_r. exact He.
Qed.

Lemma ranDuringFlush_trans (queue : nat) (w1 w2 : list nat)
    (p1 p2 : list SchedulerCallback) (s1 s2 s3 : State) :
  ranDuringFlush queue w1 p1 s1 s2 -> ranDuringFlush queue w2 p2 s2 s3 ->
  ranDuringFlush queue (w1 ++ w2) (p1 ++ p2) s1 s3.
Proof.
  intros (_ & _ & A3 & A4 & A5 & A6) (B1 & B2 & B3 & B4 & B5 & B6).
  split; [exact B1|]. split; [exact B2|]. split; [congruence|].
  split; [congruence|]. split; [rewrite B5, A5, (assoc_L app); reflexivity|].
  intros entries He. rewrite (B6 _ (A6 _ He)), (assoc_L app). reflexivity.
Qed.

Lemma ranDuringFlush_flushing (queue : nat) (w : list nat)
    (p : list SchedulerCallback) (s s' : State) :
  flushing queue s -> ranDuringFlush queue w p s s' -> flushing queue s'.
Proof.
  intros (_ & _ & [entries He]) (H1 & H2 & _ & _ & _ & H6).
  split; [exact H1|]. split; [exact H2|]. rewrite (H6 _ He). eauto.
Qed.

(** A flush attempted during a flush returns, having at most cancelled the
    scheduled flush. *)
Lemma flushSyncCallbackQueue_during (fuel : nat) (s : State) :
  isFlushingSyncQueue s = true ->
  flushSyncCallbackQueue fuel s = NoFuel
  \/ flushSyncCallbackQueue fuel s = Done tt (cancelImmediateQueueCallback s).
Proof.
  intros H. destruct fuel as [|[|fuel]]; [left; reflexivity|left; reflexivity|].
  right. apply flushSyncCallbackQueue_nested. exact H.
Qed.

Lemma cancelImmediateQueueCallback_ran (queue : nat) (s : State) :
  flushing queue s ->
  ranDuringFlush queue [] [] s (cancelImmediateQueueCallback s).
Proof.
  intros (H1 & H2 & H3). unfold cancelImmediateQueueCallback.
  destruct (immediateQueueCallbackNode s); [|apply ranDuringFlush_refl; split; auto].
  cbn. split; [exact H1|]. split; [exact H2|]. split; [reflexivity|].
  split; [reflexivity|]. split; [symmetry; apply app_nil_r|].
  intros entries He. rewrite app_nil_r. exact He.
Qed.

Lemma scheduleSyncCallback_ran (queue : nat) (callback : SchedulerCallback)
    (s : State) :
  flushing queue s ->
  ranDuringFlush queue [] [callback] s (snd (scheduleSyncCallback callback s)).
Proof.
  intros (H1 & H2 & H3). unfold scheduleSyncCallback. rewrite H2.
  cbn -[alter]. split; [exact H1|]. split; [exact H2|].
  split; [reflexivity|]. split; [reflexivity|].
  split; [symmetry; apply app_nil_r|].
  intros entries He. cbn [arrays set_arrays].
  rewrite list_lookup_alter_eq, He. reflexivity.
Qed.

(** One call of a callback during a flush: what it returns or throws is
    what its script says, and so are the work done and the callbacks
    pushed. *)
Lemma call_script (queue : nat) (fuel : nat) :
  forall c s,
    flushing queue s ->
    match call fuel c s with
    | Done r s' =>
        exists w p,
          ranDuringFlush queue w p s s'
          /\ thrownBy c = from_option thrownBy None r
          /\ workBy c = w ++ from_option workBy [] r
          /\ scheduledBy c = p ++ from_option scheduledBy [] r
    | Threw e s' =>
        exists n,
          e = Thrown n /\ thrownBy c = Some n
          /\ ranDuringFlush queue (workBy c) (scheduledBy c) s s'
    | NoFuel => True
    end.
Proof.
  induction fuel as [|fuel IH]; intros c s Hf; [exact I|].
  destruct c as [label rest|cb rest|rest| |k|err]; cbn [call].
  - set (s1 := set_workDone (workDone s ++ [label]) s).
    assert (H1 : ranDuringFlush queue [label] [] s s1).
    { destruct Hf as (F1 & F2 & F3). split; [exact F1|]. split; [exact F2|].
      split; [reflexivity|]. split; [reflexivity|]. split; [reflexivity|].
      intros entries He. rewrite app_nil_r. exact He. }
    specialize (IH rest s1 (ranDuringFlush_flushing _ _ _ _ _ Hf H1)).
    destruct (call fuel rest s1) as [r s'|e s'|]; [| |exact I].
    + destruct IH as (w & p & R & E1 & E2 & E3).
      exists (label :: w), p. split; [exact (ranDuringFlush_trans _ _ _ _ _ _ _ _ H1 R)|].
      cbn. rewrite E2. auto.
    + destruct IH as (n & -> & E1 & R). exists n. split; [reflexivity|].
      split; [exact E1|]. exact (ranDuringFlush_trans _ _ _ _ _ _ _ _ H1 R).
  - set (s1 := snd (scheduleSyncCallback cb s)).
    pose proof (scheduleSyncCallback_ran queue cb s Hf) as H1. fold s1 in H1.
    specialize (IH rest s1 (ranDuringFlush_flushing _ _ _ _ _ Hf H1)).
    destruct (call fuel rest s1) as [r s'|e s'|]; [| |exact I].
    + destruct IH as (w & p & R & E1 & E2 & E3).
      exists w, (cb :: p). split; [exact (ranDuringFlush_trans _ _ _ _ _ _ _ _ H1 R)|].
      cbn. rewrite E3. auto.
    + destruct IH as (n & -> & E1 & R). exists n. split; [reflexivity|].
      split; [exact E1|]. exact (ranDuringFlush_trans _ _ _ _ _ _ _ _ H1 R).
  - destruct (flushSyncCallbackQueue_during fuel s (proj1 Hf)) as [E|E];
      rewrite E; [exact I|].
    set (s1 := cancelImmediateQueueCallback s).
    pose proof (cancelImmediateQueueCallback_ran queue s Hf) as H1. fold s1 in H1.
    specialize (IH rest s1 (ranDuringFlush_flushing _ _ _ _ _ Hf H1)).
    destruct (call fuel rest s1) as [r s'|e s'|]; [| |exact I].
    + destruct IH as (w & p & R & E1 & E2 & E3).
      exists w, p. split; [exact (ranDuringFlush_trans _ _ _ _ _ _ _ _ H1 R)|].
      auto.
    + destruct IH as (n & -> & E1 & R). exists n. split; [reflexivity|].
      split; [exact E1|]. exact (ranDuringFlush_trans _ _ _ _ _ _ _ _ H1 R).
  - exists [], []. split; [apply ranDuringFlush_refl; exact Hf|]. auto.
  - exists [], []. split; [apply ranDuringFlush_refl; exact Hf|]. auto.
  - exists err. split; [reflexivity|]. split; [reflexivity|].
    apply ranDuringFlush_refl. exact Hf.
Qed.

(** The calls of an entry until it returns [null]. *)
Lemma callUntilNull_script (queue : nat) (fuel : nat) :
  forall c s,
    flushing queue s ->
    match callUntilNull fuel c s with
    | Done _ s' =>
        thrownBy c = None
        /\ ranDuringFlush queue (workBy c) (scheduledBy c) s s'
    | Threw e s' =>
        exists n,
          e = Thrown n /\ thrownBy c = Some n
          /\ ranDuringFlush queue (workBy c) (scheduledBy c) s s'
    | NoFuel => True
    end.
Proof.
  induction fuel as [|fuel IH]; intros c s Hf; [exact I|].
  cbn [callUntilNull]. pose proof (call_script queue fuel c s Hf) as Hc.
  destruct (call fuel c s) as [[k|] s1|e s1|]; [| | |exact I].
  - destruct Hc as (w & p & R & E1 & E2 & E3). cbn in E1, E2, E3.
    specialize (IH k s1 (ranDuringFlush_flushing _ _ _ _ _ Hf R)).
    destruct (callUntilNull fuel k s1) as [[] s'|e s'|]; [| |exact I].
    + destruct IH as [T R']. split; [congruence|]. rewrite E2, E3.
      exact (ranDuringFlush_trans _ _ _ _ _ _ _ _ R R').
    + destruct IH as (n & -> & T & R'). exists n. split; [reflexivity|].
      split; [congruence|]. rewrite E2, E3.
      exact (ranDuringFlush_trans _ _ _ _ _ _ _ _ R R').
  - destruct Hc as (w & p & R & E1 & E2 & E3). cbn in E1, E2, E3.
    rewrite app_nil_r in E2, E3. subst w p. auto.
  - exact Hc.
Qed.

(** The loop over the queue: the entries it runs are those from [i] on in
    the array as it is at the end, and the callbacks they push are what was
    added to the array. *)
Lemma flushLoop_script (queue : nat) (fuel : nat) :
  forall i s all,
    flushing queue s -> arrays s !! queue = Some all ->
    match flushLoop fuel queue i s with
    | LoopDone s' =>
        exists all',
          arrays s' !! queue = Some all'
          /\ all' = all ++ concat (scheduledBy <$> drop i all')
          /\ Forall (fun c => thrownBy c = None) (drop i all')
          /\ ranDuringFlush queue (concat (workBy <$> drop i all'))
                            (concat (scheduledBy <$> drop i all')) s s'
    | LoopThrew j e s' =>
        exists pre cb post n,
          e = Thrown n /\ j = i + length pre
          /\ drop i (all ++ concat (scheduledBy <$> pre) ++ scheduledBy cb)
             = pre ++ cb :: post
          /\ Forall (fun c => thrownBy c = None) pre
          /\ thrownBy cb = Some n
          /\ ranDuringFlush queue (concat (workBy <$> pre) ++ workBy cb)
                            (concat (scheduledBy <$> pre) ++ scheduledBy cb)
                            s s'
    | LoopNoFuel => True
    end.
Proof.
  induction fuel as [|fuel IH]; intros i s all Hf Ha; [exact I|].
  cbn [flushLoop]. rewrite Ha.
  destruct (all !! i) as [c|] eqn:Hc.
  - pose proof (callUntilNull_script queue fuel c s Hf) as Hu.
    destruct (callUntilNull fuel c s) as [[] s1|e s1|]; [| |exact I].
    + destruct Hu as [Tc R].
      pose proof (ranDuringFlush_flushing _ _ _ _ _ Hf R) as Hf1.
      pose proof (proj2 (proj2 (proj2 (proj2 (proj2 R)))) all Ha) as Ha1.
      specialize (IH (S i) s1 _ Hf1 Ha1).
      destruct (flushLoop fuel queue (S i) s1) as [s'|j e s'|]; [| |exact I].
      * destruct IH as (all' & A1 & A2 & A3 & R').
        assert (Hd : drop i all' = c :: drop (S i) all').
        { apply drop_S. rewrite A2, <- (assoc_L app).
          apply lookup_app_l_Some. exact Hc. }
        exists all'. split; [exact A1|]. rewrite Hd. cbn.
        split; [rewrite (assoc_L app); exact A2|].
        split; [constructor; assumption|].
        exact (ranDuringFlush_trans _ _ _ _ _ _ _ _ R R').
      * destruct IH as (pre & cb & post & n & -> & -> & D & Fp & Tn & R').
        exists (c :: pre), cb, post, n. split; [reflexivity|].
        split; [cbn; lia|]. split.
        { cbn [fmap list_fmap concat]. rewrite <- !(assoc_L app) in *.
          change ((c :: pre) ++ cb :: post) with (c :: (pre ++ cb :: post)).
          rewrite <- D. apply drop_S. apply lookup_app_l_Some. exact Hc. }
        split; [constructor; assumption|]. split; [exact Tn|].
        cbn [fmap list_fmap concat]. rewrite <- !(assoc_L app).
        exact (ranDuringFlush_trans _ _ _ _ _ _ _ _ R R').
    + destruct Hu as (n & -> & Tn & R).
      exists [], c, (drop (S i) (all ++ scheduledBy c)), n.
      split; [reflexivity|]. split; [cbn; lia|]. split.
      { cbn. apply drop_S. apply lookup_app_l_Some. exact Hc. }
      split; [constructor|]. split; [exact Tn|]. exact R.
  - assert (Hd : drop i all = []) by (apply drop_ge, lookup_ge_None; exact Hc).
    exists all. rewrite Hd. cbn. rewrite app_nil_r.
    split; [exact Ha|]. split; [reflexivity|]. split; [constructor|].
    apply ranDuringFlush_refl. exact Hf.
Qed.

(** The first entry of a list that does not return is where it is. *)
Lemma first_thrower_unique (pre pre' post post' : list SchedulerCallback)
    (cb cb' : SchedulerCallback) :
  pre ++ cb :: post = pre' ++ cb' :: post' ->
  Forall (fun c => thrownBy c = None) pre -> thrownBy cb <> None ->
  Forall (fun c => thrownBy c = None) pre' -> thrownBy cb' <> None ->
  pre = pre' /\ cb = cb' /\ post = post'.
Proof.
  revert pre'. induction pre as [|c pre IH]; intros pre' Heq Hp Hc Hp' Hc'.
  - destruct pre' as [|c' pre']; cbn in Heq.
    + injection Heq as -> ->. auto.
    + injection Heq as -> _. apply Forall_cons in Hp' as [H _]. contradiction.
  - destruct pre' as [|c' pre']; cbn in Heq.
    + injection Heq as <- _. apply Forall_cons in Hp as [H _]. contradiction.
    + injection Heq as -> Heq. apply Forall_cons in Hp as [_ Hp].
      apply Forall_cons in Hp' as [_ Hp'].
      destruct (IH pre' Heq Hp Hc Hp' Hc') as (-> & -> & ->). auto.
Qed.

(** The loop on a queue whose first entry that throws is [cb]. *)
Lemma flushLoop_throws_at (queue : nat) (fuel : nat) (s : State)
    (pre post : list SchedulerCallback) (cb : SchedulerCallback) (n : nat) :
  flushing queue s ->
  arrays s !! queue = Some (pre ++ cb :: post) ->
  Forall (fun c => thrownBy c = None) pre ->
  thrownBy cb = Some n ->
  S (queueSize (pre ++ cb :: post)) <= fuel ->
  exists s1,
    flushLoop fuel queue 0 s = LoopThrew (length pre) (Thrown n) s1
    /\ ranDuringFlush queue (concat (workBy <$> pre) ++ workBy cb)
                      (concat (scheduledBy <$> pre) ++ scheduledBy cb) s s1.
Proof.
  intros Hf Ha Hp Hn Hfuel.
  pose proof (flushLoop_enough_fuel queue fuel 0 s _ Hf Ha ltac:(lia)
                ltac:(rewrite drop_0; exact Hfuel)) as Hends.
  pose proof (flushLoop_script queue fuel 0 s _ Hf Ha) as Hs.
  destruct (flushLoop fuel queue 0 s) as [s'|j e s'|]; [| |contradiction].
  - exfalso. destruct Hs as (all' & _ & A2 & A3 & _). rewrite drop_0 in A2, A3.
    rewrite Forall_forall in A3.
    assert (Hin : cb ∈ all').
    { rewrite A2. apply elem_of_app. left. apply elem_of_app. right. left. }
    rewrite (A3 cb Hin) in Hn. discriminate Hn.
  - destruct Hs as (pre' & cb' & post' & n' & -> & -> & D & Fp & Tn & R).
    rewrite drop_0, <- !(assoc_L app) in D. cbn in D.
    destruct (first_thrower_unique pre pre' _ _ cb cb' D Hp ltac:(congruence)
                Fp ltac:(congruence)) as (<- & <- & _).
    assert (n' = n) by congruence. subst n'.
    exists s'. split; [reflexivity|exact R].
Qed.




End SyncQueueProperties.

(** * Further properties of the code

    Properties of the same four files that the code shows by itself: round
    trips, invariants, the order of effects and callbacks, and what the
    operations leave alone. *)

(** ** Expiration times and priorities *)

Module ExpirationTimeFacts.
Import ReactFiberExpirationTime SchedulerWithReactIntegration
       ReactFiberExpirationTimePriority ExpirationTimeProperties.
Local Open Scope Z_scope.

(** X1.  Round trip from milliseconds: for a timestamp that does not
    overflow, [expirationTimeToMs (msToExpirationTime ms)] is [ms] rounded
    down to a multiple of [UNIT_SIZE] (10 ms). *)
Theorem expirationTimeToMs_msToExpirationTime (ms : Z) :
  0 <= ms < msOverflow ->
  expirationTimeToMs (msToExpirationTime ms) = ms - ms mod UNIT_SIZE.
Proof.
  intros H. rewrite msToExpirationTime_in_range by exact H.
  unfold expirationTimeToMs, UNIT_SIZE.
  pose proof (Z.div_mod ms 10 ltac:(lia)). lia.
Qed.

Lemma expirationTimeToMs_msToExpirationTime_witness :
  expirationTimeToMs (msToExpirationTime 1234) = 1234 - 1234 mod UNIT_SIZE.
Proof.
  apply (expirationTimeToMs_msToExpirationTime 1234).
  unfold msOverflow, UNIT_SIZE. change (2 ^ 31) with 2147483648. lia.
Defined.

(** X2.  Round trip from expiration times: [msToExpirationTime] undoes
    [expirationTimeToMs] on every expiration time from [NoWork] to [Sync]. *)
Theorem msToExpirationTime_expirationTimeToMs (t : Z) :
  isExpirationTime t -> msToExpirationTime (expirationTimeToMs t) = t.
Proof.
  unfold isExpirationTime, NoWork, Sync, MAX_SIGNED_31_BIT_INT.
  intros H. unfold msToExpirationTime, expirationTimeToMs, truncatingDiv.
  unfold UNIT_SIZE. rewrite Z.quot_mul by lia.
  assert (Hoff : MAGIC_NUMBER_OFFSET = 1073741821) by reflexivity.
  rewrite toInt32_small by lia. lia.
Qed.

Lemma msToExpirationTime_expirationTimeToMs_witness :
  msToExpirationTime (expirationTimeToMs 1000) = 1000.
Proof.
  apply (msToExpirationTime_expirationTimeToMs 1000).
  unfold isExpirationTime, NoWork, Sync, MAX_SIGNED_31_BIT_INT. lia.
Defined.

Lemma ceiling_bounds (num precision : Z) :
  0 <= num -> 0 < precision -> num / precision < 2 ^ 31 ->
  num < ceiling num precision <= num + precision
  /\ (ceiling num precision) mod precision = 0.
Proof.
  intros Hn Hp Hq. unfold ceiling.
  rewrite truncatingDiv_nonneg by assumption.
  pose proof (Z.div_mod num precision ltac:(lia)) as Hdm.
  pose proof (Z.mod_pos_bound num precision Hp) as Hb.
  split; [nia|]. apply Z.mod_mul. lia.
Qed.

(** X3.  [ceiling num precision] is the first multiple of [precision]
    strictly above [num]: a [num] that is a multiple already is moved up by a
    whole [precision].  This holds for integers [num >= 0] and
    [precision > 0] with [num + precision <= 2^53], the range in which the
    quotient of the two doubles truncates to the integer quotient and the
    product is exact, while the quotient fits a signed 32-bit integer. *)
Theorem ceiling_next_multiple (num precision : Z) :
  0 <= num -> 0 < precision -> num + precision <= 2 ^ 53 ->
  num / precision < 2 ^ 31 ->
  num < ceiling num precision <= num + precision
  /\ (ceiling num precision) mod precision = 0.
Proof.
  intros Hn Hp _ Hq. unfold ceiling.
  rewrite truncatingDiv_nonneg by assumption.
  pose proof (Z.div_mod num precision ltac:(lia)) as Hdm.
  pose proof (Z.mod_pos_bound num precision Hp) as Hb.
  split; [nia|]. apply Z.mod_mul. lia.
Qed.

Lemma ceiling_next_multiple_witness :
  1830 < ceiling 1830 10 <= 1830 + 10 /\ (ceiling 1830 10) mod 10 = 0.
Proof.
  apply (ceiling_next_multiple 1830 10); [lia|lia| |].
  - change (2 ^ 53) with 9007199254740992. lia.
  - change (2 ^ 31) with 2147483648. change (1830 / 10) with 183. lia.
Defined.

Lemma computeExpirationBucket_window
    (currentTime expirationInMs bucketSizeMs : Z) :
  NoWork <= currentTime <= MAGIC_NUMBER_OFFSET + expirationInMs / UNIT_SIZE ->
  0 <= expirationInMs <= 2 ^ 31 ->
  UNIT_SIZE <= bucketSizeMs ->
  let window := expirationInMs / UNIT_SIZE in
  let bucket := bucketSizeMs / UNIT_SIZE in
  let result :=
    computeExpirationBucket currentTime expirationInMs bucketSizeMs in
  currentTime - window - bucket <= result < currentTime - window
  /\ (MAGIC_NUMBER_OFFSET - result) mod bucket = 0.
Proof.
  intros Hct He Hb. cbv zeta. unfold computeExpirationBucket.
  unfold isExpirationTime, NoWork, Sync, MAX_SIGNED_31_BIT_INT, UNIT_SIZE in *.
  change (2 ^ 31) with 2147483648 in *.
  set (window := expirationInMs / 10). set (bucket := bucketSizeMs / 10).
  assert (Hoff : MAGIC_NUMBER_OFFSET = 1073741821) by reflexivity.
  assert (Hw : 0 <= window <= 214748364).
  { subst window. split; [apply Z.div_pos; lia|].
    change 214748364 with (2147483648 / 10). apply Z.div_le_mono; lia. }
  assert (Hbk : 1 <= bucket).
  { subst bucket. change 1 with (10 / 10). apply Z.div_le_mono; lia. }
  destruct (ceiling_bounds (MAGIC_NUMBER_OFFSET - currentTime + window)
                           bucket) as [Hc1 Hc2].
  { lia. }
  { lia. }
  { change (2 ^ 31) with 2147483648.
    apply Z.div_lt_upper_bound; [lia|]. nia. }
  split; [lia|].
  replace (MAGIC_NUMBER_OFFSET
           - (MAGIC_NUMBER_OFFSET
              - ceiling (MAGIC_NUMBER_OFFSET - currentTime + window) bucket))
    with (ceiling (MAGIC_NUMBER_OFFSET - currentTime + window) bucket) by lia.
  exact Hc2.
Qed.

(** X4.  [computeSuspenseExpiration] answers with an expiration time that
    lies more than [timeoutMs] and at most [timeoutMs + 250] ms after
    [currentTime], on a multiple of 250 ms of the expiration clock; the
    timeout is a multiple of 10 ms, and [currentTime] is not so close to
    [Sync] that the deadline would lie before the origin of the clock. *)
Theorem computeSuspenseExpiration_window (currentTime timeoutMs : Z) :
  isExpirationTime currentTime ->
  0 <= timeoutMs <= 2 ^ 31 ->
  timeoutMs mod UNIT_SIZE = 0 ->
  currentTime <= MAGIC_NUMBER_OFFSET + timeoutMs / UNIT_SIZE ->
  let result := computeSuspenseExpiration currentTime timeoutMs in
  timeoutMs
  < expirationTimeToMs result - expirationTimeToMs currentTime
  <= timeoutMs + LOW_PRIORITY_BATCH_SIZE
  /\ expirationTimeToMs result mod LOW_PRIORITY_BATCH_SIZE = 0.
Proof.
  intros Hct Ht Hm Hle. cbv zeta. unfold computeSuspenseExpiration.
  destruct (computeExpirationBucket_window currentTime timeoutMs
              LOW_PRIORITY_BATCH_SIZE) as [Hw Ha].
  { destruct Hct. split; assumption. }
  { exact Ht. }
  { unfold UNIT_SIZE, LOW_PRIORITY_BATCH_SIZE. lia. }
  set (result := computeExpirationBucket currentTime timeoutMs
                                         LOW_PRIORITY_BATCH_SIZE) in *.
  unfold expirationTimeToMs, UNIT_SIZE, LOW_PRIORITY_BATCH_SIZE in *.
  change (250 / 10) with 25 in *.
  pose proof (Z.div_mod timeoutMs 10 ltac:(lia)) as Hdm.
  split; [lia|].
  apply Z.mod_divide in Ha; [|lia]. destruct Ha as [k Hk].
  rewrite Hk. replace (k * 25 * 10) with (k * 250) by lia.
  apply Z.mod_mul. lia.
Qed.

Lemma computeSuspenseExpiration_window_witness :
  let result := computeSuspenseExpiration (msToExpirationTime 1000) 2000 in
  2000
  < expirationTimeToMs result - expirationTimeToMs (msToExpirationTime 1000)
  <= 2000 + LOW_PRIORITY_BATCH_SIZE
  /\ expirationTimeToMs result mod LOW_PRIORITY_BATCH_SIZE = 0.
Proof.
  apply (computeSuspenseExpiration_window (msToExpirationTime 1000) 2000).
  - vm_compute. split; discriminate.
  - vm_compute. split; discriminate.
  - reflexivity.
  - vm_compute. discriminate.
Defined.

Lemma computeExpiration_windows (dev : bool) (currentTime : Z) :
  isExpirationTime currentTime ->
  let interactive := computeInteractiveExpiration dev currentTime in
  let async := computeAsyncExpiration currentTime in
  async < interactive < currentTime
  /\ HIGH_PRIORITY_EXPIRATION dev
     < expirationTimeToMs interactive - expirationTimeToMs currentTime
     <= HIGH_PRIORITY_EXPIRATION dev + HIGH_PRIORITY_BATCH_SIZE
  /\ LOW_PRIORITY_EXPIRATION
     < expirationTimeToMs async - expirationTimeToMs currentTime
     <= LOW_PRIORITY_EXPIRATION + LOW_PRIORITY_BATCH_SIZE.
Proof.
  intros Hct. cbv zeta.
  unfold computeInteractiveExpiration, computeAsyncExpiration.
  assert (Hoff : MAGIC_NUMBER_OFFSET = 1073741821) by reflexivity.
  pose proof Hct as Hct'.
  unfold isExpirationTime, NoWork, Sync, MAX_SIGNED_31_BIT_INT in Hct'.
  destruct (computeExpirationBucket_window currentTime
              (HIGH_PRIORITY_EXPIRATION dev) HIGH_PRIORITY_BATCH_SIZE)
    as [Hi _].
  { unfold NoWork, UNIT_SIZE, HIGH_PRIORITY_EXPIRATION.
    destruct dev; [change (500 / 10) with 50|change (150 / 10) with 15]; lia. }
  { unfold HIGH_PRIORITY_EXPIRATION. change (2 ^ 31) with 2147483648.
    destruct dev; lia. }
  { unfold UNIT_SIZE, HIGH_PRIORITY_BATCH_SIZE. lia. }
  destruct (computeExpirationBucket_window currentTime
              LOW_PRIORITY_EXPIRATION LOW_PRIORITY_BATCH_SIZE) as [Ha _].
  { unfold NoWork, UNIT_SIZE, LOW_PRIORITY_EXPIRATION.
    change (5000 / 10) with 500. lia. }
  { unfold LOW_PRIORITY_EXPIRATION. change (2 ^ 31) with 2147483648. lia. }
  { unfold UNIT_SIZE, LOW_PRIORITY_BATCH_SIZE. lia. }
  set (interactive := computeExpirationBucket currentTime
                        (HIGH_PRIORITY_EXPIRATION dev)
                        HIGH_PRIORITY_BATCH_SIZE) in *.
  set (async := computeExpirationBucket currentTime LOW_PRIORITY_EXPIRATION
                                        LOW_PRIORITY_BATCH_SIZE) in *.
  unfold expirationTimeToMs, UNIT_SIZE, HIGH_PRIORITY_BATCH_SIZE,
    LOW_PRIORITY_EXPIRATION, LOW_PRIORITY_BATCH_SIZE in *.
  change (100 / 10) with 10 in Hi. change (5000 / 10) with 500 in Ha.
  change (250 / 10) with 25 in Ha.
  unfold HIGH_PRIORITY_EXPIRATION in *.
  destruct dev; [change (500 / 10) with 50 in Hi|change (150 / 10) with 15 in Hi];
    lia.
Qed.

(** X5.  For every current time, the interactive expiration time is
    earlier than the asynchronous one (it is the larger number), and both
    lie in the future: the interactive one more than [HIGH_PRIORITY_EXPIRATION]
    and at most [HIGH_PRIORITY_EXPIRATION + 100] ms ahead, the asynchronous
    one more than 5000 and at most 5250 ms ahead. *)
Theorem computeInteractiveExpiration_before_async (dev : bool)
    (currentTime : Z) :
  isExpirationTime currentTime ->
  let interactive := computeInteractiveExpiration dev currentTime in
  let async := computeAsyncExpiration currentTime in
  async < interactive < currentTime
  /\ HIGH_PRIORITY_EXPIRATION dev
     < expirationTimeToMs interactive - expirationTimeToMs currentTime
     <= HIGH_PRIORITY_EXPIRATION dev + HIGH_PRIORITY_BATCH_SIZE
  /\ LOW_PRIORITY_EXPIRATION
     < expirationTimeToMs async - expirationTimeToMs currentTime
     <= LOW_PRIORITY_EXPIRATION + LOW_PRIORITY_BATCH_SIZE.
Proof.
  intros Hct. exact (computeExpiration_windows dev currentTime Hct).
Qed.

Lemma computeInteractiveExpiration_before_async_witness :
  let currentTime := msToExpirationTime 1000 in
  let interactive := computeInteractiveExpiration false currentTime in
  let async := computeAsyncExpiration currentTime in
  async < interactive < currentTime
  /\ HIGH_PRIORITY_EXPIRATION false
     < expirationTimeToMs interactive - expirationTimeToMs currentTime
     <= HIGH_PRIORITY_EXPIRATION false + HIGH_PRIORITY_BATCH_SIZE
  /\ LOW_PRIORITY_EXPIRATION
     < expirationTimeToMs async - expirationTimeToMs currentTime
     <= LOW_PRIORITY_EXPIRATION + LOW_PRIORITY_BATCH_SIZE.
Proof.
  apply (computeInteractiveExpiration_before_async false
           (msToExpirationTime 1000)).
  vm_compute. split; discriminate.
Defined.

(** X6.  [inferPriorityFromExpirationTime] recovers the priority an
    expiration time was computed for: at the same current time, the result
    of [computeInteractiveExpiration] is classified [UserBlockingPriority]
    and that of [computeAsyncExpiration] [NormalPriority], as long as the
    asynchronous expiration time has not run into the reserved values up to
    [Idle]. *)
Theorem inferPriorityFromExpirationTime_of_computed (dev : bool)
    (currentTime : Z) :
  isExpirationTime currentTime ->
  Idle < computeAsyncExpiration currentTime ->
  inferPriorityFromExpirationTime dev currentTime
    (computeInteractiveExpiration dev currentTime) = UserBlockingPriority
  /\ inferPriorityFromExpirationTime dev currentTime
       (computeAsyncExpiration currentTime) = NormalPriority.
Proof.
  intros Hct Hidle.
  destruct (computeExpiration_windows dev currentTime Hct)
    as (Hord & Hi & Ha).
  unfold isExpirationTime, NoWork, Sync, MAX_SIGNED_31_BIT_INT in Hct.
  set (interactive := computeInteractiveExpiration dev currentTime) in *.
  set (async := computeAsyncExpiration currentTime) in *.
  unfold inferPriorityFromExpirationTime.
  unfold Sync, MAX_SIGNED_31_BIT_INT, Never, Idle in *.
  unfold LOW_PRIORITY_EXPIRATION, LOW_PRIORITY_BATCH_SIZE,
    HIGH_PRIORITY_BATCH_SIZE in *.
  assert (Hd : 150 <= HIGH_PRIORITY_EXPIRATION dev <= 500)
    by (destruct dev; cbn; lia).
  split.
  - rewrite (proj2 (Z.eqb_neq interactive _)) by lia.
    rewrite (proj2 (Z.eqb_neq interactive 1)) by lia.
    rewrite (proj2 (Z.eqb_neq interactive 2)) by lia. cbn [orb].
    rewrite (proj2 (Z.leb_gt _ 0)) by lia.
    rewrite (proj2 (Z.leb_le _ _)) by lia. reflexivity.
  - rewrite (proj2 (Z.eqb_neq async _)) by lia.
    rewrite (proj2 (Z.eqb_neq async 1)) by lia.
    rewrite (proj2 (Z.eqb_neq async 2)) by lia. cbn [orb].
    rewrite (proj2 (Z.leb_gt _ 0)) by lia.
    rewrite (proj2 (Z.leb_gt _ (HIGH_PRIORITY_EXPIRATION dev + 100))) by lia.
    rewrite (proj2 (Z.leb_le _ _)) by lia. reflexivity.
Qed.

Lemma inferPriorityFromExpirationTime_of_computed_witness :
  inferPriorityFromExpirationTime true (msToExpirationTime 1000)
    (computeInteractiveExpiration true (msToExpirationTime 1000))
  = UserBlockingPriority
  /\ inferPriorityFromExpirationTime true (msToExpirationTime 1000)
       (computeAsyncExpiration (msToExpirationTime 1000)) = NormalPriority.
Proof.
  apply (inferPriorityFromExpirationTime_of_computed true
           (msToExpirationTime 1000)).
  - vm_compute. split; discriminate.
  - vm_compute. reflexivity.
Defined.

Ltac case_compare :=
  match goal with
  | |- context [Z.eqb ?a ?b] => destruct (Z.eqb_spec a b)
  | |- context [Z.leb ?a ?b] => destruct (Z.leb_spec a b)
  end.

(** X7.  At a fixed current time the priority does not decrease with the
    expiration time: of two expiration times above [Idle], the larger one
    (the one that expires sooner) gets the priority that is at least as
    high. *)
Theorem inferPriorityFromExpirationTime_monotone (dev : bool)
    (currentTime e1 e2 : Z) :
  isExpirationTime currentTime ->
  Idle < e1 -> e1 <= e2 -> e2 <= Sync ->
  inferPriorityFromExpirationTime dev currentTime e1
  <= inferPriorityFromExpirationTime dev currentTime e2.
Proof.
  intros _ H1 H12 H2. unfold inferPriorityFromExpirationTime.
  unfold expirationTimeToMs, UNIT_SIZE, Sync, MAX_SIGNED_31_BIT_INT, Never,
    Idle, LOW_PRIORITY_EXPIRATION, LOW_PRIORITY_BATCH_SIZE,
    HIGH_PRIORITY_BATCH_SIZE, ImmediatePriority, UserBlockingPriority,
    NormalPriority, IdlePriority in *.
  assert (Hd : 150 <= HIGH_PRIORITY_EXPIRATION dev <= 500)
    by (destruct dev; cbn; lia).
  repeat (case_compare; cbn [orb]); lia.
Qed.

Lemma inferPriorityFromExpirationTime_monotone_witness :
  inferPriorityFromExpirationTime false 1000 940
  <= inferPriorityFromExpirationTime false 1000 990.
Proof.
  apply (inferPriorityFromExpirationTime_monotone false 1000 940 990);
    unfold isExpirationTime, NoWork, Idle, Sync, MAX_SIGNED_31_BIT_INT; lia.
Defined.

(** X8.  An expiration time above [Idle] is given [ImmediatePriority]
    exactly when it is [Sync] or has been reached: its deadline is not later
    than the current time. *)
Theorem inferPriorityFromExpirationTime_immediate (dev : bool)
    (currentTime expirationTime : Z) :
  isExpirationTime currentTime ->
  isExpirationTime expirationTime ->
  Idle < expirationTime ->
  (inferPriorityFromExpirationTime dev currentTime expirationTime
   = ImmediatePriority
   <-> expirationTime = Sync \/ currentTime <= expirationTime).
Proof.
  intros _ _ H1. unfold inferPriorityFromExpirationTime.
  unfold expirationTimeToMs, UNIT_SIZE, Sync, MAX_SIGNED_31_BIT_INT, Never,
    Idle, LOW_PRIORITY_EXPIRATION, LOW_PRIORITY_BATCH_SIZE,
    HIGH_PRIORITY_BATCH_SIZE, ImmediatePriority, UserBlockingPriority,
    NormalPriority, IdlePriority in *.
  repeat (case_compare; cbn [orb]); split; intros Hx; try lia; discriminate.
Qed.

Lemma inferPriorityFromExpirationTime_immediate_witness :
  inferPriorityFromExpirationTime false 1000 1010 = ImmediatePriority
  <-> 1010 = Sync \/ 1000 <= 1010.
Proof.
  apply (inferPriorityFromExpirationTime_immediate false 1000 1010);
    unfold isExpirationTime, NoWork, Idle, Sync, MAX_SIGNED_31_BIT_INT; lia.
Defined.

End ExpirationTimeFacts.

(** ** The ranges of a root *)

Module FiberRootFacts.
Import ReactFiberExpirationTime ReactFiberRoot.
Local Open Scope Z_scope.

Ltac simplify_root :=
  cbn [finishedExpirationTime callbackExpirationTime
       firstPendingTime firstSuspendedTime lastSuspendedTime
       nextKnownPendingLevel lastPingedTime lastExpiredTime
       set_firstPendingTime set_firstSuspendedTime
       set_lastSuspendedTime set_nextKnownPendingLevel
       set_lastPingedTime set_lastExpiredTime andb orb negb] in *.

Ltac no_if x :=
  lazymatch x with
  | context [if _ then _ else _] => fail
  | _ => idtac
  end.

Ltac compare_all :=
  simplify_root;
  repeat (match goal with
          | |- context [Z.eqb ?a ?b] =>
              no_if a; no_if b; destruct (Z.eqb_spec a b)
          | |- context [Z.ltb ?a ?b] =>
              no_if a; no_if b; destruct (Z.ltb_spec a b)
          | |- context [Z.leb ?a ?b] =>
              no_if a; no_if b; destruct (Z.leb_spec a b)
          | |- context [Z.gtb ?a ?b] =>
              no_if a; no_if b; destruct (Z.gtb_spec a b)
          | |- context [Z.geb ?a ?b] =>
              no_if a; no_if b; destruct (Z.geb_spec a b)
          end; simplify_root).

(** X9.  The four operations that mark a root keep its suspended range in
    order: after each of them the range is empty (both ends [NoWork]) or
    [NoWork < lastSuspendedTime <= firstSuspendedTime]. *)
Theorem markRoot_keeps_suspendedRangeInOrder (root : FiberRoot) (t : Z) :
  suspendedRangeInOrder root -> NoWork < t ->
  suspendedRangeInOrder (markRootSuspendedAtTime root t)
  /\ suspendedRangeInOrder (markRootUpdatedAtTime root t)
  /\ (forall remaining,
        suspendedRangeInOrder (markRootFinishedAtTime root t remaining))
  /\ suspendedRangeInOrder (markRootExpiredAtTime root t).
Proof.
  intros Hr Ht. destruct root as [fe ce fp fs ls nk lp le].
  unfold suspendedRangeInOrder, NoWork in *.
  cbn [firstSuspendedTime lastSuspendedTime] in Hr.
  split; [|split; [|split; [intros remaining|]]].
  - unfold markRootSuspendedAtTime, NoWork. compare_all; lia.
  - unfold markRootUpdatedAtTime, NoWork. compare_all; lia.
  - unfold markRootFinishedAtTime, NoWork. compare_all; lia.
  - unfold markRootExpiredAtTime, NoWork. compare_all; lia.
Qed.

Lemma markRoot_keeps_suspendedRangeInOrder_witness :
  suspendedRangeInOrder (markRootSuspendedAtTime exampleSuspendedRoot 95)
  /\ suspendedRangeInOrder (markRootUpdatedAtTime exampleSuspendedRoot 95)
  /\ (forall remaining,
        suspendedRangeInOrder
          (markRootFinishedAtTime exampleSuspendedRoot 95 remaining))
  /\ suspendedRangeInOrder (markRootExpiredAtTime exampleSuspendedRoot 95).
Proof.
  apply (markRoot_keeps_suspendedRangeInOrder exampleSuspendedRoot 95).
  - right. cbn. unfold NoWork. lia.
  - unfold NoWork. lia.
Defined.

(** X10.  After [markRootUpdatedAtTime root t] the root is suspended at
    exactly the levels above [t] at which it was suspended before: an update
    takes the levels up to its own out of the suspended range and adds
    none. *)
Theorem markRootUpdatedAtTime_isRootSuspendedAtTime (root : FiberRoot)
    (t t' : Z) :
  isRootSuspendedAtTime (markRootUpdatedAtTime root t) t'
  = isRootSuspendedAtTime root t' && (t <? t').
Proof.
  destruct root as [fe ce fp fs ls nk lp le].
  unfold isRootSuspendedAtTime, markRootUpdatedAtTime, NoWork.
  compare_all; try reflexivity; exfalso; lia.
Qed.

(** X11.  After [markRootFinishedAtTime root finished remaining] the root
    is suspended at exactly the levels below [finished] at which it was
    suspended before; [firstPendingTime] is [remaining]; and a ping or an
    expiry that is left is below [finished]. *)
Theorem markRootFinishedAtTime_isRootSuspendedAtTime (root : FiberRoot)
    (finished remaining t' : Z) :
  suspendedRangeInOrder root ->
  let root' := markRootFinishedAtTime root finished remaining in
  isRootSuspendedAtTime root' t'
  = isRootSuspendedAtTime root t' && (t' <? finished)
  /\ firstPendingTime root' = remaining
  /\ (NoWork < finished ->
      lastPingedTime root' < finished /\ lastExpiredTime root' < finished).
Proof.
  intros Hr. destruct root as [fe ce fp fs ls nk lp le].
  unfold suspendedRangeInOrder, NoWork in *.
  cbn [firstSuspendedTime lastSuspendedTime] in Hr. cbv zeta.
  unfold isRootSuspendedAtTime, markRootFinishedAtTime, NoWork.
  split; [|split].
  - compare_all; try reflexivity; exfalso; lia.
  - compare_all; reflexivity.
  - intros Hf. compare_all; lia.
Qed.

Lemma markRootFinishedAtTime_isRootSuspendedAtTime_witness :
  let root' := markRootFinishedAtTime exampleSuspendedRoot 85 70 in
  isRootSuspendedAtTime root' 82
  = isRootSuspendedAtTime exampleSuspendedRoot 82 && (82 <? 85)
  /\ firstPendingTime root' = 70
  /\ (NoWork < 85 ->
      lastPingedTime root' < 85 /\ lastExpiredTime root' < 85).
Proof.
  apply (markRootFinishedAtTime_isRootSuspendedAtTime exampleSuspendedRoot
           85 70 82).
  right. cbn. unfold NoWork. lia.
Defined.

(** X12.  After [markRootSuspendedAtTime root t] the suspended range is
    the smallest range that holds the old one and [t]: just [t] when no level
    was suspended, and otherwise from [min lastSuspendedTime t] to
    [max firstSuspendedTime t]. *)
Theorem markRootSuspendedAtTime_isRootSuspendedAtTime (root : FiberRoot)
    (t t' : Z) :
  suspendedRangeInOrder root -> NoWork < t ->
  isRootSuspendedAtTime (markRootSuspendedAtTime root t) t'
  = if firstSuspendedTime root =? NoWork then t' =? t
    else (Z.min (lastSuspendedTime root) t <=? t')
         && (t' <=? Z.max (firstSuspendedTime root) t).
Proof.
  intros Hr Ht. destruct root as [fe ce fp fs ls nk lp le].
  unfold suspendedRangeInOrder, NoWork in *.
  cbn [firstSuspendedTime lastSuspendedTime] in Hr.
  unfold isRootSuspendedAtTime, markRootSuspendedAtTime, NoWork.
  compare_all; try reflexivity; exfalso; lia.
Qed.

Lemma markRootSuspendedAtTime_isRootSuspendedAtTime_witness :
  isRootSuspendedAtTime (markRootSuspendedAtTime exampleSuspendedRoot 95) 93
  = if firstSuspendedTime exampleSuspendedRoot =? NoWork then 93 =? 95
    else (Z.min (lastSuspendedTime exampleSuspendedRoot) 95 <=? 93)
         && (93 <=? Z.max (firstSuspendedTime exampleSuspendedRoot) 95).
Proof.
  apply (markRootSuspendedAtTime_isRootSuspendedAtTime exampleSuspendedRoot
           95 93).
  - right. cbn. unfold NoWork. lia.
  - unfold NoWork. lia.
Defined.

End FiberRootFacts.

(** ** The update queue: creation, enqueueing, effects and commit *)

Module UpdateQueueFacts.
Import ReactFiberExpirationTime ReactUpdateQueue UpdateQueueProperties.

(** *** The order of the calls of a commit *)

Lemma callsOf_ext (σ σ' : Store) (instance : value) (es : list loc) :
  (forall x, x ∈ es -> callbackAt σ' x = callbackAt σ x) ->
  callsOf σ' instance es = callsOf σ instance es.
Proof.
  induction es as [|x es IH]; intros H; [reflexivity|].
  unfold callsOf in *. cbn. rewrite (H x) by left.
  rewrite IH by (intros y Hy; apply H; right; exact Hy). reflexivity.
Qed.

Lemma callsOf_cons (σ : Store) (instance : value) (x : loc) (es : list loc) :
  callsOf σ instance (x :: es)
  = from_option (fun c => [mkInvocation x c instance]) [] (callbackAt σ x)
    ++ callsOf σ instance es.
Proof. unfold callsOf. cbn. destruct (callbackAt σ x); reflexivity. Qed.

Lemma callsOf_app (σ : Store) (instance : value) (l1 l2 : list loc) :
  callsOf σ instance (l1 ++ l2)
  = callsOf σ instance l1 ++ callsOf σ instance l2.
Proof. unfold callsOf. apply omap_app. Qed.

Lemma bind_assoc {A B C : Type} (m : M A) (k : A -> M B) (h : B -> M C)
    (σ : Store) :
  bind (bind m k) h σ = bind m (fun a => bind (k a) h) σ.
Proof. unfold bind. destruct (m σ); reflexivity. Qed.

Lemma bind_ext {A B : Type} (m : M A) (k k' : A -> M B) (σ : Store) :
  (forall a σ', k a σ' = k' a σ') -> bind m k σ = bind m k' σ.
Proof. intros H. unfold bind. destruct (m σ); auto. Qed.

Lemma commitEffects_app (instance : value) (l1 l2 : list loc) (σ : Store) :
  commitEffects (l1 ++ l2) instance σ
  = (commitEffects l1 instance;; commitEffects l2 instance) σ.
Proof.
  revert σ. induction l1 as [|x l1 IH]; intros σ; [reflexivity|].
  cbn [app commitEffects]. rewrite bind_assoc.
  apply bind_ext. intros u σ1. rewrite bind_assoc.
  apply bind_ext. intros [] σ2. apply IH.
Qed.

(** A commit of updates whose callbacks are functions that return. *)
Lemma commitEffects_in_order (instance : value) (es : list loc) :
  forall σ,
    NoDup es ->
    (forall x, x ∈ es -> x < length (updates σ)) ->
    (forall x c, x ∈ es -> callbackAt σ x = Some c -> failureOf c = None) ->
    exists σ',
      commitEffects es instance σ = Returned tt σ'
      /\ invocations σ' = invocations σ ++ callsOf σ instance es
      /\ (forall x, x ∈ es -> callbackAt σ' x = None)
      /\ (forall y, y ∉ es -> updates σ' !! y = updates σ !! y)
      /\ length (updates σ') = length (updates σ)
      /\ fibers σ' = fibers σ /\ queues σ' = queues σ
      /\ sharedQueues σ' = sharedQueues σ /\ arrays σ' = arrays σ.
Proof.
  induction es as [|x es IH]; intros σ Hnd Hlt Hok.
  - exists σ. cbn. rewrite app_nil_r. split; [reflexivity|].
    split; [reflexivity|]. split; [intros x Hx; inversion Hx|]. auto 10.
  - apply NoDup_cons in Hnd as [Hx Hnd].
    destruct (lookup_lt_is_Some_2 _ _ (Hlt x ltac:(left))) as [u Hu].
    destruct (Update.callback u) as [c|] eqn:Hc.
    + assert (Hcx : callbackAt σ x = Some c)
        by (unfold callbackAt; rewrite Hu; exact Hc).
      rewrite callsOf_cons, Hcx. cbn [from_option].
      pose proof (Hok x c ltac:(left) Hcx) as Hf.
      cbn [commitEffects]. exec. rewrite Hu. cbn. rewrite Hc. cbn.
      rewrite Hu; cbn.
      destruct c as [id [|]|v]; try discriminate Hf. cbn.
      set (σ2 := map_invocations _ (map_updates _ σ)).
      assert (Hcb : forall y, y <> x -> updates σ2 !! y = updates σ !! y).
      { intros y Hy. subst σ2. cbn. apply list_lookup_insert_ne. congruence. }
      destruct (IH σ2) as (σ' & Hrun & Hinv & Hnone & Hother & Hlen & Hrest);
        [exact Hnd | | |].
      { intros y Hy. subst σ2. cbn. rewrite length_insert. apply Hlt. right. exact Hy. }
      { intros y c Hy Hcy. apply (Hok y c); [right; exact Hy|].
        unfold callbackAt in *. rewrite Hcb in Hcy; [exact Hcy|].
        intros ->. contradiction. }
      exists σ'. split; [exact Hrun|]. split.
      { rewrite Hinv. subst σ2. cbn.
        rewrite <- (assoc_L app). f_equal. f_equal.
        apply callsOf_ext. intros y Hy. unfold callbackAt. cbn.
        rewrite list_lookup_insert_ne; [reflexivity|]. intros ->. contradiction. }
      split.
      { intros y Hy. apply elem_of_cons in Hy as [->|Hy]; [|apply Hnone; exact Hy].
        unfold callbackAt. rewrite Hother by exact Hx. subst σ2. cbn.
        rewrite list_lookup_insert_eq by (eapply lookup_lt_Some; exact Hu).
        reflexivity. }
      split.
      { intros y Hy. rewrite Hother by (intros H; apply Hy; right; exact H).
        apply Hcb. intros ->. apply Hy. left. }
      split; [rewrite Hlen; subst σ2; cbn; apply length_insert|].
      exact Hrest.
    + assert (Hcx : callbackAt σ x = None)
        by (unfold callbackAt; rewrite Hu; exact Hc).
      rewrite callsOf_cons, Hcx. cbn [from_option app].
      cbn [commitEffects]. exec. rewrite Hu. cbn. rewrite Hc. cbn.
      destruct (IH σ) as (σ' & Hrun & Hinv & Hnone & Hother & Hlen & Hrest);
        [exact Hnd | | |].
      { intros y Hy. apply Hlt. right. exact Hy. }
      { intros y c Hy. apply Hok. right. exact Hy. }
      exists σ'. split; [exact Hrun|]. split; [exact Hinv|].
      split.
      { intros y Hy. apply elem_of_cons in Hy as [->|Hy]; [|apply Hnone; exact Hy].
        unfold callbackAt in *. rewrite Hother by exact Hx. exact Hcx. }
      split; [intros y Hy; apply Hother; intros H; apply Hy; right; exact H|].
      split; [exact Hlen|exact Hrest].
Qed.

(** X13.  [commitUpdateQueue] calls the callbacks of the updates in the
    [effects] array in the order of the array, each with [instance] as
    [this]; afterwards none of these updates holds a callback, the other
    updates are untouched and the queue has no effects. *)
Theorem commitUpdateQueue_in_order (finishedWork q : loc) (instance : value)
    (σ : Store) (Q : UpdateQueue.t) (a : loc) (es : list loc) :
  queues σ !! q = Some Q ->
  UpdateQueue.effects Q = Some a ->
  arrays σ !! a = Some es ->
  NoDup es ->
  (forall x, x ∈ es -> x < length (updates σ)) ->
  (forall x c, x ∈ es -> callbackAt σ x = Some c -> failureOf c = None) ->
  exists σ',
    commitUpdateQueue finishedWork q instance σ = Returned tt σ'
    /\ invocations σ' = invocations σ ++ callsOf σ instance es
    /\ (forall x, x ∈ es -> callbackAt σ' x = None)
    /\ (forall y, y ∉ es -> updates σ' !! y = updates σ !! y)
    /\ queues σ' !! q = Some (UpdateQueue.with_effects None Q).
Proof.
  intros HQ He Ha Hnd Hlt Hok. unfold commitUpdateQueue. exec.
  rewrite HQ. cbn. rewrite HQ. cbn. rewrite He. cbn. rewrite Ha. cbn.
  set (σ0 := map_queues _ σ).
  destruct (commitEffects_in_order instance es σ0 Hnd Hlt Hok)
    as (σ' & Hrun & Hinv & Hnone & Hother & _ & _ & Hq & _).
  exists σ'. split; [exact Hrun|]. split; [exact Hinv|].
  split; [exact Hnone|]. split; [exact Hother|].
  rewrite Hq. subst σ0. cbn.
  apply list_lookup_insert_eq. eapply lookup_lt_Some; exact HQ.
Qed.

Lemma commitUpdateQueue_in_order_witness :
  exists σ',
    commitUpdateQueue 0 0 VNull exampleProcessedStore = Returned tt σ'
    /\ invocations σ'
       = invocations exampleProcessedStore
         ++ callsOf exampleProcessedStore VNull [2]
    /\ (forall x, x ∈ [2] -> callbackAt σ' x = None)
    /\ (forall y, y ∉ [2] ->
        updates σ' !! y = updates exampleProcessedStore !! y)
    /\ queues σ' !! 0
       = Some (UpdateQueue.with_effects None
                 (UpdateQueue.mk (VNum 0) (Some 5) 0 (Some 0))).
Proof.
  apply (commitUpdateQueue_in_order 0 0 VNull exampleProcessedStore
           (UpdateQueue.mk (VNum 0) (Some 5) 0 (Some 0)) 0 [2]).
  - reflexivity.
  - reflexivity.
  - reflexivity.
  - apply (bool_decide_unpack _). reflexivity.
  - intros x Hx. apply list_elem_of_singleton in Hx as ->. vm_compute. lia.
  - intros x c Hx. apply list_elem_of_singleton in Hx as ->.
    intros [= <-]. reflexivity.
Defined.

(** A commit in which the callback of [x] does not return. *)
Lemma commitEffects_failing (instance : value) (pre post : list loc)
    (x : loc) (c : CallbackValue) (e : Error) (σ : Store) :
  NoDup (pre ++ x :: post) ->
  (forall y, y ∈ pre ++ [x] -> y < length (updates σ)) ->
  (forall y c, y ∈ pre -> callbackAt σ y = Some c -> failureOf c = None) ->
  callbackAt σ x = Some c -> failureOf c = Some e ->
  exists σ',
    commitEffects (pre ++ x :: post) instance σ = Thrown e σ'
    /\ invocations σ'
       = invocations σ ++ callsOf σ instance pre
         ++ match c with
            | CallbackFunction _ _ => [mkInvocation x c instance]
            | CallbackNotFunction _ => []
            end
    /\ callbackAt σ' x = None
    /\ (forall y, y ∈ post -> callbackAt σ' y = callbackAt σ y)
    /\ queues σ' = queues σ.
Proof.
  intros Hnd Hlt Hok Hcx Hfail.
  apply NoDup_app in Hnd as (Hndpre & Hdisj & Hndx).
  apply NoDup_cons in Hndx as [Hxpost _].
  destruct (commitEffects_in_order instance pre σ Hndpre)
    as (σ1 & Hrun & Hinv & _ & Hother & Hlen & _ & Hq & _).
  { intros y Hy. apply Hlt. apply elem_of_app. left. exact Hy. }
  { exact Hok. }
  rewrite commitEffects_app. rewrite (bind_Returned _ _ _ _ _ Hrun).
  assert (Hxpre : x ∉ pre) by (intros H; apply (Hdisj x H); left).
  assert (Hsame : forall y, y ∉ pre -> callbackAt σ1 y = callbackAt σ y)
    by (intros y Hy; unfold callbackAt; rewrite Hother by exact Hy; reflexivity).
  assert (Hx1 : callbackAt σ1 x = Some c) by (rewrite Hsame; assumption).
  unfold callbackAt in Hx1.
  destruct (updates σ1 !! x) as [u|] eqn:Hu; [|discriminate].
  cbn [commitEffects]. exec. rewrite Hu. cbn. rewrite Hx1. cbn.
  rewrite Hu. cbn.
  assert (Hpost : forall y σ2,
    updates σ2 = <[x := Update.with_callback None u]> (updates σ1) ->
    y ∈ post -> callbackAt σ2 y = callbackAt σ y).
  { intros y σ2 H2 Hy. rewrite <- Hsame.
    - unfold callbackAt. rewrite H2.
      rewrite list_lookup_insert_ne; [reflexivity|]. intros ->. contradiction.
    - intros H. apply (Hdisj y H). right. exact Hy. }
  assert (Hxn : forall σ2,
    updates σ2 = <[x := Update.with_callback None u]> (updates σ1) ->
    callbackAt σ2 x = None).
  { intros σ2 H2. unfold callbackAt. rewrite H2.
    rewrite list_lookup_insert_eq by (eapply lookup_lt_Some; exact Hu).
    reflexivity. }
  destruct c as [id [|]|v]; cbn in Hfail; try discriminate Hfail;
    injection Hfail as <-; cbn.
  - eexists. split; [reflexivity|]. cbn. rewrite Hinv, (assoc_L app).
    split; [reflexivity|].
    split; [apply Hxn; reflexivity|].
    split; [intros y Hy; apply Hpost; [reflexivity|exact Hy]|exact Hq].
  - eexists. split; [reflexivity|]. cbn. rewrite Hinv, app_nil_r.
    split; [reflexivity|].
    split; [apply Hxn; reflexivity|].
    split; [intros y Hy; apply Hpost; [reflexivity|exact Hy]|exact Hq].
Qed.

(** X14.  When the callback of an effect throws, or is not a function,
    [commitUpdateQueue] throws that error: the callbacks before it have been
    called, in order, those after it are not called and stay on their
    updates, and, the [effects] array having been taken off the queue before
    the first call, a later commit of the queue calls nothing. *)
Theorem commitUpdateQueue_failing_callback (finishedWork q : loc)
    (instance : value) (σ : Store) (Q : UpdateQueue.t) (a : loc)
    (pre post : list loc) (x : loc) (c : CallbackValue) (e : Error) :
  queues σ !! q = Some Q ->
  UpdateQueue.effects Q = Some a ->
  arrays σ !! a = Some (pre ++ x :: post) ->
  NoDup (pre ++ x :: post) ->
  (forall y, y ∈ pre ++ [x] -> y < length (updates σ)) ->
  (forall y c, y ∈ pre -> callbackAt σ y = Some c -> failureOf c = None) ->
  callbackAt σ x = Some c -> failureOf c = Some e ->
  exists σ',
    commitUpdateQueue finishedWork q instance σ = Thrown e σ'
    /\ invocations σ'
       = invocations σ ++ callsOf σ instance pre
         ++ match c with
            | CallbackFunction _ _ => [mkInvocation x c instance]
            | CallbackNotFunction _ => []
            end
    /\ callbackAt σ' x = None
    /\ (forall y, y ∈ post -> callbackAt σ' y = callbackAt σ y)
    /\ (forall finishedWork' instance',
          commitUpdateQueue finishedWork' q instance' σ' = Returned tt σ').
Proof.
  intros HQ He Ha Hnd Hlt Hok Hcx Hfail. unfold commitUpdateQueue. exec.
  rewrite HQ. cbn. rewrite HQ. cbn. rewrite He. cbn. rewrite Ha. cbn.
  set (σ0 := map_queues _ σ).
  destruct (commitEffects_failing instance pre post x c e σ0 Hnd Hlt Hok Hcx
              Hfail) as (σ' & Hrun & Hinv & Hxn & Hpost & Hq).
  exists σ'. split; [exact Hrun|]. split; [exact Hinv|].
  split; [exact Hxn|]. split; [exact Hpost|].
  intros fw' inst'.
  apply (commitUpdateQueue_again fw' q inst' σ' (UpdateQueue.with_effects None Q));
    [|reflexivity].
  rewrite Hq. subst σ0. cbn.
  apply list_lookup_insert_eq. eapply lookup_lt_Some; exact HQ.
Qed.

Lemma commitUpdateQueue_failing_callback_witness :
  exists σ',
    commitUpdateQueue 0 0 VNull exampleFailingStore
    = Thrown (CallbackError 2) σ'
    /\ invocations σ'
       = invocations exampleFailingStore
         ++ callsOf exampleFailingStore VNull [0]
         ++ [mkInvocation 1 (CallbackFunction 2 true) VNull]
    /\ callbackAt σ' 1 = None
    /\ (forall y, y ∈ [2] ->
        callbackAt σ' y = callbackAt exampleFailingStore y)
    /\ (forall finishedWork' instance',
          commitUpdateQueue finishedWork' 0 instance' σ' = Returned tt σ').
Proof.
  apply (commitUpdateQueue_failing_callback 0 0 VNull exampleFailingStore
           (UpdateQueue.mk (VNum 0) None 0 (Some 0)) 0 [0] [2] 1
           (CallbackFunction 2 true) (CallbackError 2)).
  - reflexivity.
  - reflexivity.
  - reflexivity.
  - apply (bool_decide_unpack _). reflexivity.
  - intros y Hy. cbn in Hy. apply elem_of_cons in Hy as [->|Hy];
      [|apply list_elem_of_singleton in Hy as ->]; vm_compute; lia.
  - intros y c Hy. apply list_elem_of_singleton in Hy as ->.
    intros [= <-]. reflexivity.
  - reflexivity.
  - reflexivity.
Defined.

(** X15.  For a [CaptureUpdate], [getStateFromUpdate] clears the bit
    [ShouldCapture] of the fiber's [effectTag], sets the bit [DidCapture],
    keeps every other bit, and computes the state as for an [UpdateState];
    the other fields of the fiber, the flag [hasForceUpdate] and the queues
    are left as they are. *)
Theorem getStateFromUpdate_CaptureUpdate (workInProgress : loc)
    (queue : option loc) (u : Update.t) (prev props instance : value)
    (σ : Store) (f : Fiber.t) :
  fibers σ !! workInProgress = Some f ->
  Update.tag u = CaptureUpdate ->
  exists σ' f',
    getStateFromUpdate workInProgress queue u prev props instance σ
    = Returned (mergePartialState prev
                  (partialStateOf u prev props instance)) σ'
    /\ fibers σ' !! workInProgress = Some f'
    /\ (forall n, (0 <= n)%Z ->
          Z.testbit (Fiber.effectTag f') n
          = if (n =? 12)%Z then false
            else if (n =? 6)%Z then true
            else Z.testbit (Fiber.effectTag f) n)
    /\ Fiber.memoizedState f' = Fiber.memoizedState f
    /\ Fiber.expirationTime f' = Fiber.expirationTime f
    /\ Fiber.updateQueue f' = Fiber.updateQueue f
    /\ hasForceUpdate σ' = hasForceUpdate σ
    /\ updates σ' = updates σ /\ queues σ' = queues σ
    /\ arrays σ' = arrays σ.
Proof.
  intros Hf Htag. unfold getStateFromUpdate. rewrite Htag. exec.
  rewrite Hf. cbn. eexists. eexists. split; [reflexivity|]. cbn.
  split; [apply list_lookup_insert_eq; eapply lookup_lt_Some; exact Hf|].
  split; [|auto 10].
  intros n Hn. cbn.
  rewrite Z.lor_spec, Z.land_spec, Z.lnot_spec by exact Hn.
  unfold ReactSideEffectTags.ShouldCapture, ReactSideEffectTags.DidCapture.
  change 4096%Z with (2 ^ 12)%Z. change 64%Z with (2 ^ 6)%Z.
  rewrite !Z.pow2_bits_eqb by lia.
  rewrite (Z.eqb_sym 12 n), (Z.eqb_sym 6 n).
  destruct (Z.eqb_spec n 12) as [->|H12];
    [cbn; rewrite andb_false_r; reflexivity|].
  destruct (n =? 6)%Z; cbn; [apply orb_true_r|].
  rewrite andb_true_r, orb_false_r. reflexivity.
Qed.

Lemma getStateFromUpdate_CaptureUpdate_witness :
  exists σ' f',
    getStateFromUpdate 0 (Some 0)
      (Update.mk 1 None CaptureUpdate (PayloadValue VNull) None None None)
      (VNum 0) VNull VNull exampleStore
    = Returned (mergePartialState (VNum 0) VNull) σ'
    /\ fibers σ' !! 0 = Some f'
    /\ (forall n, (0 <= n)%Z ->
          Z.testbit (Fiber.effectTag f') n
          = if (n =? 12)%Z then false
            else if (n =? 6)%Z then true
            else Z.testbit 0 n)
    /\ Fiber.memoizedState f' = VNum 0
    /\ Fiber.expirationTime f' = 0%Z
    /\ Fiber.updateQueue f' = Some 0
    /\ hasForceUpdate σ' = hasForceUpdate exampleStore
    /\ updates σ' = updates exampleStore
    /\ queues σ' = queues exampleStore
    /\ arrays σ' = arrays exampleStore.
Proof.
  apply (getStateFromUpdate_CaptureUpdate 0 (Some 0)
           (Update.mk 1 None CaptureUpdate (PayloadValue VNull) None None None)
           (VNum 0) VNull VNull exampleStore
           (Fiber.mk (Some 0) None (VNum 0) 0 0 0)).
  - reflexivity.
  - reflexivity.
Defined.

(** *** New queues and new updates *)

(** X16.  [initializeUpdateQueue] gives the fiber a fresh queue with no
    updates whose base state is the fiber's [memoizedState]; the queue is
    well formed, the other fibers and the updates are untouched, and a
    [processUpdateQueue] on it returns and leaves [memoizedState] as it
    was. *)
Theorem initializeUpdateQueue_wellFormed (dev : bool) (fiber : loc)
    (σ : Store) (f : Fiber.t) :
  fibers σ !! fiber = Some f ->
  (forall c, Fiber.alternate f = Some c ->
     exists fc, fibers σ !! c = Some fc
     /\ forall qc, Fiber.updateQueue fc = Some qc -> qc < length (queues σ)) ->
  exists σ',
    initializeUpdateQueue fiber σ = Returned tt σ'
    /\ wellFormedQueue σ' fiber [] []
    /\ queueOfFiber σ' fiber
       = Some (UpdateQueue.mk (Fiber.memoizedState f) None
                              (length (sharedQueues σ)) None)
    /\ updates σ' = updates σ
    /\ (forall g, g <> fiber -> fibers σ' !! g = fibers σ !! g)
    /\ (forall fuel props instance r,
          exists σ'',
            processUpdateQueue dev fuel fiber props instance r σ'
            = Returned tt σ''
            /\ memoizedStateOf σ'' fiber = Some (Fiber.memoizedState f)).
Proof.
  intros Hf Halt. unfold initializeUpdateQueue. exec. rewrite Hf. cbn.
  rewrite Hf. cbn.
  eexists. split; [reflexivity|].
  set (σ' := map_fibers _ _).
  set (Q := UpdateQueue.mk (Fiber.memoizedState f) None
                           (length (sharedQueues σ)) None).
  assert (Hlt : fiber < length (fibers σ)) by (eapply lookup_lt_Some; exact Hf).
  assert (Hf' : fibers σ' !! fiber
                = Some (Fiber.with_updateQueue (Some (length (queues σ))) f))
    by (subst σ'; cbn; apply list_lookup_insert_eq; exact Hlt).
  assert (HQ' : queues σ' !! length (queues σ) = Some Q)
    by (subst σ'; cbn; rewrite lookup_app_r, Nat.sub_diag by lia; reflexivity).
  assert (Hwf : wellFormedQueue σ' fiber [] []).
  { exists (Fiber.with_updateQueue (Some (length (queues σ))) f),
           (length (queues σ)), Q, (SharedQueue.mk None).
    split; [exact Hf'|]. split; [reflexivity|]. split; [exact HQ'|].
    split; [subst σ'; cbn; rewrite lookup_app_r, Nat.sub_diag by lia; reflexivity|].
    split; [reflexivity|]. split; [reflexivity|]. split; [constructor|].
    split; [intros a Ha; discriminate Ha|].
    intros c Hc. cbn in Hc. destruct (Halt c Hc) as (fc & Hfc & Hqc).
    destruct (decide (c = fiber)) as [->|Hne].
    - eexists. split; [exact Hf'|]. cbn. intros qc [= <-].
      subst σ'. cbn. rewrite length_app. cbn. lia.
    - exists fc. split.
      + subst σ'. cbn. rewrite list_lookup_insert_ne by congruence. exact Hfc.
      + intros qc Hq. specialize (Hqc qc Hq). subst σ'. cbn.
        rewrite length_app. lia. }
  split; [exact Hwf|].
  split; [unfold queueOfFiber; rewrite Hf'; cbn; exact HQ'|].
  split; [reflexivity|].
  split; [intros g Hg; subst σ'; cbn; apply list_lookup_insert_ne; congruence|].
  intros fuel props instance r.
  destruct (processUpdateQueue_pass dev fiber props instance r fuel σ' [] []
              Hwf ltac:(cbn; lia))
    as (Q0 & f0 & _ & Hf0 & σ'' & lc & Q'' & f'' & Hrun & _ & _ & Hf'' & _ & _
        & _ & _ & Hnil).
  exists σ''. split; [exact Hrun|].
  destruct (Hnil eq_refl) as [Hm _].
  unfold memoizedStateOf. rewrite Hf''. cbn. rewrite Hm.
  rewrite Hf' in Hf0. injection Hf0 as <-. reflexivity.
Qed.

Lemma initializeUpdateQueue_wellFormed_witness :
  exists σ',
    initializeUpdateQueue 0 exampleStore = Returned tt σ'
    /\ wellFormedQueue σ' 0 [] []
    /\ queueOfFiber σ' 0 = Some (UpdateQueue.mk (VNum 0) None 1 None)
    /\ updates σ' = updates exampleStore
    /\ (forall g, g <> 0 -> fibers σ' !! g = fibers exampleStore !! g)
    /\ (forall fuel props instance r,
          exists σ'',
            processUpdateQueue false fuel 0 props instance r σ'
            = Returned tt σ''
            /\ memoizedStateOf σ'' 0 = Some (VNum 0)).
Proof.
  apply (initializeUpdateQueue_wellFormed false 0 exampleStore
           (Fiber.mk (Some 0) None (VNum 0) 0 0 0)).
  - reflexivity.
  - intros c H. discriminate H.
Defined.

(** X17.  When the work-in-progress fiber still shares the queue object of
    the current fiber, [cloneUpdateQueue] gives it a new queue object with
    the same four fields (the same base queue, shared pending list and
    effects array, not copies of them) and leaves the queue of the current
    fiber alone; a second call then changes nothing. *)
Theorem cloneUpdateQueue_shares (current workInProgress : loc) (σ : Store)
    (fc fw : Fiber.t) (q : loc) (Q : UpdateQueue.t) :
  current <> workInProgress ->
  fibers σ !! current = Some fc ->
  fibers σ !! workInProgress = Some fw ->
  Fiber.updateQueue fc = Some q ->
  Fiber.updateQueue fw = Some q ->
  queues σ !! q = Some Q ->
  exists σ',
    cloneUpdateQueue current workInProgress σ = Returned tt σ'
    /\ fibers σ' !! workInProgress
       = Some (Fiber.with_updateQueue (Some (length (queues σ))) fw)
    /\ fibers σ' !! current = Some fc
    /\ queues σ' = queues σ ++ [Q]
    /\ queueOfFiber σ' workInProgress = Some Q
    /\ queueOfFiber σ' current = Some Q
    /\ updates σ' = updates σ /\ sharedQueues σ' = sharedQueues σ
    /\ arrays σ' = arrays σ
    /\ cloneUpdateQueue current workInProgress σ' = Returned tt σ'.
Proof.
  intros Hne Hc Hw Hqc Hqw HQ. unfold cloneUpdateQueue. exec.
  rewrite Hw. cbn. rewrite Hc. cbn. rewrite Hqw, Hqc.
  destruct (decide (Some q = Some q)) as [_|H]; [|contradiction].
  cbn. rewrite HQ. cbn. rewrite Hw. cbn.
  assert (Hql : q < length (queues σ)) by (eapply lookup_lt_Some; exact HQ).
  assert (Hwl : workInProgress < length (fibers σ))
    by (eapply lookup_lt_Some; exact Hw).
  eexists. split; [reflexivity|]. cbn.
  rewrite list_lookup_insert_eq by exact Hwl.
  rewrite list_lookup_insert_ne by congruence.
  split; [reflexivity|]. split; [exact Hc|].
  assert (HQeq : UpdateQueue.mk (UpdateQueue.baseState Q)
                   (UpdateQueue.baseQueue Q) (UpdateQueue.shared Q)
                   (UpdateQueue.effects Q) = Q) by (destruct Q; reflexivity).
  rewrite HQeq.
  split; [reflexivity|].
  split.
  { unfold queueOfFiber. cbn. rewrite list_lookup_insert_eq by exact Hwl. cbn.
    rewrite lookup_app_r, Nat.sub_diag by lia. reflexivity. }
  split.
  { unfold queueOfFiber. cbn. rewrite list_lookup_insert_ne by congruence.
    rewrite Hc, Hqc. apply lookup_app_l_Some. exact HQ. }
  split; [reflexivity|]. split; [reflexivity|]. split; [reflexivity|].
  cbn. rewrite list_lookup_insert_ne by congruence.
  rewrite Hc. cbn. rewrite Hqc.
  destruct (decide (Some (length (queues σ)) = Some q)) as [[= H]|_]; [lia|].
  reflexivity.
Qed.

Lemma cloneUpdateQueue_shares_witness :
  exists σ',
    cloneUpdateQueue 0 1 exampleAlternateStore = Returned tt σ'
    /\ fibers σ' !! 1
       = Some (Fiber.with_updateQueue (Some 1)
                 (Fiber.mk (Some 0) (Some 0) (VNum 0) 0 0 0))
    /\ fibers σ' !! 0 = Some (Fiber.mk (Some 0) None (VNum 0) 0 0 0)
    /\ queues σ'
       = queues exampleAlternateStore ++ [UpdateQueue.mk (VNum 0) None 0 None]
    /\ queueOfFiber σ' 1 = Some (UpdateQueue.mk (VNum 0) None 0 None)
    /\ queueOfFiber σ' 0 = Some (UpdateQueue.mk (VNum 0) None 0 None)
    /\ updates σ' = updates exampleAlternateStore
    /\ sharedQueues σ' = sharedQueues exampleAlternateStore
    /\ arrays σ' = arrays exampleAlternateStore
    /\ cloneUpdateQueue 0 1 σ' = Returned tt σ'.
Proof.
  apply (cloneUpdateQueue_shares 0 1 exampleAlternateStore
           (Fiber.mk (Some 0) None (VNum 0) 0 0 0)
           (Fiber.mk (Some 0) (Some 0) (VNum 0) 0 0 0) 0
           (UpdateQueue.mk (VNum 0) None 0 None)); try reflexivity.
  lia.
Defined.

Ltac store_proj_goal :=
  cbn [fibers queues sharedQueues updates arrays hasForceUpdate
       didWarnUpdateInsideUpdate currentlyProcessingQueue consoleErrors
       workLoopCalls invocations
       map_fibers map_queues map_sharedQueues map_updates map_arrays
       set_hasForceUpdate set_didWarnUpdateInsideUpdate
       set_currentlyProcessingQueue set_consoleErrors map_workLoopCalls
       map_invocations].

(** An update linked in behind the last one of a circular list: seen from
    the new update the list has it at the end, seen from the old last update
    the list has it at the front. *)
Lemma circular_insert (us : list Update.t) (t : loc) (l : list loc)
    (update : loc) (U T : Update.t) :
  circular us (Some t) l ->
  us !! update = Some U -> update ∉ l -> us !! t = Some T ->
  let us1 := <[update := Update.with_next (Update.next T) U]> us in
  let us2 := <[t := Update.with_next (Some update) T]> us1 in
  us1 !! t = Some T
  /\ circular us2 (Some update) (l ++ [update])
  /\ circular us2 (Some t) (update :: l)
  /\ (forall x, x <> t -> x <> update -> us2 !! x = us !! x)
  /\ (forall x, fieldsOf <$> us2 !! x = fieldsOf <$> us !! x)
  /\ length us2 = length us.
Proof.
  intros Hcirc HU Hnotin HT us1 us2.
  destruct (circular_Some_inv _ _ _ Hcirc)
    as (h & l0 & -> & Hh & Hnd & Hch & Ht & Hnt).
  assert (Hnext : Update.next T = Some h)
    by (unfold nextOf in Hnt; rewrite HT in Hnt; exact Hnt).
  assert (Hu : update < length us) by (eapply lookup_lt_Some; exact HU).
  assert (Htu : t <> update).
  { intros ->. apply Hnotin, elem_of_app. right.
    apply list_elem_of_singleton. reflexivity. }
  assert (HT1 : us1 !! t = Some T)
    by (subst us1; rewrite list_lookup_insert_ne by congruence; exact HT).
  assert (Hlen : length us2 = length us)
    by (subst us2 us1; rewrite !length_insert; reflexivity).
  assert (Hn_upd : nextOf us2 update = Some h).
  { subst us2. rewrite nextOf_insert_ne by assumption.
    subst us1. rewrite nextOf_insert_eq by assumption. exact Hnext. }
  assert (Hn_t : nextOf us2 t = Some update).
  { subst us2. rewrite nextOf_insert_eq; [reflexivity|].
    subst us1. rewrite length_insert. assumption. }
  assert (Hl0 : forall x, x ∈ l0 -> x <> t /\ x <> update).
  { intros x Hx. split.
    - intros ->. apply NoDup_app in Hnd as (_ & Hd & _).
      apply (Hd t Hx), list_elem_of_singleton. reflexivity.
    - intros ->. apply Hnotin, elem_of_app. auto. }
  assert (Hch2 : chain us2 (Some h) l0 (Some t)).
  { apply (chain_frame us); [lia| |assumption].
    intros x Hx. destruct (Hl0 x Hx) as [H1 H2].
    subst us2 us1. rewrite !nextOf_insert_ne by congruence. reflexivity. }
  assert (Hnd2 : NoDup ((l0 ++ [t]) ++ [update])).
  { apply NoDup_app. split; [assumption|]. split; [|apply NoDup_singleton].
    intros x Hx Hx'. apply list_elem_of_singleton in Hx' as ->. contradiction. }
  split; [exact HT1|]. split; [|split; [|split; [|split]]].
  - apply (circular_intro _ update h (l0 ++ [t])).
    + exact Hnd2.
    + destruct l0; simpl in *; assumption.
    + apply chain_snoc; [exact Hch2 | lia | exact Hn_t].
    + lia.
    + exact Hn_upd.
  - change (update :: l0 ++ [t]) with ((update :: l0) ++ [t]).
    apply (circular_intro _ t update (update :: l0)).
    + apply NoDup_cons. split.
      * intros H. apply Hnotin. exact H.
      * exact Hnd.
    + reflexivity.
    + cbn. split; [reflexivity|]. split; [lia|]. rewrite Hn_upd. exact Hch2.
    + lia.
    + exact Hn_t.
  - intros x H1 H2. subst us2 us1.
    rewrite !list_lookup_insert_ne by congruence. reflexivity.
  - intros x. subst us2.
    rewrite lookup_insert_fieldsOf by exact HT1.
    subst us1. apply lookup_insert_fieldsOf. exact HU.
  - exact Hlen.
Qed.

(** X18.  [enqueueCapturedUpdate] on a fiber whose queue is not the one of
    its alternate links the update into the base queue.  When the base queue
    is empty the update becomes its only element; when it is not, the update
    is linked behind the last element while [baseQueue] keeps pointing to
    that element, so that the captured update is the first of the list, not
    the last. *)
Theorem enqueueCapturedUpdate_first (workInProgress update : loc)
    (σ : Store) (f : Fiber.t) (q : loc) (Q : UpdateQueue.t) (U : Update.t)
    (l : list loc) :
  fibers σ !! workInProgress = Some f ->
  Fiber.updateQueue f = Some q ->
  queues σ !! q = Some Q ->
  (forall c, Fiber.alternate f = Some c ->
     exists fc, fibers σ !! c = Some fc /\ Fiber.updateQueue fc <> Some q) ->
  circular (updates σ) (UpdateQueue.baseQueue Q) l ->
  updates σ !! update = Some U ->
  update ∉ l ->
  exists σ' Q',
    enqueueCapturedUpdate workInProgress update σ = Returned tt σ'
    /\ queues σ' !! q = Some Q'
    /\ UpdateQueue.baseQueue Q'
       = match UpdateQueue.baseQueue Q with
         | Some last => Some last
         | None => Some update
         end
    /\ circular (updates σ') (UpdateQueue.baseQueue Q') (update :: l)
    /\ recordsAt (updates σ') (update :: l)
       = recordsAt (updates σ) (update :: l)
    /\ UpdateQueue.baseState Q' = UpdateQueue.baseState Q
    /\ UpdateQueue.shared Q' = UpdateQueue.shared Q
    /\ fibers σ' = fibers σ /\ sharedQueues σ' = sharedQueues σ.
Proof.
  intros Hf Hfq HQ Halt Hcirc HU Hnotin.
  assert (Hu : update < length (updates σ)) by (eapply lookup_lt_Some; exact HU).
  unfold enqueueCapturedUpdate.
  rewrite (bind_Returned _ _ _ _ _ (load_Some fibers _ f σ Hf)). cbv zeta.
  assert (Hclone :
    (match Fiber.alternate f with
     | Some c => cloneUpdateQueue c workInProgress
     | None => ret tt
     end) σ = Returned tt σ).
  { destruct (Fiber.alternate f) as [c|] eqn:Ha; [|reflexivity].
    destruct (Halt c eq_refl) as (fc & Hfc & Hne).
    unfold cloneUpdateQueue. exec. rewrite Hf. cbn. rewrite Hfc. cbn.
    rewrite Hfq. destruct (decide (Some q = Fiber.updateQueue fc)); [|reflexivity].
    congruence. }
  rewrite (bind_Returned _ _ _ _ _ Hclone).
  rewrite (bind_Returned _ _ _ _ _ (load_Some fibers _ f σ Hf)). cbv zeta.
  rewrite Hfq.
  rewrite (bind_Returned _ _ _ _ _ (load_Some queues q Q σ HQ)). cbv zeta.
  destruct (UpdateQueue.baseQueue Q) as [t|] eqn:Hb.
  - assert (Ht : t < length (updates σ)).
    { eapply circular_lt; [exact Hcirc|]. destruct Hcirc as (_ & Hl & _).
      destruct (last_snoc_inv _ _ Hl) as [l0 ->].
      apply elem_of_app. right. apply list_elem_of_singleton. reflexivity. }
    destruct (lookup_lt_is_Some_2 _ _ Ht) as [T HT].
    destruct (circular_insert _ _ _ _ U T Hcirc HU Hnotin HT)
      as (HT1 & _ & Hc2 & _ & Hfields & Hlen).
    match goal with
    | |- exists σ' Q', ?m σ = _ /\ _ =>
        assert (Hrun : exists σ',
          m σ = Returned tt σ'
          /\ updates σ'
             = <[t := Update.with_next (Some update) T]>
                 (<[update := Update.with_next (Update.next T) U]> (updates σ))
          /\ queues σ' = queues σ /\ fibers σ' = fibers σ
          /\ sharedQueues σ' = sharedQueues σ)
    end.
    { exec. rewrite HT. cbn. rewrite HU. cbn. rewrite HT1. cbn.
      eexists. split; [reflexivity|]. store_proj_goal. auto. }
    destruct Hrun as (σ' & Hrun & Hus & Hqs & Hfs & Hss).
    exists σ', Q. split; [exact Hrun|]. rewrite Hus, Hqs.
    split; [exact HQ|]. split; [exact Hb|]. rewrite Hb.
    split; [exact Hc2|].
    split; [apply recordsAt_frame; intros x _; apply Hfields|]. auto.
  - cbn in Hcirc. subst l.
    match goal with
    | |- exists σ' Q', ?m σ = _ /\ _ =>
        assert (Hrun : exists σ',
          m σ = Returned tt σ'
          /\ updates σ'
             = <[update := Update.with_next (Some update) U]> (updates σ)
          /\ queues σ'
             = <[q := UpdateQueue.with_baseQueue (Some update) Q]> (queues σ)
          /\ fibers σ' = fibers σ
          /\ sharedQueues σ' = sharedQueues σ)
    end.
    { exec. rewrite HU. cbn. rewrite HQ. cbn.
      rewrite list_lookup_insert_eq by exact Hu. cbn.
      eexists. split; [reflexivity|]. store_proj_goal.
      rewrite list_insert_insert_eq. auto. }
    destruct Hrun as (σ' & Hrun & Hus & Hqs & Hfs & Hss).
    exists σ', (UpdateQueue.with_baseQueue (Some update) Q).
    split; [exact Hrun|]. rewrite Hus, Hqs.
    split; [apply list_lookup_insert_eq; eapply lookup_lt_Some; exact HQ|].
    split; [reflexivity|].
    split.
    { split; [apply NoDup_singleton|]. split; [reflexivity|].
      cbn. split; [reflexivity|]. rewrite length_insert.
      split; [exact Hu|]. rewrite nextOf_insert_eq by exact Hu. reflexivity. }
    split.
    { apply recordsAt_frame. intros x _.
      apply lookup_insert_fieldsOf. exact HU. }
    auto.
Qed.

Lemma enqueueCapturedUpdate_first_witness :
  exists σ' Q',
    enqueueCapturedUpdate 0 0 exampleProcessedStore = Returned tt σ'
    /\ queues σ' !! 0 = Some Q'
    /\ UpdateQueue.baseQueue Q' = Some 5
    /\ circular (updates σ') (UpdateQueue.baseQueue Q') (0 :: [3; 4; 5])
    /\ recordsAt (updates σ') (0 :: [3; 4; 5])
       = recordsAt (updates exampleProcessedStore) (0 :: [3; 4; 5])
    /\ UpdateQueue.baseState Q' = VNum 0
    /\ UpdateQueue.shared Q' = 0
    /\ fibers σ' = fibers exampleProcessedStore
    /\ sharedQueues σ' = sharedQueues exampleProcessedStore.
Proof.
  apply (enqueueCapturedUpdate_first 0 0 exampleProcessedStore
           (Fiber.mk (Some 0) None (VObj {[ "a"%string := VNum 1 ]}) 1 32 0)
           0 (UpdateQueue.mk (VNum 0) (Some 5) 0 (Some 0))
           (exampleUpdate 1 10 1) [3; 4; 5]).
  - reflexivity.
  - reflexivity.
  - reflexivity.
  - intros c H. discriminate H.
  - split; [apply (bool_decide_unpack _); reflexivity|].
    split; [reflexivity|]. vm_compute. repeat split; lia.
  - reflexivity.
  - apply (bool_decide_unpack _). reflexivity.
Defined.

Lemma circular_app (us vs : list Update.t) (tail : option loc) (l : list loc) :
  circular us tail l -> circular (us ++ vs) tail l.
Proof.
  destruct tail as [t|]; [|auto]. intros (Hnd & Hl & Hch).
  split; [exact Hnd|]. split; [exact Hl|].
  apply (chain_frame us); [rewrite length_app; lia| |exact Hch].
  intros x Hx. apply nextOf_app_l. eapply chain_lt; eassumption.
Qed.

(** What [enqueueUpdate] writes. *)
Lemma enqueueUpdate_run (dev : bool) (σ : Store) (fiber update : loc)
    (f : Fiber.t) (q : loc) (Q : UpdateQueue.t) (S : SharedQueue.t)
    (U : Update.t) :
  fibers σ !! fiber = Some f ->
  Fiber.updateQueue f = Some q ->
  queues σ !! q = Some Q ->
  sharedQueues σ !! UpdateQueue.shared Q = Some S ->
  updates σ !! update = Some U ->
  (forall t, SharedQueue.pending S = Some t ->
             t <> update /\ t < length (updates σ)) ->
  exists σ',
    enqueueUpdate dev fiber update σ = Returned tt σ'
    /\ updates σ'
       = match SharedQueue.pending S with
         | Some t =>
             match updates σ !! t with
             | Some T =>
                 <[t := Update.with_next (Some update) T]>
                   (<[update := Update.with_next (Update.next T) U]>
                      (updates σ))
             | None => updates σ
             end
         | None => <[update := Update.with_next (Some update) U]> (updates σ)
         end
    /\ sharedQueues σ'
       = <[UpdateQueue.shared Q := SharedQueue.mk (Some update)]>
           (sharedQueues σ)
    /\ fibers σ' = fibers σ /\ queues σ' = queues σ
    /\ arrays σ' = arrays σ.
Proof.
  intros Hf Hfq HQ HS HU Ht. unfold enqueueUpdate.
  rewrite (bind_Returned _ _ _ _ _ (load_Some fibers fiber f σ Hf)).
  rewrite Hfq.
  rewrite (bind_Returned _ _ _ _ _ (load_Some queues q Q σ HQ)). cbv zeta.
  rewrite (bind_Returned _ _ _ _ _ (load_Some sharedQueues _ S σ HS)).
  destruct (SharedQueue.pending S) as [t|] eqn:Hp.
  - destruct (Ht t eq_refl) as [Hne Hlt].
    destruct (lookup_lt_is_Some_2 _ _ Hlt) as [T HT]. rewrite HT.
    exec. rewrite HT. cbn. rewrite HU. cbn.
    rewrite list_lookup_insert_ne by congruence. rewrite HT. cbn.
    rewrite HS. cbn.
    destruct dev; cbn; [destruct (_ && _)|];
      (eexists; split; [reflexivity|]); store_proj_goal; auto.
  - exec. rewrite HU. cbn. rewrite HS. cbn.
    destruct dev; cbn; [destruct (_ && _)|];
      (eexists; split; [reflexivity|]); store_proj_goal; auto.
Qed.

(** X19.  [createUpdate] followed by [enqueueUpdate] on a well-formed
    queue allocates one new update, with the given expiration time and
    suspense configuration, the tag [UpdateState] and neither payload nor
    callback, and puts it last in the pending list; the queue is well formed
    again and the updates it held are unchanged. *)
Theorem createUpdate_enqueueUpdate (dev : bool) (priorityLevel : Z)
    (expirationTime : Z) (suspenseConfig : option SuspenseConfig)
    (fiber : loc) (σ : Store) (lb lp : list loc) :
  wellFormedQueue σ fiber lb lp ->
  let new := length (updates σ) in
  exists σ',
    (let! update := createUpdate dev priorityLevel expirationTime
                                 suspenseConfig in
     enqueueUpdate dev fiber update;; ret update) σ
    = Returned new σ'
    /\ wellFormedQueue σ' fiber lb (lp ++ [new])
    /\ recordsAt (updates σ') (lb ++ lp) = recordsAt (updates σ) (lb ++ lp)
    /\ recordsAt (updates σ') [new]
       = [Update.mk expirationTime suspenseConfig UpdateState
                    (PayloadValue VNull) None None None].
Proof.
  intros Hwf new.
  pose proof (wellFormedQueue_lt σ fiber lb lp Hwf) as Hlt.
  destruct Hwf as (f & q & Q & S & Hf & Hfq & HQ & HS & Hb & Hp & Hnd & Hea
                   & Halt).
  set (U0 := Update.mk expirationTime suspenseConfig UpdateState
                       (PayloadValue VNull) None None None).
  assert (Hcreate : exists σc U,
    createUpdate dev priorityLevel expirationTime suspenseConfig σ
    = Returned new σc
    /\ updates σc = updates σ ++ [U] /\ fieldsOf U = U0
    /\ fibers σc = fibers σ /\ queues σc = queues σ
    /\ sharedQueues σc = sharedQueues σ /\ arrays σc = arrays σ).
  { unfold createUpdate. exec.
    rewrite lookup_app_r, Nat.sub_diag by lia. cbn.
    destruct dev; cbn.
    - rewrite list_lookup_insert_eq by (rewrite length_app; cbn; lia). cbn.
      eexists. eexists. split; [reflexivity|]. store_proj_goal.
      rewrite list_insert_insert_eq.
      split; [rewrite insert_app_r_alt by lia; rewrite Nat.sub_diag;
              reflexivity|].
      cbn. auto 10.
    - eexists. eexists. split; [reflexivity|]. store_proj_goal.
      split; [rewrite insert_app_r_alt by lia; rewrite Nat.sub_diag;
              reflexivity|].
      cbn. auto 10. }
  destruct Hcreate as (σc & U & Hcreate & Husc & HU0 & Hfc & Hqc & Hsc & Hac).
  rewrite (bind_Returned _ _ _ _ _ Hcreate).
  assert (HUc : updates σc !! new = Some U)
    by (rewrite Husc; subst new; rewrite lookup_app_r, Nat.sub_diag by lia;
        reflexivity).
  assert (Hnew : new ∉ lb ++ lp)
    by (intros H; specialize (Hlt new H); subst new; lia).
  assert (Hbc : circular (updates σc) (UpdateQueue.baseQueue Q) lb)
    by (rewrite Husc; apply circular_app; exact Hb).
  assert (Hpc : circular (updates σc) (SharedQueue.pending S) lp)
    by (rewrite Husc; apply circular_app; exact Hp).
  destruct (enqueueUpdate_run dev σc fiber new f q Q S U)
    as (σ' & Hrun & Hus & Hss & Hfs & Hqs & Has).
  { rewrite Hfc. exact Hf. } { exact Hfq. } { rewrite Hqc. exact HQ. }
  { rewrite Hsc. exact HS. } { exact HUc. }
  { intros t Ht. rewrite Ht in Hpc.
    assert (Hin : t ∈ lp).
    { destruct Hpc as (_ & Hl & _). destruct (last_snoc_inv _ _ Hl) as [l0 ->].
      apply elem_of_app. right. apply list_elem_of_singleton. reflexivity. }
    split.
    - intros ->. apply Hnew. apply elem_of_app. right. exact Hin.
    - eapply circular_lt; [exact Hpc|exact Hin]. }
  rewrite (bind_Returned _ _ _ _ _ Hrun).
  exists σ'. split; [reflexivity|].
  assert (Hmain :
    circular (updates σ') (Some new) (lp ++ [new])
    /\ (forall x, x ∈ lb -> nextOf (updates σ') x = nextOf (updates σc) x)
    /\ (forall x, fieldsOf <$> updates σ' !! x = fieldsOf <$> updates σc !! x)
    /\ length (updates σ') = length (updates σc)).
  { rewrite Hus. destruct (SharedQueue.pending S) as [t|] eqn:Hpend.
    - assert (Hin : t ∈ lp).
      { destruct Hpc as (_ & Hl & _). destruct (last_snoc_inv _ _ Hl) as [l0 ->].
        apply elem_of_app. right. apply list_elem_of_singleton. reflexivity. }
      assert (Htlt : t < length (updates σc))
        by (eapply circular_lt; [exact Hpc|exact Hin]).
      destruct (lookup_lt_is_Some_2 _ _ Htlt) as [T HT]. rewrite HT.
      destruct (circular_insert _ _ _ _ U T Hpc HUc) as (_ & Hc1 & _ & Hoth & Hfd & Hl);
        [intros H; apply Hnew; apply elem_of_app; right; exact H | exact HT |].
      split; [exact Hc1|]. split; [|split; [exact Hfd|exact Hl]].
      intros x Hx. unfold nextOf. rewrite Hoth; [reflexivity| |].
      + intros ->. apply NoDup_app in Hnd as (_ & Hd & _). apply (Hd t Hx Hin).
      + intros ->. apply Hnew. apply elem_of_app. left. exact Hx.
    - cbn in Hpc. subst lp.
      assert (Hlt' : new < length (updates σc))
        by (eapply lookup_lt_Some; exact HUc).
      split.
      { split; [apply NoDup_singleton|]. split; [reflexivity|].
        cbn. split; [reflexivity|]. rewrite length_insert.
        split; [exact Hlt'|]. rewrite nextOf_insert_eq by exact Hlt'. reflexivity. }
      split.
      { intros x Hx. apply nextOf_insert_ne. intros <-. apply Hnew.
        apply elem_of_app. left. exact Hx. }
      split; [intros x; apply lookup_insert_fieldsOf; exact HUc|].
      apply length_insert. }
  destruct Hmain as (Hc' & Hnb & Hfd & Hlen).
  split; [|split].
  - exists f, q, Q, (SharedQueue.mk (Some new)).
    split; [rewrite Hfs, Hfc; exact Hf|]. split; [exact Hfq|].
    split; [rewrite Hqs, Hqc; exact HQ|].
    split.
    { rewrite Hss, Hsc. apply list_lookup_insert_eq.
      eapply lookup_lt_Some; exact HS. }
    split.
    { destruct (UpdateQueue.baseQueue Q) as [tb|]; [|exact Hbc].
      destruct Hbc as (H1 & H2 & H3). split; [exact H1|]. split; [exact H2|].
      apply (chain_frame (updates σc)); [lia| |exact H3].
      exact Hnb. }
    split; [exact Hc'|].
    split.
    { rewrite (assoc_L app). apply NoDup_app. split; [exact Hnd|].
      split; [|apply NoDup_singleton].
      intros x Hx Hx'. apply list_elem_of_singleton in Hx' as ->.
      contradiction. }
    split; [rewrite Has, Hac; exact Hea|].
    intros c Hc. destruct (Halt c Hc) as (fc & H1 & H2).
    exists fc. rewrite Hfs, Hfc, Hqs, Hqc. split; assumption.
  - etransitivity; [apply recordsAt_frame; intros x _; apply Hfd|].
    apply recordsAt_frame. intros x Hx. rewrite Husc.
    rewrite lookup_app_l by (apply Hlt; exact Hx). reflexivity.
  - unfold recordsAt. cbn. rewrite Hfd, HUc. cbn. rewrite HU0. reflexivity.
Qed.

Lemma createUpdate_enqueueUpdate_witness :
  exists σ',
    (let! update := createUpdate false 97 3 None in
     enqueueUpdate false 0 update;; ret update) exampleStore
    = Returned 2 σ'
    /\ wellFormedQueue σ' 0 [] ([0; 1] ++ [2])
    /\ recordsAt (updates σ') ([] ++ [0; 1])
       = recordsAt (updates exampleStore) ([] ++ [0; 1])
    /\ recordsAt (updates σ') [2]
       = [Update.mk 3 None UpdateState (PayloadValue VNull) None None None].
Proof.
  apply (createUpdate_enqueueUpdate false 97 3 None 0 exampleStore [] [0; 1]).
  exact exampleStore_wellFormed.
Defined.

(** *** What a pass records: the flag and the effects

    The runs of [processUpdateQueue] are followed step by step for the flag
    [hasForceUpdate], the [effects] array of the queue and the fields of the
    updates. *)

Ltac store_proj :=
  cbn [fibers queues sharedQueues updates arrays hasForceUpdate
       didWarnUpdateInsideUpdate currentlyProcessingQueue consoleErrors
       workLoopCalls invocations
       map_fibers map_queues map_sharedQueues map_updates map_arrays
       set_hasForceUpdate set_didWarnUpdateInsideUpdate
       set_currentlyProcessingQueue set_consoleErrors map_workLoopCalls
       map_invocations] in *.

Lemma fieldsKept_refl (σ : Store) : fieldsKept σ σ.
Proof. exists []. symmetry. apply app_nil_r. Qed.

Lemma fieldsKept_trans (σ1 σ2 σ3 : Store) :
  fieldsKept σ1 σ2 -> fieldsKept σ2 σ3 -> fieldsKept σ1 σ3.
Proof.
  intros [m1 H1] [m2 H2]. exists (m1 ++ m2).
  rewrite H2, H1, (assoc_L app). reflexivity.
Qed.

Lemma fieldsKept_same (σ σ' : Store) :
  updates σ' = updates σ -> fieldsKept σ σ'.
Proof. intros H. exists []. rewrite H, app_nil_r. reflexivity. Qed.

Lemma fieldsKept_alloc (σ σ' : Store) (c : Update.t) :
  updates σ' = updates σ ++ [c] -> fieldsKept σ σ'.
Proof. intros H. exists [fieldsOf c]. rewrite H, fmap_app. reflexivity. Qed.

Lemma fieldsKept_with_next (σ σ' : Store) (t : loc) (n : option loc)
    (ut : Update.t) :
  updates σ !! t = Some ut ->
  updates σ' = <[t := Update.with_next n ut]> (updates σ) ->
  fieldsKept σ σ'.
Proof.
  intros Ht H. exists []. rewrite H, app_nil_r, list_fmap_insert.
  apply list_insert_id. rewrite list_lookup_fmap, Ht. reflexivity.
Qed.

Lemma fieldsKept_lookup (σ σ' : Store) (x : loc) :
  fieldsKept σ σ' -> x < length (updates σ) ->
  fieldsOf <$> updates σ' !! x = fieldsOf <$> updates σ !! x.
Proof.
  intros [more H] Hx. rewrite <- !list_lookup_fmap, H.
  apply lookup_app_l. rewrite length_fmap. exact Hx.
Qed.

Lemma fieldsKept_length (σ σ' : Store) :
  fieldsKept σ σ' -> length (updates σ) <= length (updates σ').
Proof.
  intros [more H]. apply (f_equal length) in H.
  rewrite length_app, !length_fmap in H. lia.
Qed.

Section Observed.
Variables workInProgress q : loc.
Variables props instance : value.
Variable r : Z.

Lemma skipUpdate_observed (u : Update.t) (v v' : Locals) (σ σ' : Store) :
  skipUpdate u v σ = Returned v' σ' ->
  hasForceUpdate σ' = hasForceUpdate σ
  /\ fibers σ' = fibers σ /\ queues σ' = queues σ /\ arrays σ' = arrays σ
  /\ fieldsKept σ σ'.
Proof.
  unfold skipUpdate, linkClone. exec. intros H. store_proj.
  destruct (newBaseQueueLast v) as [t|].
  - match type of H with
    | context [match ?l !! t with _ => _ end] =>
        destruct (l !! t) as [ut|] eqn:Ht
    end; cbn in H; [|discriminate H].
    assert (Hk : forall σ2,
      updates σ2 = <[t := Update.with_next (Some (length (updates σ))) ut]>
                     (updates σ ++ [cloneOf (Update.expirationTime u) u]) ->
      fieldsKept σ σ2).
    { intros σ2 H2.
      apply (fieldsKept_trans σ
               (map_updates (fun us => us ++ [cloneOf (Update.expirationTime u) u]) σ)).
      - eapply fieldsKept_alloc. reflexivity.
      - eapply fieldsKept_with_next; [exact Ht|exact H2]. }
    destruct (_ >? _)%Z; injection H as <- <-; store_proj;
      (repeat split; try reflexivity); apply Hk; reflexivity.
  - cbn in H.
    destruct (_ >? _)%Z; injection H as <- <-; store_proj;
      (repeat split; try reflexivity); eapply fieldsKept_alloc; reflexivity.
Qed.

Lemma bind_Returned_inv {A B : Type} (m : M A) (k : A -> M B) (σ σ' : Store)
    (b : B) :
  bind m k σ = Returned b σ' ->
  exists a σ1, m σ = Returned a σ1 /\ k a σ1 = Returned b σ'.
Proof.
  unfold bind. destruct (m σ) as [a σ1|e σ1|]; [eauto|discriminate..].
Qed.

Lemma cloneApplied_observed (u : Update.t) (v va : Locals) (σ σa : Store) :
  (match newBaseQueueLast v with
   | Some _ =>
       let! clone := allocUpdate (cloneOf Sync u) in
       linkClone clone v
   | None => ret v
   end) σ = Returned va σa ->
  hasForceUpdate σa = hasForceUpdate σ
  /\ fibers σa = fibers σ /\ queues σa = queues σ /\ arrays σa = arrays σ
  /\ fieldsKept σ σa
  /\ update va = update v /\ newState va = newState v.
Proof.
  destruct (newBaseQueueLast v) as [t|] eqn:Hl.
  - unfold linkClone. exec. rewrite Hl. intros H. store_proj.
    match type of H with
    | context [match ?l !! t with _ => _ end] =>
        destruct (l !! t) as [ut|] eqn:Ht
    end; cbn in H; [|discriminate H].
    injection H as <- <-. store_proj.
    repeat split; try reflexivity.
    apply (fieldsKept_trans σ
             (map_updates (fun us => us ++ [cloneOf Sync u]) σ)).
    + eapply fieldsKept_alloc. reflexivity.
    + eapply fieldsKept_with_next; [exact Ht|reflexivity].
  - intros [= <- <-]. repeat split; try reflexivity. apply fieldsKept_refl.
Qed.

Lemma getStateFromUpdate_observed (queue : option loc) (u : Update.t)
    (s s' : value) (σ σ' : Store) :
  getStateFromUpdate workInProgress queue u s props instance σ
  = Returned s' σ' ->
  hasForceUpdate σ' = hasForceUpdate σ || isForceUpdate u
  /\ queues σ' = queues σ /\ arrays σ' = arrays σ
  /\ updates σ' = updates σ.
Proof.
  unfold getStateFromUpdate, isForceUpdate.
  destruct (Update.tag u); exec; intros H.
  - injection H as <- <-. rewrite orb_false_r. auto.
  - injection H as <- <-. rewrite orb_false_r. auto.
  - injection H as <- <-. store_proj. rewrite orb_true_r. auto.
  - destruct (fibers σ !! workInProgress); cbn in H; [|discriminate H].
    injection H as <- <-. store_proj. rewrite orb_false_r. auto.
Qed.

Lemma pushEffect_observed (x : loc) (σ σ' : Store) :
  pushEffect workInProgress (Some q) (Some x) σ = Returned tt σ' ->
  effectsOf σ' q = effectsOf σ q ++ [x]
  /\ hasForceUpdate σ' = hasForceUpdate σ
  /\ updates σ' = updates σ.
Proof.
  unfold pushEffect. exec. intros H.
  destruct (fibers σ !! workInProgress) as [f|]; cbn in H; [|discriminate H].
  destruct (queues σ !! q) as [Q|] eqn:HQ; cbn in H; [|discriminate H].
  unfold effectsOf. rewrite HQ.
  destruct (UpdateQueue.effects Q) as [a|] eqn:He; cbn in H.
  - destruct (arrays σ !! a) as [es|] eqn:Ha; cbn in H; [|discriminate H].
    injection H as <-. store_proj. rewrite HQ, He.
    rewrite list_lookup_insert_eq by (eapply lookup_lt_Some; exact Ha).
    auto.
  - rewrite HQ in H. cbn in H. injection H as <-. store_proj.
    rewrite list_lookup_insert_eq by (eapply lookup_lt_Some; exact HQ).
    cbn. rewrite lookup_app_r, Nat.sub_diag by lia. auto.
Qed.

Lemma applyUpdate_observed (u : Update.t) (v v' : Locals) (σ σ' : Store)
    (x : loc) :
  applyUpdate workInProgress (Some q) props instance u v σ = Returned v' σ' ->
  update v = Some x ->
  hasForceUpdate σ' = hasForceUpdate σ || isForceUpdate u
  /\ effectsOf σ' q = effectsOf σ q ++ (if hasCallback u then [x] else [])
  /\ fieldsKept σ σ'.
Proof.
  unfold applyUpdate. intros H Hx.
  apply bind_Returned_inv in H as (va & σa & Hclone & H).
  apply cloneApplied_observed in Hclone
    as (Hfa & _ & Hqa & Haa & Hka & Hua & _).
  apply bind_Returned_inv in H as ([] & σb & Hmark & H).
  injection Hmark as <-.
  apply bind_Returned_inv in H as (s & σc & Hget & H).
  apply getStateFromUpdate_observed in Hget as (Hfc & Hqc & Hac & Huc).
  store_proj.
  assert (Hkc : fieldsKept σ σc).
  { eapply fieldsKept_trans; [exact Hka|]. apply fieldsKept_same. exact Huc. }
  assert (Hec : effectsOf σc q = effectsOf σ q)
    by (unfold effectsOf; rewrite Hqc, Hac, Hqa, Haa; reflexivity).
  cbv zeta in H. unfold hasCallback.
  destruct (Update.callback u) as [c|].
  - apply bind_Returned_inv in H as ([] & σd & Hpush & H).
    injection H as <- <-. cbn [update with_newState] in Hpush.
    rewrite Hua, Hx in Hpush.
    apply pushEffect_observed in Hpush as (Hed & Hfd & Hud).
    split; [congruence|]. split; [congruence|].
    eapply fieldsKept_trans; [exact Hkc|]. apply fieldsKept_same. exact Hud.
  - injection H as <- <-. rewrite app_nil_r.
    split; [congruence|]. split; [exact Hec|exact Hkc].
Qed.

End Observed.
Section ObservedSteps.
Variable q : loc.

Lemma sameObserved_refl (σ : Store) : sameObserved q σ σ.
Proof. split; [reflexivity|]. split; [reflexivity|apply fieldsKept_refl]. Qed.

Lemma sameObserved_trans (σ1 σ2 σ3 : Store) :
  sameObserved q σ1 σ2 -> sameObserved q σ2 σ3 -> sameObserved q σ1 σ3.
Proof.
  intros (H1 & H2 & H3) (G1 & G2 & G3).
  split; [congruence|]. split; [congruence|].
  eapply fieldsKept_trans; eassumption.
Qed.

Lemma load_observed {A : Type} (get : Store -> list A) (p : option loc)
    (a : A) (σ σ' : Store) :
  load get p σ = Returned a σ' ->
  σ' = σ /\ exists l, p = Some l /\ get σ !! l = Some a.
Proof.
  unfold load. destruct p as [l|]; [|discriminate].
  destruct (get σ !! l) eqn:E; [|discriminate].
  intros [= <- <-]. eauto.
Qed.

Lemma mutateUpdate_observed (p : option loc) (n : option loc)
    (σ σ' : Store) :
  mutateUpdate p (Update.with_next n) σ = Returned tt σ' ->
  sameObserved q σ σ'.
Proof.
  unfold mutateUpdate, mutate. destruct p as [l|]; [|discriminate].
  destruct (updates σ !! l) as [u|] eqn:E; [|discriminate].
  intros [= <-]. split; [reflexivity|]. split; [reflexivity|].
  eapply fieldsKept_with_next; [exact E|reflexivity].
Qed.

Lemma mutateShared_observed (p : option loc)
    (g : SharedQueue.t -> SharedQueue.t) (σ σ' : Store) :
  mutateShared p g σ = Returned tt σ' -> sameObserved q σ σ'.
Proof.
  unfold mutateShared, mutate. destruct p as [l|]; [|discriminate].
  destruct (sharedQueues σ !! l) as [u|] eqn:E; [|discriminate].
  intros [= <-]. split; [reflexivity|]. split; [reflexivity|].
  apply fieldsKept_same. reflexivity.
Qed.

Lemma mutateFiber_observed (p : option loc) (g : Fiber.t -> Fiber.t)
    (σ σ' : Store) :
  mutateFiber p g σ = Returned tt σ' -> sameObserved q σ σ'.
Proof.
  unfold mutateFiber, mutate. destruct p as [l|]; [|discriminate].
  destruct (fibers σ !! l) as [u|] eqn:E; [|discriminate].
  intros [= <-]. split; [reflexivity|]. split; [reflexivity|].
  apply fieldsKept_same. reflexivity.
Qed.

Lemma mutateQueue_observed (p : option loc)
    (g : UpdateQueue.t -> UpdateQueue.t) (σ σ' : Store) :
  (forall Q, UpdateQueue.effects (g Q) = UpdateQueue.effects Q) ->
  mutateQueue p g σ = Returned tt σ' -> sameObserved q σ σ'.
Proof.
  intros Hg. unfold mutateQueue, mutate. destruct p as [l|]; [|discriminate].
  destruct (queues σ !! l) as [Q|] eqn:E; [|discriminate].
  intros [= <-]. split; [reflexivity|].
  split; [|apply fieldsKept_same; reflexivity].
  unfold effectsOf. store_proj.
  destruct (decide (l = q)) as [->|Hne].
  - rewrite list_lookup_insert_eq by (eapply lookup_lt_Some; exact E).
    rewrite E, Hg. reflexivity.
  - rewrite list_lookup_insert_ne by exact Hne. reflexivity.
Qed.

Lemma mergePendingQueue_observed (wip : Fiber.t) (queue : option loc)
    (x : option loc * option loc) (σ σ' : Store) :
  mergePendingQueue wip queue σ = Returned x σ' -> sameObserved q σ σ'.
Proof.
  unfold mergePendingQueue. intros H.
  apply bind_Returned_inv in H as (Q & σ1 & H1 & H).
  apply load_observed in H1 as [-> _]. cbv zeta in H.
  apply bind_Returned_inv in H as (S & σ1 & H1 & H).
  apply load_observed in H1 as [-> _]. cbv zeta in H.
  destruct (SharedQueue.pending S) as [tp|];
    [|injection H as _ <-; apply sameObserved_refl].
  apply bind_Returned_inv in H as ([] & σ1 & H1 & H).
  assert (Hm1 : sameObserved q σ σ1).
  { destruct (UpdateQueue.baseQueue Q) as [tb|];
      [|injection H1 as <-; apply sameObserved_refl].
    apply bind_Returned_inv in H1 as (b & σa & Ha & H1).
    apply load_observed in Ha as [-> _]. cbv zeta in H1.
    apply bind_Returned_inv in H1 as (p & σa & Ha & H1).
    apply load_observed in Ha as [-> _]. cbv zeta in H1.
    apply bind_Returned_inv in H1 as ([] & σa & Ha & H1).
    eapply sameObserved_trans; eapply mutateUpdate_observed; eassumption. }
  apply bind_Returned_inv in H as ([] & σ2 & H2 & H).
  apply mutateShared_observed in H2.
  cbv zeta in H.
  apply bind_Returned_inv in H as ([] & σ3 & H3 & H).
  injection H as _ <-.
  eapply sameObserved_trans; [exact Hm1|].
  eapply sameObserved_trans; [exact H2|].
  destruct (Fiber.alternate wip) as [c|];
    [|injection H3 as <-; apply sameObserved_refl].
  apply bind_Returned_inv in H3 as (fc & σa & Ha & H3).
  apply load_observed in Ha as [-> _]. cbv zeta in H3.
  destruct (Fiber.updateQueue fc) as [qc|];
    [|injection H3 as <-; apply sameObserved_refl].
  eapply mutateQueue_observed; [|exact H3]. reflexivity.
Qed.

End ObservedSteps.

Section ObservedLoop.
Variables workInProgress q : loc.
Variables props instance : value.
Variable r : Z.
Variable σ1 : Store.
Variable first : loc.
Variable f1 : Fiber.t.
Variable Q1 : UpdateQueue.t.
Hypothesis Hf1 : fibers σ1 !! workInProgress = Some f1.
Hypothesis HQ1 : queues σ1 !! q = Some Q1.
Hypothesis HS1 :
  sharedQueues σ1 !! UpdateQueue.shared Q1 = Some (SharedQueue.mk None).

Lemma processLoop_observed (rest : list loc) :
  forall (x : loc) (v : Locals) (σ : Store) (a : Pass) (fuel : nat)
         (v' : Locals) (σ' : Store),
    loopInvariant σ1 q σ v a ->
    update v = Some x ->
    chain (updates σ1) (Some x) (x :: rest) (Some first) ->
    first ∉ rest ->
    processLoop workInProgress (Some q) props instance r (Some first)
                fuel v σ
    = Returned v' σ' ->
    hasForceUpdate σ'
    = hasForceUpdate σ || existsb (appliedForceUpdate r σ1) (x :: rest)
    /\ effectsOf σ' q
       = effectsOf σ q ++ List.filter (appliedWithCallback r σ1) (x :: rest)
    /\ fieldsKept σ σ'.
Proof.
  induction rest as [|y rest IH];
    intros x v σ a fuel v' σ' Hinv Hx Hch Hnotin Hrun.
  all: destruct fuel as [|fuel]; [discriminate Hrun|].
  all: destruct Hch as (_ & Hxlt & Hch).
  all: destruct (lookup_lt_is_Some_2 _ _ Hxlt) as [u Hu1].
  all: assert (Hu : updates σ !! x = Some u)
         by (destruct Hinv as ((Hold & _) & _); rewrite Hold by assumption;
             exact Hu1).
  all: assert (Hbody : exists vb σb,
         (if (Update.expirationTime u <? r)%Z
          then skipUpdate u v
          else applyUpdate workInProgress (Some q) props instance u v) σ
         = Returned vb σb
         /\ loopInvariant σ1 q σb vb (passStep r props instance a u)
         /\ update vb = update v /\ baseQueue vb = baseQueue v)
         by (destruct (Update.expirationTime u <? r)%Z eqn:E;
             [apply skipUpdate_spec; assumption
             |eapply applyUpdate_spec; eassumption]).
  all: destruct Hbody as (vb & σb & Hbody & Hinv' & Hupd & _).
  all: assert (Hobs :
         hasForceUpdate σb
         = hasForceUpdate σ || appliedForceUpdate r σ1 x
         /\ effectsOf σb q
            = effectsOf σ q
              ++ (if appliedWithCallback r σ1 x then [x] else [])
         /\ fieldsKept σ σb)
         by (unfold appliedForceUpdate, appliedWithCallback; rewrite Hu1;
            unfold isSkipped;
            destruct (Update.expirationTime u <? r)%Z eqn:E; cbn [negb andb];
            [apply skipUpdate_observed in Hbody
               as (H1 & _ & H3 & H4 & H5);
             rewrite orb_false_r, app_nil_r;
             split; [exact H1|]; split; [|exact H5];
             unfold effectsOf; rewrite H3, H4; reflexivity
            |exact (applyUpdate_observed _ _ _ _ u v vb σ σb x Hbody Hx)]).
  all: destruct Hobs as (Hof & Hoe & Hok).
  all: cbn [processLoop] in Hrun; unfold loadUpdate at 1 in Hrun;
       rewrite Hx in Hrun;
       rewrite (bind_Returned _ _ _ _ _ (load_Some updates x u σ Hu)) in Hrun;
       rewrite (bind_Returned _ _ _ _ _ Hbody) in Hrun; cbv zeta in Hrun.
  all: cbn [update with_update] in Hrun.
  all: assert (Hnext : Update.next u = nextOf (updates σ1) x)
         by (unfold nextOf; rewrite Hu1; reflexivity).
  all: rewrite Hnext in Hrun.
  - (* the walk is back at the first update *)
    cbn in Hch. rewrite Hch in Hrun.
    rewrite (bool_decide_eq_true_2 (Some first = Some first) eq_refl) in Hrun.
    rewrite orb_true_r in Hrun.
    destruct Hinv' as (Hcl & Hs & He & Hb & Hfl & Hql & Hsh & Hea).
    destruct (queueLinks_lookup σb σ1 q Q1 Hql HQ1) as (Q & HQ & _ & _ & HQs).
    unfold loadQueue at 1 in Hrun.
    rewrite (bind_Returned _ _ _ _ _ (load_Some queues q Q σb HQ)) in Hrun.
    unfold loadShared at 1 in Hrun.
    assert (HS : sharedQueues σb !! UpdateQueue.shared Q
                 = Some (SharedQueue.mk None))
      by (rewrite Hsh, HQs; exact HS1).
    rewrite (bind_Returned _ _ _ _ _ (load_Some sharedQueues _ _ σb HS)) in Hrun.
    cbn in Hrun. injection Hrun as <- <-.
    cbn [existsb List.filter]. rewrite orb_false_r.
    split; [exact Hof|]. split; [|exact Hok].
    rewrite Hoe. destruct (appliedWithCallback r σ1 x); reflexivity.
  - (* the walk goes on with the next update *)
    destruct Hch as (Hy & Hylt & Hch).
    rewrite Hy in Hrun.
    rewrite (bool_decide_eq_false_2 (Some y = None)) in Hrun by discriminate.
    rewrite (bool_decide_eq_false_2 (Some y = Some first)) in Hrun.
    2: { intros [= ->]. apply Hnotin. left. }
    cbn [orb] in Hrun.
    destruct (IH y (with_update (Some y) vb) σb
                (passStep r props instance a u) fuel v' σ')
      as (Hrf & Hre & Hrk).
    + eapply loopInvariant_locals; [| | | | |exact Hinv']; reflexivity.
    + reflexivity.
    + split; [reflexivity|]. split; assumption.
    + intros H. apply Hnotin. right. exact H.
    + exact Hrun.
    + split; [|split].
      * rewrite Hrf, Hof. cbn [existsb]. symmetry. apply orb_assoc.
      * rewrite Hre, Hoe. cbn [List.filter].
        destruct (appliedWithCallback r σ1 x);
          [rewrite <- (assoc_L app)|rewrite app_nil_r]; reflexivity.
      * eapply fieldsKept_trans; eassumption.
Qed.

End ObservedLoop.
Section ObservedPass.
Variable dev : bool.
Variables workInProgress q : loc.
Variables props instance : value.
Variable r : Z.

Lemma processBaseQueue_observed (fuel : nat) (σ1 : Store) (f1 : Fiber.t)
    (Q1 : UpdateQueue.t) (t : loc) (pq : option loc) (l : list loc)
    (σ' : Store) :
  fibers σ1 !! workInProgress = Some f1 ->
  queues σ1 !! q = Some Q1 ->
  sharedQueues σ1 !! UpdateQueue.shared Q1 = Some (SharedQueue.mk None) ->
  effectsAllocated σ1 q ->
  circular (updates σ1) (Some t) l ->
  processBaseQueue fuel workInProgress (Some q) props instance r
                   (Some t) pq σ1 = Returned tt σ' ->
  hasForceUpdate σ'
  = hasForceUpdate σ1 || existsb (appliedForceUpdate r σ1) l
  /\ effectsOf σ' q
     = effectsOf σ1 q ++ List.filter (appliedWithCallback r σ1) l
  /\ fieldsKept σ1 σ'.
Proof.
  intros Hf1 HQ1 HS1 Hea (Hnd & Hlast & Hch) Hrun.
  destruct l as [|h rest]; [discriminate|]. cbn [head] in Hch.
  assert (Ht : t < length (updates σ1)).
  { eapply chain_lt; [exact Hch|]. destruct (last_snoc_inv _ _ Hlast) as [l0 ->].
    apply elem_of_app. right. apply list_elem_of_singleton. reflexivity. }
  destruct (lookup_lt_is_Some_2 _ _ Ht) as [b Hb].
  assert (Hnb : Update.next b = Some h).
  { destruct (last_snoc_inv _ _ Hlast) as [l0 Hl0]. rewrite Hl0 in Hch.
    apply chain_snoc_inv in Hch as (_ & _ & Hn).
    unfold nextOf in Hn. rewrite Hb in Hn. exact Hn. }
  unfold processBaseQueue in Hrun.
  unfold loadUpdate at 1 in Hrun.
  rewrite (bind_Returned _ _ _ _ _ (load_Some updates t b σ1 Hb)) in Hrun.
  unfold loadQueue at 1 in Hrun.
  rewrite (bind_Returned _ _ _ _ _ (load_Some queues q Q1 σ1 HQ1)) in Hrun.
  cbv zeta in Hrun. rewrite Hnb in Hrun.
  apply bind_Returned_inv in Hrun as (vL & σL & Hloop & Hrun).
  destruct (processLoop_observed workInProgress q props instance r σ1 h f1 Q1
              Hf1 HQ1 HS1 rest h
              (mkLocals (Some h) (UpdateQueue.baseState Q1) NoWork VNull None
                        None (Some t) pq) σ1
              (mkPass (UpdateQueue.baseState Q1) VNull [] NoWork) fuel vL σL)
    as (Hlf & Hle & Hlk).
  { apply loopInvariant_start; auto. }
  { reflexivity. }
  { exact Hch. }
  { apply NoDup_cons in Hnd as [Hnotin _]. exact Hnotin. }
  { exact Hloop. }
  assert (Hpost : sameObserved q σL σ').
  { apply bind_Returned_inv in Hrun as (v'' & σa & Hclose & Hrun).
    assert (Ha : sameObserved q σL σa).
    { destruct (newBaseQueueLast vL) as [t'|].
      - apply bind_Returned_inv in Hclose as ([] & σx & Hm & Hclose).
        injection Hclose as _ <-.
        eapply mutateUpdate_observed. exact Hm.
      - injection Hclose as _ <-. apply sameObserved_refl. }
    apply bind_Returned_inv in Hrun as ([] & σb & Hm1 & Hrun).
    apply mutateQueue_observed with (q := q) in Hm1; [|reflexivity].
    apply bind_Returned_inv in Hrun as ([] & σc & Hm2 & Hrun).
    apply mutateQueue_observed with (q := q) in Hm2; [|reflexivity].
    apply bind_Returned_inv in Hrun as ([] & σd & Hm3 & Hrun).
    injection Hm3 as <-.
    apply bind_Returned_inv in Hrun as ([] & σe & Hm4 & Hrun).
    apply mutateFiber_observed with (q := q) in Hm4.
    apply mutateFiber_observed with (q := q) in Hrun.
    eapply sameObserved_trans; [exact Ha|].
    eapply sameObserved_trans; [exact Hm1|].
    eapply sameObserved_trans; [exact Hm2|].
    eapply sameObserved_trans; [|exact Hrun].
    eapply sameObserved_trans; [|exact Hm4].
    split; [reflexivity|]. split; [reflexivity|].
    apply fieldsKept_same. reflexivity. }
  destruct Hpost as (Hpf & Hpe & Hpk).
  split; [congruence|]. split; [congruence|].
  eapply fieldsKept_trans; eassumption.
Qed.

Lemma applied_same (σ σ' : Store) (x : loc) :
  fieldsOf <$> updates σ' !! x = fieldsOf <$> updates σ !! x ->
  appliedForceUpdate r σ' x = appliedForceUpdate r σ x
  /\ appliedWithCallback r σ' x = appliedWithCallback r σ x.
Proof.
  unfold appliedForceUpdate, appliedWithCallback, isSkipped, hasCallback,
    isForceUpdate.
  destruct (updates σ' !! x) as [u'|], (updates σ !! x) as [u|]; cbn;
    intros H; try discriminate H; [|auto].
  unfold fieldsOf, cloneOf in H. injection H as H1 _ H3 _ H5.
  rewrite H1, H3, H5. auto.
Qed.

Lemma existsb_filter_same {A : Type} (f g : A -> bool) (l : list A) :
  (forall x, x ∈ l -> f x = g x) ->
  existsb f l = existsb g l /\ List.filter f l = List.filter g l.
Proof.
  induction l as [|x l IH]; intros H; [auto|]. cbn.
  rewrite (H x) by left.
  destruct IH as [-> ->]; [intros y Hy; apply H; right; exact Hy|]. auto.
Qed.

Lemma processUpdateQueue_observed (fuel : nat) (σ σ' : Store)
    (lb lp : list loc) (f : Fiber.t) :
  wellFormedQueue σ workInProgress lb lp ->
  fibers σ !! workInProgress = Some f ->
  Fiber.updateQueue f = Some q ->
  processUpdateQueue dev fuel workInProgress props instance r σ
  = Returned tt σ' ->
  hasForceUpdate σ' = existsb (appliedForceUpdate r σ) (lb ++ lp)
  /\ effectsOf σ' q
     = effectsOf σ q ++ List.filter (appliedWithCallback r σ) (lb ++ lp)
  /\ fieldsKept σ σ'.
Proof.
  intros Hwf Hf Hfq Hrun.
  pose proof (wellFormedQueue_lt σ workInProgress lb lp Hwf) as Hlt.
  destruct Hwf as (f' & q' & Q & S & Hf' & Hfq' & HQ & HS & Hb & Hp & Hnd
                   & Hea & Halt).
  rewrite Hf in Hf'. injection Hf' as <-. rewrite Hfq in Hfq'.
  injection Hfq' as <-.
  unfold processUpdateQueue in Hrun.
  unfold loadFiber at 1 in Hrun.
  rewrite (bind_Returned _ _ _ _ _ (load_Some fibers _ f σ Hf)) in Hrun.
  cbv zeta in Hrun. rewrite Hfq in Hrun.
  rewrite (bind_Returned (modify (set_hasForceUpdate false)) _ σ
             (set_hasForceUpdate false σ) tt eq_refl) in Hrun.
  apply bind_Returned_inv in Hrun as ([] & σ0 & Hdev & Hrun).
  assert (H0 : hasForceUpdate σ0 = false
               /\ fibers σ0 = fibers σ /\ queues σ0 = queues σ
               /\ sharedQueues σ0 = sharedQueues σ
               /\ updates σ0 = updates σ /\ arrays σ0 = arrays σ).
  { destruct dev.
    - apply bind_Returned_inv in Hdev as (Q0 & σx & Hl & Hdev).
      apply load_observed in Hl as [-> _]. injection Hdev as <-. auto 10.
    - injection Hdev as <-. auto 10. }
  destruct H0 as (Hf0 & Hfs0 & Hqs0 & Hss0 & Hus0 & Has0).
  apply bind_Returned_inv in Hrun as ([bq pq] & σ1 & Hmerge & Hrun).
  pose proof (mergePendingQueue_observed q _ _ _ _ _ Hmerge) as (Hmf & Hme & Hmk).
  destruct (mergePendingQueue_spec σ0 f q Q S lb lp)
    as (σ1' & bq' & pq' & Q1 & Hmerge' & Hc1 & _ & _ & Hfs1 & Has1 & _ & HQ1
        & _ & Hsh1 & He1 & HS1).
  { rewrite Hqs0. exact HQ. } { rewrite Hss0. exact HS. }
  { rewrite Hus0. exact Hb. } { rewrite Hus0. exact Hp. } { exact Hnd. }
  { intros c Hc. destruct (Halt c Hc) as (fc & G1 & G2).
    exists fc. rewrite Hfs0, Hqs0. split; assumption. }
  rewrite Hmerge in Hmerge'. injection Hmerge' as <- <- <-.
  apply bind_Returned_inv in Hrun as ([] & σ2 & Hbase & Hrun).
  assert (H2 : sameObserved q σ2 σ').
  { destruct dev; injection Hrun as <-;
      (split; [reflexivity|]; split; [reflexivity|]);
      apply fieldsKept_same; reflexivity. }
  assert (Hk01 : fieldsKept σ σ1).
  { eapply fieldsKept_trans; [|exact Hmk]. apply fieldsKept_same. exact Hus0. }
  assert (Hsame : forall x, x ∈ lb ++ lp ->
            appliedForceUpdate r σ1 x = appliedForceUpdate r σ x
            /\ appliedWithCallback r σ1 x = appliedWithCallback r σ x).
  { intros x Hx. apply applied_same. apply fieldsKept_lookup; [exact Hk01|].
    apply Hlt. exact Hx. }
  destruct (existsb_filter_same (appliedForceUpdate r σ1)
              (appliedForceUpdate r σ) (lb ++ lp)) as [Hex _];
    [intros x Hx; apply Hsame; exact Hx|].
  destruct (existsb_filter_same (appliedWithCallback r σ1)
              (appliedWithCallback r σ) (lb ++ lp)) as [_ Hfi];
    [intros x Hx; apply Hsame; exact Hx|].
  assert (He01 : effectsOf σ1 q = effectsOf σ q).
  { rewrite Hme. unfold effectsOf. rewrite Hqs0, Has0. reflexivity. }
  assert (Hloop :
    hasForceUpdate σ2
    = hasForceUpdate σ1 || existsb (appliedForceUpdate r σ1) (lb ++ lp)
    /\ effectsOf σ2 q
       = effectsOf σ1 q ++ List.filter (appliedWithCallback r σ1) (lb ++ lp)
    /\ fieldsKept σ1 σ2).
  { destruct bq as [t|].
    - eapply (processBaseQueue_observed fuel σ1 f Q1 t pq (lb ++ lp) σ2).
      + rewrite Hfs1, Hfs0. exact Hf.
      + exact HQ1.
      + rewrite Hsh1. exact HS1.
      + intros Q' a HQ' Ha. rewrite HQ1 in HQ'. injection HQ' as <-.
        rewrite He1 in Ha. rewrite Has1, Has0. apply (Hea a Ha).
      + exact Hc1.
      + exact Hbase.
    - cbn in Hc1. rewrite Hc1. cbn in Hbase. injection Hbase as <-.
      cbn. rewrite orb_false_r, app_nil_r.
      split; [reflexivity|]. split; [reflexivity|apply fieldsKept_refl]. }
  destruct Hloop as (Hlf & Hle & Hlk). destruct H2 as (H2f & H2e & H2k).
  split; [|split].
  - rewrite H2f, Hlf, Hmf, Hf0, Hex. reflexivity.
  - rewrite H2e, Hle, He01, Hfi. reflexivity.
  - eapply fieldsKept_trans; [exact Hk01|].
    eapply fieldsKept_trans; eassumption.
Qed.

End ObservedPass.

Lemma callbackAt_fieldsKept (σ σ' : Store) (x : loc) :
  fieldsKept σ σ' -> x < length (updates σ) ->
  callbackAt σ' x = callbackAt σ x.
Proof.
  intros Hk Hx. pose proof (fieldsKept_lookup σ σ' x Hk Hx) as H.
  unfold callbackAt.
  destruct (updates σ' !! x) as [u'|], (updates σ !! x) as [u|]; cbn in H;
    try discriminate H; [|reflexivity].
  unfold fieldsOf, cloneOf in H. injection H as _ _ _ _ H. exact H.
Qed.

Lemma filter_elem_of {A : Type} (f : A -> bool) (l : list A) (x : A) :
  x ∈ List.filter f l -> x ∈ l.
Proof.
  rewrite !list_elem_of_In, filter_In. tauto.
Qed.

Lemma filter_NoDup {A : Type} (f : A -> bool) (l : list A) :
  NoDup l -> NoDup (List.filter f l).
Proof.
  induction 1 as [|x l Hx Hnd IH]; cbn; [constructor|].
  destruct (f x); [|exact IH].
  constructor; [|exact IH]. intros H. apply Hx. eapply filter_elem_of, H.
Qed.

(** *** A pass calls no callback *)

Lemma callsNothing_ret {A : Type} (a : A) : callsNothing (ret a).
Proof. intros σ b σ' [= _ <-]. reflexivity. Qed.

Lemma callsNothing_throw {A : Type} (e : Error) : callsNothing (@throw A e).
Proof. intros σ b σ' H. discriminate H. Qed.

Lemma callsNothing_bind {A B : Type} (m : M A) (k : A -> M B) :
  callsNothing m -> (forall a, callsNothing (k a)) -> callsNothing (bind m k).
Proof.
  intros Hm Hk σ b σ' H. unfold bind in H.
  destruct (m σ) as [a σ1| |] eqn:E; try discriminate H.
  rewrite (Hk a σ1 b σ' H). exact (Hm σ a σ1 E).
Qed.

Lemma callsNothing_modify (f : Store -> Store) :
  (forall σ, invocations (f σ) = invocations σ) -> callsNothing (modify f).
Proof. intros Hf σ b σ' [= _ <-]. apply Hf. Qed.

Lemma callsNothing_load {A : Type} (get : Store -> list A) (p : option loc) :
  callsNothing (load get p).
Proof.
  intros σ a σ' H. unfold load in H.
  destruct p as [l|]; [|discriminate H].
  destruct (get σ !! l); [|discriminate H]. injection H as _ <-. reflexivity.
Qed.

Lemma callsNothing_mutate {A : Type} (get : Store -> list A)
    (map : (list A -> list A) -> Store -> Store) (p : option loc)
    (f : A -> A) :
  (forall g σ, invocations (map g σ) = invocations σ) ->
  callsNothing (mutate get map p f).
Proof.
  intros Hmap σ a σ' H. unfold mutate in H.
  destruct p as [l|]; [|discriminate H].
  destruct (get σ !! l); [|discriminate H]. injection H as H. subst σ'.
  apply Hmap.
Qed.

Lemma callsNothing_alloc {A : Type} (get : Store -> list A)
    (map : (list A -> list A) -> Store -> Store) (x : A) :
  (forall g σ, invocations (map g σ) = invocations σ) ->
  callsNothing (alloc get map x).
Proof. intros Hmap σ a σ' [= _ <-]. apply Hmap. Qed.

Ltac calls_nothing :=
  unfold loadFiber, mutateFiber, loadQueue, mutateQueue, allocQueue,
    loadShared, mutateShared, allocShared, loadUpdate, mutateUpdate,
    allocUpdate, loadArray, mutateArray, allocArray,
    markRenderEventTimeAndConfig, markUnprocessedUpdateTime;
  repeat first
    [ apply callsNothing_ret
    | apply callsNothing_throw
    | apply callsNothing_load
    | apply callsNothing_mutate; reflexivity
    | apply callsNothing_alloc; reflexivity
    | apply callsNothing_modify; reflexivity
    | apply callsNothing_bind; [|intros ?]
    | match goal with
      | |- callsNothing (match ?x with _ => _ end) => destruct x
      end ].

Lemma getStateFromUpdate_callsNothing (workInProgress : loc)
    (queue : option loc) (u : Update.t) (prev props instance : value) :
  callsNothing (getStateFromUpdate workInProgress queue u prev props instance).
Proof. unfold getStateFromUpdate. calls_nothing. Qed.

Lemma skipUpdate_callsNothing (u : Update.t) (v : Locals) :
  callsNothing (skipUpdate u v).
Proof. unfold skipUpdate, linkClone. calls_nothing. Qed.

Lemma applyUpdate_callsNothing (workInProgress : loc) (queue : option loc)
    (props instance : value) (u : Update.t) (v : Locals) :
  callsNothing (applyUpdate workInProgress queue props instance u v).
Proof.
  unfold applyUpdate, pushEffect, linkClone. calls_nothing.
  all: try apply getStateFromUpdate_callsNothing.
  all: calls_nothing.
Qed.

Lemma processLoop_callsNothing (workInProgress : loc) (queue : option loc)
    (props instance : value) (r : Z) (first : option loc) (fuel : nat) :
  forall v,
    callsNothing (processLoop workInProgress queue props instance r first
                              fuel v).
Proof.
  induction fuel as [|fuel IH]; intros v; [intros σ a σ' H; discriminate H|].
  cbn [processLoop]. calls_nothing.
  all: try apply skipUpdate_callsNothing.
  all: try apply applyUpdate_callsNothing.
  all: try apply IH.
  all: try apply getStateFromUpdate_callsNothing.
  cbv zeta. unfold pushEffect. calls_nothing.
Qed.

Lemma processUpdateQueue_callsNothing (dev : bool) (fuel : nat)
    (workInProgress : loc) (props instance : value) (r : Z) :
  callsNothing (processUpdateQueue dev fuel workInProgress props instance r).
Proof.
  unfold processUpdateQueue, mergePendingQueue, processBaseQueue.
  calls_nothing.
  all: try apply processLoop_callsNothing.
  all: calls_nothing.
Qed.

(** The commit of a queue, in terms of the updates its [effects] array
    holds. *)
Lemma commitUpdateQueue_effectsOf (finishedWork q : loc) (instance : value)
    (σ : Store) (Q : UpdateQueue.t) :
  queues σ !! q = Some Q ->
  effectsAllocated σ q ->
  NoDup (effectsOf σ q) ->
  (forall x, x ∈ effectsOf σ q -> x < length (updates σ)) ->
  (forall x c, x ∈ effectsOf σ q -> callbackAt σ x = Some c ->
     failureOf c = None) ->
  exists σ',
    commitUpdateQueue finishedWork q instance σ = Returned tt σ'
    /\ invocations σ' = invocations σ ++ callsOf σ instance (effectsOf σ q)
    /\ (forall x, x ∈ effectsOf σ q -> callbackAt σ' x = None)
    /\ effectsOf σ' q = [].
Proof.
  intros HQ Hea. unfold effectsOf at 1 2 3 4 5. rewrite HQ.
  intros Hnd Hlt Hok.
  assert (Hq : forall σ0,
    queues σ0 = <[q := UpdateQueue.with_effects None Q]> (queues σ) ->
    effectsOf σ0 q = []).
  { intros σ0 H0. unfold effectsOf. rewrite H0.
    rewrite list_lookup_insert_eq by (eapply lookup_lt_Some; exact HQ).
    reflexivity. }
  unfold commitUpdateQueue. exec. rewrite HQ. cbn. rewrite HQ. cbn.
  destruct (UpdateQueue.effects Q) as [a|] eqn:He.
  - destruct (lookup_lt_is_Some_2 _ _ (Hea Q a HQ He)) as [es Ha].
    rewrite Ha in *. cbn [default] in *. cbn. rewrite Ha. cbn.
    set (σ0 := map_queues _ σ).
    destruct (commitEffects_in_order instance es σ0 Hnd Hlt Hok)
      as (σ' & Hrun & Hinv & Hnone & _ & _ & _ & Hqs & _).
    exists σ'. split; [exact Hrun|]. split; [exact Hinv|].
    split; [exact Hnone|]. apply Hq. rewrite Hqs. reflexivity.
  - cbn. eexists. split; [reflexivity|]. cbn. rewrite app_nil_r.
    split; [reflexivity|]. split; [intros x Hx; inversion Hx|].
    apply Hq. reflexivity.
Qed.

Section Pass.
Variable dev : bool.
Variable workInProgress : loc.
Variables props instance : value.
Variable r : Z.

(** What a pass leaves behind, for the three theorems below. *)
Lemma processUpdateQueue_run (fuel : nat) (σ : Store) (lb lp : list loc) :
  wellFormedQueue σ workInProgress lb lp ->
  length (lb ++ lp) <= fuel ->
  exists σ' f q Q',
    processUpdateQueue dev fuel workInProgress props instance r σ
    = Returned tt σ'
    /\ fibers σ !! workInProgress = Some f
    /\ Fiber.updateQueue f = Some q
    /\ effectsOfFiber σ workInProgress = effectsOf σ q
    /\ effectsOfFiber σ' workInProgress = effectsOf σ' q
    /\ queues σ' !! q = Some Q'
    /\ effectsAllocated σ' q
    /\ (exists f', fibers σ' !! workInProgress = Some f'
                  /\ Fiber.updateQueue f' = Some q)
    /\ hasForceUpdate σ' = existsb (appliedForceUpdate r σ) (lb ++ lp)
    /\ effectsOf σ' q
       = effectsOf σ q ++ List.filter (appliedWithCallback r σ) (lb ++ lp)
    /\ fieldsKept σ σ'.
Proof.
  intros Hwf Hfuel. pose proof Hwf as Hwf0.
  destruct Hwf as (f & q & Q & S & Hf & Hfq & HQ & HS & Hb & Hp & Hnd
                   & Hea & Halt).
  destruct (processUpdateQueue_spec dev workInProgress props instance r fuel
              σ lb lp f q Q S Hf Hfq HQ HS Hb Hp Hnd Hea Halt Hfuel)
    as (σ' & lc & f' & Q' & Hrun & Hwf' & Hf' & Hfq' & HQ' & _).
  destruct (processUpdateQueue_observed dev workInProgress q props instance r
              fuel σ σ' lb lp f Hwf0 Hf Hfq Hrun) as (Hforce & Heff & Hk).
  exists σ', f, q, Q'. split; [exact Hrun|]. split; [exact Hf|].
  split; [exact Hfq|].
  split; [unfold effectsOfFiber; rewrite Hf, Hfq; reflexivity|].
  split; [unfold effectsOfFiber; rewrite Hf', Hfq'; reflexivity|].
  split; [exact HQ'|]. split; [|split; [exists f'; auto|auto]].
  destruct Hwf' as (f2 & q2 & Q2 & S2 & Hf2 & Hfq2 & HQ2 & _ & _ & _ & _
                    & Hea2 & _).
  rewrite Hf' in Hf2. injection Hf2 as <-. rewrite Hfq' in Hfq2.
  injection Hfq2 as <-.
  intros Q3 a HQ3 Ha. rewrite HQ2 in HQ3. injection HQ3 as <-.
  apply Hea2. exact Ha.
Qed.

(** X20.  [processUpdateQueue] appends to the [effects] array of the queue
    the updates it applies that hold a callback, in the order of the queue
    (base queue first, then the pending updates); it calls no callback and
    leaves the callback of every existing update in place. *)
Theorem processUpdateQueue_effects (fuel : nat) (σ : Store)
    (lb lp : list loc) :
  wellFormedQueue σ workInProgress lb lp ->
  length (lb ++ lp) <= fuel ->
  exists σ',
    processUpdateQueue dev fuel workInProgress props instance r σ
    = Returned tt σ'
    /\ effectsOfFiber σ' workInProgress
       = effectsOfFiber σ workInProgress
         ++ List.filter (appliedWithCallback r σ) (lb ++ lp)
    /\ invocations σ' = invocations σ
    /\ (forall x, x < length (updates σ) ->
        callbackAt σ' x = callbackAt σ x).
Proof.
  intros Hwf Hfuel.
  destruct (processUpdateQueue_run fuel σ lb lp Hwf Hfuel)
    as (σ' & f & q & Q' & Hrun & _ & _ & He & He' & _ & _ & _ & _ & Heff & Hk).
  exists σ'. split; [exact Hrun|]. split; [|split].
  - rewrite He, He'. exact Heff.
  - exact (processUpdateQueue_callsNothing _ _ _ _ _ _ _ _ _ Hrun).
  - intros x Hx. apply callbackAt_fieldsKept; assumption.
Qed.

(** X21.  After [processUpdateQueue], [checkHasForceUpdateAfterProcessing]
    answers whether the pass applied a [ForceUpdate]; what the flag was
    before the pass does not matter. *)
Theorem checkHasForceUpdateAfterProcessing_after_pass (fuel : nat)
    (σ : Store) (lb lp : list loc) :
  wellFormedQueue σ workInProgress lb lp ->
  length (lb ++ lp) <= fuel ->
  exists σ',
    processUpdateQueue dev fuel workInProgress props instance r σ
    = Returned tt σ'
    /\ checkHasForceUpdateAfterProcessing σ'
       = Returned (existsb (appliedForceUpdate r σ) (lb ++ lp)) σ'.
Proof.
  intros Hwf Hfuel.
  destruct (processUpdateQueue_run fuel σ lb lp Hwf Hfuel)
    as (σ' & f & q & Q' & Hrun & _ & _ & _ & _ & _ & _ & _ & Hforce & _).
  exists σ'. split; [exact Hrun|].
  unfold checkHasForceUpdateAfterProcessing. rewrite Hforce. reflexivity.
Qed.

(** X22.  A pass over a queue with no effects left, followed by the commit
    of the queue: together they call the callbacks of the updates that the
    pass applied, and no others, in the order of the queue and with
    [instance] as [this]; no effects are left on the queue and no callback on
    these updates. *)
Theorem processUpdateQueue_then_commitUpdateQueue (fuel : nat) (σ : Store)
    (lb lp : list loc) (f : Fiber.t) (q finishedWork : loc) :
  wellFormedQueue σ workInProgress lb lp ->
  length (lb ++ lp) <= fuel ->
  fibers σ !! workInProgress = Some f ->
  Fiber.updateQueue f = Some q ->
  effectsOf σ q = [] ->
  (forall x c, x ∈ lb ++ lp -> callbackAt σ x = Some c ->
     failureOf c = None) ->
  exists σ' σ'',
    processUpdateQueue dev fuel workInProgress props instance r σ
    = Returned tt σ'
    /\ commitUpdateQueue finishedWork q instance σ' = Returned tt σ''
    /\ invocations σ''
       = invocations σ
         ++ callsOf σ instance
              (List.filter (appliedWithCallback r σ) (lb ++ lp))
    /\ effectsOf σ'' q = []
    /\ (forall x, x ∈ lb ++ lp -> appliedWithCallback r σ x = true ->
        callbackAt σ'' x = None).
Proof.
  intros Hwf Hfuel Hf Hfq He0 Hok.
  pose proof (wellFormedQueue_lt σ workInProgress lb lp Hwf) as Hlt.
  assert (Hnd : NoDup (lb ++ lp))
    by (destruct Hwf as (? & ? & ? & ? & _ & _ & _ & _ & _ & _ & H & _);
        exact H).
  destruct (processUpdateQueue_run fuel σ lb lp Hwf Hfuel)
    as (σ' & f0 & q0 & Q' & Hrun & Hf0 & Hfq0 & _ & _ & HQ' & Hea & _ & _
        & Heff & Hk).
  rewrite Hf in Hf0. injection Hf0 as <-. rewrite Hfq in Hfq0.
  injection Hfq0 as <-. rewrite He0 in Heff. cbn [app] in Heff.
  set (es := List.filter (appliedWithCallback r σ) (lb ++ lp)) in *.
  assert (Hin : forall x, x ∈ es -> x ∈ lb ++ lp)
    by (intros x; apply filter_elem_of).
  destruct (commitUpdateQueue_effectsOf finishedWork q instance σ' Q' HQ' Hea)
    as (σ'' & Hcommit & Hinv & Hnone & Hempty).
  { rewrite Heff. apply filter_NoDup. exact Hnd. }
  { rewrite Heff. intros x Hx.
    eapply Nat.lt_le_trans; [apply Hlt, Hin, Hx|].
    apply fieldsKept_length. exact Hk. }
  { rewrite Heff. intros x c Hx Hc. apply (Hok x c (Hin x Hx)).
    rewrite <- Hc. symmetry. apply callbackAt_fieldsKept; [exact Hk|].
    apply Hlt, Hin, Hx. }
  exists σ', σ''. split; [exact Hrun|]. split; [exact Hcommit|]. split.
  - rewrite Hinv, Heff.
    rewrite (processUpdateQueue_callsNothing _ _ _ _ _ _ _ _ _ Hrun).
    f_equal. apply callsOf_ext. intros x Hx.
    apply callbackAt_fieldsKept; [exact Hk|]. apply Hlt, Hin, Hx.
  - split; [exact Hempty|]. intros x Hx Ha. apply Hnone. rewrite Heff.
    apply list_elem_of_In, filter_In. rewrite <- list_elem_of_In. auto.
Qed.

End Pass.

Lemma exampleQueuedStore_wellFormed :
  wellFormedQueue exampleQueuedStore 0 [] [0; 1; 2].
Proof.
  assert (Hnd : NoDup [0; 1; 2]) by (apply (bool_decide_unpack _); reflexivity).
  exists (Fiber.mk (Some 0) None (VNum 0) 0 0 0),
         0, (UpdateQueue.mk (VNum 0) None 0 None), (SharedQueue.mk (Some 2)).
  split; [reflexivity|]. split; [reflexivity|]. split; [reflexivity|].
  split; [reflexivity|]. split; [reflexivity|].
  split; [split; [exact Hnd|]; split; [reflexivity|]; vm_compute;
          repeat split; lia|].
  split; [exact Hnd|].
  split; [intros a H; discriminate H | intros c H; discriminate H].
Qed.

Lemma processUpdateQueue_effects_witness :
  exists σ',
    processUpdateQueue false 3 0 VNull VNull 2 exampleQueuedStore
    = Returned tt σ'
    /\ effectsOfFiber σ' 0
       = effectsOfFiber exampleQueuedStore 0
         ++ List.filter (appliedWithCallback 2 exampleQueuedStore)
                        ([] ++ [0; 1; 2])
    /\ invocations σ' = invocations exampleQueuedStore
    /\ (forall x, x < length (updates exampleQueuedStore) ->
        callbackAt σ' x = callbackAt exampleQueuedStore x).
Proof.
  apply (processUpdateQueue_effects false 0 VNull VNull 2 3
           exampleQueuedStore [] [0; 1; 2]).
  - exact exampleQueuedStore_wellFormed.
  - cbn. lia.
Defined.

Lemma checkHasForceUpdateAfterProcessing_after_pass_witness :
  exists σ',
    processUpdateQueue false 3 0 VNull VNull 2 exampleQueuedStore
    = Returned tt σ'
    /\ checkHasForceUpdateAfterProcessing σ'
       = Returned (existsb (appliedForceUpdate 2 exampleQueuedStore)
                           ([] ++ [0; 1; 2])) σ'.
Proof.
  apply (checkHasForceUpdateAfterProcessing_after_pass false 0 VNull VNull 2
           3 exampleQueuedStore [] [0; 1; 2]).
  - exact exampleQueuedStore_wellFormed.
  - cbn. lia.
Defined.

Lemma processUpdateQueue_then_commitUpdateQueue_witness :
  exists σ' σ'',
    processUpdateQueue false 3 0 VNull VNull 2 exampleQueuedStore
    = Returned tt σ'
    /\ commitUpdateQueue 0 0 VNull σ' = Returned tt σ''
    /\ invocations σ''
       = invocations exampleQueuedStore
         ++ callsOf exampleQueuedStore VNull
              (List.filter (appliedWithCallback 2 exampleQueuedStore)
                           ([] ++ [0; 1; 2]))
    /\ effectsOf σ'' 0 = []
    /\ (forall x, x ∈ [] ++ [0; 1; 2] ->
        appliedWithCallback 2 exampleQueuedStore x = true ->
        callbackAt σ'' x = None).
Proof.
  apply (processUpdateQueue_then_commitUpdateQueue false 0 VNull VNull 2 3
           exampleQueuedStore [] [0; 1; 2]
           (Fiber.mk (Some 0) None (VNum 0) 0 0 0) 0 0).
  - exact exampleQueuedStore_wellFormed.
  - cbn. lia.
  - reflexivity.
  - reflexivity.
  - reflexivity.
  - intros x c Hx. cbn in Hx.
    apply elem_of_cons in Hx as [->|Hx];
      [|apply elem_of_cons in Hx as [->|Hx];
        [|apply list_elem_of_singleton in Hx as ->]];
      vm_compute; intros [= <-]; reflexivity.
Defined.

(** *** A pass repeated at the same threshold *)

Section Repeated.
Variable r : Z.
Variables props instance : value.
Hypothesis r_le_Sync : (r <= Sync)%Z.

Local Abbreviation cloneAs :=
  (fun u =>
     cloneOf (if isSkipped r u then Update.expirationTime u else Sync) u).

Lemma isSkipped_cloneAs (u : Update.t) :
  isSkipped r (cloneAs u) = isSkipped r u.
Proof.
  unfold isSkipped. cbn.
  destruct (Z.ltb_spec (Update.expirationTime u) r) as [H|H]; cbn.
  - apply Z.ltb_lt. exact H.
  - apply Z.ltb_ge. exact r_le_Sync.
Qed.

Lemma cloneAs_cloneAs (u : Update.t) : cloneAs (cloneAs u) = cloneAs u.
Proof.
  cbv beta. rewrite isSkipped_cloneAs. unfold cloneOf. cbn.
  destruct (isSkipped r u); reflexivity.
Qed.

Lemma computedState_cloneAs (us : list Update.t) :
  forall s,
    computedState r props instance s (cloneAs <$> us)
    = computedState r props instance s us.
Proof.
  unfold computedState, applyAll.
  induction us as [|u us IH]; intros s; [reflexivity|].
  rewrite fmap_cons, !filter_cons. rewrite isSkipped_cloneAs.
  destruct (decide (isSkipped r u = false)) as [H|H]; [|apply IH].
  cbn [foldl]. rewrite nextState_cloneOf. apply IH.
Qed.

Lemma skippedExpirationTimes_cloneAs (us : list Update.t) :
  skippedExpirationTimes r (cloneAs <$> us) = skippedExpirationTimes r us.
Proof.
  unfold skippedExpirationTimes.
  induction us as [|u us IH]; [reflexivity|].
  rewrite fmap_cons, !filter_cons. rewrite isSkipped_cloneAs.
  destruct (decide (isSkipped r u = true)) as [H|H]; [|exact IH].
  rewrite !fmap_cons, IH. cbn. rewrite H. reflexivity.
Qed.

Lemma rebasedQueue_skipped (u : Update.t) (us : list Update.t) :
  isSkipped r u = true -> rebasedQueue r (u :: us) = cloneAs <$> (u :: us).
Proof. intros H. cbn [rebasedQueue]. rewrite H. reflexivity. Qed.

(** On the lists: the second pass finds the queue the first one left and
    leaves it as it is, with the same state. *)
Lemma pass_again (us : list Update.t) :
  forall s,
    let a := pass r props instance s us in
    let a' := pass r props instance (passResultBaseState a)
                   (passBaseQueue a) in
    passState a' = passState a
    /\ passBaseQueue a' = passBaseQueue a
    /\ passResultBaseState a' = passResultBaseState a
    /\ passExpirationTime a' = passExpirationTime a.
Proof.
  intros s. cbv zeta.
  destruct (pass_spec_words r props instance s us) as (E1 & E2 & E3 & E4).
  rewrite E2, E3.
  destruct (pass_spec_words r props instance
              (stateBeforeFirstSkip r props instance s us)
              (rebasedQueue r us)) as (F1 & F2 & F3 & F4).
  rewrite E1, E4, F1, F2, F3, F4. clear E1 E2 E3 E4 F1 F2 F3 F4.
  revert s. induction us as [|u us IH]; intros s; [auto|].
  destruct (isSkipped r u) eqn:Hu.
  - rewrite (rebasedQueue_skipped u us Hu).
    cbn [stateBeforeFirstSkip]. rewrite Hu.
    split; [apply computedState_cloneAs|].
    split.
    { rewrite fmap_cons.
      rewrite rebasedQueue_skipped by (rewrite isSkipped_cloneAs; exact Hu).
      rewrite !fmap_cons. f_equal; [apply (cloneAs_cloneAs u)|].
      rewrite <- list_fmap_compose. apply list_fmap_ext.
      intros i x _. apply cloneAs_cloneAs. }
    split.
    { rewrite fmap_cons. cbn [stateBeforeFirstSkip].
      rewrite isSkipped_cloneAs, Hu. reflexivity. }
    rewrite skippedExpirationTimes_cloneAs. reflexivity.
  - cbn [rebasedQueue stateBeforeFirstSkip]. rewrite Hu.
    destruct (IH (nextState u s props instance)) as (G1 & G2 & G3 & G4).
    assert (Hc : forall s', computedState r props instance s' (u :: us)
                 = computedState r props instance
                     (nextState u s' props instance) us).
    { intros s'. unfold computedState. rewrite filter_cons.
      destruct (decide (isSkipped r u = false)); [reflexivity|congruence]. }
    assert (Hs : skippedExpirationTimes r (u :: us)
                 = skippedExpirationTimes r us).
    { unfold skippedExpirationTimes. rewrite filter_cons.
      destruct (decide (isSkipped r u = true)); [congruence|reflexivity]. }
    rewrite Hc, Hs. auto.
Qed.
End Repeated.

(** X23.  A pass repeated at the same threshold changes nothing that the
    first pass computed: with no update enqueued in between, the second
    [processUpdateQueue] leaves the fiber with the same [memoizedState] and
    the same remaining [expirationTime], and the queue with the same
    [baseState] and a base queue of updates with the same fields, in the same
    order. *)
Theorem processUpdateQueue_again (dev : bool) (workInProgress : loc)
    (props instance : value) (r : Z) (fuel : nat) (σ : Store)
    (lb lp : list loc) :
  wellFormedQueue σ workInProgress lb lp ->
  (r <= Sync)%Z ->
  length (lb ++ lp) <= fuel ->
  exists σ1 σ2 f1 f2 Q1 Q2 lc1 lc2,
    processUpdateQueue dev fuel workInProgress props instance r σ
    = Returned tt σ1
    /\ processUpdateQueue dev fuel workInProgress props instance r σ1
       = Returned tt σ2
    /\ fibers σ1 !! workInProgress = Some f1
    /\ fibers σ2 !! workInProgress = Some f2
    /\ queueOfFiber σ1 workInProgress = Some Q1
    /\ queueOfFiber σ2 workInProgress = Some Q2
    /\ circular (updates σ1) (UpdateQueue.baseQueue Q1) lc1
    /\ circular (updates σ2) (UpdateQueue.baseQueue Q2) lc2
    /\ Fiber.memoizedState f2 = Fiber.memoizedState f1
    /\ Fiber.expirationTime f2 = Fiber.expirationTime f1
    /\ UpdateQueue.baseState Q2 = UpdateQueue.baseState Q1
    /\ recordsAt (updates σ2) lc2 = recordsAt (updates σ1) lc1.
Proof.
  intros Hwf Hr Hfuel.
  pose proof (wellFormedQueue_lt σ workInProgress lb lp Hwf) as Hlt.
  destruct (processUpdateQueue_pass dev workInProgress props instance r fuel
              σ lb lp Hwf Hfuel)
    as (Q & f & HQ & Hf & σ1 & lc1 & Q1 & f1 & Hrun1 & Hwf1 & HQ1 & Hf1 & Hc1
        & Hrec1 & Hbs1 & Hne1 & Hnil1).
  set (a := pass r props instance (UpdateQueue.baseState Q)
                 (recordsAt (updates σ) (lb ++ lp))) in *.
  pose proof (wellFormedQueue_lt σ1 workInProgress lc1 [] Hwf1) as Hlt1.
  rewrite app_nil_r in Hlt1.
  assert (Hlen : length (lc1 ++ []) <= fuel).
  { rewrite app_nil_r, <- (recordsAt_length (updates σ1) lc1 Hlt1), Hrec1.
    subst a.
    pose proof (pass_baseQueue_length r props instance
                  (UpdateQueue.baseState Q)
                  (recordsAt (updates σ) (lb ++ lp))) as H.
    rewrite (recordsAt_length (updates σ) (lb ++ lp) Hlt) in H. lia. }
  destruct (processUpdateQueue_pass dev workInProgress props instance r fuel
              σ1 lc1 [] Hwf1 Hlen)
    as (Q1' & f1' & HQ1' & Hf1' & σ2 & lc2 & Q2 & f2 & Hrun2 & Hwf2 & HQ2
        & Hf2 & Hc2 & Hrec2 & Hbs2 & Hne2 & Hnil2).
  rewrite HQ1 in HQ1'. injection HQ1' as <-.
  rewrite Hf1 in Hf1'. injection Hf1' as <-.
  rewrite app_nil_r in Hrec2, Hbs2, Hne2, Hnil2.
  rewrite Hrec1, Hbs1 in Hrec2, Hbs2, Hne2.
  destruct (pass_again r props instance Hr
              (recordsAt (updates σ) (lb ++ lp)) (UpdateQueue.baseState Q))
    as (P1 & P2 & P3 & P4).
  fold a in P1, P2, P3, P4.
  exists σ1, σ2, f1, f2, Q1, Q2, lc1, lc2.
  split; [exact Hrun1|]. split; [exact Hrun2|]. split; [exact Hf1|].
  split; [exact Hf2|]. split; [exact HQ1|]. split; [exact HQ2|].
  split; [exact Hc1|]. split; [exact Hc2|].
  assert (Hstate : Fiber.memoizedState f2 = Fiber.memoizedState f1
                   /\ Fiber.expirationTime f2 = Fiber.expirationTime f1).
  { destruct lc1 as [|x lc1].
    - apply Hnil2. reflexivity.
    - destruct (Hne2 ltac:(discriminate)) as [M2 E2].
      assert (Hin : lb ++ lp <> []).
      { intros Hnil.
        assert (Ha : passBaseQueue a = [])
          by (subst a; rewrite Hnil; reflexivity).
        rewrite Ha in Hrec1.
        apply recordsAt_nil_inv in Hrec1; [discriminate|exact Hlt1]. }
      destruct (Hne1 Hin) as [M1 E1].
      rewrite M2, E2, M1, E1, P1, P4. auto. }
  destruct Hstate as [M E].
  split; [exact M|]. split; [exact E|].
  split; [rewrite Hbs2, Hbs1; exact P3|].
  rewrite Hrec2, Hrec1. exact P2.
Qed.

Lemma processUpdateQueue_again_witness :
  exists σ1 σ2 f1 f2 Q1 Q2 lc1 lc2,
    processUpdateQueue false 3 0 VNull VNull 2 exampleQueuedStore
    = Returned tt σ1
    /\ processUpdateQueue false 3 0 VNull VNull 2 σ1 = Returned tt σ2
    /\ fibers σ1 !! 0 = Some f1
    /\ fibers σ2 !! 0 = Some f2
    /\ queueOfFiber σ1 0 = Some Q1
    /\ queueOfFiber σ2 0 = Some Q2
    /\ circular (updates σ1) (UpdateQueue.baseQueue Q1) lc1
    /\ circular (updates σ2) (UpdateQueue.baseQueue Q2) lc2
    /\ Fiber.memoizedState f2 = Fiber.memoizedState f1
    /\ Fiber.expirationTime f2 = Fiber.expirationTime f1
    /\ UpdateQueue.baseState Q2 = UpdateQueue.baseState Q1
    /\ recordsAt (updates σ2) lc2 = recordsAt (updates σ1) lc1.
Proof.
  apply (processUpdateQueue_again false 0 VNull VNull 2 3 exampleQueuedStore
           [] [0; 1; 2]).
  - exact exampleQueuedStore_wellFormed.
  - unfold Sync, MAX_SIGNED_31_BIT_INT. lia.
  - cbn. lia.
Defined.

End UpdateQueueFacts.

(** ** The queue of synchronous callbacks *)

Module SyncQueueFacts.
Import SchedulerWithReactIntegration SyncQueueProperties.

(** X24.  The two priority tables are inverse to each other:
    [reactPriorityToSchedulerPriority] sends a React priority to a scheduler
    priority exactly when [getCurrentPriorityLevel] reads that scheduler
    priority back as the React priority; the other numbers, [NoPriority]
    among them, have no scheduler priority. *)
Theorem reactPriorityToSchedulerPriority_getCurrentPriorityLevel
    (reactPriorityLevel : Z) (priorityLevel : SchedulerPriority) (s : State) :
  reactPriorityToSchedulerPriority reactPriorityLevel = Some priorityLevel
  <-> getCurrentPriorityLevel (set_currentPriorityLevel priorityLevel s)
      = reactPriorityLevel.
Proof.
  unfold reactPriorityToSchedulerPriority, getCurrentPriorityLevel.
  cbn [currentPriorityLevel set_currentPriorityLevel].
  unfold ImmediatePriority, UserBlockingPriority, NormalPriority, LowPriority,
    IdlePriority.
  split.
  - repeat match goal with
           | |- context [Z.eqb ?a ?b] => destruct (Z.eqb_spec a b)
           end; intros [= <-]; congruence.
  - intros <-. destruct priorityLevel; reflexivity.
Qed.

Lemma scheduleSyncCallback_push (callback : SchedulerCallback) (s : State)
    (queue : nat) (entries : list SchedulerCallback) :
  syncQueue s = Some queue -> arrays s !! queue = Some entries ->
  let s' := snd (scheduleSyncCallback callback s) in
  syncQueue s' = Some queue
  /\ arrays s' !! queue = Some (entries ++ [callback])
  /\ scheduled s' = scheduled s
  /\ immediateQueueCallbackNode s' = immediateQueueCallbackNode s
  /\ isFlushingSyncQueue s' = isFlushingSyncQueue s
  /\ cancelled s' = cancelled s
  /\ currentPriorityLevel s' = currentPriorityLevel s
  /\ workDone s' = workDone s.
Proof.
  intros Hq Ha. cbv zeta. unfold scheduleSyncCallback. rewrite Hq.
  cbn -[alter]. split; [exact Hq|]. split; [|auto 10].
  rewrite list_lookup_alter_eq, Ha. reflexivity.
Qed.

Lemma scheduleAll_push (callbacks : list SchedulerCallback) :
  forall (s : State) (queue : nat) (entries : list SchedulerCallback),
    syncQueue s = Some queue -> arrays s !! queue = Some entries ->
    let s' := scheduleAll callbacks s in
    syncQueue s' = Some queue
    /\ arrays s' !! queue = Some (entries ++ callbacks)
    /\ scheduled s' = scheduled s
    /\ immediateQueueCallbackNode s' = immediateQueueCallbackNode s
    /\ isFlushingSyncQueue s' = isFlushingSyncQueue s
    /\ cancelled s' = cancelled s
    /\ currentPriorityLevel s' = currentPriorityLevel s
    /\ workDone s' = workDone s.
Proof.
  induction callbacks as [|c callbacks IH]; intros s queue entries Hq Ha; cbv zeta.
  - cbn. rewrite app_nil_r. auto 10.
  - cbn [scheduleAll foldl].
    destruct (scheduleSyncCallback_push c s queue entries Hq Ha)
      as (H1 & H2 & H3 & H4 & H5 & H6 & H7 & H8).
    destruct (IH _ queue (entries ++ [c]) H1 H2)
      as (G1 & G2 & G3 & G4 & G5 & G6 & G7 & G8).
    unfold scheduleAll in *.
    split; [exact G1|]. split; [rewrite G2, <- (assoc_L app); reflexivity|].
    repeat split; congruence.
Qed.

(** X25.  Starting without a queue, any number of calls of
    [scheduleSyncCallback] leave a queue that holds the callbacks in the
    order of the calls, and ask the scheduler for one single flush, at
    [Scheduler_ImmediatePriority], whose handle is kept in
    [immediateQueueCallbackNode]; the node the calls return is the fake one,
    which [cancelCallback] does not pass on to the scheduler. *)
Theorem scheduleSyncCallback_schedules_one_flush
    (callback : SchedulerCallback) (callbacks : list SchedulerCallback)
    (s : State) :
  syncQueue s = None ->
  let s' := scheduleAll (callback :: callbacks) s in
  syncQueueEntries s' = Some (callback :: callbacks)
  /\ scheduled s'
     = scheduled s ++ [(Scheduler_ImmediatePriority,
                        The_flushSyncCallbackQueueImpl)]
  /\ immediateQueueCallbackNode s' = Some (length (scheduled s))
  /\ isFlushingSyncQueue s' = isFlushingSyncQueue s
  /\ cancelled s' = cancelled s
  /\ (forall c s0,
        cancelCallback (fst (scheduleSyncCallback c s0)) s' = s').
Proof.
  intros Hq. cbv zeta. cbn [scheduleAll foldl].
  set (s1 := snd (scheduleSyncCallback callback s)).
  assert (H1 : syncQueue s1 = Some (length (arrays s))
               /\ arrays s1 !! length (arrays s) = Some [callback]
               /\ scheduled s1
                  = scheduled s ++ [(Scheduler_ImmediatePriority,
                                     The_flushSyncCallbackQueueImpl)]
               /\ immediateQueueCallbackNode s1 = Some (length (scheduled s))
               /\ isFlushingSyncQueue s1 = isFlushingSyncQueue s
               /\ cancelled s1 = cancelled s).
  { subst s1. unfold scheduleSyncCallback. rewrite Hq. cbn.
    split; [reflexivity|]. split; [|auto].
    rewrite lookup_app_r, Nat.sub_diag by lia. reflexivity. }
  destruct H1 as (A1 & A2 & A3 & A4 & A5 & A6).
  destruct (scheduleAll_push callbacks s1 _ _ A1 A2)
    as (G1 & G2 & G3 & G4 & G5 & G6 & G7 & G8).
  unfold scheduleAll in *. unfold syncQueueEntries. rewrite G1, G2.
  split; [reflexivity|]. split; [congruence|]. split; [congruence|].
  split; [congruence|]. split; [congruence|].
  intros c s0. unfold scheduleSyncCallback.
  destruct (syncQueue s0); reflexivity.
Qed.

Lemma scheduleSyncCallback_schedules_one_flush_witness :
  let s' := scheduleAll (exampleFirst :: [exampleSecond; exampleThird])
                        initialState in
  syncQueueEntries s' = Some (exampleFirst :: [exampleSecond; exampleThird])
  /\ scheduled s'
     = scheduled initialState ++ [(Scheduler_ImmediatePriority,
                                   The_flushSyncCallbackQueueImpl)]
  /\ immediateQueueCallbackNode s' = Some (length (scheduled initialState))
  /\ isFlushingSyncQueue s' = isFlushingSyncQueue initialState
  /\ cancelled s' = cancelled initialState
  /\ (forall c s0,
        cancelCallback (fst (scheduleSyncCallback c s0)) s' = s').
Proof.
  apply (scheduleSyncCallback_schedules_one_flush exampleFirst
           [exampleSecond; exampleThird] initialState).
  reflexivity.
Defined.

(** *** Callbacks that only work *)

Lemma call_onlyWorks (c : SchedulerCallback) :
  forall fuel s,
    onlyWorks c = true -> callbackSize c <= fuel ->
    exists before r,
      call fuel c s = Done r (set_workDone (workDone s ++ before) s)
      /\ workOf c = before ++ from_option workOf [] r
      /\ match r with
         | Some k => onlyWorks k = true /\ 2 + callbackSize k <= callbackSize c
         | None => True
         end.
Proof.
  induction c as [label rest IH|cb _ rest _|rest _| |k _|err];
    intros fuel s Hc Hfuel; try discriminate Hc;
    (destruct fuel as [|fuel]; [cbn in Hfuel; lia|]);
    cbn [call callbackSize onlyWorks workOf] in *.
  - destruct (IH fuel (set_workDone (workDone s ++ [label]) s) Hc)
      as (before & r & H1 & H2 & H3); [lia|].
    exists (label :: before), r. rewrite H1. cbn.
    split; [rewrite <- (assoc_L app); reflexivity|].
    split; [rewrite H2; reflexivity|].
    destruct r; [|exact I]. destruct H3. split; [assumption|lia].
  - exists [], None. rewrite app_nil_r. destruct s; cbn. auto.
  - exists [], (Some k). rewrite app_nil_r. destruct s; cbn.
    split; [reflexivity|]. split; [reflexivity|]. split; [assumption|lia].
Qed.

Lemma callUntilNull_onlyWorks (n : nat) :
  forall c fuel s,
    callbackSize c <= n -> onlyWorks c = true ->
    S (callbackSize c) <= fuel ->
    callUntilNull fuel c s = Done tt (set_workDone (workDone s ++ workOf c) s).
Proof.
  induction n as [|n IH]; intros c fuel s Hn Hc Hfuel.
  { destruct c; cbn in Hn; lia. }
  destruct fuel as [|fuel]; [lia|]. cbn [callUntilNull].
  destruct (call_onlyWorks c fuel s Hc) as (before & r & H1 & H2 & H3); [lia|].
  rewrite H1. destruct r as [k|]; cbn in H2.
  - destruct H3 as [Hk Hs]. rewrite IH by (assumption || lia).
    cbn. rewrite H2, (assoc_L app). reflexivity.
  - rewrite H2, app_nil_r. reflexivity.
Qed.

Lemma flushLoop_onlyWorks (queue : nat) (entries : list SchedulerCallback)
    (fuel : nat) :
  forall i s,
    arrays s !! queue = Some entries ->
    forallb onlyWorks (drop i entries) = true ->
    S (queueSize (drop i entries)) <= fuel ->
    flushLoop fuel queue i s
    = LoopDone (set_workDone
                  (workDone s ++ concat (workOf <$> drop i entries)) s).
Proof.
  induction fuel as [|fuel IH]; intros i s Ha Hall Hfuel; [lia|].
  cbn [flushLoop]. rewrite Ha.
  destruct (entries !! i) as [cb|] eqn:Hcb.
  - rewrite (drop_S _ _ _ Hcb) in *. rewrite queueSize_cons in Hfuel.
    cbn [forallb] in Hall. apply andb_true_iff in Hall as [Hc Hall].
    rewrite (callUntilNull_onlyWorks (callbackSize cb)) by (assumption || lia).
    rewrite IH by (assumption || lia).
    cbn. rewrite (assoc_L app). reflexivity.
  - rewrite drop_ge by (apply lookup_ge_None; exact Hcb).
    cbn. rewrite app_nil_r. destruct s; reflexivity.
Qed.

(** X26.  When no flush is running and the callbacks of the queue only
    work (they neither throw nor call back into this module),
    [flushSyncCallbackQueue] returns after running every callback, and every
    continuation a callback returns, in the order of the queue; it leaves no
    queue, releases the lock, cancels the flush that was scheduled, schedules
    nothing and restores the priority. *)
Theorem flushSyncCallbackQueue_onlyWorks (fuel : nat) (s : State)
    (queue : nat) (entries : list SchedulerCallback) :
  isFlushingSyncQueue s = false ->
  syncQueue s = Some queue ->
  arrays s !! queue = Some entries ->
  forallb onlyWorks entries = true ->
  3 + queueSize entries <= fuel ->
  exists s',
    flushSyncCallbackQueue fuel s = Done tt s'
    /\ workDone s' = workDone s ++ concat (workOf <$> entries)
    /\ syncQueue s' = None
    /\ isFlushingSyncQueue s' = false
    /\ immediateQueueCallbackNode s' = None
    /\ cancelled s'
       = cancelled s ++ from_option (fun node => [node]) []
                                    (immediateQueueCallbackNode s)
    /\ scheduled s' = scheduled s
    /\ currentPriorityLevel s' = currentPriorityLevel s.
Proof.
  intros Hlock Hq Ha Hall Hfuel.
  destruct fuel as [|[|fuel]]; [lia|lia|].
  cbn [flushSyncCallbackQueue flushSyncCallbackQueueImpl].
  set (s0 := cancelImmediateQueueCallback s).
  assert (H0 : isFlushingSyncQueue s0 = false /\ syncQueue s0 = Some queue
               /\ arrays s0 = arrays s /\ workDone s0 = workDone s
               /\ scheduled s0 = scheduled s
               /\ currentPriorityLevel s0 = currentPriorityLevel s
               /\ immediateQueueCallbackNode s0 = None
               /\ cancelled s0
                  = cancelled s ++ from_option (fun node => [node]) []
                                               (immediateQueueCallbackNode s)).
  { subst s0. unfold cancelImmediateQueueCallback.
    destruct (immediateQueueCallbackNode s) eqn:E; cbn;
      rewrite ?app_nil_r; auto 10. }
  destruct H0 as (B1 & B2 & B3 & B4 & B5 & B6 & B7 & B8).
  rewrite B1, B2. unfold runWithPriority.
  change (reactPriorityToSchedulerPriority ImmediatePriority)
    with (Some Scheduler_ImmediatePriority).
  unfold Scheduler_runWithPriority.
  rewrite (flushLoop_onlyWorks queue entries fuel 0);
    [| cbn; rewrite B3; exact Ha | rewrite drop_0; exact Hall
     | rewrite drop_0; lia].
  rewrite drop_0. cbn.
  eexists. split; [reflexivity|]. cbn. rewrite B4. auto 10.
Qed.

Lemma flushSyncCallbackQueue_onlyWorks_witness :
  exists s',
    flushSyncCallbackQueue 20 exampleWorkState = Done tt s'
    /\ workDone s'
       = workDone exampleWorkState
         ++ concat (workOf <$> [exampleThird; DoWork 9 ReturnNull])
    /\ syncQueue s' = None
    /\ isFlushingSyncQueue s' = false
    /\ immediateQueueCallbackNode s' = None
    /\ cancelled s'
       = cancelled exampleWorkState
         ++ from_option (fun node => [node]) []
                        (immediateQueueCallbackNode exampleWorkState)
    /\ scheduled s' = scheduled exampleWorkState
    /\ currentPriorityLevel s' = currentPriorityLevel exampleWorkState.
Proof.
  apply (flushSyncCallbackQueue_onlyWorks 20 exampleWorkState 0
           [exampleThird; DoWork 9 ReturnNull]).
  - reflexivity.
  - reflexivity.
  - reflexivity.
  - reflexivity.
  - vm_compute. lia.
Defined.

(** *** A flush that returns *)

(** X27.  If [flushSyncCallbackQueueImpl], started without the lock on a
    queue, returns normally, then the queue is gone, the lock is released,
    the priority is restored and nothing was scheduled; the array of the
    queue holds at the end the entries it held at the start followed by the
    callbacks that its entries scheduled; none of its entries throws; and
    the work done during the flush is the work of these entries, in the
    order of the array. *)
Theorem flushSyncCallbackQueueImpl_done (fuel : nat) (s s' : State)
    (queue : nat) (entries0 : list SchedulerCallback) :
  isFlushingSyncQueue s = false ->
  syncQueue s = Some queue ->
  arrays s !! queue = Some entries0 ->
  flushSyncCallbackQueueImpl fuel s = Done tt s' ->
  syncQueue s' = None
  /\ isFlushingSyncQueue s' = false
  /\ currentPriorityLevel s' = currentPriorityLevel s
  /\ scheduled s' = scheduled s
  /\ exists entries,
       arrays s' !! queue = Some entries
       /\ entries = entries0 ++ concat (scheduledBy <$> entries)
       /\ Forall (fun c => thrownBy c = None) entries
       /\ workDone s' = workDone s ++ concat (workBy <$> entries).
Proof.
  intros Hlock Hq Ha Hrun.
  destruct fuel as [|fuel]; [discriminate|].
  cbn [flushSyncCallbackQueueImpl] in Hrun. rewrite Hlock, Hq in Hrun.
  unfold runWithPriority in Hrun.
  change (reactPriorityToSchedulerPriority ImmediatePriority)
    with (Some Scheduler_ImmediatePriority) in Hrun.
  unfold Scheduler_runWithPriority in Hrun.
  change (set_currentPriorityLevel Scheduler_ImmediatePriority
            (set_isFlushingSyncQueue true s)) with (startFlush s) in Hrun.
  assert (Hf0 : flushing queue (startFlush s)).
  { split; [reflexivity|]. split; [exact Hq|]. cbn. eauto. }
  pose proof (flushLoop_script queue fuel 0 (startFlush s) entries0 Hf0 Ha)
    as Hs.
  destruct (flushLoop fuel queue 0 (startFlush s)) as [s1|i e s1|];
    cbn in Hrun; [|discriminate|discriminate].
  injection Hrun as <-.
  destruct Hs as (entries & A1 & A2 & A3 & _ & _ & _ & Hs1 & Hw1 & _).
  rewrite drop_0 in A2, A3, Hw1.
  cbn. split; [reflexivity|]. split; [reflexivity|]. split; [reflexivity|].
  split; [exact Hs1|]. exists entries. auto.
Qed.

Lemma flushSyncCallbackQueueImpl_done_witness :
  let s' := mkState None (Some 0%nat) false
              [[exampleThird; DoWork 9 ReturnNull]]
              [(Scheduler_ImmediatePriority, The_flushSyncCallbackQueueImpl)]
              [] Scheduler_NormalPriority [4%nat; 5%nat; 9%nat] in
  syncQueue s' = None
  /\ isFlushingSyncQueue s' = false
  /\ currentPriorityLevel s' = currentPriorityLevel exampleWorkState
  /\ scheduled s' = scheduled exampleWorkState
  /\ exists entries,
       arrays s' !! 0%nat = Some entries
       /\ entries = [exampleThird; DoWork 9 ReturnNull]
                    ++ concat (scheduledBy <$> entries)
       /\ Forall (fun c => thrownBy c = None) entries
       /\ workDone s'
          = workDone exampleWorkState ++ concat (workBy <$> entries).
Proof.
  apply (flushSyncCallbackQueueImpl_done 20 exampleWorkState _ 0
           [exampleThird; DoWork 9 ReturnNull]).
  - reflexivity.
  - reflexivity.
  - reflexivity.
  - reflexivity.
Defined.

(** *** Flushing again after an exception *)

(** X28.  When a callback throws during a flush, the entries that were not
    attempted are kept: on a queue whose entries before [cb] return and
    whose entry [cb] throws, [flushSyncCallbackQueueImpl] throws the error
    after the work of the entries up to [cb], and a following
    [flushSyncCallbackQueue] runs the entries that were behind [cb] and the
    callbacks scheduled during the first flush, in this order, and not the
    entries up to [cb], provided that they only work. *)
Theorem flushSyncCallbackQueue_resumes (fuel fuel2 : nat) (s : State)
    (queue : nat) (pre post : list SchedulerCallback)
    (cb : SchedulerCallback) (n : nat) :
  isFlushingSyncQueue s = false ->
  syncQueue s = Some queue ->
  arrays s !! queue = Some (pre ++ cb :: post) ->
  Forall (fun c => thrownBy c = None) pre ->
  thrownBy cb = Some n ->
  let rest := post ++ concat (scheduledBy <$> pre) ++ scheduledBy cb in
  forallb onlyWorks rest = true ->
  2 + queueSize (pre ++ cb :: post) <= fuel ->
  3 + queueSize rest <= fuel2 ->
  exists s' s'',
    flushSyncCallbackQueueImpl fuel s = Threw (Thrown n) s'
    /\ workDone s' = workDone s ++ concat (workBy <$> pre) ++ workBy cb
    /\ flushSyncCallbackQueue fuel2 s' = Done tt s''
    /\ workDone s'' = workDone s' ++ concat (workOf <$> rest)
    /\ syncQueue s'' = None
    /\ isFlushingSyncQueue s'' = false.
Proof.
  intros Hlock Hq Ha Hp Hn rest Hall Hfuel Hfuel2.
  destruct fuel as [|fuel]; [lia|].
  assert (Hf0 : flushing queue (startFlush s)).
  { split; [reflexivity|]. split; [exact Hq|]. cbn. eauto. }
  destruct (flushLoop_throws_at queue fuel (startFlush s) pre post cb n
              Hf0 Ha Hp Hn ltac:(lia))
    as (s1 & Hloop & _ & Hq1 & _ & _ & Hw1 & Ha1).
  specialize (Ha1 _ Ha).
  set (sT := afterThrow (length pre)
               (set_currentPriorityLevel (currentPriorityLevel s) s1)).
  assert (Hthrew : flushSyncCallbackQueueImpl (S fuel) s = Threw (Thrown n) sT).
  { cbn [flushSyncCallbackQueueImpl]. rewrite Hlock, Hq.
    unfold runWithPriority.
    change (reactPriorityToSchedulerPriority ImmediatePriority)
      with (Some Scheduler_ImmediatePriority).
    unfold Scheduler_runWithPriority.
    change (set_currentPriorityLevel Scheduler_ImmediatePriority
              (set_isFlushingSyncQueue true s)) with (startFlush s).
    rewrite Hloop. reflexivity. }
  assert (Hdrop : drop (length pre + 1)
                    ((pre ++ cb :: post)
                     ++ concat (scheduledBy <$> pre) ++ scheduledBy cb)
                  = rest).
  { rewrite <- (assoc_L app). cbn.
    rewrite (cons_middle cb), (assoc_L app pre [cb]).
    replace (length pre + 1) with (length (pre ++ [cb]))
      by (rewrite length_app; cbn; lia).
    rewrite drop_app_length. reflexivity. }
  assert (HwT : workDone sT
                = workDone s ++ concat (workBy <$> pre) ++ workBy cb).
  { subst sT. unfold afterThrow. cbn. rewrite Hq1. cbn. rewrite Ha1. cbn.
    rewrite Hw1. reflexivity. }
  assert (Hagain : exists s'',
    flushSyncCallbackQueue fuel2 sT = Done tt s''
    /\ workDone s'' = workDone sT ++ concat (workOf <$> rest)
    /\ syncQueue s'' = None
    /\ isFlushingSyncQueue s'' = false).
  { destruct fuel2 as [|[|fuel2]]; [lia|lia|].
    subst sT. unfold afterThrow. cbn. rewrite Hq1. cbn. rewrite Ha1. cbn.
    rewrite Hdrop.
    unfold cancelImmediateQueueCallback. cbn.
    unfold runWithPriority.
    change (reactPriorityToSchedulerPriority ImmediatePriority)
      with (Some Scheduler_ImmediatePriority).
    unfold Scheduler_runWithPriority.
    destruct (immediateQueueCallbackNode s1) as [node|]; cbn.
    all: rewrite (flushLoop_onlyWorks (length (arrays s1)) rest fuel2 0);
      [| cbn; rewrite lookup_app_r, Nat.sub_diag by lia; reflexivity
       | rewrite drop_0; exact Hall | rewrite drop_0; lia].
    all: rewrite drop_0; cbn.
    all: eexists; split; [reflexivity|]; cbn; auto. }
  destruct Hagain as (s'' & H1 & H2 & H3 & H4).
  exists sT, s''. auto 10.
Qed.

Lemma flushSyncCallbackQueue_resumes_witness :
  let rest := [exampleThird] ++ concat (scheduledBy <$> [exampleFirst])
              ++ scheduledBy exampleSecond in
  exists s' s'',
    flushSyncCallbackQueueImpl 30 exampleState = Threw (Thrown 7) s'
    /\ workDone s'
       = workDone exampleState ++ concat (workBy <$> [exampleFirst])
         ++ workBy exampleSecond
    /\ flushSyncCallbackQueue 20 s' = Done tt s''
    /\ workDone s'' = workDone s' ++ concat (workOf <$> rest)
    /\ syncQueue s'' = None
    /\ isFlushingSyncQueue s'' = false.
Proof.
  apply (flushSyncCallbackQueue_resumes 30 20 exampleState 0
           [exampleFirst] [exampleThird] exampleSecond 7).
  - reflexivity.
  - reflexivity.
  - reflexivity.
  - repeat constructor.
  - reflexivity.
  - reflexivity.
  - vm_compute. lia.
  - vm_compute. lia.
Defined.

End SyncQueueFacts.
